(** * llvm-ir-builder: the emission engine and the IR it emits

    The repository is a set of small C++ programs that drive LLVM's
    [IRBuilder] through a fixed sequence of calls.  Every program keeps three
    process-wide objects ([TheContext], [TheModule], [Builder]) and a
    prototype table ([funProtoMap]); the emitters mutate them in place.

    The development has five layers:
    - [LLVM]: the IR the programs build (types, values, instructions, basic
      blocks, globals, functions) and the part of the LLVM C++ API the sources
      call, as operations of a state-and-fault monad over the process state;
    - [Emitter]: the functions the source files share verbatim
      ([declareFunction], [defineGlobalVariable], [emitLoadValue], ...);
    - [IrBuilder], [LoopFor], [LoopWhile], [Structs], [Pointers]: the
      functions that differ from file to file;
    - [Sem]: an executable semantics of the emitted IR, used to state what the
      emitted code computes;
    - [Output]: the stream [saveModuleIRToFile] writes the module to.

    The properties follow: [Symtab], [Globals], [Body], [Define] and [Calls]
    on the module the emitters build, [Loops] and [Addressing] on the code
    they emit, [Saving] on the output file.  [Sums], [Frames] and [Swaps]
    run the emitted functions, with their arguments and their calls;
    [Edges], [Values] and [Programs] are about the emitters at the edges of
    their domain; [Growth] shows that emitting leaves the code emitted
    before as it is.

    The LLVM operations follow the library built without assertions
    ([NDEBUG]), the configuration in which an [assert] is not part of the
    behaviour; a null pointer that is dereferenced is a fault of the run. *)

From Stdlib Require Import ZArith Lia.
From stdpp Require Import base option list strings gmap fin_maps pretty.

Set Warnings "-register-all".

Local Open Scope string_scope.

(* ===================================================================== *)
(** * The IR and the LLVM operations used by the sources                   *)
(* ===================================================================== *)

Module LLVM.

(** [llvm::Type].  Pointers are typed: the sources read the pointee with
    [getNonOpaquePointerElementType]. *)
Inductive Ty : Type :=
| VoidTy
| IntegerTy (bits : Z)
| FloatTy
| DoubleTy
| X86_FP80Ty
| PointerTy (pointee : Ty)
| ArrayTy (elem : Ty) (num : nat)
| StructTy (name : string) (body : list Ty)
| FunctionTy (ret : Ty) (params : list Ty) (vararg : bool).

Fixpoint Ty_eqb (a b : Ty) {struct a} : bool :=
  let fix all2 (xs ys : list Ty) {struct xs} : bool :=
    match xs, ys with
    | [], [] => true
    | x :: xs', y :: ys' => Ty_eqb x y && all2 xs' ys'
    | _, _ => false
    end in
  match a, b with
  | VoidTy, VoidTy => true
  | IntegerTy x, IntegerTy y => Z.eqb x y
  | FloatTy, FloatTy => true
  | DoubleTy, DoubleTy => true
  | X86_FP80Ty, X86_FP80Ty => true
  | PointerTy x, PointerTy y => Ty_eqb x y
  | ArrayTy x n, ArrayTy y m => Ty_eqb x y && Nat.eqb n m
  | StructTy n xs, StructTy m ys => String.eqb n m && all2 xs ys
  | FunctionTy r xs v, FunctionTy r' ys v' =>
      Ty_eqb r r' && all2 xs ys && Bool.eqb v v'
  | _, _ => false
  end.

Definition isVoidTy (t : Ty) : bool :=
  match t with VoidTy => true | _ => false end.

Definition pointee (t : Ty) : option Ty :=
  match t with PointerTy p => Some p | _ => None end.

(** [GlobalValue::LinkageTypes], the two the sources use. *)
Inductive Linkage := ExternalLinkage | PrivateLinkage.

Definition isLocalLinkage (l : Linkage) : bool :=
  match l with PrivateLinkage => true | ExternalLinkage => false end.

(** [llvm::Value]: constants, the address of a global, a formal argument, or
    the result of an instruction.  A non-constant value carries its type, as
    the C++ object does. *)
Inductive Value : Type :=
| ConstantInt (bits : Z) (v : Z)
| ConstantFP (ty : Ty) (v : Z)
| ConstantPointerNull (ty : Ty)
| ConstantArray (elem : Ty) (elems : list Value)
| ConstantStruct (sty : Ty) (elems : list Value)
| ConstantDataString (chars : string)
| ConstantExprGEP (srcTy : Ty) (base : Value) (idx : list Value) (resTy : Ty)
| GlobalVariableRef (name : string) (valTy : Ty)
| FunctionRef (name : string) (fty : Ty)
| Argument (fn : string) (pos : nat) (ty : Ty)
| InstRef (id : nat) (ty : Ty).

Definition isConstant (v : Value) : bool :=
  match v with
  | Argument _ _ _ | InstRef _ _ => false
  | _ => true
  end.

Definition getType (v : Value) : Ty :=
  match v with
  | ConstantInt bits _ => IntegerTy bits
  | ConstantFP ty _ => ty
  | ConstantPointerNull ty => ty
  | ConstantArray elem elems => ArrayTy elem (length elems)
  | ConstantStruct sty _ => sty
  | ConstantDataString chars => ArrayTy (IntegerTy 8) (S (String.length chars))
  | ConstantExprGEP _ _ _ resTy => resTy
  | GlobalVariableRef _ valTy => PointerTy valTy
  | FunctionRef _ fty => PointerTy fty
  | Argument _ _ ty => ty
  | InstRef _ ty => ty
  end.

(** [ConstantInt::get(IntegerType, uint64_t)]: the value is truncated to the
    width of the type. *)
Definition ConstantInt_get (bits : Z) (v : Z) : Value :=
  ConstantInt bits (v mod 2 ^ bits).

Definition getInt32 (v : Z) : Value := ConstantInt_get 32 v.
Definition getInt64 (v : Z) : Value := ConstantInt_get 64 v.
Definition getInt16 (v : Z) : Value := ConstantInt_get 16 v.
Definition getInt8 (v : Z) : Value := ConstantInt_get 8 v.

Definition getInt32Ty : Ty := IntegerTy 32.
Definition getInt64Ty : Ty := IntegerTy 64.
Definition getInt16Ty : Ty := IntegerTy 16.
Definition getInt8Ty : Ty := IntegerTy 8.

(** Instructions.  Branch targets are basic-block handles. *)
Inductive Instruction : Type :=
| Alloca (ty : Ty) (name : string)
| Load (ty : Ty) (ptr : Value)
| Store (val ptr : Value)
| AddNSW (lhs rhs : Value)
| ICmpSLE (lhs rhs : Value)
| SExt (v : Value) (dest : Ty)
| GetElementPtr (inbounds : bool) (srcTy : Ty) (ptr : Value) (idx : list Value)
| Call (callee : string) (args : list Value)
| Br (dest : nat)
| CondBr (cond : Value) (ifTrue ifFalse : nat)
| Ret (v : option Value)
| RetVoid.

(** A basic block: its parent function ([None] for a block created with a
    null parent) and its instructions, each with the identity of the
    instruction object. *)
Record BasicBlock := {
  bb_name : string;
  bb_parent : option string;
  bb_insts : list (nat * Instruction)
}.

Record FunctionType := {
  ft_ret : Ty;
  ft_params : list Ty;
  ft_vararg : bool
}.

Record Function := {
  fn_type : FunctionType;
  fn_linkage : Linkage;
  fn_dso_local : bool
}.

Record GlobalVariable := {
  gv_valty : Ty;
  gv_init : option Value;
  gv_linkage : Linkage;
  gv_dso_local : bool;
  gv_constant : bool
}.

(** What a name of the module's value symbol table denotes.  Functions and
    global variables share one table. *)
Inductive GlobalValue :=
| GFunction (f : Function)
| GVariable (g : GlobalVariable).

Definition gval_dso_local (g : GlobalValue) : bool :=
  match g with
  | GFunction f => fn_dso_local f
  | GVariable v => gv_dso_local v
  end.

(** [FunProto] of the sources.  [returnType] is a pointer: it is null in a
    value-initialised prototype. *)
Record FunProto := {
  returnType : option Ty;
  params : list Ty;
  isVarArg : bool
}.

(** The process state: [TheContext] (named struct types), [TheModule]
    (identifier, target triple, symbol table and its uniquifying counter, the
    basic blocks created so far), [Builder] (insertion block) and
    [funProtoMap].  A [Function*] or [GlobalVariable*] is the name under which
    the object sits in the symbol table; a [BasicBlock*] is a position in
    [blocks]. *)
Record State := {
  ctx_structs : gmap string Ty;
  ctx_struct_unique : nat;
  mod_id : string;
  mod_triple : string;
  mod_symtab : gmap string GlobalValue;
  mod_last_unique : nat;
  blocks : list BasicBlock;
  next_id : nat;
  insert_block : option nat;
  funProtoMap : gmap string FunProto
}.

Definition set_symtab (t : gmap string GlobalValue) (s : State) : State :=
  {| ctx_structs := ctx_structs s;
     ctx_struct_unique := ctx_struct_unique s; mod_id := mod_id s;
     mod_triple := mod_triple s; mod_symtab := t;
     mod_last_unique := mod_last_unique s; blocks := blocks s;
     next_id := next_id s; insert_block := insert_block s;
     funProtoMap := funProtoMap s |}.

Definition set_last_unique (n : nat) (s : State) : State :=
  {| ctx_structs := ctx_structs s;
     ctx_struct_unique := ctx_struct_unique s; mod_id := mod_id s;
     mod_triple := mod_triple s; mod_symtab := mod_symtab s;
     mod_last_unique := n; blocks := blocks s;
     next_id := next_id s; insert_block := insert_block s;
     funProtoMap := funProtoMap s |}.

Definition set_blocks (b : list BasicBlock) (s : State) : State :=
  {| ctx_structs := ctx_structs s;
     ctx_struct_unique := ctx_struct_unique s; mod_id := mod_id s;
     mod_triple := mod_triple s; mod_symtab := mod_symtab s;
     mod_last_unique := mod_last_unique s; blocks := b;
     next_id := next_id s; insert_block := insert_block s;
     funProtoMap := funProtoMap s |}.

Definition set_next_id (n : nat) (s : State) : State :=
  {| ctx_structs := ctx_structs s;
     ctx_struct_unique := ctx_struct_unique s; mod_id := mod_id s;
     mod_triple := mod_triple s; mod_symtab := mod_symtab s;
     mod_last_unique := mod_last_unique s; blocks := blocks s;
     next_id := n; insert_block := insert_block s;
     funProtoMap := funProtoMap s |}.

Definition set_insert_block (b : option nat) (s : State) : State :=
  {| ctx_structs := ctx_structs s;
     ctx_struct_unique := ctx_struct_unique s; mod_id := mod_id s;
     mod_triple := mod_triple s; mod_symtab := mod_symtab s;
     mod_last_unique := mod_last_unique s; blocks := blocks s;
     next_id := next_id s; insert_block := b;
     funProtoMap := funProtoMap s |}.

Definition set_funProtoMap (m : gmap string FunProto) (s : State) : State :=
  {| ctx_structs := ctx_structs s;
     ctx_struct_unique := ctx_struct_unique s; mod_id := mod_id s;
     mod_triple := mod_triple s; mod_symtab := mod_symtab s;
     mod_last_unique := mod_last_unique s; blocks := blocks s;
     next_id := next_id s; insert_block := insert_block s;
     funProtoMap := m |}.

Definition set_structs (m : gmap string Ty) (s : State) : State :=
  {| ctx_structs := m;
     ctx_struct_unique := ctx_struct_unique s; mod_id := mod_id s;
     mod_triple := mod_triple s; mod_symtab := mod_symtab s;
     mod_last_unique := mod_last_unique s; blocks := blocks s;
     next_id := next_id s; insert_block := insert_block s;
     funProtoMap := funProtoMap s |}.

Definition set_struct_unique (n : nat) (s : State) : State :=
  {| ctx_structs := ctx_structs s;
     ctx_struct_unique := n; mod_id := mod_id s;
     mod_triple := mod_triple s; mod_symtab := mod_symtab s;
     mod_last_unique := mod_last_unique s; blocks := blocks s;
     next_id := next_id s; insert_block := insert_block s;
     funProtoMap := funProtoMap s |}.

Definition set_triple (t : string) (s : State) : State :=
  {| ctx_structs := ctx_structs s;
     ctx_struct_unique := ctx_struct_unique s; mod_id := mod_id s;
     mod_triple := t; mod_symtab := mod_symtab s;
     mod_last_unique := mod_last_unique s; blocks := blocks s;
     next_id := next_id s; insert_block := insert_block s;
     funProtoMap := funProtoMap s |}.

(** ** The monad of the emitters

    A null pointer that is dereferenced ends the run.  The fault records which
    pointer was null. *)
Inductive Fault :=
| NullFunction      (* a null [Function*]: [fn->...], or the parent of a block *)
| NullCallee        (* a null [Function*] given to [CreateCall] *)
| NullGlobal        (* a null [GlobalVariable*] *)
| NullInitializer   (* [getInitializer()] of a global without initializer *)
| NullType          (* a null [Type*] *)
| NullEmitter       (* a null function pointer taken from [funImplMap] *)
| NullBlock         (* the builder has no insertion block *)
| NotAPointer       (* [getNonOpaquePointerElementType] of a non-pointer *)
| BadIndex.         (* indices that do not fit the indexed type, a missing argument *)

Inductive Res (A : Type) : Type :=
| Ok (a : A) (s : State)
| Crash (f : Fault).
Arguments Ok {A} a s.
Arguments Crash {A} f.

Definition Emit (A : Type) : Type := State -> Res A.

Definition ret {A} (a : A) : Emit A := fun s => Ok a s.

Definition bind {A B} (m : Emit A) (k : A -> Emit B) : Emit B :=
  fun s => match m s with
           | Ok a s' => k a s'
           | Crash f => Crash f
           end.

Definition crash {A} (f : Fault) : Emit A := fun _ => Crash f.

Definition get : Emit State := fun s => Ok s s.
Definition modify (f : State -> State) : Emit unit := fun s => Ok tt (f s).

(** Dereferencing a pointer that may be null. *)
Definition deref {A} (f : Fault) (p : option A) : Emit A :=
  match p with
  | Some a => ret a
  | None => crash f
  end.

Notation "'let*' x ':=' m 'in' k" := (bind m (fun x => k))
  (at level 10, x pattern, m at level 100, k at level 200).
Notation "m ';;;' k" := (bind m (fun _ => k))
  (at level 100, k at level 200, right associativity).

(** ** [llvm::Module]: the value symbol table *)

Definition getNamedValue (name : string) : Emit (option GlobalValue) :=
  fun s => Ok (mod_symtab s !! name) s.

(** [Module::getFunction]: [dyn_cast_or_null<Function>(getNamedValue(Name))]. *)
Definition getFunction (name : string) : Emit (option string) :=
  let* v := getNamedValue name in
  match v with
  | Some (GFunction _) => ret (Some name)
  | _ => ret None
  end.

(** [Module::getGlobalVariable(Name, AllowInternal)]: a global variable of
    that name, unless it has local linkage and [AllowInternal] is false. *)
Definition getGlobalVariable (name : string) (allowInternal : bool)
  : Emit (option string) :=
  let* v := getNamedValue name in
  match v with
  | Some (GVariable g) =>
      if allowInternal || negb (isLocalLinkage (gv_linkage g))
      then ret (Some name) else ret None
  | _ => ret None
  end.

(** [Module::getNamedGlobal(Name)] is [getGlobalVariable(Name, true)]. *)
Definition getNamedGlobal (name : string) : Emit (option string) :=
  getGlobalVariable name true.

(** [ValueSymbolTable::makeUniqueName]: append [.N] for the next values of
    the table's counter until the name is free.  A table of [n] entries
    cannot hold [n + 1] candidates, so [n] tests are enough. *)
Fixpoint makeUniqueName (fuel : nat) (tab : gmap string GlobalValue)
    (base : string) (last : nat) : string * nat :=
  let last' := S last in
  let cand := base +:+ "." +:+ pretty last' in
  match fuel with
  | O => (cand, last')
  | S fuel' =>
      match tab !! cand with
      | None => (cand, last')
      | Some _ => makeUniqueName fuel' tab base last'
      end
  end.

(** A new global value enters the module: under its name if the name is
    free, under a uniquified name otherwise.  The result is the name it got.
    The sources name every value they create; an unnamed value has no entry
    in the symbol table and is outside this model ([BadIndex]). *)
Definition addGlobalValue (name : string) (g : GlobalValue) : Emit string :=
  fun s =>
    if decide (name = "") then Crash BadIndex else
    match mod_symtab s !! name with
    | None => Ok name (set_symtab (<[name := g]> (mod_symtab s)) s)
    | Some _ =>
        let '(n, last) :=
          makeUniqueName (size (mod_symtab s)) (mod_symtab s) name
                         (mod_last_unique s) in
        Ok n (set_last_unique last
                (set_symtab (<[n := g]> (mod_symtab s)) s))
    end.

(** [Module::getOrInsertGlobal(Name, Ty)]: if no global variable has the
    name, a declaration is added ([ExternalLinkage], no initializer).  An
    existing variable is left as it is, whatever its type (the call then
    returns a bitcast of it, which every caller in the sources discards). *)
Definition getOrInsertGlobal (name : string) (ty : Ty) : Emit unit :=
  let* v := getNamedValue name in
  match v with
  | Some (GVariable _) => ret tt
  | _ =>
      let* _ := addGlobalValue name
                  (GVariable {| gv_valty := ty; gv_init := None;
                                gv_linkage := ExternalLinkage;
                                gv_dso_local := false;
                                gv_constant := false |}) in
      ret tt
  end.

(** ** [llvm::GlobalVariable] *)

Definition derefGlobal (gv : option string) : Emit (string * GlobalVariable) :=
  let* name := deref NullGlobal gv in
  let* v := getNamedValue name in
  match v with
  | Some (GVariable g) => ret (name, g)
  | _ => crash NullGlobal
  end.

Definition updateGlobal (gv : option string)
    (f : GlobalVariable -> GlobalVariable) : Emit unit :=
  let* (name, g) := derefGlobal gv in
  modify (fun s => set_symtab (<[name := GVariable (f g)]> (mod_symtab s)) s).

(** [setInitializer]: the operand is replaced.  The library asserts that the
    initializer has the variable's value type; nothing checks it at run time. *)
Definition setInitializer (gv : option string) (init : Value) : Emit unit :=
  updateGlobal gv (fun g =>
    {| gv_valty := gv_valty g; gv_init := Some init;
       gv_linkage := gv_linkage g; gv_dso_local := gv_dso_local g;
       gv_constant := gv_constant g |}).

Definition setDSOLocal (gv : option string) (b : bool) : Emit unit :=
  updateGlobal gv (fun g =>
    {| gv_valty := gv_valty g; gv_init := gv_init g;
       gv_linkage := gv_linkage g; gv_dso_local := b;
       gv_constant := gv_constant g |}).

Definition setConstant (gv : option string) (b : bool) : Emit unit :=
  updateGlobal gv (fun g =>
    {| gv_valty := gv_valty g; gv_init := gv_init g;
       gv_linkage := gv_linkage g; gv_dso_local := gv_dso_local g;
       gv_constant := b |}).

(** [setLinkage]: a local linkage makes the value implicitly dso_local. *)
Definition setLinkage (gv : option string) (l : Linkage) : Emit unit :=
  updateGlobal gv (fun g =>
    {| gv_valty := gv_valty g; gv_init := gv_init g;
       gv_linkage := l;
       gv_dso_local := if isLocalLinkage l then true else gv_dso_local g;
       gv_constant := gv_constant g |}).

Definition getInitializer (gv : option string) : Emit Value :=
  let* (_, g) := derefGlobal gv in
  deref NullInitializer (gv_init g).

(** The [Value*] a [GlobalVariable*] converts to. *)
Definition globalValue (gv : option string) : Emit Value :=
  let* (name, g) := derefGlobal gv in
  ret (GlobalVariableRef name (gv_valty g)).

(** ** [llvm::Function] *)

(** [FunctionType::get(Result, Params, isVarArg)] reads the context of the
    result type. *)
Definition FunctionType_get (result : option Ty) (ps : list Ty) (va : bool)
  : Emit FunctionType :=
  let* r := deref NullType result in
  ret {| ft_ret := r; ft_params := ps; ft_vararg := va |}.

(** [Function::Create(Ty, Linkage, Name, Module)]. *)
Definition Function_Create (fty : FunctionType) (l : Linkage) (name : string)
  : Emit (option string) :=
  let* n := addGlobalValue name
              (GFunction {| fn_type := fty; fn_linkage := l;
                            fn_dso_local := isLocalLinkage l |}) in
  ret (Some n).

Definition derefFunction (fn : option string) : Emit (string * Function) :=
  let* name := deref NullFunction fn in
  let* v := getNamedValue name in
  match v with
  | Some (GFunction f) => ret (name, f)
  | _ => crash NullFunction
  end.

Definition Function_setDSOLocal (fn : option string) (b : bool) : Emit unit :=
  let* (name, f) := derefFunction fn in
  modify (fun s =>
    set_symtab (<[name := GFunction {| fn_type := fn_type f;
                                       fn_linkage := fn_linkage f;
                                       fn_dso_local := b |}]>
                  (mod_symtab s)) s).

Definition getReturnType (fn : option string) : Emit Ty :=
  let* (_, f) := derefFunction fn in
  ret (ft_ret (fn_type f)).

(** The [pos]-th formal argument, reached from [fn->arg_begin()]. *)
Definition getArg (fn : option string) (pos : nat) : Emit Value :=
  let* (name, f) := derefFunction fn in
  let* ty := deref BadIndex (ft_params (fn_type f) !! pos) in
  ret (Argument name pos ty).

(** ** [llvm::BasicBlock] and the builder's insertion point *)

(** [BasicBlock::Create(Context, Name, Parent)]: a null parent gives a block
    that belongs to no function. *)
Definition BasicBlock_Create (name : string) (parent : option string)
  : Emit nat :=
  fun s =>
    Ok (length (blocks s))
       (set_blocks (blocks s ++ [{| bb_name := name; bb_parent := parent;
                                    bb_insts := [] |}]) s).

Definition SetInsertPoint (bb : nat) : Emit unit :=
  modify (set_insert_block (Some bb)).

Definition GetInsertBlock : Emit (option nat) :=
  fun s => Ok (insert_block s) s.

(** [BasicBlock::getParent] of a possibly null block pointer. *)
Definition BasicBlock_getParent (bb : option nat) : Emit (option string) :=
  let* b := deref NullBlock bb in
  let* s := get in
  let* blk := deref NullBlock (blocks s !! b) in
  ret (bb_parent blk).

(** [BB->getModule()], that is [getParent()->getParent()]: the parent
    function of the insertion block is dereferenced. *)
Definition insertBlockModule : Emit unit :=
  let* bb := GetInsertBlock in
  let* parent := BasicBlock_getParent bb in
  let* _ := deref NullFunction parent in
  ret tt.

Definition appendInst (e : nat * Instruction) (b : BasicBlock) : BasicBlock :=
  {| bb_name := bb_name b; bb_parent := bb_parent b;
     bb_insts := bb_insts b ++ [e] |}.

(** [IRBuilder::Insert]: the new instruction goes to the end of the insertion
    block, if there is one, and is the value returned. *)
Definition Insert (i : Instruction) (ty : Ty) : Emit Value :=
  fun s =>
    let id := next_id s in
    let s' := set_next_id (S id) s in
    match insert_block s with
    | None => Ok (InstRef id ty) s'
    | Some b =>
        Ok (InstRef id ty) (set_blocks (alter (appendInst (id, i)) b (blocks s)) s')
    end.

(** ** [llvm::IRBuilder] *)

(** [CreateAlloca], [CreateLoad] and [CreateStore] ask the module of the
    insertion block for its data layout before they insert. *)
Definition CreateAlloca (ty : Ty) (name : string) : Emit Value :=
  insertBlockModule ;;; Insert (Alloca ty name) (PointerTy ty).

(** [CreateAlloca] with a type pointer that may be null (the result of
    [getTypeByName]): the layout query dereferences it. *)
Definition CreateAllocaOf (ty : option Ty) (name : string) : Emit Value :=
  insertBlockModule ;;;
  let* t := deref NullType ty in
  Insert (Alloca t name) (PointerTy t).

Definition CreateLoad (ty : Ty) (ptr : Value) : Emit Value :=
  insertBlockModule ;;; Insert (Load ty ptr) ty.

Definition CreateStore (val ptr : Value) : Emit unit :=
  insertBlockModule ;;;
  let* _ := Insert (Store val ptr) VoidTy in ret tt.

(** [CreateNSWAdd] and [CreateICmpSLE].  The folder of the builder replaces
    the instruction by a constant when both operands are constants; in the
    sources the left operand is always the result of a load. *)
Definition CreateNSWAdd (lhs rhs : Value) : Emit Value :=
  Insert (AddNSW lhs rhs) (getType lhs).

Definition CreateICmpSLE (lhs rhs : Value) : Emit Value :=
  Insert (ICmpSLE lhs rhs) (IntegerTy 1).

(** [CreateSExt]: a value that already has the destination type is returned
    as it is.  (A constant would be folded; the sources extend load results.) *)
Definition CreateSExt (v : Value) (dest : Ty) : Emit Value :=
  if Ty_eqb (getType v) dest then ret v
  else Insert (SExt v dest) dest.

(** [GetElementPtrInst::getIndexedType]: the first index steps over whole
    objects of the source type and is not looked at, each further index
    enters an aggregate.  A struct is entered through an [i32] constant
    within its body, an array through any index of an integer type.  With no
    index the type is the source type. *)
Fixpoint indexedType (t : Ty) (idx : list Value) : option Ty :=
  match idx with
  | [] => Some t
  | i :: rest =>
      match t with
      | StructTy _ body =>
          match i with
          | ConstantInt bits k =>
              if negb (bits =? 32)%Z || (k <? 0)%Z then None
              else match body !! Z.to_nat k with
                   | Some t' => indexedType t' rest
                   | None => None
                   end
          | _ => None
          end
      | ArrayTy e _ =>
          match getType i with
          | IntegerTy _ => indexedType e rest
          | _ => None
          end
      | _ => None
      end
  end.

Definition getIndexedType (t : Ty) (idx : list Value) : option Ty :=
  match idx with
  | [] => Some t
  | _ :: rest => indexedType t rest
  end.

(** [Constant::isNullValue], for the constants an index list can hold. *)
Definition isNullValue (v : Value) : bool :=
  match v with
  | ConstantInt _ k => (k =? 0)%Z
  | ConstantPointerNull _ => true
  | _ => false
  end.

(** [ConstantExpr::getGetElementPtr], which [ConstantFolder] calls for a
    constant pointer and constant indices: the expression is folded where
    [ConstantFoldGetElementPtr] folds it.
    - No index, or the single index 0: the pointer itself.
    - A null pointer and only zero indices: the null pointer of the result
      type.
    - A pointer that is itself such an expression, with the element type
      asked for, and a first index 0: one expression over the inner pointer,
      with the inner indices followed by the further ones; it is folded in
      turn.
    - Otherwise the expression over the pointer, as asked for.
    The library has two more rewritings of the index list, for a first index
    other than 0 over an inner expression, and for a constant array index
    beyond the bounds of its array.  They change the form of the expression
    and neither its type nor the address it denotes.  The sources build
    constant index lists that start with 0 and index a struct or, in range, a
    string; nothing below depends on the form of an expression outside these
    uses.  [None]: the indices do not fit the type. *)
Fixpoint getGetElementPtr (ty : Ty) (ptr : Value) (idx : list Value)
    {struct ptr} : option Value :=
  match idx with
  | [] => Some ptr
  | i0 :: rest =>
      match getIndexedType ty idx with
      | None => None
      | Some elt =>
          let asked := ConstantExprGEP ty ptr idx (PointerTy elt) in
          if isNullValue i0 && (length rest =? 0)%nat then Some ptr
          else
            match ptr with
            | ConstantPointerNull _ =>
                if forallb isNullValue idx
                then Some (ConstantPointerNull (PointerTy elt))
                else Some asked
            | ConstantExprGEP srcTy base idx0 _ =>
                match idx0, getIndexedType srcTy idx0 with
                | _ :: _, Some t =>
                    if Ty_eqb t ty && isNullValue i0
                    then getGetElementPtr srcTy base (idx0 ++ rest)
                    else Some asked
                | _, _ => Some asked
                end
            | _ => Some asked
            end
      end
  end.

(** [CreateInBoundsGEP(Ty, Ptr, IdxList)]: when the pointer and every index
    are constants the folder returns a constant and nothing is inserted;
    otherwise a [getelementptr inbounds] instruction is inserted. *)
Definition CreateInBoundsGEP (ty : Ty) (ptr : Value) (idx : list Value)
  : Emit Value :=
  if isConstant ptr && forallb isConstant idx
  then deref BadIndex (getGetElementPtr ty ptr idx)
  else
    let* elt := deref BadIndex (getIndexedType ty idx) in
    Insert (GetElementPtr true ty ptr idx) (PointerTy elt).

(** [CreateCall(Function *Callee, Args)] reads the callee's function type. *)
Definition CreateCall (callee : option string) (args : list Value)
  : Emit Value :=
  let* c := deref NullCallee callee in
  let* v := getNamedValue c in
  match v with
  | Some (GFunction f) => Insert (Call c args) (ft_ret (fn_type f))
  | _ => crash NullCallee
  end.

Definition CreateBr (dest : nat) : Emit unit :=
  let* _ := Insert (Br dest) VoidTy in ret tt.

Definition CreateCondBr (cond : Value) (ifTrue ifFalse : nat) : Emit unit :=
  let* _ := Insert (CondBr cond ifTrue ifFalse) VoidTy in ret tt.

(** [CreateRet(V)]: [V] may be null. *)
Definition CreateRet (v : option Value) : Emit unit :=
  let* _ := Insert (Ret v) VoidTy in ret tt.

Definition CreateRetVoid : Emit unit :=
  let* _ := Insert RetVoid VoidTy in ret tt.

(** [CreateGlobalString(Str, Name)]: a private constant holding the bytes of
    [Str] and a terminating zero, added to the module of the insertion
    block. *)
Definition CreateGlobalString (str name : string) : Emit (option string) :=
  insertBlockModule ;;;
  let c := ConstantDataString str in
  let* n := addGlobalValue name
              (GVariable {| gv_valty := getType c; gv_init := Some c;
                            gv_linkage := PrivateLinkage;
                            gv_dso_local := true;
                            gv_constant := true |}) in
  ret (Some n).

(** [verifyFunction(F)] inspects the function and returns whether it is
    broken.  It changes nothing, and the sources discard the answer. *)
Definition verifyFunction (fn : option string) : Emit unit :=
  let* _ := derefFunction fn in ret tt.

(** ** [llvm::StructType]

    The context keeps the named struct types; here a name maps to the struct
    type with its current body, and the handle of a struct type is its name. *)
Definition getTypeByName (name : string) : Emit (option Ty) :=
  fun s => Ok (ctx_structs s !! name) s.

(** The renaming of [StructType::setName] on a collision: [Name.N] for the
    next values of the context's counter (which starts at 0 and is
    incremented after use) until the name is free. *)
Fixpoint uniqueStructName (fuel : nat) (tab : gmap string Ty)
    (base : string) (next : nat) : string * nat :=
  let cand := base +:+ "." +:+ pretty next in
  match fuel with
  | O => (cand, S next)
  | S fuel' =>
      match tab !! cand with
      | None => (cand, S next)
      | Some _ => uniqueStructName fuel' tab base (S next)
      end
  end.

(** [StructType::create(Context, Name)]: a new struct type without body. *)
Definition StructType_create (name : string) : Emit string :=
  fun s =>
    match ctx_structs s !! name with
    | None => Ok name (set_structs (<[name := StructTy name []]> (ctx_structs s)) s)
    | Some _ =>
        let '(n, next) :=
          uniqueStructName (size (ctx_structs s)) (ctx_structs s) name
                           (ctx_struct_unique s) in
        Ok n (set_struct_unique next
                (set_structs (<[n := StructTy n []]> (ctx_structs s)) s))
    end.

(** [StructType::setBody(Elements)]; the result is the type with its body. *)
Definition setBody (sty : string) (body : list Ty) : Emit Ty :=
  fun s => Ok (StructTy sty body)
              (set_structs (<[sty := StructTy sty body]> (ctx_structs s)) s).

End LLVM.

Import LLVM.

(* ===================================================================== *)
(** * The functions every source file repeats                             *)
(* ===================================================================== *)

Module Emitter.

(** [initializeModule]: a fresh context, an empty module called
    ["ir_builder"] and a builder without insertion point.  [funProtoMap] is a
    static map, empty when the program starts. *)
Definition initializeModule : State :=
  {| ctx_structs := ∅; ctx_struct_unique := 0;
     mod_id := "ir_builder"; mod_triple := "";
     mod_symtab := ∅; mod_last_unique := 0;
     blocks := []; next_id := 0; insert_block := None;
     funProtoMap := ∅ |}.

Definition setTargetTriple (t : string) : Emit unit :=
  modify (set_triple t).

(** [funProtoMap[name]]: [std::map::operator[]] inserts a value-initialised
    prototype when the key is missing. *)
Definition funProtoMap_at (name : string) : Emit FunProto :=
  fun s =>
    match funProtoMap s !! name with
    | Some p => Ok p s
    | None =>
        let p := {| returnType := None; params := []; isVarArg := false |} in
        Ok p (set_funProtoMap (<[name := p]> (funProtoMap s)) s)
    end.

(** [funProtoMap[name] = { ... }] *)
Definition funProtoMap_set (name : string) (p : FunProto) : Emit unit :=
  modify (fun s => set_funProtoMap (<[name := p]> (funProtoMap s)) s).

(** [declareFunction] *)
Definition declareFunction (name : string) : Emit (option string) :=
  let* func := getFunction name in
  match func with
  | None =>
      let* funProto := funProtoMap_at name in
      let* funcType := FunctionType_get (returnType funProto)
                         (params funProto) (isVarArg funProto) in
      let* func := Function_Create funcType ExternalLinkage name in
      Function_setDSOLocal func true ;;;
      ret func
  | Some _ => ret func
  end.

(** [emitReturn] *)
Definition emitReturn (ty : Ty) (value : option Value) : Emit unit :=
  if isVoidTy ty then CreateRetVoid
  else CreateRet value.

(** [createBB] *)
Definition createBB (fn : option string) (name : string) : Emit nat :=
  BasicBlock_Create name fn.

(** [defineGlobalVariable(type, name, init)] *)
Definition defineGlobalVariable (type : Ty) (name : string) (init : Value)
  : Emit (option string) :=
  getOrInsertGlobal name type ;;;
  let* globalVar := getNamedGlobal name in
  setInitializer globalVar init ;;;
  setDSOLocal globalVar true ;;;
  ret globalVar.

(** [defineGlobalVariable(name, init)], the overload that takes the type of
    the initializer. *)
Definition defineGlobalVariableInit (name : string) (init : Value)
  : Emit (option string) :=
  defineGlobalVariable (getType init) name init.

(** [emitLoadValue], the overload for a [GlobalVariable] pointer. *)
Definition emitLoadValueGlobal (value : option string) : Emit Value :=
  let* init := getInitializer value in
  let* ptr := globalValue value in
  CreateLoad (getType init) ptr.

(** [emitLoadValue], the overload for a [Value] pointer. *)
Definition emitLoadValue (value : Value) : Emit Value :=
  let* baseType := deref NotAPointer (pointee (getType value)) in
  CreateLoad baseType value.

(** [emitLoadGlobalVar] *)
Definition emitLoadGlobalVar (name : string) : Emit Value :=
  let* globalVar := getGlobalVariable name false in
  let* rValue := emitLoadValueGlobal globalVar in
  ret rValue.

(** [emitAssign] *)
Definition emitAssign (left right : Value) : Emit unit :=
  CreateStore right left.

(** [emitStoreGlobalVar].  A missing global gives the store a null address
    operand, which the verifier run by [defineFunction] dereferences; the
    fault is raised here, where the pointer is converted. *)
Definition emitStoreGlobalVar (value : Value) (name : string) : Emit unit :=
  let* globalVar := getGlobalVariable name false in
  let* leftV := globalValue globalVar in
  emitAssign leftV value.

(** [emitStackLocalVariable] *)
Definition emitStackLocalVariable (type : Ty) (name : string) : Emit Value :=
  CreateAlloca type name.

(** [emitConstant]: the private constant
    [@__constant.function_name.variable_name]. *)
Definition emitConstant (ty : Ty) (name : string) (init : Value) : Emit unit :=
  let* bb := GetInsertBlock in
  let* currentFunction := BasicBlock_getParent bb in
  let* funcName := deref NullFunction currentFunction in
  let constVarName := "__constant." +:+ funcName +:+ "." +:+ name in
  let* constantVar := defineGlobalVariable ty constVarName init in
  setConstant constantVar true ;;;
  setLinkage constantVar PrivateLinkage.

(** [genIncrement] *)
Definition genIncrement (left : Value) (step : Z) : Emit Value :=
  let* type := deref NotAPointer (pointee (getType left)) in
  let* valueL := CreateLoad type left in
  let valueR := getInt32 step in
  let* value := CreateNSWAdd valueL valueR in
  ret value.

(** [emitIntegers] of the loop programs: [start = 1], [end = 10],
    [result = 0]. *)
Definition emitIntegers : Emit unit :=
  let* _ := defineGlobalVariableInit "start" (getInt32 1) in
  let* _ := defineGlobalVariableInit "end" (getInt32 10) in
  let* _ := defineGlobalVariableInit "result" (getInt32 0) in
  ret tt.

(** [registerFunctionProto] of the programs that only have [main]. *)
Definition registerFunctionProto : Emit unit :=
  let int32Ty := getInt32Ty in
  funProtoMap_set "main"
    {| returnType := Some int32Ty; params := []; isVarArg := false |}.

End Emitter.

(* ===================================================================== *)
(** * ir_builder.cpp                                                       *)
(* ===================================================================== *)

Module IrBuilder.
Import Emitter.

(** [emitIntegers] *)
Definition emitIntegers : Emit unit :=
  (* char i_8 = 1; *)
  let* _ := defineGlobalVariable getInt8Ty "i_8" (getInt8 1) in
  (* short i_16 = 2; *)
  let* _ := defineGlobalVariable getInt16Ty "i_16" (getInt16 2) in
  (* int i_32 = 3; *)
  let* _ := defineGlobalVariable getInt32Ty "i_32" (getInt32 3) in
  (* long i_64 = 4; *)
  let* _ := defineGlobalVariable getInt64Ty "i_64" (getInt64 4) in
  (* unsigned char ui_8 = 1 *)
  let* _ := defineGlobalVariable getInt8Ty "ui_8" (getInt8 1) in
  (* unsigned int ui_32 = 3; *)
  let* _ := defineGlobalVariable getInt32Ty "ui_32" (getInt32 3) in
  ret tt.

(** [emitFloats].  [ConstantFP v] stands for the constant of the literal
    [v.0]; the sources only write whole numbers. *)
Definition emitFloats : Emit unit :=
  let* _ := defineGlobalVariable FloatTy "f" (ConstantFP FloatTy 1) in
  let* _ := defineGlobalVariable DoubleTy "d" (ConstantFP DoubleTy 2) in
  let ldType := X86_FP80Ty in
  let* _ := defineGlobalVariable ldType "ld" (ConstantFP ldType 3) in
  ret tt.

(** [emitArray]: [int arr[] = { 1, 2, 3, 4 }]. *)
Definition emitArray : Emit unit :=
  let num := 4%nat in
  let ty := getInt32Ty in
  let arrType := ArrayTy ty num in
  let list := [getInt32 1; getInt32 2; getInt32 3; getInt32 4] in
  let c := ConstantArray ty list in
  let* _ := defineGlobalVariable arrType "arr" c in
  ret tt.

(** [emitStruct]: [struct point { int x; int y; }] and a global of that type
    initialised to [{ 11, 12 }]. *)
Definition emitStruct : Emit unit :=
  let* sty := StructType_create "struct.point" in
  let* structTy := setBody sty [getInt32Ty; getInt32Ty] in
  let list := [getInt32 11; getInt32 12] in
  let c := ConstantStruct structTy list in
  let* _ := defineGlobalVariable structTy "pointer" c in
  ret tt.

(** [emitUnion]: [union ab { int a; float b; }] as a struct of one [i32]. *)
Definition emitUnion : Emit unit :=
  let* sty := StructType_create "union.ab" in
  let* structTy := setBody sty [getInt32Ty] in
  let list := [getInt32 1] in
  let c := ConstantStruct structTy list in
  let* _ := defineGlobalVariable structTy "u" c in
  ret tt.

(** [emitPointer] *)
Definition emitPointer : Emit unit :=
  let pointerTy := PointerTy getInt32Ty in
  let c := ConstantPointerNull pointerTy in
  let* _ := defineGlobalVariable pointerTy "i_p" c in
  let charPtrTy := PointerTy getInt8Ty in
  let cCharPtr := ConstantPointerNull charPtrTy in
  let* _ := defineGlobalVariable charPtrTy "c_p" cCharPtr in
  ret tt.

(** [emitMainFunctionStatementList] *)
Definition emitMainFunctionStatementList : Emit (option Value) :=
  let* value := emitLoadGlobalVar "i_32" in
  ret (Some value).

(** [emitFunctionBody] *)
Definition emitFunctionBody (fn : option string) : Emit unit :=
  (* Create entry basic block *)
  let* entry := BasicBlock_Create "entry" fn in
  SetInsertPoint entry ;;;
  (* emit return *)
  let* value := emitMainFunctionStatementList in
  let* ty := getReturnType fn in
  emitReturn ty value.

(** [defineFunction] *)
Definition defineFunction (name : string) : Emit unit :=
  (* Function must be declared before define *)
  let* fn := getFunction name in
  emitFunctionBody fn ;;;
  verifyFunction fn.

(** [emitProgram] *)
Definition emitProgram : Emit unit :=
  emitIntegers ;;;
  emitFloats ;;;
  emitArray ;;;
  emitPointer ;;;
  emitStruct ;;;
  emitUnion ;;;
  let* _ := declareFunction "main" in
  defineFunction "main".

End IrBuilder.

(* ===================================================================== *)
(** * 15_loop_for.cpp                                                      *)
(* ===================================================================== *)

Module LoopFor.
Import Emitter.

(** [emitMainFunctionStatementList] *)
Definition emitMainFunctionStatementList (fn : option string)
  : Emit (option Value) :=
  let* conditionBB := createBB fn "condition" in
  let* bodyBB := createBB fn "body" in
  let* incrementBB := createBB fn "increment" in
  let* endBB := createBB fn "end" in
  (* int index; *)
  let* indexAddr := CreateAlloca getInt32Ty "index" in
  (* index = start; *)
  let* startV := emitLoadGlobalVar "start" in
  CreateStore startV indexAddr ;;;
  (* goto for condition *)
  CreateBr conditionBB ;;;
  (* condition bb *)
  SetInsertPoint conditionBB ;;;
  let* indexV := emitLoadValue indexAddr in
  let* endV := emitLoadGlobalVar "end" in
  let* compare := CreateICmpSLE indexV endV in
  CreateCondBr compare bodyBB endBB ;;;
  (* body bb: result = result + index; *)
  SetInsertPoint bodyBB ;;;
  let* resultV := emitLoadGlobalVar "result" in
  let* indexV := emitLoadValue indexAddr in
  let* sum := CreateNSWAdd resultV indexV in
  emitStoreGlobalVar sum "result" ;;;
  CreateBr incrementBB ;;;
  (* increment BB: index = index + 1 *)
  SetInsertPoint incrementBB ;;;
  let* incVal := genIncrement indexAddr 1 in
  CreateStore incVal indexAddr ;;;
  CreateBr conditionBB ;;;
  (* end *)
  SetInsertPoint endBB ;;;
  let* value := emitLoadGlobalVar "result" in
  (* return result; *)
  ret (Some value).

(** [emitFunctionBody] *)
Definition emitFunctionBody (fn : option string) : Emit unit :=
  (* Create entry basic block *)
  let* entry := createBB fn "entry" in
  SetInsertPoint entry ;;;
  (* emit return *)
  let* value := emitMainFunctionStatementList fn in
  let* ty := getReturnType fn in
  emitReturn ty value.

(** [defineFunction] *)
Definition defineFunction (name : string) : Emit unit :=
  (* Function must be declared before define *)
  let* fn := getFunction name in
  emitFunctionBody fn ;;;
  verifyFunction fn.

(** [emitProgram] *)
Definition emitProgram : Emit unit :=
  emitIntegers ;;;
  let* _ := declareFunction "main" in
  defineFunction "main".

(** [main], up to the output. *)
Definition main (triple : string) : Res unit :=
  (setTargetTriple triple ;;; registerFunctionProto ;;; emitProgram)
    initializeModule.

End LoopFor.

(* ===================================================================== *)
(** * 16_loop_while.cpp                                                    *)
(* ===================================================================== *)

Module LoopWhile.
Import Emitter.

(** [defineGlobalVariable(name, init)]: this file has only this form, which
    inserts the global with the type of the initializer. *)
Definition defineGlobalVariable (name : string) (init : Value)
  : Emit (option string) :=
  getOrInsertGlobal name (getType init) ;;;
  let* globalVar := getNamedGlobal name in
  setInitializer globalVar init ;;;
  setDSOLocal globalVar true ;;;
  ret globalVar.

(** [emitIntegers] *)
Definition emitIntegers : Emit unit :=
  let* _ := defineGlobalVariable "start" (getInt32 1) in
  let* _ := defineGlobalVariable "end" (getInt32 10) in
  let* _ := defineGlobalVariable "result" (getInt32 0) in
  ret tt.

(** [emitMainFunctionStatementList]: the while form has no increment block;
    the body increments the index itself. *)
Definition emitMainFunctionStatementList (fn : option string)
  : Emit (option Value) :=
  let* conditionBB := createBB fn "condition" in
  let* bodyBB := createBB fn "body" in
  let* endBB := createBB fn "end" in
  (* int index; *)
  let* indexAddr := CreateAlloca getInt32Ty "index" in
  (* index = start; *)
  let* startV := emitLoadGlobalVar "start" in
  CreateStore startV indexAddr ;;;
  (* goto for condition *)
  CreateBr conditionBB ;;;
  (* condition bb *)
  SetInsertPoint conditionBB ;;;
  let* indexV := emitLoadValue indexAddr in
  let* endV := emitLoadGlobalVar "end" in
  let* compare := CreateICmpSLE indexV endV in
  CreateCondBr compare bodyBB endBB ;;;
  (* body bb: result = result + index; *)
  SetInsertPoint bodyBB ;;;
  let* resultV := emitLoadGlobalVar "result" in
  let* indexV := emitLoadValue indexAddr in
  let* sum := CreateNSWAdd resultV indexV in
  emitStoreGlobalVar sum "result" ;;;
  (* index = index + 1 *)
  let* incVal := genIncrement indexAddr 1 in
  CreateStore incVal indexAddr ;;;
  CreateBr conditionBB ;;;
  (* end *)
  SetInsertPoint endBB ;;;
  let* value := emitLoadGlobalVar "result" in
  (* return result; *)
  ret (Some value).

(** [emitFunctionBody] *)
Definition emitFunctionBody (fn : option string) : Emit unit :=
  (* Create entry basic block *)
  let* entry := createBB fn "entry" in
  SetInsertPoint entry ;;;
  let* value := emitMainFunctionStatementList fn in
  (* emit return *)
  let* ty := getReturnType fn in
  emitReturn ty value.

(** [defineFunction] *)
Definition defineFunction (name : string) : Emit unit :=
  (* Function must be declared before define *)
  let* fn := getFunction name in
  emitFunctionBody fn ;;;
  verifyFunction fn.

(** [emitProgram] *)
Definition emitProgram : Emit unit :=
  emitIntegers ;;;
  let* _ := declareFunction "main" in
  defineFunction "main".

(** [main], up to the output. *)
Definition main (triple : string) : Res unit :=
  (setTargetTriple triple ;;; registerFunctionProto ;;; emitProgram)
    initializeModule.

End LoopWhile.

(* ===================================================================== *)
(** * structs.cpp                                                          *)
(* ===================================================================== *)

Module Structs.
Import Emitter.

(** [EmitStatementList]: a pointer to a function from the function being
    defined to the value it returns (null for a void body). *)
Definition EmitStatementList : Type := option string -> Emit (option Value).

(** [emitPointType] *)
Definition emitPointType : Emit Ty :=
  let element_ty := getInt32Ty in
  let* point := StructType_create "struct.point" in
  setBody point [element_ty; element_ty].

(** [registerFunctionProto] *)
Definition registerFunctionProto : Emit unit :=
  (* int main() *)
  funProtoMap_set "main"
    {| returnType := Some getInt32Ty; params := []; isVarArg := false |} ;;;
  (* int sum(int, int) *)
  funProtoMap_set "sum"
    {| returnType := Some getInt32Ty; params := [getInt32Ty; getInt32Ty];
       isVarArg := false |} ;;;
  (* int printf(const char *format, ...) *)
  funProtoMap_set "printf"
    {| returnType := Some getInt32Ty; params := [PointerTy getInt8Ty];
       isVarArg := true |} ;;;
  let i32PtrTy := PointerTy getInt32Ty in
  (* void swap_ptr(int *, int * ) *)
  funProtoMap_set "swap_ptr"
    {| returnType := Some VoidTy; params := [i32PtrTy; i32PtrTy];
       isVarArg := false |} ;;;
  let i32Ty := getInt32Ty in
  (* void swap_arr(int[], int, int) *)
  funProtoMap_set "swap_array"
    {| returnType := Some VoidTy; params := [i32PtrTy; i32Ty; i32Ty];
       isVarArg := false |} ;;;
  let* pointTy := emitPointType in
  (* void swap_point(struct point * ) *)
  funProtoMap_set "swap_point"
    {| returnType := Some VoidTy; params := [PointerTy pointTy];
       isVarArg := false |}.

(** [emitStringPtr] of this file returns the global string. *)
Definition emitStringPtr (content name : string) : Emit (option string) :=
  let* strPtr := CreateGlobalString content ("." +:+ name) in
  ret strPtr.

(** [getRValue] *)
Definition getRValue (value : Value) (type : Ty) : Emit Value :=
  let* address := CreateLoad type value in
  let* baseType := deref NotAPointer (pointee type) in
  CreateLoad baseType address.

(** [getElementAddr] *)
Definition getElementAddr (arrAddr indexAddr : Value) : Emit Value :=
  let* ty := deref NotAPointer (pointee (getType arrAddr)) in
  let* baseType := deref NotAPointer (pointee ty) in
  let* arr := CreateLoad ty arrAddr in
  let* indexType := deref NotAPointer (pointee (getType indexAddr)) in
  let* indexValue := CreateLoad indexType indexAddr in
  let* indexTy64Value := CreateSExt indexValue getInt64Ty in
  let IndexValues := [indexTy64Value] in
  let* elt := deref NotAPointer (pointee (getType arr)) in
  let* target := CreateInBoundsGEP elt arr IndexValues in
  ret target.

(** [getStructOffset] *)
Definition getStructOffset (offset : Z) : Value :=
  ConstantInt_get 32 offset.

(** [getStructElementAddr] *)
Definition getStructElementAddr (index : Z) (ptrval : Value) : Emit Value :=
  let IndexValues := [getStructOffset 0; getStructOffset index] in
  let* elt := deref NotAPointer (pointee (getType ptrval)) in
  let* target := CreateInBoundsGEP elt ptrval IndexValues in
  ret target.

(** [dyn_cast<StructType>] followed by [getTypeAtIndex]: a type that is not
    a struct gives a null pointer, which is then dereferenced. *)
Definition structTypeAtIndex (t : Ty) (index : Z) : Emit Ty :=
  match t with
  | StructTy _ body =>
      if (index <? 0)%Z then crash BadIndex
      else deref BadIndex (body !! Z.to_nat index)
  | _ => crash NullType
  end.

(** [getStructElementRValue] *)
Definition getStructElementRValue (structAlloca : Value) (index : Z)
  : Emit Value :=
  let* ty := deref NotAPointer (pointee (getType structAlloca)) in
  let* structAddr := CreateLoad ty structAlloca in
  let* elementAddr := getStructElementAddr index structAddr in
  let* structType := deref NotAPointer (pointee (getType structAddr)) in
  let* elementType := structTypeAtIndex structType index in
  CreateLoad elementType elementAddr.

(** [getStructElementLValue] *)
Definition getStructElementLValue (structAlloca : Value) (index : Z)
  : Emit Value :=
  let* ty := deref NotAPointer (pointee (getType structAlloca)) in
  let* structAddr := CreateLoad ty structAlloca in
  let* elementAddr := getStructElementAddr index structAddr in
  ret elementAddr.

(** [getPointerType]: [PointerType::get] reads the context of the element
    type. *)
Definition getPointerType (baseType : option Ty) : Emit Ty :=
  let* t := deref NullType baseType in
  ret (PointerTy t).

(** [emitPoint] *)
Definition emitPoint : Emit Value :=
  let* point_ty := getTypeByName "struct.point" in
  (* struct point p; *)
  let* tmp_p := CreateAllocaOf point_ty "param_p" in
  (* p.x = 10; *)
  let* p_x := getStructElementAddr 0 tmp_p in
  CreateStore (getInt32 10) p_x ;;;
  (* p.y = 20; *)
  let* p_y := getStructElementAddr 1 tmp_p in
  CreateStore (getInt32 20) p_y ;;;
  ret tmp_p.

(** [emitMainStatementList] *)
Definition emitMainStatementList (fn : option string) : Emit (option Value) :=
  (* &point *)
  let* pointAddr := emitPoint in
  let argsV := [pointAddr] in
  (* swap_point(&point); *)
  let* targetFn := getFunction "swap_point" in
  let* _ := CreateCall targetFn argsV in
  (* return point.x; *)
  let* pointX := getStructElementAddr 0 pointAddr in
  let* retTy := getReturnType fn in
  let* result := CreateLoad retTy pointX in
  ret (Some result).

(** [emitSumStatementList] *)
Definition emitSumStatementList (fn : option string) : Emit (option Value) :=
  (* alloca params *)
  let ty := getInt32Ty in
  let* tmpX := CreateAlloca ty "" in
  let* tmpY := CreateAlloca ty "" in
  (* store params to stack *)
  let* argX := getArg fn 0 in
  let* argY := getArg fn 1 in
  CreateStore argX tmpX ;;;
  CreateStore argY tmpY ;;;
  (* printf("result:%d\n", result); *)
  let* str := emitStringPtr "result:%d
" "str" in
  let* result := emitLoadGlobalVar "result" in
  let indexValues := [getInt64 0; getInt64 0] in
  let* strV := globalValue str in
  let* strTy := deref NotAPointer (pointee (getType strV)) in
  let* strAddr := CreateInBoundsGEP strTy strV indexValues in
  let argsV := [strAddr; result] in
  let* printfFn := getFunction "printf" in
  let* _ := CreateCall printfFn argsV in
  (* x + y; *)
  let* valueL := CreateLoad ty tmpX in
  let* valueR := CreateLoad ty tmpY in
  let* value := CreateNSWAdd valueL valueR in
  (* return result; *)
  ret (Some value).

(** [emitSwapPtrStatementList] *)
Definition emitSwapPtrStatementList (fn : option string) : Emit (option Value) :=
  (* alloca params *)
  let baseType := getInt32Ty in
  let* ty := getPointerType (Some baseType) in
  (* int *alloca_x, *alloca_y; *)
  let* tmpX := CreateAlloca ty "param_x" in
  let* tmpY := CreateAlloca ty "param_y" in
  (* int temp *)
  let* temp := CreateAlloca baseType "temp" in
  (* store args on stack *)
  let* argX := getArg fn 0 in
  let* argY := getArg fn 1 in
  CreateStore argX tmpX ;;;
  CreateStore argY tmpY ;;;
  (* get r-value of *x; *)
  let* xValue := getRValue tmpX ty in
  (* temp = *x; *)
  CreateStore xValue temp ;;;
  (* get r-value of *y *)
  let* yValue := getRValue tmpY ty in
  (* get l-value of *x *)
  let* xAddress := CreateLoad ty tmpX in
  (* *x = *y *)
  CreateStore yValue xAddress ;;;
  (* *y = temp *)
  let* tempValue := CreateLoad baseType temp in
  let* yAddress := CreateLoad ty tmpY in
  CreateStore tempValue yAddress ;;;
  ret None.

(** [emitSwapArrayStatementList] *)
Definition emitSwapArrayStatementList (fn : option string)
  : Emit (option Value) :=
  (* alloca params *)
  let baseType := getInt32Ty in
  let* ty := getPointerType (Some baseType) in
  let* tmpArr := CreateAlloca ty "param_arr" in
  let* tmpX := CreateAlloca baseType "param_x" in
  let* tmpY := CreateAlloca baseType "param_y" in
  (* int temp *)
  let* temp := CreateAlloca baseType "temp" in
  (* store args on stack *)
  let* argArr := getArg fn 0 in
  let* argX := getArg fn 1 in
  let* argY := getArg fn 2 in
  CreateStore argArr tmpArr ;;;
  CreateStore argY tmpY ;;;
  CreateStore argX tmpX ;;;
  (* get l-value of arr[x] *)
  let* arr_x_addr := getElementAddr tmpArr tmpX in
  (* get r-value of arr[x] *)
  let* arr_x_value := CreateLoad baseType arr_x_addr in
  (* temp = arr[x] *)
  CreateStore arr_x_value temp ;;;
  (* get r-value of arr[y] *)
  let* arr_y_addr := getElementAddr tmpArr tmpY in
  let* arr_y_value := CreateLoad baseType arr_y_addr in
  (* get l-value of arr[x] *)
  let* arr_x_addr_1 := getElementAddr tmpArr tmpX in
  (* arr[x] = arr[y] *)
  CreateStore arr_y_value arr_x_addr_1 ;;;
  (* arr[y] = temp *)
  let* temp_value := CreateLoad baseType temp in
  (* get l-value of arr[y] *)
  let* arr_y_addr_1 := getElementAddr tmpArr tmpY in
  CreateStore temp_value arr_y_addr_1 ;;;
  ret None.

(** [emitSwapPointStatementList] *)
Definition emitSwapPointStatementList (fn : option string)
  : Emit (option Value) :=
  (* alloca params *)
  let baseType := getInt32Ty in
  let* ty := getTypeByName "struct.point" in
  (* struct *alloca_p; *)
  let* pty := getPointerType ty in
  let* tmpP := CreateAlloca pty "param_p" in
  (* int temp; *)
  let* temp := CreateAlloca baseType "temp" in
  (* store args on stack *)
  let* arg_1 := getArg fn 0 in
  CreateStore arg_1 tmpP ;;;
  (* get r-value of pointer->x *)
  let* p_x_rvalue := getStructElementRValue tmpP 0 in
  (* temp = p.x *)
  CreateStore p_x_rvalue temp ;;;
  (* get r-value of pointer->y *)
  let* p_y_rvalue := getStructElementRValue tmpP 1 in
  (* get l-value of pointer->x *)
  let* p_x_lvalue := getStructElementLValue tmpP 0 in
  (* p->x = p->y *)
  CreateStore p_y_rvalue p_x_lvalue ;;;
  (* get r-value of temp *)
  let* temp_rvalue := CreateLoad baseType temp in
  (* get l-value of p->y *)
  let* p_y_lvalue := getStructElementLValue tmpP 1 in
  (* p->y = temp *)
  CreateStore temp_rvalue p_y_lvalue ;;;
  ret None.

(** [registerFunctionImpl]: the static table [funImplMap]. *)
Definition registerFunctionImpl : gmap string EmitStatementList :=
  <["swap_point" := emitSwapPointStatementList]>
  (<["swap_array" := emitSwapArrayStatementList]>
  (<["swap_ptr" := emitSwapPtrStatementList]>
  (<["sum" := emitSumStatementList]>
  (<["main" := emitMainStatementList]> ∅)))).

(** [emitFunctionBody].  [funImplMap[name]] is a null function pointer for a
    name that was not registered, and calling it is a fault. *)
Definition emitFunctionBody (funImplMap : gmap string EmitStatementList)
    (fn : option string) (name : string) : Emit unit :=
  (* Create entry basic block *)
  let* entry := createBB fn "entry" in
  SetInsertPoint entry ;;;
  let* emitter := deref NullEmitter (funImplMap !! name) in
  let* value := emitter fn in
  (* emit return *)
  let* ty := getReturnType fn in
  emitReturn ty value.

(** [defineFunction] *)
Definition defineFunction (funImplMap : gmap string EmitStatementList)
    (name : string) : Emit unit :=
  (* Function must be declared before define *)
  let* fn := getFunction name in
  emitFunctionBody funImplMap fn name ;;;
  verifyFunction fn.

(** [emitProgram] *)
Definition emitProgram (funImplMap : gmap string EmitStatementList)
  : Emit unit :=
  let* _ := declareFunction "printf" in
  let* _ := declareFunction "swap_point" in
  defineFunction funImplMap "swap_point" ;;;
  let* _ := declareFunction "main" in
  defineFunction funImplMap "main".

(** [main], up to the output. *)
Definition main (triple : string) : Res unit :=
  (setTargetTriple triple ;;; registerFunctionProto ;;;
   emitProgram registerFunctionImpl)
    initializeModule.

End Structs.

(* ===================================================================== *)
(** * 18_pointers.cpp                                                      *)
(* ===================================================================== *)

(** The file shares with structs.cpp, word for word, [getRValue],
    [getPointerType], [emitStringPtr], [emitSumStatementList],
    [emitSwapPtrStatementList], [emitFunctionBody] and [defineFunction]; they
    are taken from [Structs].  Its own are the prototypes, the table of
    emitters, the body of [main] and the program. *)
Module Pointers.
Import Emitter.

(** [registerFunctionProto] *)
Definition registerFunctionProto : Emit unit :=
  (* int main() *)
  funProtoMap_set "main"
    {| returnType := Some getInt32Ty; params := []; isVarArg := false |} ;;;
  (* int sum(int, int) *)
  funProtoMap_set "sum"
    {| returnType := Some getInt32Ty; params := [getInt32Ty; getInt32Ty];
       isVarArg := false |} ;;;
  (* int printf(const char *format, ...) *)
  funProtoMap_set "printf"
    {| returnType := Some getInt32Ty; params := [PointerTy getInt8Ty];
       isVarArg := true |} ;;;
  let i32PtrTy := PointerTy getInt32Ty in
  (* void swap_ptr(int *, int * ) *)
  funProtoMap_set "swap_ptr"
    {| returnType := Some VoidTy; params := [i32PtrTy; i32PtrTy];
       isVarArg := false |}.

(** [emitMainStatementList].  The two globals are passed as they come from
    [getGlobalVariable]; a missing one is a null argument of the call, and
    the fault is raised where the pointer is converted. *)
Definition emitMainStatementList (fn : option string) : Emit (option Value) :=
  let* startVar := getGlobalVariable "start" false in
  let* startArg := globalValue startVar in
  let* endVar := getGlobalVariable "end" false in
  let* endArg := globalValue endVar in
  let argsV := [startArg; endArg] in
  (* swap_ptr(&start, &end); *)
  let* targetFn := getFunction "swap_ptr" in
  let* _ := CreateCall targetFn argsV in
  let* start := emitLoadGlobalVar "start" in
  (* return result; *)
  ret (Some start).

(** [registerFunctionImpl] *)
Definition registerFunctionImpl : gmap string Structs.EmitStatementList :=
  <["swap_ptr" := Structs.emitSwapPtrStatementList]>
  (<["sum" := Structs.emitSumStatementList]>
  (<["main" := emitMainStatementList]> ∅)).

(** [emitProgram] *)
Definition emitProgram (funImplMap : gmap string Structs.EmitStatementList)
  : Emit unit :=
  emitIntegers ;;;
  let* _ := declareFunction "printf" in
  let* _ := declareFunction "swap_ptr" in
  Structs.defineFunction funImplMap "swap_ptr" ;;;
  let* _ := declareFunction "main" in
  Structs.defineFunction funImplMap "main".

(** [main], up to the output. *)
Definition main (triple : string) : Res unit :=
  (setTargetTriple triple ;;; registerFunctionProto ;;;
   emitProgram registerFunctionImpl)
    initializeModule.

End Pointers.

(* ===================================================================== *)
(** * The meaning of the emitted IR                                       *)
(* ===================================================================== *)

(** An executable semantics for the instructions the emitters produce,
    after the LLVM language reference.  Memory is a set of separate objects
    (one per global variable, one per executed [alloca]); an address names an
    object and a path of indices into it, so that [getelementptr] is
    navigation through the layout of the aggregate.  An [add nsw] that
    overflows gives poison, and branching on poison is undefined behaviour. *)
Module Sem.

Local Open Scope Z_scope.

Inductive Block :=
| GlobalBlock (name : string)
| StackBlock (n : nat).

(** An address: the object and the path to the addressed part, innermost
    index first.  The last element of the path counts whole objects: [0] is
    the object itself.  The address of an object is [[0]]. *)
Record Addr := {
  a_block : Block;
  a_path : list Z
}.

(** Run-time values and the content of memory.  [RInt bits z]: the integer
    of type [iN] whose two's complement pattern, read as a signed number, is
    [z].  [RAgg parts]: a value of a struct or array type, the first-class
    aggregate a load of such a type gives and a store of it takes; it is the
    content of the aggregate.  The content of an object is a scalar cell or
    an aggregate of parts. *)
Inductive RVal :=
| RInt (bits : Z) (z : Z)
| RFloat (v : Z)
| RPtr (a : Addr)
| RNull
| RUndef
| RPoison
| RAgg (parts : list MVal)
with MVal :=
| MScalar (v : RVal)
| MAgg (parts : list MVal).

Record Mem := {
  globals : string -> option MVal;
  stack : nat -> option MVal
}.

Definition signed (bits : Z) (v : Z) : Z :=
  let u := v mod 2 ^ bits in
  if u <? 2 ^ (bits - 1) then u else u - 2 ^ bits.

Definition in_range (bits : Z) (z : Z) : bool :=
  (- 2 ^ (bits - 1) <=? z) && (z <? 2 ^ (bits - 1)).

(** A value that is no aggregate. *)
Definition is_scalar (v : RVal) : bool :=
  match v with RAgg _ => false | _ => true end.

(** [has_type v t]: [v] is a value of type [t]; an aggregate is one part by
    part ([holds]: the same for a content, whose cells are scalars). *)
Fixpoint has_type (v : RVal) (t : Ty) {struct v} : bool :=
  match v with
  | RInt b _ => match t with IntegerTy b' => b =? b' | _ => false end
  | RFloat _ =>
      match t with FloatTy | DoubleTy | X86_FP80Ty => true | _ => false end
  | RPtr _ | RNull => match t with PointerTy _ => true | _ => false end
  | RUndef | RPoison =>
      match t with
      | IntegerTy _ | FloatTy | DoubleTy | X86_FP80Ty | PointerTy _ => true
      | _ => false
      end
  | RAgg parts =>
      match t with
      | StructTy _ body =>
          (fix fields (ps : list MVal) (ts : list Ty) {struct ps} : bool :=
             match ps, ts with
             | [], [] => true
             | p :: ps', t' :: ts' => holds p t' && fields ps' ts'
             | _, _ => false
             end) parts body
      | ArrayTy e n =>
          Nat.eqb (length parts) n &&
          (fix elems (ps : list MVal) {struct ps} : bool :=
             match ps with
             | [] => true
             | p :: ps' => holds p e && elems ps'
             end) parts
      | _ => false
      end
  end
with holds (m : MVal) (t : Ty) {struct m} : bool :=
  match m with
  | MScalar v => is_scalar v && has_type v t
  | MAgg parts =>
      match t with
      | StructTy _ body =>
          (fix fields (ps : list MVal) (ts : list Ty) {struct ps} : bool :=
             match ps, ts with
             | [], [] => true
             | p :: ps', t' :: ts' => holds p t' && fields ps' ts'
             | _, _ => false
             end) parts body
      | ArrayTy e n =>
          Nat.eqb (length parts) n &&
          (fix elems (ps : list MVal) {struct ps} : bool :=
             match ps with
             | [] => true
             | p :: ps' => holds p e && elems ps'
             end) parts
      | _ => false
      end
  end.

(** The value a content is when it is loaded, and the content a value is
    when it is stored. *)
Definition content_value (m : MVal) : RVal :=
  match m with MScalar v => v | MAgg parts => RAgg parts end.

Definition value_content (v : RVal) : MVal :=
  match v with RAgg parts => MAgg parts | _ => MScalar v end.

(** Two contents are laid out alike: cell for cell, aggregate for
    aggregate of as many parts. *)
Fixpoint same_shape (a b : MVal) {struct a} : bool :=
  match a, b with
  | MScalar _, MScalar _ => true
  | MAgg ps, MAgg qs =>
      (fix all (ps qs : list MVal) {struct ps} : bool :=
         match ps, qs with
         | [], [] => true
         | p :: ps', q :: qs' => same_shape p q && all ps' qs'
         | _, _ => false
         end) ps qs
  | _, _ => false
  end.

(** *** Memory *)

Fixpoint descend (m : MVal) (p : list Z) : option MVal :=
  match p with
  | [] => Some m
  | i :: p' =>
      match m with
      | MAgg parts =>
          if i <? 0 then None
          else match parts !! Z.to_nat i with
               | Some m' => descend m' p'
               | None => None
               end
      | MScalar _ => None
      end
  end.

Fixpoint replace (m : MVal) (p : list Z) (new : MVal) : option MVal :=
  match p with
  | [] => Some new
  | i :: p' =>
      match m with
      | MAgg parts =>
          if i <? 0 then None
          else match parts !! Z.to_nat i with
               | Some m' =>
                   match replace m' p' new with
                   | Some m'' => Some (MAgg (<[Z.to_nat i := m'']> parts))
                   | None => None
                   end
               | None => None
               end
      | MScalar _ => None
      end
  end.

Definition object (m : Mem) (b : Block) : option MVal :=
  match b with
  | GlobalBlock g => globals m g
  | StackBlock n => stack m n
  end.

Definition set_object (m : Mem) (b : Block) (o : MVal) : Mem :=
  match b with
  | GlobalBlock g =>
      {| globals := fun g' => if String.eqb g' g then Some o else globals m g';
         stack := stack m |}
  | StackBlock n =>
      {| globals := globals m;
         stack := fun n' => if Nat.eqb n' n then Some o else stack m n' |}
  end.

(** The path from the object to the addressed part, outermost first; only
    the object itself (count [0]) can be entered. *)
Definition inner_path (a : Addr) : option (list Z) :=
  match rev (a_path a) with
  | 0 :: p => Some p
  | _ => None
  end.

(** A load reads the part the address denotes, a cell or a whole
    aggregate, as a value of the type of the load. *)
Definition load (m : Mem) (t : Ty) (a : Addr) : option RVal :=
  match object m (a_block a), inner_path a with
  | Some o, Some p =>
      match descend o p with
      | Some c =>
          if has_type (content_value c) t then Some (content_value c) else None
      | None => None
      end
  | _, _ => None
  end.

(** A store replaces the part the address denotes by the value, which has
    to be laid out like what it replaces. *)
Definition store (m : Mem) (a : Addr) (v : RVal) : option Mem :=
  match object m (a_block a), inner_path a with
  | Some o, Some p =>
      match descend o p with
      | Some old =>
          if same_shape old (value_content v)
          then match replace o p (value_content v) with
               | Some o' => Some (set_object m (a_block a) o')
               | None => None
               end
          else None
      | None => None
      end
  | _, _ => None
  end.

(** The content of a fresh [alloca]: undefined, in the shape of the type. *)
Fixpoint undef_of (t : Ty) : MVal :=
  match t with
  | StructTy _ body => MAgg (map undef_of body)
  | ArrayTy e n => MAgg (repeat (undef_of e) n)
  | _ => MScalar RUndef
  end.

(** *** Address computation *)

(** [getelementptr]: the first index moves over whole objects of the pointed
    type (it is added to the innermost index of the address); each further
    index enters the aggregate. *)
Definition gep (a : Addr) (idx : list Z) : option Addr :=
  match idx, a_path a with
  | i0 :: rest, last :: up =>
      Some {| a_block := a_block a; a_path := rev rest ++ (last + i0) :: up |}
  | _, _ => None
  end.

Definition const_index (v : Value) : option Z :=
  match v with
  | ConstantInt bits k => Some (signed bits k)
  | _ => None
  end.

(** *** Operands *)

Definition Env := nat -> option RVal.

Definition bind_env (id : nat) (v : RVal) (e : Env) : Env :=
  fun id' => if Nat.eqb id' id then Some v else e id'.

Fixpoint eval (e : Env) (v : Value) : option RVal :=
  match v with
  | ConstantInt bits k => Some (RInt bits (signed bits k))
  | ConstantFP _ x => Some (RFloat x)
  | ConstantPointerNull _ => Some RNull
  | GlobalVariableRef name _ =>
      Some (RPtr {| a_block := GlobalBlock name; a_path := [0] |})
  | ConstantExprGEP _ base idx _ =>
      match eval e base, mapM const_index idx with
      | Some (RPtr a), Some ks => RPtr <$> gep a ks
      | _, _ => None
      end
  | InstRef id _ => e id
  | _ => None
  end.

Definition rint (v : RVal) : option Z :=
  match v with RInt _ z => Some z | _ => None end.

(** *** Instructions *)

(** [add nsw]: poison when the signed sum does not fit. *)
Definition add_nsw (x y : RVal) : option RVal :=
  match x, y with
  | RInt b z1, RInt b' z2 =>
      if b =? b'
      then Some (if in_range b (z1 + z2) then RInt b (z1 + z2) else RPoison)
      else None
  | (RPoison | RUndef), (RInt _ _ | RPoison | RUndef)
  | RInt _ _, (RPoison | RUndef) => Some RPoison
  | _, _ => None
  end.

(** [icmp sle]: the [i1] whose bit is set ([-1] read as a signed number)
    when the left operand is at most the right one. *)
Definition icmp_sle (x y : RVal) : option RVal :=
  match x, y with
  | RInt b z1, RInt b' z2 =>
      if b =? b' then Some (RInt 1 (if z1 <=? z2 then -1 else 0)) else None
  | (RPoison | RUndef), (RInt _ _ | RPoison | RUndef)
  | RInt _ _, (RPoison | RUndef) => Some RPoison
  | _, _ => None
  end.

(** [sext]: the same number in a wider type. *)
Definition sext (x : RVal) (dest : Ty) : option RVal :=
  match x, dest with
  | RInt b z, IntegerTy b' => if b <? b' then Some (RInt b' z) else None
  | (RPoison | RUndef), IntegerTy _ => Some RPoison
  | _, _ => None
  end.

(** A point of an execution: the block and position reached, the values of
    the instructions executed so far, the memory, the number of [alloca]s
    executed, and the blocks entered (latest first). *)
Record Config := {
  cur : nat;
  pc : nat;
  env : Env;
  mem : Mem;
  allocas : nat;
  entered : list nat
}.

Inductive Outcome :=
| Running (c : Config)
| Returned (v : option RVal) (c : Config)
| Undefined
| Unsupported.

Definition fetch (prog : list BasicBlock) (b : nat) (i : nat)
  : option (nat * Instruction) :=
  match prog !! b with
  | Some bb => bb_insts bb !! i
  | None => None
  end.

Definition next (c : Config) (e : Env) (m : Mem) (n : nat) : Outcome :=
  Running {| cur := cur c; pc := S (pc c); env := e; mem := m;
             allocas := n; entered := entered c |}.

Definition jump (c : Config) (dest : nat) : Outcome :=
  Running {| cur := dest; pc := 0; env := env c; mem := mem c;
             allocas := allocas c; entered := dest :: entered c |}.

Definition step (prog : list BasicBlock) (c : Config) : Outcome :=
  match fetch prog (cur c) (pc c) with
  | None => Undefined
  | Some (id, i) =>
      match i with
      | Alloca t _ =>
          let b := StackBlock (allocas c) in
          next c (bind_env id (RPtr {| a_block := b; a_path := [0] |}) (env c))
                 (set_object (mem c) b (undef_of t)) (S (allocas c))
      | Load t p =>
          match eval (env c) p with
          | Some (RPtr a) =>
              match load (mem c) t a with
              | Some v => next c (bind_env id v (env c)) (mem c) (allocas c)
              | None => Undefined
              end
          | _ => Undefined
          end
      | Store v p =>
          match eval (env c) v, eval (env c) p with
          | Some x, Some (RPtr a) =>
              match store (mem c) a x with
              | Some m' => next c (env c) m' (allocas c)
              | None => Undefined
              end
          | _, _ => Undefined
          end
      | AddNSW l r =>
          match eval (env c) l, eval (env c) r with
          | Some x, Some y =>
              match add_nsw x y with
              | Some v => next c (bind_env id v (env c)) (mem c) (allocas c)
              | None => Undefined
              end
          | _, _ => Undefined
          end
      | ICmpSLE l r =>
          match eval (env c) l, eval (env c) r with
          | Some x, Some y =>
              match icmp_sle x y with
              | Some v => next c (bind_env id v (env c)) (mem c) (allocas c)
              | None => Undefined
              end
          | _, _ => Undefined
          end
      | SExt v dest =>
          match eval (env c) v with
          | Some x =>
              match sext x dest with
              | Some r => next c (bind_env id r (env c)) (mem c) (allocas c)
              | None => Undefined
              end
          | None => Undefined
          end
      | GetElementPtr _ _ p idx =>
          match eval (env c) p, mapM (fun i => eval (env c) i ≫= rint) idx with
          | Some (RPtr a), Some ks =>
              match gep a ks with
              | Some a' => next c (bind_env id (RPtr a') (env c)) (mem c) (allocas c)
              | None => Undefined
              end
          | _, _ => Undefined
          end
      | Call _ _ => Unsupported
      | Br dest => jump c dest
      | CondBr cond t f =>
          match eval (env c) cond with
          | Some (RInt 1 z) => jump c (if z =? 0 then f else t)
          | _ => Undefined
          end
      | Ret (Some v) =>
          match eval (env c) v with
          | Some x => Returned (Some x) c
          | None => Undefined
          end
      | Ret None => Returned None c
      | RetVoid => Returned None c
      end
  end.

(** [run prog n c]: at most [n] instructions from [c]. *)
Fixpoint run (prog : list BasicBlock) (fuel : nat) (c : Config) : Outcome :=
  match fuel with
  | O => Running c
  | S fuel' =>
      match step prog c with
      | Running c' => run prog fuel' c'
      | o => o
      end
  end.

(** How often a block was entered. *)
Fixpoint times (b : nat) (l : list nat) : nat :=
  match l with
  | [] => O
  | x :: l' => if Nat.eqb x b then S (times b l') else times b l'
  end.

(** The first block of a function with a given name; the entry block of a
    function is the first block created for it. *)
Fixpoint findBlock (p : BasicBlock -> bool) (bs : list BasicBlock) (pos : nat)
  : option nat :=
  match bs with
  | [] => None
  | b :: bs' => if p b then Some pos else findBlock p bs' (S pos)
  end.

Definition hasParent (fn : string) (b : BasicBlock) : bool :=
  match bb_parent b with
  | Some f => String.eqb f fn
  | None => false
  end.

Definition entryBlock (bs : list BasicBlock) (fn : string) : option nat :=
  findBlock (hasParent fn) bs O.

Definition blockNamed (bs : list BasicBlock) (fn name : string) : option nat :=
  findBlock (fun b => hasParent fn b && String.eqb (bb_name b) name) bs O.

(** The content of a global at program start, from its initializer. *)
Fixpoint initial_content (v : Value) : option MVal :=
  let fix all (vs : list Value) : option (list MVal) :=
    match vs with
    | [] => Some []
    | x :: vs' =>
        match initial_content x, all vs' with
        | Some m, Some ms => Some (m :: ms)
        | _, _ => None
        end
    end in
  match v with
  | ConstantInt bits k => Some (MScalar (RInt bits (signed bits k)))
  | ConstantFP _ x => Some (MScalar (RFloat x))
  | ConstantPointerNull _ => Some (MScalar RNull)
  | ConstantArray _ elems => MAgg <$> all elems
  | ConstantStruct _ elems => MAgg <$> all elems
  | _ => None
  end.

Definition initial_mem (s : State) : Mem :=
  {| globals := fun g =>
       match mod_symtab s !! g with
       | Some (GVariable gv) =>
           match gv_init gv with
           | Some i => initial_content i
           | None => None
           end
       | _ => None
       end;
     stack := fun _ => None |}.

(** Entering a function: its entry block, no value yet, no [alloca] yet. *)
Definition enter (bs : list BasicBlock) (fn : string) (m : Mem)
  : option Config :=
  match entryBlock bs fn with
  | Some b => Some {| cur := b; pc := 0; env := fun _ => None; mem := m;
                      allocas := 0; entered := [b] |}
  | None => None
  end.

Definition call (bs : list BasicBlock) (fn : string) (m : Mem) (fuel : nat)
  : Outcome :=
  match enter bs fn m with
  | Some c => run bs fuel c
  | None => Undefined
  end.

End Sem.


(* ===================================================================== *)
(** * Writing the module to a file                                        *)
(* ===================================================================== *)

(** [saveModuleIRToFile] and the output stream it uses.  The world is what
    the process can change outside itself: the files, the standard output
    and the standard error stream; and what the system calls of the stream
    answer.  [open_error path]: the error with which opening [path] for
    writing fails, if it does.  [room t]: [None] when every byte written to
    [t] gets through, [Some (n, msg)] when [n] more bytes do and writing
    fails with [msg] after them (a full disk, a closed pipe).
    [close_error t]: the error with which closing a descriptor on [t]
    fails, if it does. *)
Module Output.

(** What a descriptor is open on. *)
Inductive Target :=
| ToStdout
| ToFile (path : string).

#[global] Instance Target_eq_dec : EqDecision Target.
Proof. solve_decision. Defined.

Record World := {
  open_error : string -> option string;
  room : Target -> option (nat * string);
  close_error : Target -> option string;
  files : gmap string string;
  stdout : string;
  stderr : string
}.

Definition newline : string := String (Ascii.ascii_of_nat 10) "".

(** The bytes a target holds. *)
Definition target_text (t : Target) (w : World) : string :=
  match t with
  | ToStdout => stdout w
  | ToFile path => default "" (files w !! path)
  end.

Definition set_target_text (t : Target) (text : string) (w : World) : World :=
  match t with
  | ToStdout =>
      {| open_error := open_error w; room := room w;
         close_error := close_error w; files := files w;
         stdout := text; stderr := stderr w |}
  | ToFile path =>
      {| open_error := open_error w; room := room w;
         close_error := close_error w; files := <[path := text]> (files w);
         stdout := stdout w; stderr := stderr w |}
  end.

Definition set_room (t : Target) (r : option (nat * string)) (w : World)
  : World :=
  {| open_error := open_error w;
     room := fun t' => if decide (t' = t) then r else room w t';
     close_error := close_error w; files := files w;
     stdout := stdout w; stderr := stderr w |}.

Definition set_stderr (text : string) (w : World) : World :=
  {| open_error := open_error w; room := room w;
     close_error := close_error w; files := files w;
     stdout := stdout w; stderr := text |}.

(** The system call [write], repeated until all bytes are written or one
    call fails: the bytes that get through are appended to the target; the
    result is the error of the call that failed, if one did.  (A call that
    is interrupted is repeated by the stream; that is not modelled apart.) *)
Definition sys_write (t : Target) (data : string) (w : World)
  : option string * World :=
  match room w t with
  | None => (None, set_target_text t (target_text t w +:+ data) w)
  | Some (n, msg) =>
      if (String.length data <=? n)%nat
      then (None,
            set_room t (Some ((n - String.length data)%nat, msg))
              (set_target_text t (target_text t w +:+ data) w))
      else (Some msg,
            set_room t (Some (0%nat, msg))
              (set_target_text t (target_text t w +:+ String.substring 0 n data) w))
  end.

(** [std::error_code]: [None] is success, [Some msg] an error. *)
Definition error_code : Type := option string.

(** [llvm::raw_fd_ostream]: what the descriptor is open on ([None] for the
    descriptor [-1] of a failed open), whether the destructor closes it, and
    the error recorded on the stream. *)
Record raw_fd_ostream := {
  FD : option Target;
  ShouldClose : bool;
  EC : error_code
}.

(** [error_detected]: the error is recorded on the stream. *)
Definition error_detected (msg : string) (out : raw_fd_ostream)
  : raw_fd_ostream :=
  {| FD := FD out; ShouldClose := ShouldClose out; EC := Some msg |}.

(** The constructor [raw_fd_ostream(Filename, EC)].  The name [-] stands
    for the standard output: the caller's error code is cleared, nothing is
    opened, and the stream will not close the descriptor.  Any other name
    is opened for writing, the file created or truncated.  On failure the
    caller's error code is set and the stream gets the descriptor [-1]. *)
Definition raw_fd_ostream_open (filename : string) (w : World)
  : error_code * raw_fd_ostream * World :=
  if String.eqb filename "-"
  then (None, {| FD := Some ToStdout; ShouldClose := false; EC := None |}, w)
  else match open_error w filename with
       | None =>
           (None,
            {| FD := Some (ToFile filename); ShouldClose := true; EC := None |},
            set_target_text (ToFile filename) "" w)
       | Some msg =>
           (Some msg, {| FD := None; ShouldClose := false; EC := None |}, w)
       end.

(** Writing bytes.  The stream buffers what it is given and passes it to
    the descriptor in pieces, the last of them when the destructor flushes:
    by then all bytes have been passed on, or a call has failed and the
    stream has recorded the error.  With descriptor [-1] the stream does not
    buffer, the system call fails and the error is recorded at once. *)
Definition write (data : string) (out : raw_fd_ostream) (w : World)
  : raw_fd_ostream * World :=
  if decide (data = "") then (out, w)
  else match FD out with
       | Some t =>
           match sys_write t data w with
           | (None, w') => (out, w')
           | (Some msg, w') => (error_detected msg out, w')
           end
       | None => (error_detected "Bad file descriptor" out, w)
       end.

(** [Module::print(OS, nullptr)]: the textual form of the module, which
    starts with the comment line naming the module.  The rest of the text is
    the business of the serializer, [asm]. *)
Definition Module_print (asm : State -> string) (m : State)
    (out : raw_fd_ostream) (w : World) : raw_fd_ostream * World :=
  write ("; ModuleID = '" +:+ mod_id m +:+ "'" +:+ newline +:+ asm m) out w.

(** How a scope of the process ends: normally, or in [report_fatal_error],
    which writes the message to the standard error stream and exits with a
    failure status. *)
Inductive Exit :=
| Normal (w : World)
| Fatal (w : World).

(** [report_fatal_error] for a stream. *)
Definition report_fatal_error (msg : string) (w : World) : Exit :=
  Fatal (set_stderr (stderr w +:+ "LLVM ERROR: IO failure on output stream: "
                     +:+ msg +:+ newline) w).

(** The destructor of [raw_fd_ostream]: a descriptor the stream owns is
    closed, and an error of that is recorded too; an error still recorded
    on the stream is reported as a fatal error. *)
Definition raw_fd_ostream_destroy (out : raw_fd_ostream) (w : World) : Exit :=
  let out' :=
    match FD out with
    | Some t =>
        if ShouldClose out
        then match close_error w t with
             | Some msg => error_detected msg out
             | None => out
             end
        else out
    | None => out
    end in
  match EC out' with
  | None => Normal w
  | Some msg => report_fatal_error msg w
  end.

(** [saveModuleIRToFile] *)
Definition saveModuleIRToFile (asm : State -> string) (filename : string)
    (TheModule : State) (w : World) : Exit :=
  let '(errorCode, out, w1) := raw_fd_ostream_open filename w in
  let '(out', w2) := Module_print asm TheModule out w1 in
  raw_fd_ostream_destroy out' w2.

End Output.

(* ===================================================================== *)
(** * Facts about the symbol table                                        *)
(* ===================================================================== *)

Module Symtab.

Definition candidate (base : string) (n : nat) : string :=
  base +:+ "." +:+ pretty n.

Lemma candidate_inj base : Inj (=) (=) (candidate base).
Proof.
  intros n m H. unfold candidate in H.
  apply (inj (String.app base)) in H.
  apply (inj (String.app ".")) in H.
  now apply (inj pretty) in H.
Qed.

(** The search for a unique name ends on a free name: the candidates are
    pairwise different, and the table cannot hold more of them than it has
    entries. *)
Lemma makeUniqueName_free_gen (tab : gmap string GlobalValue) base :
  forall fuel last (seen : gset string),
    seen ⊆ dom tab ->
    (forall j, last < j -> candidate base j ∉ seen) ->
    size (dom tab) < size seen + fuel + 1 ->
    tab !! (makeUniqueName fuel tab base last).1 = None.
Proof.
  induction fuel as [|fuel IH]; intros last seen Hsub Hnew Hsize; simpl.
  - apply not_elem_of_dom.
    assert (seen = dom tab) as <-.
    { apply set_subseteq_size_eq; [exact Hsub | lia]. }
    apply Hnew. lia.
  - fold (candidate base (S last)).
    destruct (tab !! candidate base (S last)) as [g|] eqn:Hc; [|exact Hc].
    apply (IH (S last) ({[candidate base (S last)]} ∪ seen)).
    + apply union_subseteq. split; [|exact Hsub].
      apply singleton_subseteq_l, elem_of_dom. eauto.
    + intros j Hj. apply not_elem_of_union. split.
      * rewrite elem_of_singleton. intros Heq.
        apply candidate_inj in Heq. lia.
      * apply Hnew. lia.
    + rewrite size_union.
      * rewrite size_singleton. lia.
      * apply disjoint_singleton_l. apply Hnew. lia.
Qed.

Lemma makeUniqueName_free (tab : gmap string GlobalValue) base last :
  tab !! (makeUniqueName (size tab) tab base last).1 = None.
Proof.
  apply (makeUniqueName_free_gen tab base (size tab) last ∅).
  - apply empty_subseteq.
  - intros j _. apply not_elem_of_empty.
  - rewrite size_dom, size_empty. lia.
Qed.

(** A state differs from another one in the symbol table (and its counter)
    only. *)
Definition same_but_symtab (s s' : State) : Prop :=
  ctx_structs s' = ctx_structs s /\
  ctx_struct_unique s' = ctx_struct_unique s /\
  mod_id s' = mod_id s /\ mod_triple s' = mod_triple s /\
  blocks s' = blocks s /\ next_id s' = next_id s /\
  insert_block s' = insert_block s /\ funProtoMap s' = funProtoMap s.

Lemma same_but_symtab_refl s : same_but_symtab s s.
Proof. repeat split. Qed.

Lemma same_but_symtab_trans s1 s2 s3 :
  same_but_symtab s1 s2 -> same_but_symtab s2 s3 -> same_but_symtab s1 s3.
Proof. unfold same_but_symtab. intuition congruence. Qed.

(** What [addGlobalValue] does: the value enters under a name that was
    free, which is the requested name when that one is free. *)
Lemma addGlobalValue_spec name g s :
  name <> "" ->
  exists n s',
    addGlobalValue name g s = Ok n s' /\
    mod_symtab s !! n = None /\
    (mod_symtab s !! name = None -> n = name) /\
    mod_symtab s' = <[n := g]> (mod_symtab s) /\
    same_but_symtab s s'.
Proof.
  intros Hne. unfold addGlobalValue.
  destruct (decide (name = "")) as [|_]; [contradiction|].
  destruct (mod_symtab s !! name) as [old|] eqn:Hold.
  - pose proof (makeUniqueName_free (mod_symtab s) name (mod_last_unique s)) as Hfree.
    destruct (makeUniqueName _ _ _ _) as [n last]. simpl in Hfree.
    eexists _, _. split; [reflexivity|]. repeat split; try assumption.
    intros; discriminate.
  - eexists _, _. split; [reflexivity|]. repeat split; assumption.
Qed.

Lemma addGlobalValue_empty g s : addGlobalValue "" g s = Crash BadIndex.
Proof. reflexivity. Qed.

End Symtab.

(* ===================================================================== *)
(** * Defining globals and declaring functions                            *)
(* ===================================================================== *)

Module Globals.
Import Emitter Symtab.

(** The global after [defineGlobalVariable] found it in the module. *)
Definition redefined (g : GlobalVariable) (init : Value) : GlobalVariable :=
  {| gv_valty := gv_valty g; gv_init := Some init;
     gv_linkage := gv_linkage g; gv_dso_local := true;
     gv_constant := gv_constant g |}.

(** The global after [defineGlobalVariable] inserted it. *)
Definition inserted (type : Ty) (init : Value) : GlobalVariable :=
  {| gv_valty := type; gv_init := Some init;
     gv_linkage := ExternalLinkage; gv_dso_local := true;
     gv_constant := false |}.

Lemma bind_ok {A B} (m : Emit A) (k : A -> Emit B) s a s' :
  m s = Ok a s' -> bind m k s = k a s'.
Proof. intros H. unfold bind. rewrite H. reflexivity. Qed.

Lemma bind_crash {A B} (m : Emit A) (k : A -> Emit B) s f :
  m s = Crash f -> bind m k s = Crash f.
Proof. intros H. unfold bind. rewrite H. reflexivity. Qed.

(** One step of a computation: the first action of a [bind] is replaced by
    its result, given by a lemma or by computation. *)
Ltac mstep_with tac :=
  first [ erewrite bind_ok by tac | erewrite bind_crash by tac ].

Definition with_init (g : GlobalVariable) (init : Value) : GlobalVariable :=
  {| gv_valty := gv_valty g; gv_init := Some init;
     gv_linkage := gv_linkage g; gv_dso_local := gv_dso_local g;
     gv_constant := gv_constant g |}.

Definition with_dso_local (g : GlobalVariable) (b : bool) : GlobalVariable :=
  {| gv_valty := gv_valty g; gv_init := gv_init g;
     gv_linkage := gv_linkage g; gv_dso_local := b;
     gv_constant := gv_constant g |}.

Section Variable_.
Context (s : State) (name : string) (g : GlobalVariable).
Hypothesis H : mod_symtab s !! name = Some (GVariable g).

Lemma getNamedValue_eq : getNamedValue name s = Ok (mod_symtab s !! name) s.
  Proof. reflexivity. Qed.

Lemma getOrInsertGlobal_existing ty : getOrInsertGlobal name ty s = Ok tt s.
  Proof. unfold getOrInsertGlobal, getNamedValue, bind. rewrite H. reflexivity. Qed.

Lemma getNamedGlobal_variable : getNamedGlobal name s = Ok (Some name) s.
  Proof.
    unfold getNamedGlobal, getGlobalVariable, getNamedValue, bind.
    rewrite H. reflexivity.
  Qed.

Lemma derefGlobal_variable : derefGlobal (Some name) s = Ok (name, g) s.
  Proof. unfold derefGlobal, getNamedValue, bind; simpl. rewrite H. reflexivity. Qed.

Lemma updateGlobal_variable f :
    updateGlobal (Some name) f s =
      Ok tt (set_symtab (<[name := GVariable (f g)]> (mod_symtab s)) s).
  Proof.
    unfold updateGlobal. rewrite (bind_ok _ _ _ _ _ derefGlobal_variable).
    reflexivity.
  Qed.

Lemma setInitializer_variable init :
    setInitializer (Some name) init s =
      Ok tt (set_symtab (<[name := GVariable (with_init g init)]> (mod_symtab s)) s).
  Proof. apply updateGlobal_variable. Qed.

Lemma setDSOLocal_variable b :
    setDSOLocal (Some name) b s =
      Ok tt (set_symtab (<[name := GVariable (with_dso_local g b)]> (mod_symtab s)) s).
  Proof. apply updateGlobal_variable. Qed.

Lemma setConstant_variable b :
    setConstant (Some name) b s =
      Ok tt (set_symtab (<[name := GVariable
                             {| gv_valty := gv_valty g; gv_init := gv_init g;
                                gv_linkage := gv_linkage g;
                                gv_dso_local := gv_dso_local g;
                                gv_constant := b |}]> (mod_symtab s)) s).
  Proof. apply updateGlobal_variable. Qed.

Lemma getInitializer_variable init :
    gv_init g = Some init -> getInitializer (Some name) s = Ok init s.
  Proof.
    intros Hi. unfold getInitializer.
    rewrite (bind_ok _ _ _ _ _ derefGlobal_variable). simpl. rewrite Hi. reflexivity.
  Qed.

Lemma globalValue_variable :
    globalValue (Some name) s = Ok (GlobalVariableRef name (gv_valty g)) s.
  Proof.
    unfold globalValue.
    rewrite (bind_ok _ _ _ _ _ derefGlobal_variable). reflexivity.
  Qed.
End Variable_.

Lemma set_symtab_twice t t' s : set_symtab t (set_symtab t' s) = set_symtab t s.
Proof. reflexivity. Qed.

Lemma defineGlobalVariable_existing type name init s g :
  mod_symtab s !! name = Some (GVariable g) ->
  defineGlobalVariable type name init s =
    Ok (Some name)
       (set_symtab (<[name := GVariable (redefined g init)]> (mod_symtab s)) s).
Proof.
  intros H. unfold defineGlobalVariable.
  rewrite (bind_ok _ _ _ _ _ (getOrInsertGlobal_existing s name g H type)).
  rewrite (bind_ok _ _ _ _ _ (getNamedGlobal_variable s name g H)).
  rewrite (bind_ok _ _ _ _ _ (setInitializer_variable s name g H init)).
  erewrite bind_ok by (apply setDSOLocal_variable; apply lookup_insert_eq).
  unfold ret. rewrite set_symtab_twice. simpl. rewrite insert_insert_eq.
  reflexivity.
Qed.

Lemma getOrInsertGlobal_new name ty s :
  mod_symtab s !! name = None -> name <> "" ->
  getOrInsertGlobal name ty s =
    Ok tt (set_symtab (<[name := GVariable {| gv_valty := ty; gv_init := None;
                                              gv_linkage := ExternalLinkage;
                                              gv_dso_local := false;
                                              gv_constant := false |}]>
                         (mod_symtab s)) s).
Proof.
  intros H Hne. unfold getOrInsertGlobal, getNamedValue, bind. rewrite H.
  unfold addGlobalValue. destruct (decide (name = "")); [contradiction|].
  rewrite H. reflexivity.
Qed.

Lemma defineGlobalVariable_new type name init s :
  mod_symtab s !! name = None -> name <> "" ->
  defineGlobalVariable type name init s =
    Ok (Some name)
       (set_symtab (<[name := GVariable (inserted type init)]> (mod_symtab s)) s).
Proof.
  intros H Hne. unfold defineGlobalVariable.
  rewrite (bind_ok _ _ _ _ _ (getOrInsertGlobal_new name type s H Hne)).
  erewrite bind_ok by (eapply getNamedGlobal_variable; apply lookup_insert_eq).
  erewrite bind_ok by (eapply setInitializer_variable; apply lookup_insert_eq).
  erewrite bind_ok by (apply setDSOLocal_variable; apply lookup_insert_eq).
  unfold ret. rewrite !set_symtab_twice. simpl. rewrite !insert_insert_eq.
  reflexivity.
Qed.

Lemma getNamedGlobal_function name s f :
  mod_symtab s !! name = Some (GFunction f) ->
  getNamedGlobal name s = Ok None s.
Proof.
  intros H. unfold getNamedGlobal, getGlobalVariable, getNamedValue, bind.
  rewrite H. reflexivity.
Qed.

(** A name that denotes a function: the insertion adds a variable under
    another name, the lookup by name finds no variable, and the null pointer
    is dereferenced. *)
Lemma defineGlobalVariable_function type name init s f :
  mod_symtab s !! name = Some (GFunction f) -> name <> "" ->
  defineGlobalVariable type name init s = Crash NullGlobal.
Proof.
  intros H Hne. unfold defineGlobalVariable.
  destruct (addGlobalValue_spec name
              (GVariable {| gv_valty := type; gv_init := None;
                            gv_linkage := ExternalLinkage;
                            gv_dso_local := false; gv_constant := false |}) s Hne)
    as (n & s' & Hadd & Hfree & _ & Htab & _).
  assert (Hins : getOrInsertGlobal name type s = Ok tt s').
  { unfold getOrInsertGlobal, getNamedValue, bind. rewrite H, Hadd. reflexivity. }
  rewrite (bind_ok _ _ _ _ _ Hins).
  erewrite bind_ok.
  2:{ eapply getNamedGlobal_function. rewrite Htab.
      rewrite lookup_insert_ne by (intros ->; congruence). exact H. }
  reflexivity.
Qed.

Lemma defineGlobalVariable_unnamed type init s :
  (forall g, mod_symtab s !! "" <> Some (GVariable g)) ->
  defineGlobalVariable type "" init s = Crash BadIndex.
Proof.
  intros H. unfold defineGlobalVariable, getOrInsertGlobal, getNamedValue, bind.
  destruct (mod_symtab s !! "") as [[f|g]|] eqn:E; try reflexivity.
  now elim (H g).
Qed.

(** After a successful definition the name denotes a global variable, and
    the handle returned is that name. *)
Lemma defineGlobalVariable_defines type name init s h s1 :
  defineGlobalVariable type name init s = Ok h s1 ->
  h = Some name /\
  exists g, mod_symtab s1 !! name = Some (GVariable g) /\
            gv_init g = Some init /\ gv_dso_local g = true /\
            same_but_symtab s s1 /\
            mod_symtab s1 = <[name := GVariable g]> (mod_symtab s) /\
            gv_valty g = match mod_symtab s !! name with
                         | Some (GVariable g0) => gv_valty g0
                         | _ => type
                         end.
Proof.
  intros H.
  destruct (mod_symtab s !! name) as [[f|g]|] eqn:E.
  - destruct (decide (name = "")) as [->|Hne].
    + rewrite defineGlobalVariable_unnamed in H; [discriminate|].
      intros g Hg. congruence.
    + rewrite (defineGlobalVariable_function _ _ _ _ _ E Hne) in H. discriminate.
  - rewrite (defineGlobalVariable_existing _ _ _ _ _ E) in H.
    injection H as <- <-. split; [reflexivity|].
    exists (redefined g init). simpl. rewrite lookup_insert_eq.
    repeat split.
  - destruct (decide (name = "")) as [->|Hne].
    + rewrite defineGlobalVariable_unnamed in H; [discriminate|].
      intros g Hg. congruence.
    + rewrite (defineGlobalVariable_new _ _ _ _ E Hne) in H.
      injection H as <- <-. split; [reflexivity|].
      exists (inserted type init). simpl. rewrite lookup_insert_eq.
      repeat split.
Qed.

(** ** [declareFunction] *)

Definition declared (p : FunProto) (r : Ty) : Function :=
  {| fn_type := {| ft_ret := r; ft_params := params p; ft_vararg := isVarArg p |};
     fn_linkage := ExternalLinkage; fn_dso_local := true |}.

Lemma getFunction_eq name s :
  getFunction name s =
    Ok (match mod_symtab s !! name with
        | Some (GFunction _) => Some name
        | _ => None
        end) s.
Proof.
  unfold getFunction, getNamedValue, bind.
  destruct (mod_symtab s !! name) as [[f|g]|]; reflexivity.
Qed.

Lemma declareFunction_existing name s f :
  mod_symtab s !! name = Some (GFunction f) ->
  declareFunction name s = Ok (Some name) s.
Proof.
  intros H. unfold declareFunction.
  rewrite (bind_ok _ _ _ _ _ (getFunction_eq name s)). rewrite H. reflexivity.
Qed.

(** The creation branch of [declareFunction], for a name no function has:
    the function enters the module under the name [n] chosen by
    [addGlobalValue]. *)
Lemma declareFunction_creates name s p r :
  (forall f, mod_symtab s !! name <> Some (GFunction f)) ->
  name <> "" ->
  funProtoMap s !! name = Some p -> returnType p = Some r ->
  exists n s1,
    declareFunction name s = Ok (Some n) s1 /\
    mod_symtab s !! n = None /\
    (mod_symtab s !! name = None -> n = name) /\
    mod_symtab s1 = <[n := GFunction (declared p r)]> (mod_symtab s) /\
    same_but_symtab s s1.
Proof.
  intros Hnf Hne Hp Hr. unfold declareFunction.
  rewrite (bind_ok _ _ _ _ _ (getFunction_eq name s)).
  assert (match mod_symtab s !! name with
          | Some (GFunction _) => Some name
          | _ => None
          end = None) as ->.
  { destruct (mod_symtab s !! name) as [[f|g]|] eqn:E; try reflexivity.
    now elim (Hnf f). }
  assert (Hat : funProtoMap_at name s = Ok p s).
  { unfold funProtoMap_at. rewrite Hp. reflexivity. }
  rewrite (bind_ok _ _ _ _ _ Hat).
  assert (Hty : FunctionType_get (returnType p) (params p) (isVarArg p) s
                = Ok {| ft_ret := r; ft_params := params p;
                        ft_vararg := isVarArg p |} s).
  { unfold FunctionType_get. rewrite Hr. reflexivity. }
  rewrite (bind_ok _ _ _ _ _ Hty).
  destruct (addGlobalValue_spec name
              (GFunction {| fn_type := {| ft_ret := r; ft_params := params p;
                                          ft_vararg := isVarArg p |};
                            fn_linkage := ExternalLinkage;
                            fn_dso_local := isLocalLinkage ExternalLinkage |})
              s Hne)
    as (n & s' & Hadd & Hfree & Hsame & Htab & Hrest).
  assert (Hcreate : Function_Create {| ft_ret := r; ft_params := params p;
                                       ft_vararg := isVarArg p |}
                      ExternalLinkage name s = Ok (Some n) s').
  { unfold Function_Create. rewrite (bind_ok _ _ _ _ _ Hadd). reflexivity. }
  rewrite (bind_ok _ _ _ _ _ Hcreate).
  exists n, (set_symtab (<[n := GFunction (declared p r)]> (mod_symtab s)) s').
  split.
  - unfold Function_setDSOLocal, derefFunction, getNamedValue, bind, deref, ret, modify.
    simpl. rewrite Htab, lookup_insert_eq. simpl.
    rewrite Htab, insert_insert_eq. reflexivity.
  - repeat split; try assumption; apply Hrest.
Qed.

Lemma declareFunction_unregistered name s :
  (forall f, mod_symtab s !! name <> Some (GFunction f)) ->
  funProtoMap s !! name = None ->
  declareFunction name s = Crash NullType.
Proof.
  intros Hnf Hp. unfold declareFunction.
  rewrite (bind_ok _ _ _ _ _ (getFunction_eq name s)).
  assert (match mod_symtab s !! name with
          | Some (GFunction _) => Some name
          | _ => None
          end = None) as ->.
  { destruct (mod_symtab s !! name) as [[f|g]|] eqn:E; try reflexivity.
    now elim (Hnf f). }
  unfold funProtoMap_at, bind. rewrite Hp. reflexivity.
Qed.

(** ** Defining a global twice *)

(** What a further [defineGlobalVariable] of [name] with [init] returns in a
    state [s1]: the handle [h] of the global the module already has, and a
    module with the same names in which only that global changed, its
    initializer being [init] and its value type what it was. *)
Definition redefinition (define : Emit (option string)) (name : string)
    (init : Value) (h : option string) (s1 : State) : Prop :=
  exists g s2,
    mod_symtab s1 !! name = Some (GVariable g) /\
    define s1 = Ok h s2 /\
    mod_symtab s2 !! name = Some (GVariable (redefined g init)) /\
    dom (mod_symtab s2) = dom (mod_symtab s1) /\
    (forall other, other <> name ->
                   mod_symtab s2 !! other = mod_symtab s1 !! other) /\
    same_but_symtab s1 s2.

Lemma redefinition_holds type name init h s1 g :
  h = Some name ->
  mod_symtab s1 !! name = Some (GVariable g) ->
  redefinition (defineGlobalVariable type name init) name init h s1.
Proof.
  intros -> Hg. exists g. eexists. split; [exact Hg|]. split.
  - apply defineGlobalVariable_existing. exact Hg.
  - simpl. split; [apply lookup_insert_eq|]. split.
    + apply dom_insert_lookup_L. eauto.
    + split; [|repeat split].
      intros other Hne. apply lookup_insert_ne. congruence.
Qed.

(** C3. When [defineGlobalVariable] has defined [name], a second call with
    the same name and any initializer, through either overload (and through
    the form of 16_loop_while.cpp), does not fail and adds no global: it
    returns the global the module already has, whose initializer is now the
    new one. *)
Theorem defineGlobalVariable_twice name type1 init1 s h s1 :
  defineGlobalVariable type1 name init1 s = Ok h s1 ->
  forall type2 init2,
    redefinition (defineGlobalVariable type2 name init2) name init2 h s1 /\
    redefinition (defineGlobalVariableInit name init2) name init2 h s1 /\
    redefinition (LoopWhile.defineGlobalVariable name init2) name init2 h s1.
Proof.
  intros H type2 init2.
  destruct (defineGlobalVariable_defines _ _ _ _ _ _ H) as (-> & g & Hg & _).
  repeat split; eapply redefinition_holds; eauto.
Qed.

Definition start_defined : State :=
  set_symtab (<["start" := GVariable (inserted (IntegerTy 32) (getInt32 1))]> ∅)
             initializeModule.

Lemma defineGlobalVariable_twice_witness :
  redefinition (defineGlobalVariable FloatTy "start" (ConstantFP FloatTy 2))
               "start" (ConstantFP FloatTy 2) (Some "start") start_defined.
Proof.
  refine (proj1 (defineGlobalVariable_twice "start" (IntegerTy 32) (getInt32 1)
                   initializeModule (Some "start") start_defined _
                   FloatTy (ConstantFP FloatTy 2))).
  vm_compute. reflexivity.
Defined.

(** ** Declaring a function twice *)

(** The statement of idempotence: a second call returns the function the
    first call returned. *)
Definition second_call_same (s : State) (name : string) : Prop :=
  forall h1 s1, declareFunction name s = Ok h1 s1 ->
                exists s2, declareFunction name s1 = Ok h1 s2.

(** A module in which [main] is the name of a global variable, with the
    prototype of [main] registered. *)
Definition main_is_a_variable : State :=
  match (registerFunctionProto ;;;
         defineGlobalVariableInit "main" (getInt32 0)) initializeModule with
  | Ok _ s => s
  | Crash _ => initializeModule
  end.

(** Where the name is taken by a global variable, [getFunction] finds no
    function, and every call creates a new function under a fresh name:
    [main.1], then [main.2]. *)
Lemma declareFunction_not_idempotent :
  ~ second_call_same main_is_a_variable "main".
Proof.
  intros H.
  destruct (H (Some "main.1")
              (match declareFunction "main" main_is_a_variable with
               | Ok _ s => s | Crash _ => initializeModule end)) as [s2 H2].
  - vm_compute. reflexivity.
  - vm_compute in H2. discriminate.
Qed.

(** C6 (amended). For a name that is not empty and not the name of a global
    variable: if a function of that name exists, [declareFunction] returns it
    and leaves the state unchanged; otherwise, the prototype being
    registered, it creates the function from the prototype, with external
    linkage and dso_local, under that name, and returns it.  In both cases a
    second call returns the same function and changes nothing. *)
Theorem declareFunction_idempotent s name :
  name <> "" ->
  (forall g, mod_symtab s !! name <> Some (GVariable g)) ->
  (forall f, mod_symtab s !! name = Some (GFunction f) ->
             declareFunction name s = Ok (Some name) s) /\
  (forall p r, mod_symtab s !! name = None ->
               funProtoMap s !! name = Some p -> returnType p = Some r ->
     exists s1,
       declareFunction name s = Ok (Some name) s1 /\
       mod_symtab s1 = <[name := GFunction (declared p r)]> (mod_symtab s) /\
       same_but_symtab s s1) /\
  (forall h s1, declareFunction name s = Ok h s1 ->
                h = Some name /\ declareFunction name s1 = Ok h s1).
Proof.
  intros Hne Hnv. split; [|split].
  - intros f Hf. apply (declareFunction_existing _ _ _ Hf).
  - intros p r Hfree Hp Hr.
    destruct (declareFunction_creates name s p r) as (n & s1 & H1 & _ & Hn & Htab & Hrest);
      try assumption.
    { intros f. congruence. }
    rewrite (Hn Hfree) in *. exists s1. repeat split; try assumption; apply Hrest.
  - intros h s1 H.
    destruct (mod_symtab s !! name) as [[f|g]|] eqn:E.
    + rewrite (declareFunction_existing _ _ _ E) in H. injection H as <- <-.
      split; [reflexivity|]. apply (declareFunction_existing _ _ _ E).
    + now elim (Hnv g).
    + destruct (funProtoMap s !! name) as [p|] eqn:Hp.
      * destruct (returnType p) as [r|] eqn:Hr.
        -- destruct (declareFunction_creates name s p r)
             as (n & s1' & H1 & _ & Hn & Htab & Hrest); try assumption.
           { intros f. congruence. }
           rewrite (Hn E) in *. rewrite H1 in H. injection H as <- <-.
           split; [reflexivity|].
           eapply declareFunction_existing. rewrite Htab. apply lookup_insert_eq.
        -- exfalso. revert H. unfold declareFunction.
           rewrite (bind_ok _ _ _ _ _ (getFunction_eq name s)). rewrite E.
           unfold funProtoMap_at, FunctionType_get, bind. rewrite Hp, Hr.
           discriminate.
      * rewrite declareFunction_unregistered in H; try assumption; [discriminate|].
        intros f. congruence.
Qed.

Definition main_registered : State :=
  match registerFunctionProto initializeModule with
  | Ok _ s => s
  | Crash _ => initializeModule
  end.

Definition main_declared : State :=
  match declareFunction "main" main_registered with
  | Ok _ s => s
  | Crash _ => initializeModule
  end.

Lemma declareFunction_idempotent_witness :
  Some "main" = Some "main" /\
  declareFunction "main" main_declared = Ok (Some "main") main_declared.
Proof.
  refine (proj2 (proj2 (declareFunction_idempotent main_registered "main" _ _))
            (Some "main") main_declared _).
  - discriminate.
  - intros g. vm_compute. discriminate.
  - vm_compute. reflexivity.
Defined.

End Globals.

(* ===================================================================== *)
(** * What the body of a function can do to the module                    *)
(* ===================================================================== *)

(** While the body of the function [name] is emitted, the builder inserts
    into blocks of that function (those created from position [n0] on).
    [safe m R]: from such a state, [m] either returns a result satisfying [R]
    in such a state, or stops on a fault that is not the dereference of a
    null function.  [Phi] is any property of the symbol table that survives
    the insertion of a dso_local value under a free name. *)
Module Body.
Import Emitter Symtab Globals.

Create HintDb safe_db.

Section Safe.
Variable Phi : gmap string GlobalValue -> Prop.
Hypothesis Phi_insert : forall tab n g,
    Phi tab -> tab !! n = None -> gval_dso_local g = true ->
    Phi (<[n := g]> tab).
Variables (name : string) (n0 : nat).

Definition inside (s : State) : Prop :=
    Phi (mod_symtab s) /\
    (exists f, mod_symtab s !! name = Some (GFunction f)) /\
    n0 <= length (blocks s) /\
    (forall b bb, n0 <= b -> blocks s !! b = Some bb ->
                  bb_parent bb = Some name) /\
    (exists b, insert_block s = Some b /\ n0 <= b).

Definition safe {A} (m : Emit A) (R : A -> Prop) : Prop :=
    forall s, inside s ->
      match m s with
      | Ok a s' => inside s' /\ R a
      | Crash f => f <> NullFunction
      end.

Lemma safe_ret {A} (a : A) (R : A -> Prop) : R a -> safe (ret a) R.
  Proof. intros H s Hs. simpl. auto. Qed.

Lemma safe_bind {A B} (m : Emit A) (k : A -> Emit B) R R' :
    safe m R -> (forall a, R a -> safe (k a) R') -> safe (bind m k) R'.
  Proof.
    intros Hm Hk s Hs. unfold bind. specialize (Hm s Hs).
    destruct (m s) as [a s'|f]; [|exact Hm].
    destruct Hm as [Hs' Ha]. apply (Hk a Ha s' Hs').
  Qed.

Lemma safe_weaken {A} (m : Emit A) (R R' : A -> Prop) :
    safe m R -> (forall a, R a -> R' a) -> safe m R'.
  Proof.
    intros Hm HR s Hs. specialize (Hm s Hs).
    destruct (m s); [|exact Hm]. destruct Hm. auto.
  Qed.

Lemma safe_crash {A} f (R : A -> Prop) : f <> NullFunction -> safe (crash f) R.
  Proof. intros H s Hs. exact H. Qed.

Lemma safe_deref {A} f (p : option A) :
    f <> NullFunction -> safe (deref f p) (fun _ => True).
  Proof. intros H. destruct p; [now apply safe_ret | now apply safe_crash]. Qed.

Lemma safe_deref_some {A} f (a : A) : safe (deref f (Some a)) (fun x => x = a).
  Proof. now apply safe_ret. Qed.

  (** An action that only reads the state. *)
Lemma safe_read {A} (m : Emit A) :
    (forall s, match m s with
               | Ok _ s' => s' = s
               | Crash f => f <> NullFunction
               end) ->
    safe m (fun _ => True).
  Proof.
    intros H s Hs. specialize (H s). destruct (m s); [|exact H].
    subst. auto.
  Qed.

Lemma safe_getNamedValue n : safe (getNamedValue n) (fun _ => True).
  Proof. apply safe_read. intros s. reflexivity. Qed.

Lemma safe_getFunction n : safe (getFunction n) (fun _ => True).
  Proof. apply safe_read. intros s. rewrite getFunction_eq. reflexivity. Qed.

Lemma safe_getGlobalVariable n b : safe (getGlobalVariable n b) (fun _ => True).
  Proof.
    apply safe_read. intros s. unfold getGlobalVariable, getNamedValue, bind.
    destruct (mod_symtab s !! n) as [[f|g]|]; try reflexivity.
    destruct (b || _); reflexivity.
  Qed.

Lemma safe_derefGlobal gv : safe (derefGlobal gv) (fun _ => True).
  Proof.
    apply safe_read. intros s. unfold derefGlobal, getNamedValue, bind, deref.
    destruct gv as [n|]; simpl; [|discriminate].
    destruct (mod_symtab s !! n) as [[f|g]|]; simpl; try reflexivity; discriminate.
  Qed.

Lemma safe_getInitializer gv : safe (getInitializer gv) (fun _ => True).
  Proof.
    unfold getInitializer. eapply safe_bind; [apply safe_derefGlobal|].
    intros [n g] _. apply safe_deref. discriminate.
  Qed.

Lemma safe_globalValue gv : safe (globalValue gv) (fun _ => True).
  Proof.
    unfold globalValue. eapply safe_bind; [apply safe_derefGlobal|].
    intros [n g] _. now apply safe_ret.
  Qed.

Lemma safe_derefFunction : safe (derefFunction (Some name)) (fun _ => True).
  Proof.
    intros s Hs. unfold derefFunction, getNamedValue, bind, deref. simpl.
    destruct Hs as (HP & [f Hf] & Hrest). rewrite Hf. simpl.
    split; [|exact I]. split; [exact HP|]. split; [eauto | exact Hrest].
  Qed.

Lemma safe_getReturnType : safe (getReturnType (Some name)) (fun _ => True).
  Proof.
    unfold getReturnType. eapply safe_bind; [apply safe_derefFunction|].
    intros [n f] _. now apply safe_ret.
  Qed.

Lemma safe_getArg k : safe (getArg (Some name) k) (fun _ => True).
  Proof.
    unfold getArg. eapply safe_bind; [apply safe_derefFunction|].
    intros [n f] _. eapply safe_bind; [apply safe_deref; discriminate|].
    intros ty _. now apply safe_ret.
  Qed.

Lemma safe_verifyFunction : safe (verifyFunction (Some name)) (fun _ => True).
  Proof.
    unfold verifyFunction. eapply safe_bind; [apply safe_derefFunction|].
    intros [n f] _. now apply safe_ret.
  Qed.

Lemma safe_getTypeByName n : safe (getTypeByName n) (fun _ => True).
  Proof. apply safe_read. intros s. reflexivity. Qed.

Lemma safe_insertBlockModule : safe insertBlockModule (fun _ => True).
  Proof.
    intros s Hs.
    unfold insertBlockModule, GetInsertBlock, BasicBlock_getParent, get, bind, deref, ret.
    destruct Hs as (HP & Hf & Hlen & Hbl & (b & Hb & Hle)) eqn:E. clear E.
    rewrite Hb. simpl.
    destruct (blocks s !! b) as [bb|] eqn:Hbb; simpl; [|discriminate].
    rewrite (Hbl b bb Hle Hbb). simpl.
    split; [|exact I]. repeat split; eauto.
  Qed.

Lemma safe_Insert i ty : safe (Insert i ty) (fun _ => True).
  Proof.
    intros s (HP & Hf & Hlen & Hbl & (b & Hb & Hle)).
    unfold Insert. rewrite Hb. unfold inside. simpl. split; [|exact I].
    split; [exact HP|]. split; [exact Hf|]. split.
    - rewrite length_alter. exact Hlen.
    - split; [|eauto].
      intros b' bb' Hb' Hl.
      destruct (decide (b = b')) as [<-|Hne].
      + rewrite list_lookup_alter_eq in Hl.
        destruct (blocks s !! b) as [bb|] eqn:E; [|discriminate].
        simpl in Hl. injection Hl as <-. simpl. eauto.
      + rewrite list_lookup_alter_ne in Hl by exact Hne. eauto.
  Qed.

Lemma safe_createBB nm :
    safe (createBB (Some name) nm) (fun h => n0 <= h).
  Proof.
    intros s (HP & Hf & Hlen & Hbl & Hins).
    unfold createBB, BasicBlock_Create, inside. simpl. split; [|exact Hlen].
    split; [exact HP|]. split; [exact Hf|]. split.
    - rewrite length_app. simpl. lia.
    - split; [|exact Hins].
      intros b bb Hb Hl.
      apply lookup_app_Some in Hl as [Hl|[Hge Hl]]; [eauto|].
      destruct (b - length (blocks s)) as [|k]; simpl in Hl; [|discriminate].
      injection Hl as <-. reflexivity.
  Qed.

Lemma safe_SetInsertPoint h : n0 <= h -> safe (SetInsertPoint h) (fun _ => True).
  Proof.
    intros Hh s (HP & Hf & Hlen & Hbl & Hins).
    unfold SetInsertPoint, modify, inside. simpl. split; [|exact I].
    repeat split; eauto.
  Qed.

Lemma safe_addGlobalValue n g :
    gval_dso_local g = true -> safe (addGlobalValue n g) (fun _ => True).
  Proof.
    intros Hg s (HP & [f Hf] & Hlen & Hbl & Hins).
    destruct (decide (n = "")) as [->|Hne]; [rewrite addGlobalValue_empty; discriminate|].
    destruct (addGlobalValue_spec n g s Hne)
      as (k & s' & Hadd & Hfree & _ & Htab & Hrest).
    rewrite Hadd. split; [|exact I].
    destruct Hrest as (_ & _ & _ & _ & Hb & _ & Hi & _).
    split; [rewrite Htab; now apply Phi_insert|]. split.
    - exists f. rewrite Htab, lookup_insert_ne; [exact Hf|]. intros ->. congruence.
    - rewrite Hb, Hi. repeat split; assumption.
  Qed.

#[local] Hint Resolve safe_getNamedValue safe_getFunction
    safe_getGlobalVariable safe_derefGlobal safe_getInitializer
    safe_globalValue safe_getReturnType safe_getArg safe_verifyFunction
    safe_getTypeByName safe_insertBlockModule safe_Insert safe_createBB
    safe_SetInsertPoint : safe_db.
#[local] Hint Extern 1 (safe (deref _ _) _) =>
    apply safe_deref; discriminate : safe_db.
#[local] Hint Extern 1 (safe (crash _) _) =>
    apply safe_crash; discriminate : safe_db.

Ltac safe_step :=
    first
      [ apply safe_ret; exact I
      | eapply safe_bind; [ solve [ eauto with safe_db ] | intros ? ? ]
      | solve [ eauto with safe_db ] ].
Ltac safe_go := repeat safe_step.

  (** *** The builder *)

Lemma safe_CreateAlloca ty nm : safe (CreateAlloca ty nm) (fun _ => True).
  Proof. unfold CreateAlloca. safe_go. Qed.

Lemma safe_CreateAllocaOf ty nm : safe (CreateAllocaOf ty nm) (fun _ => True).
  Proof. unfold CreateAllocaOf. safe_go. Qed.

Lemma safe_CreateLoad ty p : safe (CreateLoad ty p) (fun _ => True).
  Proof. unfold CreateLoad. safe_go. Qed.

Lemma safe_CreateStore v p : safe (CreateStore v p) (fun _ => True).
  Proof. unfold CreateStore. safe_go. Qed.

Lemma safe_CreateNSWAdd l r : safe (CreateNSWAdd l r) (fun _ => True).
  Proof. unfold CreateNSWAdd. safe_go. Qed.

Lemma safe_CreateICmpSLE l r : safe (CreateICmpSLE l r) (fun _ => True).
  Proof. unfold CreateICmpSLE. safe_go. Qed.

Lemma safe_CreateSExt v t : safe (CreateSExt v t) (fun _ => True).
  Proof. unfold CreateSExt. destruct (Ty_eqb _ _); safe_go. Qed.

Lemma safe_CreateInBoundsGEP t p idx :
    safe (CreateInBoundsGEP t p idx) (fun _ => True).
  Proof.
    unfold CreateInBoundsGEP.
    destruct (isConstant p && forallb isConstant idx); safe_go.
  Qed.

Lemma safe_CreateCall c args : safe (CreateCall c args) (fun _ => True).
  Proof.
    unfold CreateCall. safe_step. safe_step.
    destruct a0 as [[f|g]|]; safe_go.
  Qed.

Lemma safe_CreateBr d : safe (CreateBr d) (fun _ => True).
  Proof. unfold CreateBr. safe_go. Qed.

Lemma safe_CreateCondBr c t f : safe (CreateCondBr c t f) (fun _ => True).
  Proof. unfold CreateCondBr. safe_go. Qed.

Lemma safe_CreateRet v : safe (CreateRet v) (fun _ => True).
  Proof. unfold CreateRet. safe_go. Qed.

Lemma safe_CreateRetVoid : safe CreateRetVoid (fun _ => True).
  Proof. unfold CreateRetVoid. safe_go. Qed.

Lemma safe_CreateGlobalString str nm :
    safe (CreateGlobalString str nm) (fun _ => True).
  Proof.
    unfold CreateGlobalString. safe_step.
    eapply safe_bind; [apply safe_addGlobalValue; reflexivity|].
    intros ? ?. safe_go.
  Qed.

#[local] Hint Resolve safe_CreateAlloca safe_CreateAllocaOf safe_CreateLoad
    safe_CreateStore safe_CreateNSWAdd safe_CreateICmpSLE safe_CreateSExt
    safe_CreateInBoundsGEP safe_CreateCall safe_CreateBr safe_CreateCondBr
    safe_CreateRet safe_CreateRetVoid safe_CreateGlobalString : safe_db.

  (** *** The shared emitters *)

Lemma safe_emitReturn ty v : safe (emitReturn ty v) (fun _ => True).
  Proof. unfold emitReturn. destruct (isVoidTy ty); safe_go. Qed.

Lemma safe_emitLoadValueGlobal gv : safe (emitLoadValueGlobal gv) (fun _ => True).
  Proof. unfold emitLoadValueGlobal. safe_go. Qed.

Lemma safe_emitLoadValue v : safe (emitLoadValue v) (fun _ => True).
  Proof. unfold emitLoadValue. safe_go. Qed.

#[local] Hint Resolve safe_emitReturn safe_emitLoadValueGlobal
    safe_emitLoadValue : safe_db.

Lemma safe_emitLoadGlobalVar n : safe (emitLoadGlobalVar n) (fun _ => True).
  Proof. unfold emitLoadGlobalVar. safe_go. Qed.

Lemma safe_emitAssign l r : safe (emitAssign l r) (fun _ => True).
  Proof. unfold emitAssign. safe_go. Qed.

#[local] Hint Resolve safe_emitLoadGlobalVar safe_emitAssign : safe_db.

Lemma safe_emitStoreGlobalVar v n : safe (emitStoreGlobalVar v n) (fun _ => True).
  Proof. unfold emitStoreGlobalVar. safe_go. Qed.

Lemma safe_genIncrement l k : safe (genIncrement l k) (fun _ => True).
  Proof. unfold genIncrement. safe_go. Qed.

#[local] Hint Resolve safe_emitStoreGlobalVar safe_genIncrement : safe_db.

  (** *** The statement lists *)

Lemma safe_IrBuilder_body :
    safe IrBuilder.emitMainFunctionStatementList (fun _ => True).
  Proof. unfold IrBuilder.emitMainFunctionStatementList. safe_go. Qed.

Lemma safe_LoopFor_body :
    safe (LoopFor.emitMainFunctionStatementList (Some name)) (fun _ => True).
  Proof. unfold LoopFor.emitMainFunctionStatementList. safe_go. Qed.

Lemma safe_LoopWhile_body :
    safe (LoopWhile.emitMainFunctionStatementList (Some name)) (fun _ => True).
  Proof. unfold LoopWhile.emitMainFunctionStatementList. safe_go. Qed.

Lemma safe_getRValue v t : safe (Structs.getRValue v t) (fun _ => True).
  Proof. unfold Structs.getRValue. safe_go. Qed.

Lemma safe_getElementAddr a i : safe (Structs.getElementAddr a i) (fun _ => True).
  Proof. unfold Structs.getElementAddr. safe_go. Qed.

Lemma safe_getStructElementAddr i p :
    safe (Structs.getStructElementAddr i p) (fun _ => True).
  Proof. unfold Structs.getStructElementAddr. safe_go. Qed.

Lemma safe_structTypeAtIndex t i :
    safe (Structs.structTypeAtIndex t i) (fun _ => True).
  Proof.
    unfold Structs.structTypeAtIndex. destruct t; safe_go.
    destruct (_ <? _)%Z; safe_go.
  Qed.

#[local] Hint Resolve safe_getRValue safe_getElementAddr
    safe_getStructElementAddr safe_structTypeAtIndex : safe_db.

Lemma safe_getStructElementRValue a i :
    safe (Structs.getStructElementRValue a i) (fun _ => True).
  Proof. unfold Structs.getStructElementRValue. safe_go. Qed.

Lemma safe_getStructElementLValue a i :
    safe (Structs.getStructElementLValue a i) (fun _ => True).
  Proof. unfold Structs.getStructElementLValue. safe_go. Qed.

Lemma safe_getPointerType t : safe (Structs.getPointerType t) (fun _ => True).
  Proof. unfold Structs.getPointerType. safe_go. Qed.

Lemma safe_emitStringPtr c n : safe (Structs.emitStringPtr c n) (fun _ => True).
  Proof. unfold Structs.emitStringPtr. safe_go. Qed.

#[local] Hint Resolve safe_getStructElementRValue
    safe_getStructElementLValue safe_getPointerType safe_emitStringPtr : safe_db.

Lemma safe_emitPoint : safe Structs.emitPoint (fun _ => True).
  Proof. unfold Structs.emitPoint. safe_go. Qed.

#[local] Hint Resolve safe_emitPoint : safe_db.

Lemma safe_emitMainStatementList :
    safe (Structs.emitMainStatementList (Some name)) (fun _ => True).
  Proof. unfold Structs.emitMainStatementList. safe_go. Qed.

Lemma safe_emitSumStatementList :
    safe (Structs.emitSumStatementList (Some name)) (fun _ => True).
  Proof. unfold Structs.emitSumStatementList. safe_go. Qed.

Lemma safe_emitSwapPtrStatementList :
    safe (Structs.emitSwapPtrStatementList (Some name)) (fun _ => True).
  Proof. unfold Structs.emitSwapPtrStatementList. safe_go. Qed.

Lemma safe_emitSwapArrayStatementList :
    safe (Structs.emitSwapArrayStatementList (Some name)) (fun _ => True).
  Proof. unfold Structs.emitSwapArrayStatementList. safe_go. Qed.

Lemma safe_emitSwapPointStatementList :
    safe (Structs.emitSwapPointStatementList (Some name)) (fun _ => True).
  Proof. unfold Structs.emitSwapPointStatementList. safe_go. Qed.

  (** Every emitter registered in [funImplMap]. *)
Lemma safe_registered e :
    Structs.registerFunctionImpl !! name = Some e ->
    safe (e (Some name)) (fun _ => True).
  Proof.
    unfold Structs.registerFunctionImpl. intros H.
    repeat (apply lookup_insert_Some in H as [[_ <-]|[_ H]];
            [ first [ apply safe_emitMainStatementList
                    | apply safe_emitSumStatementList
                    | apply safe_emitSwapPtrStatementList
                    | apply safe_emitSwapArrayStatementList
                    | apply safe_emitSwapPointStatementList ] | ]).
    rewrite lookup_empty in H. discriminate.
  Qed.

End Safe.

End Body.

(* ===================================================================== *)
(** * [defineFunction]                                                    *)
(* ===================================================================== *)

Module Define.
Import Emitter Symtab Globals Body.

(** A run that ends in a fault. *)
Definition fatal {A} (r : Res A) : Prop := exists c, r = Crash c.

(** The builder inserts into a block that has no parent function. *)
Definition detached (s : State) : Prop :=
  exists b bb, insert_block s = Some b /\ blocks s !! b = Some bb /\
               bb_parent bb = None.

Lemma insertBlockModule_detached s :
  detached s -> insertBlockModule s = Crash NullFunction.
Proof.
  intros (b & bb & Hb & Hbb & Hp).
  unfold insertBlockModule, GetInsertBlock, BasicBlock_getParent, get, bind, deref.
  rewrite Hb. simpl. rewrite Hbb. simpl. rewrite Hp. reflexivity.
Qed.

Lemma CreateAlloca_detached ty nm s :
  detached s -> CreateAlloca ty nm s = Crash NullFunction.
Proof.
  intros H. unfold CreateAlloca.
  apply bind_crash, insertBlockModule_detached, H.
Qed.

Lemma CreateLoad_detached ty p s :
  detached s -> CreateLoad ty p s = Crash NullFunction.
Proof.
  intros H. unfold CreateLoad.
  apply bind_crash, insertBlockModule_detached, H.
Qed.

Lemma createBB_detached fn nm s :
  detached s ->
  exists s', createBB fn nm s = Ok (length (blocks s)) s' /\ detached s'.
Proof.
  intros (b & bb & Hb & Hbb & Hp). eexists. split; [reflexivity|].
  exists b, bb. simpl. repeat split; try assumption.
  apply lookup_app_l_Some. exact Hbb.
Qed.

(** The entry block created for a null function is detached. *)
Lemma entry_detached s :
  exists s',
    (let* entry := createBB None "entry" in SetInsertPoint entry) s = Ok tt s' /\
    detached s'.
Proof.
  eexists. split; [reflexivity|].
  exists (length (blocks s)),
         {| bb_name := "entry"; bb_parent := None; bb_insts := [] |}.
  simpl. split; [reflexivity|].
  split; [|reflexivity]. rewrite lookup_app_r by lia.
  rewrite Nat.sub_diag. reflexivity.
Qed.

Lemma emitLoadGlobalVar_detached n s :
  detached s -> fatal (emitLoadGlobalVar n s).
Proof.
  intros H. unfold emitLoadGlobalVar, emitLoadValueGlobal, getInitializer,
    globalValue, derefGlobal, getGlobalVariable, getNamedValue, deref, bind.
  destruct (mod_symtab s !! n) as [[f|g]|] eqn:E; simpl; try (eexists; reflexivity).
  destruct (negb _); simpl; [|eexists; reflexivity].
  rewrite E. simpl.
  destruct (gv_init g); simpl; [|eexists; reflexivity].
  rewrite E. simpl. rewrite (CreateLoad_detached _ _ _ H). eexists; reflexivity.
Qed.

Lemma not_function name s :
  (forall f, mod_symtab s !! name <> Some (GFunction f)) ->
  getFunction name s = Ok None s.
Proof.
  intros H. rewrite getFunction_eq.
  destruct (mod_symtab s !! name) as [[f|g]|] eqn:E; try reflexivity.
  now elim (H f).
Qed.

Lemma is_function name s f :
  mod_symtab s !! name = Some (GFunction f) ->
  getFunction name s = Ok (Some name) s.
Proof. intros H. rewrite getFunction_eq, H. reflexivity. Qed.

(** ** Definition before declaration *)

Lemma IrBuilder_undeclared name s :
  (forall f, mod_symtab s !! name <> Some (GFunction f)) ->
  fatal (IrBuilder.defineFunction name s).
Proof.
  intros H. unfold IrBuilder.defineFunction.
  rewrite (bind_ok _ _ _ _ _ (not_function _ _ H)).
  destruct (entry_detached s) as (s' & Hs' & Hd).
  unfold IrBuilder.emitFunctionBody.
  change (BasicBlock_Create "entry" None) with (createBB None "entry").
  unfold createBB, BasicBlock_Create, SetInsertPoint, modify in *.
  unfold bind at 1 2 3. simpl. unfold bind in Hs'. simpl in Hs'.
  injection Hs' as Hs'. rewrite Hs'.
  unfold IrBuilder.emitMainFunctionStatementList, bind.
  destruct (emitLoadGlobalVar_detached "i_32" s' Hd) as [c Hc].
  unfold bind in Hc. rewrite Hc. eexists; reflexivity.
Qed.

Lemma LoopFor_undeclared name s :
  (forall f, mod_symtab s !! name <> Some (GFunction f)) ->
  LoopFor.defineFunction name s = Crash NullFunction.
Proof.
  intros H. unfold LoopFor.defineFunction.
  rewrite (bind_ok _ _ _ _ _ (not_function _ _ H)).
  apply bind_crash. unfold LoopFor.emitFunctionBody.
  destruct (entry_detached s) as (s0 & Hs0 & Hd0).
  unfold bind in Hs0.
  destruct (createBB None "entry" s) as [entry s0'|] eqn:E0; [|discriminate].
  rewrite (bind_ok _ _ _ _ _ E0). rewrite (bind_ok _ _ _ _ _ Hs0).
  apply bind_crash. unfold LoopFor.emitMainFunctionStatementList.
  destruct (createBB_detached None "condition" s0 Hd0) as (s1 & E1 & Hd1).
  rewrite (bind_ok _ _ _ _ _ E1).
  destruct (createBB_detached None "body" s1 Hd1) as (s2 & E2 & Hd2).
  rewrite (bind_ok _ _ _ _ _ E2).
  destruct (createBB_detached None "increment" s2 Hd2) as (s3 & E3 & Hd3).
  rewrite (bind_ok _ _ _ _ _ E3).
  destruct (createBB_detached None "end" s3 Hd3) as (s4 & E4 & Hd4).
  rewrite (bind_ok _ _ _ _ _ E4).
  apply bind_crash, CreateAlloca_detached, Hd4.
Qed.

Lemma LoopWhile_undeclared name s :
  (forall f, mod_symtab s !! name <> Some (GFunction f)) ->
  LoopWhile.defineFunction name s = Crash NullFunction.
Proof.
  intros H. unfold LoopWhile.defineFunction.
  rewrite (bind_ok _ _ _ _ _ (not_function _ _ H)).
  apply bind_crash. unfold LoopWhile.emitFunctionBody.
  destruct (entry_detached s) as (s0 & Hs0 & Hd0).
  unfold bind in Hs0.
  destruct (createBB None "entry" s) as [entry s0'|] eqn:E0; [|discriminate].
  rewrite (bind_ok _ _ _ _ _ E0). rewrite (bind_ok _ _ _ _ _ Hs0).
  apply bind_crash. unfold LoopWhile.emitMainFunctionStatementList.
  destruct (createBB_detached None "condition" s0 Hd0) as (s1 & E1 & Hd1).
  rewrite (bind_ok _ _ _ _ _ E1).
  destruct (createBB_detached None "body" s1 Hd1) as (s2 & E2 & Hd2).
  rewrite (bind_ok _ _ _ _ _ E2).
  destruct (createBB_detached None "end" s2 Hd2) as (s3 & E3 & Hd3).
  rewrite (bind_ok _ _ _ _ _ E3).
  apply bind_crash, CreateAlloca_detached, Hd3.
Qed.

(** In structs.cpp the body comes from [funImplMap].  Whatever the table
    holds: the pointer taken from it is null, or the emitter it names stops
    on a fault, or it returns and [fn->getReturnType()] dereferences the
    null function. *)
Lemma Structs_undeclared impl name s :
  (forall f, mod_symtab s !! name <> Some (GFunction f)) ->
  fatal (Structs.defineFunction impl name s).
Proof.
  intros H. unfold Structs.defineFunction.
  rewrite (bind_ok _ _ _ _ _ (not_function _ _ H)).
  unfold Structs.emitFunctionBody, bind at 1 2 3. simpl.
  unfold SetInsertPoint, modify, bind at 1. simpl.
  unfold bind at 1. destruct (impl !! name) as [e|]; simpl; [|eexists; reflexivity].
  unfold bind at 1.
  destruct (e None _) as [v s'|c]; [|eexists; reflexivity].
  eexists; reflexivity.
Qed.

(** ** Definition after declaration *)

Section Declared.
Variable Phi : gmap string GlobalValue -> Prop.
Hypothesis Phi_insert : forall tab n g,
    Phi tab -> tab !! n = None -> gval_dso_local g = true ->
    Phi (<[n := g]> tab).

  (** The outcome of a definition that started in a module satisfying
      [Phi]: no null function was dereferenced, and a module that satisfies
      [Phi] and still has the function is left. *)
Definition defined_well (name : string) (r : Res unit) : Prop :=
    match r with
    | Ok _ s' => Phi (mod_symtab s') /\
                 exists f, mod_symtab s' !! name = Some (GFunction f)
    | Crash c => c <> NullFunction
    end.

Lemma safe_defined_well name n0 (m : Emit unit) s :
    safe Phi name n0 m (fun _ => True) -> inside Phi name n0 s ->
    defined_well name (m s).
  Proof.
    intros Hm Hs. specialize (Hm s Hs). unfold defined_well.
    destruct (m s) as [[] s'|c]; [|exact Hm].
    destruct Hm as [(HP & Hf & _) _]. auto.
  Qed.

Lemma bind_bind_ok {A B C} (m : Emit A) (k : A -> Emit B) (k' : B -> Emit C)
      s a s' :
    m s = Ok a s' -> bind (bind m k) k' s = bind (k a) k' s'.
  Proof. intros H. unfold bind. rewrite H. reflexivity. Qed.

  (** The state in which the statement list of [name] is emitted: the entry
      block of the function was created and the builder moved there. *)
Definition at_entry (name : string) (s : State) : State :=
    set_insert_block (Some (length (blocks s)))
      (set_blocks (blocks s ++ [{| bb_name := "entry"; bb_parent := Some name;
                                   bb_insts := [] |}]) s).

Lemma at_entry_inside name s f :
    mod_symtab s !! name = Some (GFunction f) -> Phi (mod_symtab s) ->
    inside Phi name (length (blocks s)) (at_entry name s).
  Proof.
    intros Hf HP. unfold inside, at_entry. simpl.
    split; [exact HP|]. split; [eauto|]. split.
    { rewrite length_app. simpl. lia. }
    split; [|eauto].
    intros b bb Hb Hl.
    apply lookup_app_Some in Hl as [Hl|[Hge Hl]].
    { apply lookup_lt_Some in Hl. lia. }
    destruct (b - length (blocks s)) as [|k]; simpl in Hl; [|discriminate].
    injection Hl as <-. reflexivity.
  Qed.

  (** The end of every [defineFunction]: the return type of the function is
      read, the return is emitted, the function is verified. *)
Lemma safe_finish name n0 (body : Emit (option Value)) :
    safe Phi name n0 body (fun _ => True) ->
    safe Phi name n0
      ((let* value := body in
        let* ty := getReturnType (Some name) in emitReturn ty value) ;;;
       verifyFunction (Some name))
      (fun _ => True).
  Proof.
    intros Hb. eapply safe_bind.
    - eapply safe_bind; [exact Hb|]. intros v _.
      eapply safe_bind; [apply safe_getReturnType|]. intros ty _.
      apply safe_emitReturn.
    - intros _ _. apply safe_verifyFunction.
  Qed.

Lemma IrBuilder_declared name s f :
    mod_symtab s !! name = Some (GFunction f) -> Phi (mod_symtab s) ->
    defined_well name (IrBuilder.defineFunction name s).
  Proof.
    intros Hf HP. unfold IrBuilder.defineFunction.
    rewrite (bind_ok _ _ _ _ _ (is_function _ _ _ Hf)).
    unfold IrBuilder.emitFunctionBody.
    erewrite bind_bind_ok by reflexivity.
    erewrite bind_bind_ok by reflexivity.
    apply (safe_defined_well name (length (blocks s)) _ (at_entry name s)).
    - apply safe_finish, safe_IrBuilder_body.
    - apply (at_entry_inside name s f Hf HP).
  Qed.

Lemma LoopFor_declared name s f :
    mod_symtab s !! name = Some (GFunction f) -> Phi (mod_symtab s) ->
    defined_well name (LoopFor.defineFunction name s).
  Proof.
    intros Hf HP. unfold LoopFor.defineFunction.
    rewrite (bind_ok _ _ _ _ _ (is_function _ _ _ Hf)).
    unfold LoopFor.emitFunctionBody.
    erewrite bind_bind_ok by reflexivity.
    erewrite bind_bind_ok by reflexivity.
    apply (safe_defined_well name (length (blocks s)) _ (at_entry name s)).
    - apply safe_finish, safe_LoopFor_body.
    - apply (at_entry_inside name s f Hf HP).
  Qed.

Lemma LoopWhile_declared name s f :
    mod_symtab s !! name = Some (GFunction f) -> Phi (mod_symtab s) ->
    defined_well name (LoopWhile.defineFunction name s).
  Proof.
    intros Hf HP. unfold LoopWhile.defineFunction.
    rewrite (bind_ok _ _ _ _ _ (is_function _ _ _ Hf)).
    unfold LoopWhile.emitFunctionBody.
    erewrite bind_bind_ok by reflexivity.
    erewrite bind_bind_ok by reflexivity.
    apply (safe_defined_well name (length (blocks s)) _ (at_entry name s)).
    - apply safe_finish, safe_LoopWhile_body.
    - apply (at_entry_inside name s f Hf HP).
  Qed.

Lemma Structs_declared name s f :
    mod_symtab s !! name = Some (GFunction f) -> Phi (mod_symtab s) ->
    defined_well name
      (Structs.defineFunction Structs.registerFunctionImpl name s).
  Proof.
    intros Hf HP. unfold Structs.defineFunction.
    rewrite (bind_ok _ _ _ _ _ (is_function _ _ _ Hf)).
    unfold Structs.emitFunctionBody.
    erewrite bind_bind_ok by reflexivity.
    erewrite bind_bind_ok by reflexivity.
    destruct (Structs.registerFunctionImpl !! name) as [e|] eqn:He.
    - erewrite bind_bind_ok by reflexivity.
      apply (safe_defined_well name (length (blocks s)) _ (at_entry name s)).
      + apply safe_finish. apply safe_registered; assumption.
      + apply (at_entry_inside name s f Hf HP).
    - simpl. unfold bind. simpl. discriminate.
  Qed.

End Declared.











End Define.

(* ===================================================================== *)
(** * Sequences of emitter calls                                          *)
(* ===================================================================== *)

(** The entry points through which the drivers of the source files change
    the module, and sequences of them. *)
Module Calls.
Import Emitter Symtab Globals Body Define.

Inductive Call :=
| RegisterProto (name : string) (p : FunProto)
| DeclareFunction (name : string)
| DefineGlobalVariable (type : Ty) (name : string) (init : Value)
| DefineGlobalVariableInit (name : string) (init : Value)
| EmitConstant (ty : Ty) (name : string) (init : Value)
| EmitStringPtr (content name : string)
| DefineFunctionIrBuilder (name : string)
| DefineFunctionLoopFor (name : string)
| DefineFunctionLoopWhile (name : string)
| DefineFunctionStructs (name : string).

Definition perform (c : Call) : Emit unit :=
  match c with
  | RegisterProto name p => funProtoMap_set name p
  | DeclareFunction name => let* _ := declareFunction name in ret tt
  | DefineGlobalVariable type name init =>
      let* _ := defineGlobalVariable type name init in ret tt
  | DefineGlobalVariableInit name init =>
      let* _ := defineGlobalVariableInit name init in ret tt
  | EmitConstant ty name init => emitConstant ty name init
  | EmitStringPtr content name =>
      let* _ := Structs.emitStringPtr content name in ret tt
  | DefineFunctionIrBuilder name => IrBuilder.defineFunction name
  | DefineFunctionLoopFor name => LoopFor.defineFunction name
  | DefineFunctionLoopWhile name => LoopWhile.defineFunction name
  | DefineFunctionStructs name =>
      Structs.defineFunction Structs.registerFunctionImpl name
  end.

Fixpoint performAll (cs : list Call) : Emit unit :=
  match cs with
  | [] => ret tt
  | c :: cs' => perform c ;;; performAll cs'
  end.

(** What a call makes of the initializer of a global: the name it defines
    and the initializer it gives it, if it is a definition.  The name of the
    constant of [emitConstant] depends on the function being emitted. *)
Definition constantName (s : State) (name : string) : option string :=
  match insert_block s with
  | Some b =>
      match blocks s !! b with
      | Some bb =>
          match bb_parent bb with
          | Some funcName => Some ("__constant." +:+ funcName +:+ "." +:+ name)
          | None => None
          end
      | None => None
      end
  | None => None
  end.

Definition defines (c : Call) (s : State) : option (string * Value) :=
  match c with
  | DefineGlobalVariable _ name init => Some (name, init)
  | DefineGlobalVariableInit name init => Some (name, init)
  | EmitConstant _ name init =>
      match constantName s name with
      | Some n => Some (n, init)
      | None => None
      end
  | _ => None
  end.

Lemma declareFunction_inv_creates name s h s' :
  declareFunction name s = Ok h s' ->
  (forall f, mod_symtab s !! name <> Some (GFunction f)) ->
  exists n p r,
    (forall f, mod_symtab s !! name <> Some (GFunction f)) /\
    h = Some n /\ mod_symtab s !! n = None /\
    mod_symtab s' = <[n := GFunction (declared p r)]> (mod_symtab s) /\
    same_but_symtab s s'.
Proof.
  intros H Hnf.
  destruct (funProtoMap s !! name) as [p|] eqn:Hp.
  2:{ rewrite (declareFunction_unregistered _ _ Hnf Hp) in H. discriminate. }
  destruct (returnType p) as [r|] eqn:Hr.
  2:{ exfalso. revert H. unfold declareFunction.
      rewrite (bind_ok _ _ _ _ _ (not_function _ _ Hnf)).
      unfold funProtoMap_at, FunctionType_get, bind. rewrite Hp, Hr. discriminate. }
  destruct (decide (name = "")) as [->|Hne].
  { exfalso. revert H. unfold declareFunction.
    rewrite (bind_ok _ _ _ _ _ (not_function _ _ Hnf)).
    unfold funProtoMap_at, FunctionType_get, Function_Create, bind.
    rewrite Hp, Hr. simpl. discriminate. }
  destruct (declareFunction_creates name s p r Hnf Hne Hp Hr)
    as (n & s1 & H1 & Hfree & _ & Htab & Hrest).
  rewrite H1 in H. injection H as <- <-.
  exists n, p, r. repeat split; try assumption; apply Hrest.
Qed.

(** ** How a call changes the symbol table *)

(** What a call can do to the entry of a name: leave it, add a dso_local
    value under a name that was free, or give a global variable the
    initializer the call defines, its value type staying what it was. *)
Definition entry_effect (c : Call) (s : State)
    (old new : option GlobalValue) (k : string) : Prop :=
  new = old \/
  (old = None /\ exists g, new = Some g /\ gval_dso_local g = true) \/
  (exists g g' i,
     old = Some (GVariable g) /\ defines c s = Some (k, i) /\
     new = Some (GVariable g') /\ gv_valty g' = gv_valty g /\
     gv_init g' = Some i /\ gv_dso_local g' = true).

Definition effect (c : Call) (s s' : State) : Prop :=
  forall k, entry_effect c s (mod_symtab s !! k) (mod_symtab s' !! k) k.

Lemma bind_inv {A B} (m : Emit A) (k : A -> Emit B) s b s' :
  bind m k s = Ok b s' -> exists a s1, m s = Ok a s1 /\ k a s1 = Ok b s'.
Proof.
  unfold bind. destruct (m s) as [a s1|]; [|discriminate]. eauto.
Qed.

Lemma effect_unchanged c s s' : mod_symtab s' = mod_symtab s -> effect c s s'.
Proof. intros H k. left. now rewrite H. Qed.

(** One entry written by a definition. *)
Lemma effect_defined c s s' name init g :
  defines c s = Some (name, init) ->
  mod_symtab s' = <[name := GVariable g]> (mod_symtab s) ->
  (forall f, mod_symtab s !! name <> Some (GFunction f)) ->
  gv_init g = Some init -> gv_dso_local g = true ->
  gv_valty g = match mod_symtab s !! name with
               | Some (GVariable g0) => gv_valty g0
               | _ => gv_valty g
               end ->
  effect c s s'.
Proof.
  intros Hd Ht Hnf Hi Hl Hv k. rewrite Ht.
  destruct (decide (k = name)) as [->|Hne].
  - rewrite lookup_insert_eq.
    destruct (mod_symtab s !! name) as [[f|g0]|] eqn:E.
    + now elim (Hnf f).
    + right; right. exists g0, g, init. repeat split; assumption.
    + right; left. split; [reflexivity|]. exists (GVariable g). split; [reflexivity|exact Hl].
  - left. apply lookup_insert_ne. congruence.
Qed.

Lemma defineGlobalVariable_not_function type name init s h s' :
  defineGlobalVariable type name init s = Ok h s' ->
  forall f, mod_symtab s !! name <> Some (GFunction f).
Proof.
  intros H f E.
  destruct (decide (name = "")) as [->|Hne].
  - rewrite defineGlobalVariable_unnamed in H; [discriminate|].
    intros g Hg. congruence.
  - rewrite (defineGlobalVariable_function _ _ _ _ _ E Hne) in H. discriminate.
Qed.

Lemma effect_define c type name init s h s' :
  defines c s = Some (name, init) ->
  defineGlobalVariable type name init s = Ok h s' ->
  effect c s s'.
Proof.
  intros Hd H.
  pose proof (defineGlobalVariable_not_function _ _ _ _ _ _ H) as Hnf.
  destruct (defineGlobalVariable_defines _ _ _ _ _ _ H)
    as (_ & g & _ & Hi & Hl & _ & Ht & Hv).
  apply (effect_defined c s s' name init g); try assumption.
  rewrite Hv. destruct (mod_symtab s !! name) as [[f|g0]|]; reflexivity.
Qed.

(** What [declareFunction] leaves when it returns. *)
Lemma declareFunction_inv name s h s' :
  declareFunction name s = Ok h s' ->
  (s' = s /\ h = Some name /\
   exists f, mod_symtab s !! name = Some (GFunction f)) \/
  (exists n p r,
     (forall f, mod_symtab s !! name <> Some (GFunction f)) /\
     h = Some n /\ mod_symtab s !! n = None /\
     mod_symtab s' = <[n := GFunction (declared p r)]> (mod_symtab s) /\
     same_but_symtab s s').
Proof.
  intros H.
  assert (Hcase : (exists f, mod_symtab s !! name = Some (GFunction f)) \/
                  (forall f, mod_symtab s !! name <> Some (GFunction f))).
  { destruct (mod_symtab s !! name) as [[f|g]|]; eauto; right; congruence. }
  destruct Hcase as [[f E]|Hnf].
  - rewrite (declareFunction_existing _ _ _ E) in H. injection H as <- <-.
    left. eauto.
  - right. apply (declareFunction_inv_creates name s h s' H Hnf).
Qed.

Lemma effect_added c s s' n g :
  mod_symtab s !! n = None -> gval_dso_local g = true ->
  mod_symtab s' = <[n := g]> (mod_symtab s) ->
  effect c s s'.
Proof.
  intros Hfree Hg Ht k. rewrite Ht.
  destruct (decide (k = n)) as [->|Hne].
  - rewrite lookup_insert_eq, Hfree. right; left. eauto.
  - left. apply lookup_insert_ne. congruence.
Qed.

(** The table grew from [t] by dso_local values under free names. *)
Definition grown (t t' : gmap string GlobalValue) : Prop :=
  forall k, t' !! k = t !! k \/
            (t !! k = None /\ exists g, t' !! k = Some g /\
                                        gval_dso_local g = true).

Lemma grown_refl t : grown t t.
Proof. intros k. now left. Qed.

Lemma grown_insert t tab n g :
  grown t tab -> tab !! n = None -> gval_dso_local g = true ->
  grown t (<[n := g]> tab).
Proof.
  intros H Hfree Hg k.
  destruct (decide (k = n)) as [->|Hne].
  - rewrite lookup_insert_eq. right. split; [|eauto].
    destruct (H n) as [E|(E & _)]; congruence.
  - rewrite lookup_insert_ne by congruence. apply H.
Qed.

Lemma effect_grown c s s' : grown (mod_symtab s) (mod_symtab s') -> effect c s s'.
Proof.
  intros H k. destruct (H k) as [E|(E & g & E' & Hg)].
  - now left.
  - right; left. rewrite E, E'. eauto.
Qed.

Lemma insertBlockModule_inv s u s' : insertBlockModule s = Ok u s' -> s' = s.
Proof.
  unfold insertBlockModule, GetInsertBlock, BasicBlock_getParent, get, bind, deref, ret, crash.
  destruct (insert_block s) as [b|]; simpl; [|discriminate].
  destruct (blocks s !! b) as [bb|]; simpl; [|discriminate].
  destruct (bb_parent bb); simpl; [|discriminate].
  intros H. now injection H.
Qed.

Lemma fatal_not_ok {A} (r : Res A) a s : fatal r -> r <> Ok a s.
Proof. intros [c ->]. discriminate. Qed.

Section DefineFunction.
Variable define : string -> Emit unit.
Hypothesis undeclared : forall name s,
    (forall f, mod_symtab s !! name <> Some (GFunction f)) ->
    fatal (define name s).
Hypothesis declared : forall (Phi : gmap string GlobalValue -> Prop),
    (forall tab n g, Phi tab -> tab !! n = None ->
                     gval_dso_local g = true -> Phi (<[n := g]> tab)) ->
    forall name s f,
      mod_symtab s !! name = Some (GFunction f) -> Phi (mod_symtab s) ->
      defined_well Phi name (define name s).

Lemma effect_defineFunction c name s s' :
    define name s = Ok tt s' -> effect c s s'.
  Proof.
    intros H. apply effect_grown.
    assert (Hcase : (exists f, mod_symtab s !! name = Some (GFunction f)) \/
                    (forall f, mod_symtab s !! name <> Some (GFunction f))).
    { destruct (mod_symtab s !! name) as [[f|g]|]; eauto; right; congruence. }
    destruct Hcase as [[f E]|Hnf].
    - pose proof (declared (grown (mod_symtab s)) (grown_insert _) name s f E
                    (grown_refl _)) as Hw.
      rewrite H in Hw. apply Hw.
    - now elim (fatal_not_ok _ tt s' (undeclared name s Hnf)).
  Qed.
End DefineFunction.

Lemma emitConstant_inv ty name init s s' :
  emitConstant ty name init s = Ok tt s' ->
  exists n g,
    constantName s name = Some n /\
    (forall f, mod_symtab s !! n <> Some (GFunction f)) /\
    mod_symtab s' = <[n := GVariable g]> (mod_symtab s) /\
    gv_init g = Some init /\ gv_dso_local g = true /\
    gv_linkage g = PrivateLinkage /\ gv_constant g = true /\
    gv_valty g = match mod_symtab s !! n with
                 | Some (GVariable g0) => gv_valty g0
                 | _ => ty
                 end.
Proof.
  unfold emitConstant, constantName, GetInsertBlock, BasicBlock_getParent, get.
  intros H.
  apply bind_inv in H as (bb & s1 & H1 & H). injection H1 as <- <-.
  apply bind_inv in H as (parent & s1 & H1 & H).
  destruct (insert_block s) as [b|]; [|discriminate].
  simpl in H1. unfold bind, ret, deref in H1. simpl in H1.
  destruct (blocks s !! b) as [blk|]; [|discriminate]. simpl in H1.
  injection H1 as <- <-.
  apply bind_inv in H as (funcName & s1 & H1 & H).
  destruct (bb_parent blk) as [fn|]; [|discriminate]. injection H1 as <- <-.
  apply bind_inv in H as (h & s1 & H1 & H).
  pose proof (defineGlobalVariable_not_function _ _ _ _ _ _ H1) as Hnf.
  destruct (defineGlobalVariable_defines _ _ _ _ _ _ H1)
    as (-> & g & Hg & Hi & Hl & _ & Ht & Hv).
  apply bind_inv in H as ([] & s2 & H2 & H).
  rewrite (setConstant_variable _ _ _ Hg) in H2. injection H2 as <-.
  unfold setLinkage in H. erewrite updateGlobal_variable in H.
  2:{ simpl. apply lookup_insert_eq. }
  injection H as <-. simpl.
  eexists _, _. split; [reflexivity|]. split; [exact Hnf|]. split.
  { rewrite insert_insert_eq, Ht, insert_insert_eq. reflexivity. }
  simpl. repeat split; assumption.
Qed.

Lemma effect_perform c s s' : perform c s = Ok tt s' -> effect c s s'.
Proof.
  destruct c as [name p|name|type name init|name init|ty name init
                |content name|name|name|name|name]; simpl; intros H.
  - injection H as <-. now apply effect_unchanged.
  - apply bind_inv in H as (h & s1 & H1 & H). injection H as <-.
    apply declareFunction_inv in H1
      as [(-> & _)|(n & p & r & _ & _ & Hfree & Ht & _)].
    + now apply effect_unchanged.
    + eapply effect_added; [exact Hfree| |exact Ht]. reflexivity.
  - apply bind_inv in H as (h & s1 & H1 & H). injection H as <-.
    eapply effect_define; [reflexivity|exact H1].
  - apply bind_inv in H as (h & s1 & H1 & H). injection H as <-.
    eapply effect_define; [reflexivity|exact H1].
  - apply emitConstant_inv in H
      as (n & g & Hn & Hnf & Ht & Hi & Hl & _ & _ & Hv).
    apply (effect_defined _ s s' n init g); try assumption.
    + simpl. rewrite Hn. reflexivity.
    + rewrite Hv. destruct (mod_symtab s !! n) as [[f|g0]|]; reflexivity.
  - apply bind_inv in H as (h & s1 & H1 & H). injection H as <-.
    unfold Structs.emitStringPtr, CreateGlobalString in H1.
    apply bind_inv in H1 as (h' & s2 & H1 & H). unfold ret in H. injection H as <- <-.
    apply bind_inv in H1 as ([] & s3 & H1 & H).
    apply insertBlockModule_inv in H1 as ->.
    apply bind_inv in H as (n & s4 & H1 & H). injection H as <- <-.
    destruct (decide ("." +:+ name = "")) as [E|Hne]; [discriminate|].
    destruct (addGlobalValue_spec ("." +:+ name)
                (GVariable {| gv_valty := getType (ConstantDataString content);
                              gv_init := Some (ConstantDataString content);
                              gv_linkage := PrivateLinkage;
                              gv_dso_local := true; gv_constant := true |})
                s Hne) as (n' & s' & Hadd & Hfree & _ & Ht & _).
    rewrite Hadd in H1. injection H1 as <- <-.
    eapply effect_added; [exact Hfree| |exact Ht]. reflexivity.
  - apply (effect_defineFunction IrBuilder.defineFunction
             IrBuilder_undeclared (fun Phi _ => IrBuilder_declared Phi)
             _ name s s' H).
  - apply (effect_defineFunction LoopFor.defineFunction
             (fun n s0 Hn => ex_intro _ NullFunction (LoopFor_undeclared n s0 Hn))
             (fun Phi _ => LoopFor_declared Phi) _ name s s' H).
  - apply (effect_defineFunction LoopWhile.defineFunction
             (fun n s0 Hn => ex_intro _ NullFunction (LoopWhile_undeclared n s0 Hn))
             (fun Phi _ => LoopWhile_declared Phi) _ name s s' H).
  - apply (effect_defineFunction
             (Structs.defineFunction Structs.registerFunctionImpl)
             (Structs_undeclared Structs.registerFunctionImpl)
             Structs_declared _ name s s' H).
Qed.

(** ** dso_local *)

Definition all_dso_local (s : State) : Prop :=
  map_Forall (fun _ g => gval_dso_local g = true) (mod_symtab s).

Lemma effect_dso_local c s s' :
  effect c s s' -> all_dso_local s -> all_dso_local s'.
Proof.
  intros He Hs k g Hk.
  destruct (He k) as [E|[(E & g' & E' & Hg)|(g0 & g' & i & E & _ & E' & _ & _ & Hg)]].
  - apply (Hs k). congruence.
  - congruence.
  - rewrite Hk in E'. injection E' as ->. exact Hg.
Qed.

Lemma performAll_dso_local cs : forall s s',
  performAll cs s = Ok tt s' -> all_dso_local s -> all_dso_local s'.
Proof.
  induction cs as [|c cs IH]; intros s s' H Hs; simpl in H.
  - injection H as <-. exact Hs.
  - apply bind_inv in H as ([] & s1 & H1 & H).
    apply (IH s1 s' H). apply (effect_dso_local c s s1); [|exact Hs].
    now apply effect_perform.
Qed.

(** C10. The global variable that [defineGlobalVariable] returns, created
    or found, is dso_local when the call returns; so is the function that
    [declareFunction] creates; and after any sequence of calls of the
    emitter from the empty module, every value in the symbol table of the
    module is dso_local. *)
Theorem everything_is_dso_local :
  (forall type name init s h s',
     defineGlobalVariable type name init s = Ok h s' ->
     exists g, h = Some name /\ mod_symtab s' !! name = Some (GVariable g) /\
               gv_dso_local g = true) /\
  (forall name s h s',
     (forall f, mod_symtab s !! name <> Some (GFunction f)) ->
     declareFunction name s = Ok h s' ->
     exists n f, h = Some n /\ mod_symtab s' !! n = Some (GFunction f) /\
                 fn_linkage f = ExternalLinkage /\ fn_dso_local f = true) /\
  (forall cs s, performAll cs initializeModule = Ok tt s -> all_dso_local s).
Proof.
  split; [|split].
  - intros type name init s h s' H.
    destruct (defineGlobalVariable_defines _ _ _ _ _ _ H)
      as (-> & g & Hg & _ & Hl & _).
    eauto.
  - intros name s h s' Hnf H.
    destruct (declareFunction_inv_creates _ _ _ _ H Hnf)
      as (n & p & r & _ & -> & _ & Ht & _).
    exists n, (declared p r). rewrite Ht, lookup_insert_eq. auto.
  - intros cs s H. apply (performAll_dso_local cs _ _ H).
    apply map_Forall_empty.
Qed.

Definition loop_calls : list Call :=
  [RegisterProto "main" {| returnType := Some getInt32Ty; params := [];
                           isVarArg := false |};
   DefineGlobalVariableInit "start" (getInt32 1);
   DefineGlobalVariableInit "end" (getInt32 10);
   DefineGlobalVariableInit "result" (getInt32 0);
   DeclareFunction "main";
   DefineFunctionLoopFor "main"].

Definition after_loop_calls : State :=
  match performAll loop_calls initializeModule with
  | Ok _ s => s
  | Crash _ => initializeModule
  end.

Lemma everything_is_dso_local_witness : all_dso_local after_loop_calls.
Proof.
  apply (proj2 (proj2 everything_is_dso_local) loop_calls).
  vm_compute. reflexivity.
Defined.

(** ** The type a global is loaded with *)

(** [x] was first defined in [s0] with [init0]; the calls [cs] follow.  The
    statement: the global keeps its value type, and [emitLoadValue] for it
    is the load of the type of [init0]. *)
Definition first_type_is_kept (x : string) (type0 : Ty) (init0 : Value)
    (s0 : State) (cs : list Call) : Prop :=
  forall h s1 s2,
    defineGlobalVariable type0 x init0 s0 = Ok h s1 ->
    performAll cs s1 = Ok tt s2 ->
    exists g1 g,
      mod_symtab s1 !! x = Some (GVariable g1) /\
      mod_symtab s2 !! x = Some (GVariable g) /\
      gv_valty g = gv_valty g1 /\
      emitLoadValueGlobal h s2 =
        CreateLoad (getType init0) (GlobalVariableRef x (gv_valty g)) s2.

(** The later calls never give [x] an initializer of another type. *)
Definition keeps_initializer_type (x : string) (init0 : Value)
    (cs : list Call) : Prop :=
  forall c s i, In c cs -> defines c s = Some (x, i) ->
                getType i = getType init0.

Definition typed_as (x : string) (valty ty : Ty) (s : State) : Prop :=
  exists g i, mod_symtab s !! x = Some (GVariable g) /\
              gv_valty g = valty /\ gv_init g = Some i /\ getType i = ty.

Lemma effect_typed_as c s s' x valty ty :
  effect c s s' ->
  (forall i, defines c s = Some (x, i) -> getType i = ty) ->
  typed_as x valty ty s -> typed_as x valty ty s'.
Proof.
  intros He Hc (g & i & Hg & Hv & Hi & Ht).
  destruct (He x) as [E|[(E & _)|(g0 & g' & i' & E & Hd & E' & Hv' & Hi' & _)]].
  - exists g, i. rewrite E. auto.
  - congruence.
  - exists g', i'. rewrite Hg in E. injection E as <-.
    repeat split; try assumption; [congruence | now apply Hc].
Qed.

Lemma performAll_typed_as x valty ty cs : forall s s',
  performAll cs s = Ok tt s' ->
  (forall c s0 i, In c cs -> defines c s0 = Some (x, i) -> getType i = ty) ->
  typed_as x valty ty s -> typed_as x valty ty s'.
Proof.
  induction cs as [|c cs IH]; intros s s' H Hc Hs; simpl in H.
  - injection H as <-. exact Hs.
  - apply bind_inv in H as ([] & s1 & H1 & H).
    apply (IH s1 s' H).
    + intros c' s0 i Hin. apply Hc. now right.
    + apply (effect_typed_as c s s1); [now apply effect_perform| |exact Hs].
      intros i. apply Hc. now left.
Qed.

Lemma emitLoadValueGlobal_typed x valty ty s :
  typed_as x valty ty s ->
  emitLoadValueGlobal (Some x) s = CreateLoad ty (GlobalVariableRef x valty) s.
Proof.
  intros (g & i & Hg & <- & Hi & <-). unfold emitLoadValueGlobal.
  rewrite (bind_ok _ _ _ _ _ (getInitializer_variable s x g Hg i Hi)).
  rewrite (bind_ok _ _ _ _ _ (globalValue_variable s x g Hg)).
  reflexivity.
Qed.

(** C2 (amended). [emitLoadValue] for a global emits the load of the type
    of the global's current initializer.  After the first definition of the
    global, whatever calls follow, the global keeps its value type; and as
    long as those calls do not define the global again with an initializer
    of another type, every load of it uses the type of the first
    initializer. *)
Theorem load_type_of_global x type0 init0 s0 cs :
  keeps_initializer_type x init0 cs ->
  first_type_is_kept x type0 init0 s0 cs.
Proof.
  intros Hk h s1 s2 H1 H2.
  destruct (defineGlobalVariable_defines _ _ _ _ _ _ H1)
    as (-> & g1 & Hg1 & Hi1 & _).
  assert (Ht : typed_as x (gv_valty g1) (getType init0) s1).
  { exists g1, init0. auto. }
  pose proof (performAll_typed_as _ _ _ cs s1 s2 H2 Hk Ht) as Ht2.
  pose proof (emitLoadValueGlobal_typed _ _ _ _ Ht2) as Hload.
  destruct Ht2 as (g & i & Hg & Hv & _).
  exists g1, g. rewrite Hv. auto.
Qed.

Lemma load_type_of_global_witness :
  first_type_is_kept "start" (IntegerTy 32) (getInt32 1) main_registered
    [DefineGlobalVariableInit "end" (getInt32 10);
     DefineGlobalVariableInit "result" (getInt32 0);
     DeclareFunction "main";
     DefineFunctionLoopFor "main";
     DefineGlobalVariableInit "start" (getInt32 5)].
Proof.
  apply load_type_of_global.
  intros c s i Hin Hd. simpl in Hin.
  repeat (destruct Hin as [<-|Hin]; [simpl in Hd; try discriminate|]);
    try contradiction.
  injection Hd as <-. reflexivity.
Defined.

(** The program of 15_loop_for.cpp, followed by a second definition of
    [start] with a [float] initializer: the global is still of type [i32],
    and the load emitted for it is a load of [float]. *)
Lemma load_type_follows_redefinition :
  ~ first_type_is_kept "start" (IntegerTy 32) (getInt32 1) main_registered
      [DefineGlobalVariableInit "end" (getInt32 10);
       DefineGlobalVariableInit "result" (getInt32 0);
       DeclareFunction "main";
       DefineFunctionLoopFor "main";
       DefineGlobalVariableInit "start" (ConstantFP FloatTy 1)].
Proof.
  intros H.
  edestruct H as (g1 & g & Hg1 & Hg & Hv & Hload).
  - vm_compute. reflexivity.
  - vm_compute. reflexivity.
  - vm_compute in Hg1. injection Hg1 as <-.
    vm_compute in Hv. vm_compute in Hload. rewrite Hv in Hload.
    discriminate.
Qed.

End Calls.

(* ===================================================================== *)
(** * The loops, executed                                                 *)
(* ===================================================================== *)

Module Loops.
Import Sem.
Local Open Scope Z_scope.

(** The blocks emitted by the [main] of 15_loop_for.cpp and of
    16_loop_while.cpp. *)
Definition for_blocks : list BasicBlock :=
  Eval vm_compute in
    match LoopFor.main "" with
    | Ok _ s => blocks s
    | Crash _ => []
    end.

Definition while_blocks : list BasicBlock :=
  Eval vm_compute in
    match LoopWhile.main "" with
    | Ok _ s => blocks s
    | Crash _ => []
    end.

Lemma for_blocks_emitted triple :
  exists s, LoopFor.main triple = Ok tt s /\ blocks s = for_blocks.
Proof. eexists. split; [vm_compute; reflexivity | reflexivity]. Qed.

Lemma while_blocks_emitted triple :
  exists s, LoopWhile.main triple = Ok tt s /\ blocks s = while_blocks.
Proof. eexists. split; [vm_compute; reflexivity | reflexivity]. Qed.

(** ** Running *)

Lemma run_then prog n c c' o :
  step prog c = Running c' -> run prog n c' = o -> run prog (S n) c = o.
Proof. intros H1 H2. simpl. rewrite H1. exact H2. Qed.

Lemma run_done prog n c o :
  step prog c = o -> (forall c', o <> Running c') -> run prog (S n) c = o.
Proof. intros H1 H2. simpl. rewrite H1. destruct o; try reflexivity. now elim (H2 c0). Qed.

Lemma run_add prog n m c c' :
  run prog n c = Running c' -> run prog (n + m) c = run prog m c'.
Proof.
  revert c. induction n as [|n IH]; intros c H; simpl in *.
  - congruence.
  - destruct (step prog c); try discriminate. apply IH. exact H.
Qed.

Section Steps.
Variable prog : list BasicBlock.
Variables (b k : nat) (E : Env) (M : Mem) (n : nat) (T : list nat).

Let here := {| cur := b; pc := k; env := E; mem := M; allocas := n; entered := T |}.

Lemma step_load id t p a v :
    fetch prog b k = Some (id, Load t p) ->
    eval E p = Some (RPtr a) ->
    load M t a = Some v ->
    step prog here =
      Running {| cur := b; pc := S k; env := bind_env id v E; mem := M;
                 allocas := n; entered := T |}.
  Proof. intros H1 H2 H3. unfold step, here; cbn. rewrite H1, H2, H3. reflexivity. Qed.

Lemma step_store id v p x a M' :
    fetch prog b k = Some (id, Store v p) ->
    eval E v = Some x ->
    eval E p = Some (RPtr a) ->
    store M a x = Some M' ->
    step prog here =
      Running {| cur := b; pc := S k; env := E; mem := M';
                 allocas := n; entered := T |}.
  Proof. intros H1 H2 H3 H4. unfold step, here; cbn. rewrite H1, H2, H3, H4. reflexivity. Qed.

Lemma step_add id l r x y v :
    fetch prog b k = Some (id, AddNSW l r) ->
    eval E l = Some x -> eval E r = Some y ->
    add_nsw x y = Some v ->
    step prog here =
      Running {| cur := b; pc := S k; env := bind_env id v E; mem := M;
                 allocas := n; entered := T |}.
  Proof. intros H1 H2 H3 H4. unfold step, here; cbn. rewrite H1, H2, H3, H4. reflexivity. Qed.

Lemma step_icmp id l r x y v :
    fetch prog b k = Some (id, ICmpSLE l r) ->
    eval E l = Some x -> eval E r = Some y ->
    icmp_sle x y = Some v ->
    step prog here =
      Running {| cur := b; pc := S k; env := bind_env id v E; mem := M;
                 allocas := n; entered := T |}.
  Proof. intros H1 H2 H3 H4. unfold step, here; cbn. rewrite H1, H2, H3, H4. reflexivity. Qed.

Lemma step_alloca id t name :
    fetch prog b k = Some (id, Alloca t name) ->
    step prog here =
      Running {| cur := b; pc := S k;
                 env := bind_env id (RPtr {| a_block := StackBlock n; a_path := [0] |}) E;
                 mem := set_object M (StackBlock n) (undef_of t);
                 allocas := S n; entered := T |}.
  Proof. intros H1. unfold step, here; cbn. rewrite H1. reflexivity. Qed.

Lemma step_br id dest :
    fetch prog b k = Some (id, Br dest) ->
    step prog here =
      Running {| cur := dest; pc := 0; env := E; mem := M;
                 allocas := n; entered := dest :: T |}.
  Proof. intros H1. unfold step, here; cbn. rewrite H1. reflexivity. Qed.

Lemma step_condbr id cond t f z :
    fetch prog b k = Some (id, CondBr cond t f) ->
    eval E cond = Some (RInt 1 z) ->
    step prog here =
      Running {| cur := (if z =? 0 then f else t); pc := 0; env := E; mem := M;
                 allocas := n; entered := (if z =? 0 then f else t) :: T |}.
  Proof. intros H1 H2. unfold step, here; cbn. rewrite H1, H2. reflexivity. Qed.

Lemma step_ret id v x :
    fetch prog b k = Some (id, Ret (Some v)) ->
    eval E v = Some x ->
    step prog here = Returned (Some x) here.
  Proof. intros H1 H2. unfold step, here; cbn. rewrite H1, H2. reflexivity. Qed.
End Steps.

Lemma load_object M t blk v :
  object M blk = Some (MScalar v) -> has_type v t = true ->
  load M t {| a_block := blk; a_path := [0] |} = Some v.
Proof. intros H1 H2. unfold load; cbn. rewrite H1. cbn. rewrite H2. reflexivity. Qed.

(** A scalar is stored as a cell; a value of a scalar type is a scalar. *)
Lemma value_content_scalar v : is_scalar v = true -> value_content v = MScalar v.
Proof. destruct v; try reflexivity. discriminate. Qed.

Lemma content_of_value v : content_value (value_content v) = v.
Proof. destruct v; reflexivity. Qed.

Definition scalar_type (t : Ty) : bool :=
  match t with
  | IntegerTy _ | FloatTy | DoubleTy | X86_FP80Ty | PointerTy _ => true
  | _ => false
  end.

Lemma has_type_scalar v t :
  has_type v t = true -> scalar_type t = true -> is_scalar v = true.
Proof. destruct v; try reflexivity. destruct t; discriminate. Qed.

Lemma i32_scalar v : has_type v (IntegerTy 32) = true -> is_scalar v = true.
Proof. intros H. now apply (has_type_scalar v (IntegerTy 32)). Qed.

Lemma store_object M blk old v :
  object M blk = Some (MScalar old) -> is_scalar v = true ->
  store M {| a_block := blk; a_path := [0] |} v
  = Some (set_object M blk (MScalar v)).
Proof.
  intros H1 H2. unfold store; cbn. rewrite H1.
  rewrite (value_content_scalar v H2). reflexivity.
Qed.

Ltac side :=
  cbn -[Z.add Z.leb in_range];
  first [ reflexivity | eassumption ].

Ltac do_load :=
  eapply run_then;
  [ eapply step_load; [ reflexivity | side | eapply load_object; [ side | side ] ] | ].
Ltac do_store :=
  eapply run_then;
  [ eapply step_store; [ reflexivity | side | side | eapply store_object; side ] | ].
Ltac do_br := eapply run_then; [ eapply step_br; reflexivity | ].
Ltac do_alloca := eapply run_then; [ eapply step_alloca; reflexivity | ].
Ltac do_add :=
  eapply run_then;
  [ eapply step_add; [ reflexivity | side | side | side ] | ].
Ltac do_icmp :=
  eapply run_then;
  [ eapply step_icmp; [ reflexivity | side | side | side ] | ].
Ltac do_condbr :=
  eapply run_then; [ eapply step_condbr; [ reflexivity | side ] | ].
Ltac do_ret :=
  eapply run_done; [ eapply step_ret; [ reflexivity | side ] | discriminate ].


(** A run that has ended gives the same outcome with more fuel. *)
Lemma run_stable prog n : forall m c o,
  run prog n c = o -> (forall c', o <> Running c') -> (n <= m)%nat ->
  run prog m c = o.
Proof.
  induction n as [|n IH]; intros m c o H Ho Hle; simpl in H.
  - now elim (Ho c).
  - destruct m as [|m]; [lia|]. simpl.
    destruct (step prog c) as [c'| | |]; try exact H.
    apply IH; [exact H | exact Ho | lia].
Qed.

Definition i32ish (v : RVal) : Prop :=
  v = RPoison \/ exists z, v = RInt 32 z.

Lemma i32ish_type v : i32ish v -> has_type v (IntegerTy 32) = true.
Proof. intros [->|[z ->]]; reflexivity. Qed.

(** The address of the index variable, the first [alloca] of [main]. *)
Definition slot : Addr := {| a_block := StackBlock 0; a_path := [0] |}.

Lemma add_nsw_i32ish x i :
  i32ish x -> exists v, add_nsw x (RInt 32 i) = Some v /\ i32ish v /\ has_type v (IntegerTy 32) = true.
Proof.
  intros [->|[z ->]].
  - eexists; repeat split. now left.
  - cbn -[in_range Z.add]. destruct (in_range 32 (z + i)); eexists; repeat split;
      first [ now left | right; eexists; reflexivity ].
Qed.

Definition INT32_MAX : Z := 2147483647.
Definition INT32_MIN : Z := -2147483648.

Lemma in_range_32 z : in_range 32 z = true <-> INT32_MIN <= z <= INT32_MAX.
Proof.
  unfold in_range, INT32_MIN, INT32_MAX.
  change (2 ^ (32 - 1)) with 2147483648.
  rewrite andb_true_iff, Z.leb_le, Z.ltb_lt. lia.
Qed.

Definition body_runs (prog : list BasicBlock) (fn body : string) (m : Mem)
    (k : nat) : Prop :=
  exists b fuel v c,
    blockNamed prog fn body = Some b /\
    call prog fn m fuel = Returned v c /\
    times b (entered c) = k.


(** ** The for form *)

Lemma iteration_for E G St n T i e rv :
  E 0%nat = Some (RPtr slot) ->
  St 0%nat = Some (MScalar (RInt 32 i)) ->
  G "end" = Some (MScalar (RInt 32 e)) ->
  G "result" = Some (MScalar rv) ->
  i32ish rv ->
  i <= e -> in_range 32 (i + 1) = true ->
  exists E' G' S' T' rv',
    run for_blocks 13
      {| cur := 1; pc := 0; env := E; mem := {| globals := G; stack := St |};
         allocas := n; entered := T |}
    = Running {| cur := 1; pc := 0; env := E';
                 mem := {| globals := G'; stack := S' |};
                 allocas := n; entered := T' |}
    /\ E' 0%nat = Some (RPtr slot)
    /\ S' 0%nat = Some (MScalar (RInt 32 (i + 1)))
    /\ G' "end" = Some (MScalar (RInt 32 e))
    /\ G' "result" = Some (MScalar rv')
    /\ i32ish rv'
    /\ times 2 T' = S (times 2 T).
Proof.
  intros HE HS HG HR Hr Hle Hin.
  destruct (add_nsw_i32ish rv i Hr) as (v & Hadd & Hv & Hvt).
  pose proof (i32_scalar v Hvt) as Hvs.
  pose proof (i32ish_type rv Hr) as Hrt.
  assert (Hleb : (i <=? e) = true) by (apply Z.leb_le; exact Hle).
  do 5 eexists. split.
  - do_load. do_load. do_icmp. do_condbr. rewrite Hleb. cbn -[run].
    do_load. do_load. do_add. do_store. do_br.
    do_load. do_add. change (signed 32 1) with 1. rewrite Hin. do_store. do_br.
    reflexivity.
  - cbn. repeat split; try eassumption.
Qed.

Lemma leave_for E G St n T i e rv :
  E 0%nat = Some (RPtr slot) ->
  St 0%nat = Some (MScalar (RInt 32 i)) ->
  G "end" = Some (MScalar (RInt 32 e)) ->
  G "result" = Some (MScalar rv) ->
  i32ish rv ->
  e < i ->
  exists c,
    run for_blocks 6
      {| cur := 1; pc := 0; env := E; mem := {| globals := G; stack := St |};
         allocas := n; entered := T |}
    = Returned (Some rv) c
    /\ times 2 (entered c) = times 2 T.
Proof.
  intros HE HS HG HR Hr Hlt.
  pose proof (i32ish_type rv Hr) as Hrt.
  assert (Hleb : (i <=? e) = false) by (apply Z.leb_gt; exact Hlt).
  eexists. split.
  - do_load. do_load. do_icmp. do_condbr. rewrite Hleb. cbn -[run].
    do_load. do_ret.
  - reflexivity.
Qed.

Lemma loop_from_for (k : nat) : forall E G St n T i e rv,
  E 0%nat = Some (RPtr slot) ->
  St 0%nat = Some (MScalar (RInt 32 i)) ->
  G "end" = Some (MScalar (RInt 32 e)) ->
  G "result" = Some (MScalar rv) ->
  i32ish rv ->
  INT32_MIN <= i -> e < INT32_MAX ->
  Z.of_nat k = Z.max 0 (e - i + 1) ->
  exists fuel v c,
    run for_blocks fuel
      {| cur := 1; pc := 0; env := E; mem := {| globals := G; stack := St |};
         allocas := n; entered := T |}
    = Returned v c
    /\ times 2 (entered c) = (times 2 T + k)%nat.
Proof.
  induction k as [|k IH]; intros E G St n T i e rv HE HS HG HR Hr Hlo Hhi Hk.
  - destruct (leave_for E G St n T i e rv HE HS HG HR Hr) as (c & Hrun & Hc); [lia|].
    exists 6%nat, (Some rv), c. split; [exact Hrun|]. rewrite Hc. lia.
  - assert (Hle : i <= e) by lia.
    assert (Hin : in_range 32 (i + 1) = true)
      by (apply in_range_32; unfold INT32_MIN, INT32_MAX in *; lia).
    destruct (iteration_for E G St n T i e rv HE HS HG HR Hr Hle Hin)
      as (E' & G' & S' & T' & rv' & Hrun & HE' & HS' & HG' & HR' & Hr' & HT').
    destruct (IH E' G' S' n T' (i + 1) e rv' HE' HS' HG' HR' Hr')
      as (fuel & v & c & Hrun' & Hc); [lia | lia | lia |].
    exists (13 + fuel)%nat, v, c. split.
    + rewrite (run_add _ _ _ _ _ Hrun). exact Hrun'.
    + rewrite Hc, HT'. lia.
Qed.

Lemma entry_for G St s :
  G "start" = Some (MScalar (RInt 32 s)) ->
  exists E' S',
    run for_blocks 4
      {| cur := 0; pc := 0; env := fun _ => None;
         mem := {| globals := G; stack := St |};
         allocas := 0; entered := [0%nat] |}
    = Running {| cur := 1; pc := 0; env := E';
                 mem := {| globals := G; stack := S' |};
                 allocas := 1; entered := [1%nat; 0%nat] |}
    /\ E' 0%nat = Some (RPtr slot)
    /\ S' 0%nat = Some (MScalar (RInt 32 s)).
Proof.
  intros Hs. do 2 eexists. split.
  - do_alloca. do_load. do_store. do_br. reflexivity.
  - split; reflexivity.
Qed.

Lemma for_loop_count m s e r :
  globals m "start" = Some (MScalar (RInt 32 s)) ->
  globals m "end" = Some (MScalar (RInt 32 e)) ->
  globals m "result" = Some (MScalar (RInt 32 r)) ->
  INT32_MIN <= s -> e < INT32_MAX ->
  body_runs for_blocks "main" "body" m (Z.to_nat (Z.max 0 (e - s + 1))).
Proof.
  intros Hs He Hr Hlo Hhi. destruct m as [G St]. cbn in Hs, He, Hr.
  destruct (entry_for G St s Hs) as (E' & S' & Hrun0 & HE' & HS').
  assert (Hi : i32ish (RInt 32 r)) by (right; eexists; reflexivity).
  destruct (loop_from_for (Z.to_nat (Z.max 0 (e - s + 1))) E' G S' 1 [1%nat; 0%nat]
              s e (RInt 32 r) HE' HS' He Hr Hi Hlo Hhi)
    as (fuel & v & c & Hrun & Hc); [lia|].
  exists 2%nat, (4 + fuel)%nat, v, c. split; [reflexivity|]. split.
  - unfold call. change (enter for_blocks "main" {| globals := G; stack := St |})
      with (Some {| cur := 0; pc := 0; env := fun _ => None;
                    mem := {| globals := G; stack := St |};
                    allocas := 0; entered := [0%nat] |}).
    exact (eq_trans (run_add _ 4 fuel _ _ Hrun0) Hrun).
  - rewrite Hc. reflexivity.
Qed.

(** ** The while form *)

Lemma iteration_while E G St n T i e rv :
  E 0%nat = Some (RPtr slot) ->
  St 0%nat = Some (MScalar (RInt 32 i)) ->
  G "end" = Some (MScalar (RInt 32 e)) ->
  G "result" = Some (MScalar rv) ->
  i32ish rv ->
  i <= e -> in_range 32 (i + 1) = true ->
  exists E' G' S' T' rv',
    run while_blocks 12
      {| cur := 1; pc := 0; env := E; mem := {| globals := G; stack := St |};
         allocas := n; entered := T |}
    = Running {| cur := 1; pc := 0; env := E';
                 mem := {| globals := G'; stack := S' |};
                 allocas := n; entered := T' |}
    /\ E' 0%nat = Some (RPtr slot)
    /\ S' 0%nat = Some (MScalar (RInt 32 (i + 1)))
    /\ G' "end" = Some (MScalar (RInt 32 e))
    /\ G' "result" = Some (MScalar rv')
    /\ i32ish rv'
    /\ times 2 T' = S (times 2 T).
Proof.
  intros HE HS HG HR Hr Hle Hin.
  destruct (add_nsw_i32ish rv i Hr) as (v & Hadd & Hv & Hvt).
  pose proof (i32_scalar v Hvt) as Hvs.
  pose proof (i32ish_type rv Hr) as Hrt.
  assert (Hleb : (i <=? e) = true) by (apply Z.leb_le; exact Hle).
  do 5 eexists. split.
  - do_load. do_load. do_icmp. do_condbr. rewrite Hleb. cbn -[run].
    do_load. do_load. do_add. do_store.
    do_load. do_add. change (signed 32 1) with 1. rewrite Hin. do_store. do_br.
    reflexivity.
  - cbn. repeat split; try eassumption.
Qed.

Lemma leave_while E G St n T i e rv :
  E 0%nat = Some (RPtr slot) ->
  St 0%nat = Some (MScalar (RInt 32 i)) ->
  G "end" = Some (MScalar (RInt 32 e)) ->
  G "result" = Some (MScalar rv) ->
  i32ish rv ->
  e < i ->
  exists c,
    run while_blocks 6
      {| cur := 1; pc := 0; env := E; mem := {| globals := G; stack := St |};
         allocas := n; entered := T |}
    = Returned (Some rv) c
    /\ times 2 (entered c) = times 2 T.
Proof.
  intros HE HS HG HR Hr Hlt.
  pose proof (i32ish_type rv Hr) as Hrt.
  assert (Hleb : (i <=? e) = false) by (apply Z.leb_gt; exact Hlt).
  eexists. split.
  - do_load. do_load. do_icmp. do_condbr. rewrite Hleb. cbn -[run].
    do_load. do_ret.
  - reflexivity.
Qed.

Lemma loop_from_while (k : nat) : forall E G St n T i e rv,
  E 0%nat = Some (RPtr slot) ->
  St 0%nat = Some (MScalar (RInt 32 i)) ->
  G "end" = Some (MScalar (RInt 32 e)) ->
  G "result" = Some (MScalar rv) ->
  i32ish rv ->
  INT32_MIN <= i -> e < INT32_MAX ->
  Z.of_nat k = Z.max 0 (e - i + 1) ->
  exists fuel v c,
    run while_blocks fuel
      {| cur := 1; pc := 0; env := E; mem := {| globals := G; stack := St |};
         allocas := n; entered := T |}
    = Returned v c
    /\ times 2 (entered c) = (times 2 T + k)%nat.
Proof.
  induction k as [|k IH]; intros E G St n T i e rv HE HS HG HR Hr Hlo Hhi Hk.
  - destruct (leave_while E G St n T i e rv HE HS HG HR Hr) as (c & Hrun & Hc); [lia|].
    exists 6%nat, (Some rv), c. split; [exact Hrun|]. rewrite Hc. lia.
  - assert (Hle : i <= e) by lia.
    assert (Hin : in_range 32 (i + 1) = true)
      by (apply in_range_32; unfold INT32_MIN, INT32_MAX in *; lia).
    destruct (iteration_while E G St n T i e rv HE HS HG HR Hr Hle Hin)
      as (E' & G' & S' & T' & rv' & Hrun & HE' & HS' & HG' & HR' & Hr' & HT').
    destruct (IH E' G' S' n T' (i + 1) e rv' HE' HS' HG' HR' Hr')
      as (fuel & v & c & Hrun' & Hc); [lia | lia | lia |].
    exists (12 + fuel)%nat, v, c. split.
    + rewrite (run_add _ _ _ _ _ Hrun). exact Hrun'.
    + rewrite Hc, HT'. lia.
Qed.

Lemma entry_while G St s :
  G "start" = Some (MScalar (RInt 32 s)) ->
  exists E' S',
    run while_blocks 4
      {| cur := 0; pc := 0; env := fun _ => None;
         mem := {| globals := G; stack := St |};
         allocas := 0; entered := [0%nat] |}
    = Running {| cur := 1; pc := 0; env := E';
                 mem := {| globals := G; stack := S' |};
                 allocas := 1; entered := [1%nat; 0%nat] |}
    /\ E' 0%nat = Some (RPtr slot)
    /\ S' 0%nat = Some (MScalar (RInt 32 s)).
Proof.
  intros Hs. do 2 eexists. split.
  - do_alloca. do_load. do_store. do_br. reflexivity.
  - split; reflexivity.
Qed.

Lemma while_loop_count m s e r :
  globals m "start" = Some (MScalar (RInt 32 s)) ->
  globals m "end" = Some (MScalar (RInt 32 e)) ->
  globals m "result" = Some (MScalar (RInt 32 r)) ->
  INT32_MIN <= s -> e < INT32_MAX ->
  body_runs while_blocks "main" "body" m (Z.to_nat (Z.max 0 (e - s + 1))).
Proof.
  intros Hs He Hr Hlo Hhi. destruct m as [G St]. cbn in Hs, He, Hr.
  destruct (entry_while G St s Hs) as (E' & S' & Hrun0 & HE' & HS').
  assert (Hi : i32ish (RInt 32 r)) by (right; eexists; reflexivity).
  destruct (loop_from_while (Z.to_nat (Z.max 0 (e - s + 1))) E' G S' 1 [1%nat; 0%nat]
              s e (RInt 32 r) HE' HS' He Hr Hi Hlo Hhi)
    as (fuel & v & c & Hrun & Hc); [lia|].
  exists 2%nat, (4 + fuel)%nat, v, c. split; [reflexivity|]. split.
  - unfold call. change (enter while_blocks "main" {| globals := G; stack := St |})
      with (Some {| cur := 0; pc := 0; env := fun _ => None;
                    mem := {| globals := G; stack := St |};
                    allocas := 0; entered := [0%nat] |}).
    exact (eq_trans (run_add _ 4 fuel _ _ Hrun0) Hrun).
  - rewrite Hc. reflexivity.
Qed.

(** ** The number of executions of the body *)

(** A memory in which the three globals of the loop programs hold the
    32-bit values [s], [e] and [r]. *)
Definition loop_mem (s e r : Z) : Mem :=
  {| globals := fun g =>
       if String.eqb g "start" then Some (MScalar (RInt 32 s))
       else if String.eqb g "end" then Some (MScalar (RInt 32 e))
       else if String.eqb g "result" then Some (MScalar (RInt 32 r))
       else None;
     stack := fun _ => None |}.

(** C1 (amended).  Let [start], [end] and [result] hold 32-bit values with
    [end] below the largest one.  The [main] emitted by the for form and the
    [main] emitted by the while form both return, and the block [body] is
    entered exactly [max 0 (end - start + 1)] times; in particular not at
    all when [start > end]. *)
Theorem loop_body_count m s e r :
  globals m "start" = Some (MScalar (RInt 32 s)) ->
  globals m "end" = Some (MScalar (RInt 32 e)) ->
  globals m "result" = Some (MScalar (RInt 32 r)) ->
  INT32_MIN <= s <= INT32_MAX -> INT32_MIN <= e < INT32_MAX ->
  body_runs for_blocks "main" "body" m (Z.to_nat (Z.max 0 (e - s + 1))) /\
  body_runs while_blocks "main" "body" m (Z.to_nat (Z.max 0 (e - s + 1))).
Proof.
  intros Hs He Hr [Hlo _] [_ Hhi]. split.
  - now apply (for_loop_count m s e r).
  - now apply (while_loop_count m s e r).
Qed.

Lemma loop_body_count_witness :
  body_runs for_blocks "main" "body" (loop_mem 1 10 0)
            (Z.to_nat (Z.max 0 (10 - 1 + 1))) /\
  body_runs while_blocks "main" "body" (loop_mem 1 10 0)
            (Z.to_nat (Z.max 0 (10 - 1 + 1))).
Proof.
  apply (loop_body_count (loop_mem 1 10 0) 1 10 0);
    first [ reflexivity | unfold INT32_MIN, INT32_MAX; lia ].
Defined.

(** With [end] the largest 32-bit value the condition is always true: the
    increment after the last iteration overflows, [add nsw] gives poison,
    and the next evaluation of the condition branches on poison.  The
    execution is undefined and never returns. *)
Lemma loop_overflows_at_INT32_MAX :
  ~ body_runs for_blocks "main" "body" (loop_mem INT32_MAX INT32_MAX 0)
      (Z.to_nat (Z.max 0 (INT32_MAX - INT32_MAX + 1))).
Proof.
  intros (b & fuel & v & c & _ & Hrun & _).
  assert (H21 : call for_blocks "main" (loop_mem INT32_MAX INT32_MAX 0) 21
                = Undefined) by (vm_compute; reflexivity).
  unfold call in *.
  destruct (enter for_blocks "main" (loop_mem INT32_MAX INT32_MAX 0))
    as [c0|]; [|discriminate].
  destruct (le_ge_dec fuel 21) as [Hle|Hge].
  - rewrite (run_stable _ _ _ _ _ Hrun) in H21; [discriminate| |exact Hle].
    intros c'. discriminate.
  - rewrite (run_stable _ _ _ _ _ H21) in Hrun; [discriminate| |exact Hge].
    intros c'. discriminate.
Qed.

(** The program as emitted: [start = 1], [end = 10], [result = 0].  The
    body runs ten times and [main] returns 55. *)
Definition for_module : State :=
  match LoopFor.main "" with
  | Ok _ s => s
  | Crash _ => Emitter.initializeModule
  end.

Lemma for_loop_sums :
  exists c, call (blocks for_module) "main" (initial_mem for_module) 150
            = Returned (Some (RInt 32 55)) c /\
            times 2 (entered c) = 10%nat.
Proof. eexists. split; [vm_compute; reflexivity | reflexivity]. Qed.

End Loops.

(* ===================================================================== *)
(** * Aggregate addressing                                                *)
(* ===================================================================== *)

Module Addressing.
Import Emitter Symtab Globals Sem Loops.
Local Open Scope list_scope.

(** ** What an emitter appends *)

(** The instructions [ins], numbered from [n] on. *)
Fixpoint numbered (n : nat) (ins : list Instruction) : list (nat * Instruction) :=
  match ins with
  | [] => []
  | i :: ins' => (n, i) :: numbered (S n) ins'
  end.

Definition appendInsts (es : list (nat * Instruction)) (b : BasicBlock)
  : BasicBlock :=
  {| bb_name := bb_name b; bb_parent := bb_parent b;
     bb_insts := bb_insts b ++ es |}.

(** The state after the builder inserted the instructions [ins], one after
    the other, at its insertion point. *)
Definition appended (ins : list Instruction) (s : State) : State :=
  set_blocks
    (match insert_block s with
     | Some b => alter (appendInsts (numbered (next_id s) ins)) b (blocks s)
     | None => blocks s
     end)
    (set_next_id (length ins + next_id s) s).

Lemma numbered_app n is1 is2 :
  numbered n (is1 ++ is2) = numbered n is1 ++ numbered (length is1 + n) is2.
Proof.
  revert n. induction is1 as [|i is1 IH]; intros n; simpl; [reflexivity|].
  rewrite IH. do 3 f_equal. lia.
Qed.

Lemma Insert_appended i ty s :
  Insert i ty s = Ok (InstRef (next_id s) ty) (appended [i] s).
Proof. unfold Insert, appended. destruct (insert_block s); reflexivity. Qed.

Lemma appended_app is1 is2 s :
  appended is2 (appended is1 s) = appended (is1 ++ is2) s.
Proof.
  unfold appended. simpl. rewrite length_app.
  replace (length is2 + (length is1 + next_id s))
    with (length is1 + length is2 + next_id s) by lia.
  destruct (insert_block s) as [b|]; [|reflexivity].
  unfold set_blocks, set_next_id. simpl. f_equal.
  rewrite list_alter_alter_eq. apply list_alter_ext; [|reflexivity].
  intros bb _. unfold appendInsts, compose. simpl.
  rewrite numbered_app, app_assoc. reflexivity.
Qed.

Lemma appended_nil s : appended [] s = s.
Proof.
  unfold appended. simpl. destruct s as [? ? ? ? ? ? bl ? ib ?]. simpl.
  destruct ib as [b|]; [|reflexivity].
  unfold set_blocks, set_next_id. simpl. f_equal.
  apply list_alter_id.
  intros [nm pa ins]. unfold appendInsts. simpl. now rewrite app_nil_r.
Qed.

(** The builder can insert loads and stores: its insertion block belongs to
    a function. *)
Definition attached (s : State) : Prop :=
  exists b bb fn, insert_block s = Some b /\ blocks s !! b = Some bb /\
                  bb_parent bb = Some fn.

Lemma insertBlockModule_attached s : attached s -> insertBlockModule s = Ok tt s.
Proof.
  intros (b & bb & fn & Hb & Hbb & Hp).
  unfold insertBlockModule, GetInsertBlock, BasicBlock_getParent, get, bind, deref, ret.
  rewrite Hb. simpl. rewrite Hbb. simpl. rewrite Hp. reflexivity.
Qed.

Lemma attached_appended ins s : attached s -> attached (appended ins s).
Proof.
  intros (b & bb & fn & Hb & Hbb & Hp).
  exists b, (appendInsts (numbered (next_id s) ins) bb), fn.
  unfold appended. simpl. rewrite Hb. repeat split; [|exact Hp].
  rewrite list_lookup_alter_eq, Hbb. reflexivity.
Qed.

Lemma CreateLoad_appended ty p s :
  attached s ->
  CreateLoad ty p s = Ok (InstRef (next_id s) ty) (appended [Load ty p] s).
Proof.
  intros H. unfold CreateLoad.
  rewrite (bind_ok _ _ _ _ _ (insertBlockModule_attached s H)).
  apply Insert_appended.
Qed.

Lemma CreateStore_appended v p s :
  attached s -> CreateStore v p s = Ok tt (appended [Store v p] s).
Proof.
  intros H. unfold CreateStore.
  rewrite (bind_ok _ _ _ _ _ (insertBlockModule_attached s H)).
  rewrite (bind_ok _ _ _ _ _ (Insert_appended _ _ _)). reflexivity.
Qed.

(** ** The instructions of the addressing functions *)

(** The index list of [getStructElementAddr]: the constant 0 and the field
    index, both of type [i32]. *)
Definition fieldIndices (index : Z) : list Value :=
  [ConstantInt 32 0; ConstantInt 32 index].

(** [index] is the index of a field of type [fty] of a struct with that
    body (and a value of the C type [int]). *)
Definition fieldOf (body : list Ty) (index : Z) (fty : Ty) : Prop :=
  (0 <= index <= INT32_MAX)%Z /\ body !! Z.to_nat index = Some fty.

Lemma fieldIndices_eq index :
  (0 <= index <= INT32_MAX)%Z ->
  [Structs.getStructOffset 0; Structs.getStructOffset index] = fieldIndices index.
Proof.
  intros H. unfold fieldIndices, Structs.getStructOffset, ConstantInt_get.
  rewrite (Z.mod_small index) by (unfold INT32_MAX in H; lia). reflexivity.
Qed.

Lemma getIndexedType_field sname body index fty :
  fieldOf body index fty ->
  getIndexedType (StructTy sname body) (fieldIndices index) = Some fty.
Proof.
  intros [Hr Hf]. simpl.
  destruct (index <? 0)%Z eqn:E; [apply Z.ltb_lt in E; lia|].
  rewrite Hf. reflexivity.
Qed.

(** [Ty_eqb] decides the equality of types. *)
Lemma Ty_eqb_eq : forall a b, Ty_eqb a b = true -> a = b.
Proof.
  fix IH 1. intros a b H.
  assert (Hall : forall xs ys : list Ty,
            (fix all2 (xs ys : list Ty) {struct xs} : bool :=
               match xs, ys with
               | [], [] => true
               | x :: xs', y :: ys' => Ty_eqb x y && all2 xs' ys'
               | _, _ => false
               end) xs ys = true ->
            (forall x y, In x xs -> Ty_eqb x y = true -> x = y) -> xs = ys).
  { clear. induction xs as [|x xs IHxs]; intros [|y ys] Hb Hel;
      try discriminate; [reflexivity|].
    apply andb_true_iff in Hb as [Hxy Hrest].
    f_equal; [apply Hel; [now left | exact Hxy]|].
    apply IHxs; [exact Hrest|]. intros x' y' Hin. apply Hel. now right. }
  destruct a as [| | | | |a|a n|n body|r ps v], b as [| | | | |b|b m|m body'|r' ps' v'];
    simpl in H; try discriminate; try reflexivity.
  - apply Z.eqb_eq in H. now subst.
  - f_equal. now apply IH.
  - apply andb_true_iff in H as [H1 H2]. apply Nat.eqb_eq in H2.
    f_equal; [now apply IH | exact H2].
  - apply andb_true_iff in H as [H1 H2]. apply String.eqb_eq in H1.
    f_equal; [exact H1|]. apply Hall; [exact H2|].
    clear - IH. induction body as [|t body IHb]; intros x y Hin Hxy; [elim Hin|].
    destruct Hin as [<-|Hin]; [now apply IH | now apply IHb].
  - apply andb_true_iff in H as [H12 H3].
    apply andb_true_iff in H12 as [H1 H2].
    apply Bool.eqb_prop in H3.
    f_equal; [now apply IH | | exact H3]. apply Hall; [exact H2|].
    clear - IH. induction ps as [|t ps IHp]; intros x y Hin Hxy; [elim Hin|].
    destruct Hin as [<-|Hin]; [now apply IH | now apply IHp].
Qed.

Lemma indexedType_app a : forall t b,
  indexedType t (a ++ b)
  = match indexedType t a with
    | Some t' => indexedType t' b
    | None => None
    end.
Proof.
  induction a as [|i a IH]; intros t b; [reflexivity|].
  cbn [app indexedType]. destruct t; try reflexivity.
  - destruct (getType i); try reflexivity. apply IH.
  - destruct i; try reflexivity.
    destruct (negb (bits =? 32)%Z || (v <? 0)%Z); [reflexivity|].
    destruct (body !! Z.to_nat v); [apply IH | reflexivity].
Qed.

(** The constant the folder gives for two or more indices has the type of
    the address computation. *)
Lemma getGetElementPtr_typed ptr : forall t i0 i1 rest elt,
  getIndexedType t (i0 :: i1 :: rest) = Some elt ->
  exists target,
    getGetElementPtr t ptr (i0 :: i1 :: rest) = Some target /\
    getType target = PointerTy elt.
Proof.
  induction ptr as [| | | | | |srcTy base IH idx0 resTy| | | |];
    intros t i0 i1 rest elt Ht; cbn [getGetElementPtr]; rewrite Ht;
    cbn [length Nat.eqb andb]; rewrite Bool.andb_false_r;
    try (eexists; split; reflexivity).
  - destruct (forallb isNullValue (i0 :: i1 :: rest));
      eexists; split; reflexivity.
  - destruct idx0 as [|j0 r0]; [eexists; split; reflexivity|].
    destruct (getIndexedType srcTy (j0 :: r0)) as [t'|] eqn:Hin;
      [|eexists; split; reflexivity].
    destruct (Ty_eqb t' t && isNullValue i0) eqn:Hg;
      [|eexists; split; reflexivity].
    apply andb_true_iff in Hg as [Hty _]. apply Ty_eqb_eq in Hty. subst t'.
    assert (Hm : getIndexedType srcTy (j0 :: r0 ++ i1 :: rest) = Some elt).
    { cbn [getIndexedType] in *. rewrite indexedType_app, Hin. exact Ht. }
    destruct r0 as [|x r0]; apply (IH _ _ _ _ _ Hm).
Qed.

(** [getStructElementAddr]: one address computation over [ptrval] with the
    two indices, an instruction for an address that is not a constant, a
    constant (and no instruction) for one that is. *)
Lemma getStructElementAddr_emits index ptrval sname body fty s :
  getType ptrval = PointerTy (StructTy sname body) ->
  fieldOf body index fty ->
  if isConstant ptrval
  then exists target,
         getGetElementPtr (StructTy sname body) ptrval (fieldIndices index)
         = Some target /\
         Structs.getStructElementAddr index ptrval s = Ok target s /\
         getType target = PointerTy fty
  else Structs.getStructElementAddr index ptrval s
       = Ok (InstRef (next_id s) (PointerTy fty))
            (appended [GetElementPtr true (StructTy sname body) ptrval
                                     (fieldIndices index)] s).
Proof.
  intros Ht Hf. unfold Structs.getStructElementAddr.
  rewrite (fieldIndices_eq index (proj1 Hf)), Ht. simpl pointee.
  erewrite bind_ok by reflexivity.
  unfold CreateInBoundsGEP.
  destruct (isConstant ptrval); cbn [andb forallb fieldIndices isConstant].
  - destruct (getGetElementPtr_typed ptrval (StructTy sname body)
                (ConstantInt 32 0) (ConstantInt 32 index) [] fty
                (getIndexedType_field sname body index fty Hf))
      as (target & Hg & Hty).
    exists target. split; [exact Hg|]. split; [|exact Hty].
    unfold fieldIndices. rewrite Hg. reflexivity.
  - rewrite (getIndexedType_field sname body index fty Hf).
    unfold bind, deref, ret. rewrite Insert_appended. reflexivity.
Qed.

Lemma getStructElementAddr_instruction index ptrval sname body fty s :
  getType ptrval = PointerTy (StructTy sname body) ->
  fieldOf body index fty ->
  isConstant ptrval = false ->
  Structs.getStructElementAddr index ptrval s =
    Ok (InstRef (next_id s) (PointerTy fty))
       (appended [GetElementPtr true (StructTy sname body) ptrval
                                (fieldIndices index)] s).
Proof.
  intros Ht Hf Hc.
  pose proof (getStructElementAddr_emits index ptrval sname body fty s Ht Hf) as H.
  rewrite Hc in H. exact H.
Qed.

(** [getStructElementLValue]: the struct address is loaded from the slot,
    then the field address is computed. *)
Lemma getStructElementLValue_emits index structAlloca sname body fty s :
  attached s ->
  getType structAlloca = PointerTy (PointerTy (StructTy sname body)) ->
  fieldOf body index fty ->
  Structs.getStructElementLValue structAlloca index s =
    Ok (InstRef (S (next_id s)) (PointerTy fty))
       (appended
          [Load (PointerTy (StructTy sname body)) structAlloca;
           GetElementPtr true (StructTy sname body)
             (InstRef (next_id s) (PointerTy (StructTy sname body)))
             (fieldIndices index)] s).
Proof.
  intros Ha Ht Hf. unfold Structs.getStructElementLValue. rewrite Ht. simpl pointee.
  erewrite bind_ok by reflexivity.
  rewrite (bind_ok _ _ _ _ _ (CreateLoad_appended _ _ _ Ha)).
  erewrite bind_ok.
  2:{ apply (getStructElementAddr_instruction index _ sname body fty);
      [reflexivity|exact Hf|reflexivity]. }
  simpl. rewrite appended_app. reflexivity.
Qed.

(** [getStructElementRValue]: the same, followed by the load of the field
    with the type the struct gives it. *)
Lemma getStructElementRValue_emits index structAlloca sname body fty s :
  attached s ->
  getType structAlloca = PointerTy (PointerTy (StructTy sname body)) ->
  fieldOf body index fty ->
  Structs.getStructElementRValue structAlloca index s =
    Ok (InstRef (S (S (next_id s))) fty)
       (appended
          [Load (PointerTy (StructTy sname body)) structAlloca;
           GetElementPtr true (StructTy sname body)
             (InstRef (next_id s) (PointerTy (StructTy sname body)))
             (fieldIndices index);
           Load fty (InstRef (S (next_id s)) (PointerTy fty))] s).
Proof.
  intros Ha Ht Hf. unfold Structs.getStructElementRValue. rewrite Ht. simpl pointee.
  erewrite bind_ok by reflexivity.
  rewrite (bind_ok _ _ _ _ _ (CreateLoad_appended _ _ _ Ha)).
  erewrite bind_ok.
  2:{ apply (getStructElementAddr_instruction index _ sname body fty);
      [reflexivity|exact Hf|reflexivity]. }
  simpl. rewrite appended_app. simpl app.
  erewrite bind_ok by reflexivity.
  erewrite bind_ok.
  2:{ unfold Structs.structTypeAtIndex.
      destruct Hf as [Hr Hf].
      destruct (index <? 0)%Z eqn:E; [apply Z.ltb_lt in E; lia|].
      rewrite Hf. reflexivity. }
  rewrite CreateLoad_appended by (apply attached_appended, Ha).
  rewrite appended_app. reflexivity.
Qed.





(** ** Executing what was appended *)

Local Open Scope Z_scope.

Lemma numbered_lookup ins : forall n k i,
  ins !! k = Some i -> numbered n ins !! k = Some ((k + n)%nat, i).
Proof.
  induction ins as [|i0 ins IH]; intros n k i H; [discriminate|].
  destruct k as [|k]; simpl in *.
  - now injection H as ->.
  - rewrite (IH (S n) k i H). do 2 f_equal. lia.
Qed.

(** The [k]-th appended instruction sits [k] places after the old end of
    the insertion block. *)
Lemma fetch_appended ins s b bb k i :
  insert_block s = Some b -> blocks s !! b = Some bb -> ins !! k = Some i ->
  fetch (blocks (appended ins s)) b (k + length (bb_insts bb))
  = Some ((k + next_id s)%nat, i).
Proof.
  intros Hb Hbb Hk. unfold fetch, appended. simpl. rewrite Hb.
  rewrite list_lookup_alter_eq, Hbb. simpl.
  rewrite lookup_app_r by lia.
  replace (k + length (bb_insts bb) - length (bb_insts bb))%nat with k by lia.
  now apply numbered_lookup.
Qed.

(** The value of an operand does not change when later instructions get
    their values: the instructions it mentions are numbered below [n]. *)
Fixpoint defined_before (n : nat) (v : Value) : bool :=
  match v with
  | InstRef id _ => (id <? n)%nat
  | ConstantExprGEP _ base _ _ => defined_before n base
  | _ => true
  end.

Lemma eval_bind_env n id x E v :
  defined_before n v = true -> (n <= id)%nat ->
  eval (bind_env id x E) v = eval E v.
Proof.
  intros Hv Hle. induction v; simpl in *; try reflexivity.
  - rewrite (IHv Hv). reflexivity.
  - unfold bind_env. apply Nat.ltb_lt in Hv.
    destruct (Nat.eqb_spec id0 id); [lia|reflexivity].
Qed.

Lemma signed_small bits z :
  0 <= z < 2 ^ (bits - 1) -> 0 < bits -> signed bits z = z.
Proof.
  intros Hz Hb. unfold signed.
  assert (2 ^ (bits - 1) < 2 ^ bits) by (apply Z.pow_lt_mono_r; lia).
  rewrite Z.mod_small by lia.
  destruct (z <? 2 ^ (bits - 1)) eqn:E; [reflexivity|].
  apply Z.ltb_ge in E. lia.
Qed.

Lemma signed_index index : 0 <= index <= INT32_MAX -> signed 32 index = index.
Proof.
  intros H. apply signed_small; [|lia].
  change (2 ^ (32 - 1)) with 2147483648. unfold INT32_MAX in H. lia.
Qed.

(** *** Addresses of parts *)

(** The part of the memory an address denotes. *)
Definition part (m : Mem) (a : Addr) : option MVal :=
  match object m (a_block a), inner_path a with
  | Some o, Some p => descend o p
  | _, _ => None
  end.

(** The address of part [i] of the aggregate at [a]. *)
Definition field_of (a : Addr) (i : Z) : Addr :=
  {| a_block := a_block a; a_path := i :: a_path a |}.

(** The address [i] whole objects after [a], at the level of [a]. *)
Definition sibling_of (a : Addr) (i : Z) : option Addr := gep a [i].

Lemma load_part m t a :
  load m t a = match part m a with
               | Some c => if has_type (content_value c) t
                           then Some (content_value c) else None
               | None => None
               end.
Proof.
  unfold load, part.
  destruct (object m (a_block a)); [|reflexivity].
  destruct (inner_path a); reflexivity.
Qed.

Lemma descend_snoc p : forall o i,
  descend o (p ++ [i]) = match descend o p with
                         | Some x => descend x [i]
                         | None => None
                         end.
Proof.
  induction p as [|j p IH]; intros o i.
  - simpl. destruct o; reflexivity.
  - simpl. destruct o as [v|parts]; [reflexivity|].
    destruct (j <? 0); [reflexivity|].
    destruct (parts !! Z.to_nat j); [apply IH|reflexivity].
Qed.

Lemma inner_path_field a i p :
  inner_path a = Some p -> inner_path (field_of a i) = Some (p ++ [i]).
Proof.
  unfold inner_path, field_of. simpl.
  destruct (rev (a_path a)) as [|z l] eqn:E; [discriminate|].
  destruct z; try discriminate. intros H. injection H as <-.
  reflexivity.
Qed.

(** Reading through the address of field [i] reads part [i]. *)
Lemma part_field m a parts i :
  part m a = Some (MAgg parts) -> 0 <= i ->
  part m (field_of a i) = parts !! Z.to_nat i.
Proof.
  unfold part. simpl. intros H Hi.
  destruct (object m (a_block a)) as [o|]; [|discriminate].
  destruct (inner_path a) as [p|] eqn:Hp; [|discriminate].
  rewrite (inner_path_field a i p Hp), descend_snoc, H. simpl.
  destruct (i <? 0) eqn:E; [apply Z.ltb_lt in E; lia|].
  destruct (parts !! Z.to_nat i); reflexivity.
Qed.

(** [getelementptr] with the indices [0] and [i] gives the address of
    field [i]; with the single index [i] it gives a sibling. *)
Lemma gep_field a i :
  a_path a <> [] -> gep a [0; i] = Some (field_of a i).
Proof.
  unfold gep, field_of. destruct a as [blk [|l up]]; simpl; [congruence|].
  intros _. rewrite Z.add_0_r. reflexivity.
Qed.

Lemma gep_length_differs a i q :
  sibling_of a i = Some q -> q <> field_of a i.
Proof.
  unfold sibling_of, gep, field_of. destruct a as [blk [|l up]]; simpl; [discriminate|].
  intros H. injection H as <-. intros Heq.
  apply (f_equal a_path) in Heq. simpl in Heq.
  apply (f_equal (@length Z)) in Heq. simpl in Heq. lia.
Qed.


(** *** Straight-line instructions *)

(** The effect of an instruction that neither branches nor allocates, on
    the values and the memory. *)
Definition straight (id : nat) (i : Instruction) (E : Env) (M : Mem)
  : option (Env * Mem) :=
  match i with
  | Load t p =>
      match eval E p with
      | Some (RPtr a) =>
          match load M t a with
          | Some v => Some (bind_env id v E, M)
          | None => None
          end
      | _ => None
      end
  | Store v p =>
      match eval E v, eval E p with
      | Some x, Some (RPtr a) =>
          match store M a x with
          | Some M' => Some (E, M')
          | None => None
          end
      | _, _ => None
      end
  | SExt v dest =>
      match eval E v with
      | Some x =>
          match sext x dest with
          | Some r => Some (bind_env id r E, M)
          | None => None
          end
      | None => None
      end
  | GetElementPtr _ _ p idx =>
      match eval E p, mapM (fun i => eval E i ≫= rint) idx with
      | Some (RPtr a), Some ks =>
          match gep a ks with
          | Some a' => Some (bind_env id (RPtr a') E, M)
          | None => None
          end
      | _, _ => None
      end
  | _ => None
  end.

Fixpoint straight_all (es : list (nat * Instruction)) (E : Env) (M : Mem)
  : option (Env * Mem) :=
  match es with
  | [] => Some (E, M)
  | (id, i) :: es' =>
      match straight id i E M with
      | Some (E', M') => straight_all es' E' M'
      | None => None
      end
  end.

Lemma step_straight prog c id i E' M' :
  fetch prog (cur c) (pc c) = Some (id, i) ->
  straight id i (env c) (mem c) = Some (E', M') ->
  step prog c = next c E' M' (allocas c).
Proof.
  intros Hf Hs. unfold step. rewrite Hf.
  destruct i; simpl in Hs; try discriminate.
  - destruct (eval (env c) ptr) as [[]|]; try discriminate.
    destruct (load (mem c) ty a); [|discriminate]. now injection Hs as <- <-.
  - destruct (eval (env c) val); [|discriminate].
    destruct (eval (env c) ptr) as [[]|]; try discriminate.
    destruct (store (mem c) a r); [|discriminate]. now injection Hs as <- <-.
  - destruct (eval (env c) v); [|discriminate].
    destruct (sext r dest); [|discriminate]. now injection Hs as <- <-.
  - destruct (eval (env c) ptr) as [[]|]; try discriminate.
    destruct (mapM _ idx); [|discriminate].
    destruct (gep a l); [|discriminate]. now injection Hs as <- <-.
Qed.

Lemma run_straight prog es : forall c E' M',
  (forall j e, es !! j = Some e -> fetch prog (cur c) (j + pc c) = Some e) ->
  straight_all es (env c) (mem c) = Some (E', M') ->
  run prog (length es) c
  = Running {| cur := cur c; pc := length es + pc c; env := E'; mem := M';
               allocas := allocas c; entered := entered c |}.
Proof.
  induction es as [|[id i] es IH]; intros c E' M' Hf Hs; simpl in *.
  - injection Hs as <- <-. destruct c; reflexivity.
  - destruct (straight id i (env c) (mem c)) as [[E1 M1]|] eqn:H1; [|discriminate].
    rewrite (step_straight prog c id i E1 M1 (Hf O _ eq_refl) H1).
    unfold next. rewrite (IH _ E' M'); simpl.
    + do 2 f_equal. lia.
    + intros j e Hj. replace (j + S (pc c))%nat with (S j + pc c)%nat by lia.
      now apply Hf.
    + exact Hs.
Qed.

(** The execution stands where the builder inserts: at the end of the
    insertion block. *)
Definition at_end (s : State) (c : Config) : Prop :=
  exists bb, insert_block s = Some (cur c) /\ blocks s !! cur c = Some bb /\
             pc c = length (bb_insts bb).

Lemma numbered_length ins : forall n, length (numbered n ins) = length ins.
Proof. induction ins; intros n; simpl; [reflexivity|]. now rewrite IHins. Qed.

Lemma numbered_lookup_inv ins : forall n k e,
  numbered n ins !! k = Some e -> exists i, ins !! k = Some i /\ e = ((k + n)%nat, i).
Proof.
  induction ins as [|i0 ins IH]; intros n k e H; [discriminate|].
  destruct k as [|k]; simpl in *.
  - injection H as <-. now exists i0.
  - destruct (IH _ _ _ H) as (i & Hi & ->). exists i. split; [exact Hi|].
    f_equal. lia.
Qed.

(** Running the instructions an emitter appended, from the insertion
    point: their effects one after the other, and the execution stands at
    the new insertion point. *)
Lemma run_appended ins s c E' M' :
  at_end s c ->
  straight_all (numbered (next_id s) ins) (env c) (mem c) = Some (E', M') ->
  exists c',
    run (blocks (appended ins s)) (length ins) c = Running c' /\
    env c' = E' /\ mem c' = M' /\ at_end (appended ins s) c'.
Proof.
  intros (bb & Hb & Hbb & Hpc) Hs.
  eexists. split; [|split; [|split]].
  - rewrite <- (numbered_length ins (next_id s)).
    apply (run_straight _ _ c E' M'); [|exact Hs].
    intros j e Hj. destruct (numbered_lookup_inv _ _ _ _ Hj) as (i & Hi & ->).
    rewrite Hpc. now apply fetch_appended.
  - reflexivity.
  - reflexivity.
  - exists (appendInsts (numbered (next_id s) ins) bb). simpl.
    unfold appended. simpl. rewrite Hb. repeat split.
    + rewrite list_lookup_alter_eq, Hbb. reflexivity.
    + rewrite length_app, Hpc. lia.
Qed.

Lemma eval_bound id x E t : eval (bind_env id x E) (InstRef id t) = Some x.
Proof. simpl. unfold bind_env. now rewrite Nat.eqb_refl. Qed.

Lemma field_indices_values E index :
  0 <= index <= INT32_MAX ->
  mapM (fun i => eval E i ≫= rint) (fieldIndices index) = Some [0; index].
Proof.
  intros H. unfold fieldIndices. cbn. rewrite (signed_index index H).
  reflexivity.
Qed.

Lemma field_indices_constants index :
  0 <= index <= INT32_MAX ->
  mapM const_index (fieldIndices index) = Some [0; index].
Proof.
  intros H. unfold fieldIndices. cbn. rewrite (signed_index index H).
  reflexivity.
Qed.


Lemma eval_field_address sty p index E a t :
  0 <= index <= INT32_MAX ->
  eval E p = Some (RPtr a) -> a_path a <> [] ->
  eval E (ConstantExprGEP sty p (fieldIndices index) t)
  = Some (RPtr (field_of a index)).
Proof.
  intros Hi Hp Ha. cbn [eval].
  rewrite Hp, (field_indices_constants index Hi), (gep_field a index Ha).
  reflexivity.
Qed.









(** The state the [main] of structs.cpp leaves, and the global [point] a
    caller could pass. *)
Definition structs_state : State :=
  match Structs.main "" with
  | Ok _ s => s
  | Crash _ => initializeModule
  end.

Definition point_ty : Ty := StructTy "struct.point" [IntegerTy 32; IntegerTy 32].




(** What the builder gives instead: for the global itself the constant
    expression of the computation asked for; for the address of a struct
    that is a field of a global, itself a constant expression, the one
    computation from the global with the three indices. *)
Example constant_field_addresses :
  Structs.getStructElementAddr 1 (GlobalVariableRef "point" point_ty)
    structs_state
  = Ok (ConstantExprGEP point_ty (GlobalVariableRef "point" point_ty)
          (fieldIndices 1) (PointerTy (IntegerTy 32)))
       structs_state /\
  let line_ty := StructTy "struct.line" [point_ty; point_ty] in
  Structs.getStructElementAddr 0
    (ConstantExprGEP line_ty (GlobalVariableRef "line" line_ty)
       (fieldIndices 1) (PointerTy point_ty))
    structs_state
  = Ok (ConstantExprGEP line_ty (GlobalVariableRef "line" line_ty)
          [ConstantInt 32 0; ConstantInt 32 1; ConstantInt 32 0]
          (PointerTy (IntegerTy 32)))
       structs_state.
Proof. split; vm_compute; reflexivity. Qed.

(** ** Array elements *)







(** ** Writing a field and reading it back *)

(** *** Memory *)

Lemma descend_replace_same p : forall o new o',
  replace o p new = Some o' -> descend o' p = Some new.
Proof.
  induction p as [|i p IH]; intros o new o' H; simpl in *.
  - congruence.
  - destruct o as [v|parts]; [discriminate|].
    destruct (i <? 0) eqn:Ei; [discriminate|].
    destruct (parts !! Z.to_nat i) as [m1|] eqn:Hm; [|discriminate].
    destruct (replace m1 p new) as [m2|] eqn:Hr; [|discriminate].
    injection H as <-. cbn beta iota.
    rewrite list_lookup_insert_eq by (eapply lookup_lt_Some; exact Hm).
    now apply (IH m1).
Qed.

(** Two different scalar cells of an object: writing one leaves the other. *)
Lemma descend_replace_other p : forall o p' new o' u x,
  replace o p new = Some o' ->
  descend o p = Some (MScalar u) ->
  descend o p' = Some (MScalar x) ->
  p <> p' ->
  descend o' p' = Some (MScalar x).
Proof.
  induction p as [|i p IH]; intros o p' new o' u x Hr Hd Hd' Hne; simpl in *.
  - injection Hd as ->. destruct p' as [|j p']; [congruence|discriminate].
  - destruct o as [v|parts]; [discriminate|].
    destruct (i <? 0) eqn:Ei; [discriminate|].
    destruct (parts !! Z.to_nat i) as [m1|] eqn:Hm; [|discriminate].
    destruct (replace m1 p new) as [m2|] eqn:Hr2; [|discriminate].
    injection Hr as <-.
    destruct p' as [|j p']; [discriminate|]. cbn [descend] in *.
    destruct (j <? 0) eqn:Ej; [discriminate|].
    destruct (Z.eq_dec i j) as [<-|Hij].
    + rewrite list_lookup_insert_eq by (eapply lookup_lt_Some; exact Hm).
      rewrite Hm in Hd'. apply (IH m1 p' new m2 u x Hr2 Hd Hd'). congruence.
    + rewrite list_lookup_insert_ne; [exact Hd'|].
      apply Z.ltb_ge in Ei, Ej. lia.
Qed.

Lemma Block_eq_dec (b b' : Block) : {b = b'} + {b <> b'}.
Proof. decide equality; solve_decision. Qed.

Lemma object_set_same m b o : object (set_object m b o) b = Some o.
Proof.
  destruct b; simpl; [now rewrite String.eqb_refl | now rewrite Nat.eqb_refl].
Qed.

Lemma object_set_other m b b' o :
  b <> b' -> object (set_object m b o) b' = object m b'.
Proof.
  intros H. destruct b, b'; simpl; try reflexivity.
  - destruct (String.eqb_spec name0 name); [congruence|reflexivity].
  - destruct (Nat.eqb_spec n0 n); [congruence|reflexivity].
Qed.

(** What is stored, a scalar or an aggregate, is what a load of its type
    reads back. *)
Lemma load_store_same m a v m' t :
  store m a v = Some m' -> has_type v t = true -> load m' t a = Some v.
Proof.
  unfold store, load. intros H Ht.
  destruct (object m (a_block a)) as [o|]; [|discriminate].
  destruct (inner_path a) as [p|]; [|discriminate].
  destruct (descend o p) as [old|]; [|discriminate].
  destruct (same_shape old (value_content v)); [|discriminate].
  destruct (replace o p (value_content v)) as [o'|] eqn:Hr; [|discriminate].
  injection H as <-. rewrite object_set_same.
  rewrite (descend_replace_same p o _ o' Hr), content_of_value, Ht. reflexivity.
Qed.

Lemma inner_path_inj a a' p :
  a_block a = a_block a' -> inner_path a = Some p -> inner_path a' = Some p ->
  a = a'.
Proof.
  unfold inner_path. destruct a as [blk pa], a' as [blk' pa']. simpl.
  intros -> H H'. f_equal.
  destruct (rev pa) as [|z l] eqn:E; [discriminate|].
  destruct (rev pa') as [|z' l'] eqn:E'; [discriminate|].
  destruct z; try discriminate. destruct z'; try discriminate.
  injection H as ->. injection H' as ->.
  rewrite <- (rev_involutive pa), <- (rev_involutive pa'), E, E'. reflexivity.
Qed.

(** A cell outside the part that is replaced stays as it is. *)
Lemma descend_replace_outside p : forall o p' new o' x,
  replace o p new = Some o' ->
  descend o p' = Some (MScalar x) ->
  ~ p `prefix_of` p' ->
  descend o' p' = Some (MScalar x).
Proof.
  induction p as [|i p IH]; intros o p' new o' x Hr Hd' Hne; simpl in *.
  - elim Hne. apply prefix_nil.
  - destruct o as [v|parts]; [discriminate|].
    destruct (i <? 0) eqn:Ei; [discriminate|].
    destruct (parts !! Z.to_nat i) as [m1|] eqn:Hm; [|discriminate].
    destruct (replace m1 p new) as [m2|] eqn:Hr2; [|discriminate].
    injection Hr as <-.
    destruct p' as [|j p']; [discriminate|]. cbn [descend] in *.
    destruct (j <? 0) eqn:Ej; [discriminate|].
    destruct (Z.eq_dec i j) as [<-|Hij].
    + rewrite list_lookup_insert_eq by (eapply lookup_lt_Some; exact Hm).
      rewrite Hm in Hd'. apply (IH m1 p' new m2 x Hr2 Hd').
      intros Hp. apply Hne. now apply prefix_cons.
    + rewrite list_lookup_insert_ne; [exact Hd'|].
      apply Z.ltb_ge in Ei, Ej. lia.
Qed.

(** [a'] is the part at [a] or lies within it. *)
Definition within (a' a : Addr) : Prop :=
  a_block a' = a_block a /\ a_path a `suffix_of` a_path a'.

Lemma inner_path_within a a' p p' :
  a_block a' = a_block a ->
  inner_path a = Some p -> inner_path a' = Some p' -> p `prefix_of` p' ->
  within a' a.
Proof.
  unfold inner_path. intros Hb H H' [k Hk]. split; [exact Hb|].
  destruct (rev (a_path a)) as [|z l] eqn:E; [discriminate|].
  destruct (rev (a_path a')) as [|z' l'] eqn:E'; [discriminate|].
  destruct z; try discriminate. destruct z'; try discriminate.
  injection H as ->. injection H' as ->. subst p'.
  exists (rev k).
  rewrite <- (rev_involutive (a_path a')), E', <- (rev_involutive (a_path a)), E.
  simpl. rewrite !rev_app_distr. simpl. rewrite <- !app_assoc. reflexivity.
Qed.

(** A store does not change what is read from a cell outside the part
    stored to. *)
Lemma load_store_other m a v m' t a' x :
  store m a v = Some m' -> ~ within a' a ->
  load m t a' = Some x -> is_scalar x = true -> load m' t a' = Some x.
Proof.
  unfold store, load. intros H Hne Hl Hx.
  destruct (object m (a_block a)) as [o|] eqn:Ho; [|discriminate].
  destruct (inner_path a) as [p|] eqn:Hp; [|discriminate].
  destruct (descend o p) as [old|] eqn:Hd; [|discriminate].
  destruct (same_shape old (value_content v)); [|discriminate].
  destruct (replace o p (value_content v)) as [o'|] eqn:Hr; [|discriminate].
  injection H as <-.
  destruct (Block_eq_dec (a_block a) (a_block a')) as [Hb|Hb].
  - rewrite <- Hb in *. rewrite object_set_same. rewrite Ho in Hl.
    destruct (inner_path a') as [p'|] eqn:Hp'; [|discriminate].
    destruct (descend o p') as [c|] eqn:Hd'; [|discriminate].
    destruct c as [x'|ps].
    + rewrite (descend_replace_outside p o p' _ o' x' Hr Hd'); [exact Hl|].
      intros Hpre. apply Hne.
      now apply (inner_path_within a a' p p').
    + cbn [content_value] in Hl. destruct (has_type (RAgg ps) t); [|discriminate].
      injection Hl as <-. discriminate Hx.
  - rewrite (object_set_other _ _ _ _ Hb). exact Hl.
Qed.

(** A part can be stored to with a value laid out like it. *)
Lemma store_part m a old v :
  part m a = Some old -> same_shape old (value_content v) = true ->
  exists m', store m a v = Some m'.
Proof.
  unfold part, store. intros H Hs.
  destruct (object m (a_block a)) as [o|]; [|discriminate].
  destruct (inner_path a) as [p|]; [|discriminate].
  rewrite H, Hs.
  assert (Hr : forall p o x new, descend o p = Some x ->
                 exists o', replace o p new = Some o').
  { clear. induction p as [|i p IH]; intros o x new Hd; simpl in *.
    - eauto.
    - destruct o as [|parts]; [discriminate|].
      destruct (i <? 0); [discriminate|].
      destruct (parts !! Z.to_nat i) as [m1|]; [|discriminate].
      destruct (IH m1 x new Hd) as [o' ->]. eauto. }
  destruct (Hr p o _ (value_content v) H) as [o' ->]. eauto.
Qed.

(** *** The round trip *)

(** The calls of the round trip: the address of the field is taken, [v] is
    stored through it, the field is read back.  [structAlloca] is what
    [getStructElementLValue] and [getStructElementRValue] take: the slot that
    holds the address of the struct. *)
Definition fieldRoundTrip (structAlloca : Value) (index : Z) (v : Value)
  : Emit Value :=
  let* elementAddr := Structs.getStructElementLValue structAlloca index in
  CreateStore v elementAddr ;;;
  Structs.getStructElementRValue structAlloca index.

Lemma fieldRoundTrip_emits structAlloca index v sname body fty s :
  attached s ->
  getType structAlloca = PointerTy (PointerTy (StructTy sname body)) ->
  fieldOf body index fty ->
  fieldRoundTrip structAlloca index v s =
    Ok (InstRef (5 + next_id s) fty)
       (appended
          [Load (PointerTy (StructTy sname body)) structAlloca;
           GetElementPtr true (StructTy sname body)
             (InstRef (next_id s) (PointerTy (StructTy sname body)))
             (fieldIndices index);
           Store v (InstRef (1 + next_id s) (PointerTy fty));
           Load (PointerTy (StructTy sname body)) structAlloca;
           GetElementPtr true (StructTy sname body)
             (InstRef (3 + next_id s) (PointerTy (StructTy sname body)))
             (fieldIndices index);
           Load fty (InstRef (4 + next_id s) (PointerTy fty))] s).
Proof.
  intros Ha Ht Hf. unfold fieldRoundTrip.
  rewrite (bind_ok _ _ _ _ _
             (getStructElementLValue_emits index structAlloca sname body fty s Ha Ht Hf)).
  rewrite (bind_ok _ _ _ _ _
             (CreateStore_appended _ _ _ (attached_appended _ _ Ha))).
  rewrite appended_app. simpl app.
  rewrite (getStructElementRValue_emits index structAlloca sname body fty _
             (attached_appended _ _ Ha) Ht Hf).
  rewrite appended_app. reflexivity.
Qed.

(** The value read back at the end of the round trip is the value [v] had
    when it was stored, in the execution that stands at [c]. *)
Definition round_trip_reads (s : State) (structAlloca : Value) (index : Z)
    (v : Value) (c : Config) : Prop :=
  exists r s' c' x,
    fieldRoundTrip structAlloca index v s = Ok r s' /\
    eval (env c) v = Some x /\
    run (blocks s') 6 c = Running c' /\
    eval (env c') r = Some x.

Ltac straight_on := cbn [numbered straight_all straight Nat.add].

(** A value of a type is, as a content, a content of the type. *)
Lemma holds_value_content v t :
  has_type v t = true -> holds (value_content v) t = true.
Proof.
  destruct v; intros H; try exact H; simpl; exact H.
Qed.

(** Two contents of one type are laid out alike. *)
Lemma holds_same_shape : forall c t c',
  holds c t = true -> holds c' t = true -> same_shape c c' = true.
Proof.
  fix IH 1. intros c t c' H H'.
  destruct c as [v|ps], c' as [v'|qs]; [reflexivity| | |].
  - exfalso. destruct v, t; simpl in H, H'; discriminate.
  - exfalso. destruct v', t; simpl in H, H'; discriminate.
  - destruct t as [| | | | |e|e n|sname body|r args va];
      simpl in H, H'; try discriminate; simpl.
    + apply andb_true_iff in H as [Hn H]. apply andb_true_iff in H' as [Hn' H'].
      apply Nat.eqb_eq in Hn, Hn'. rewrite <- Hn' in Hn. clear Hn'.
      revert qs Hn H H'. revert ps. fix IHl 1.
      intros [|x xs] [|y ys] Hn H H'; try discriminate; [reflexivity|].
      apply andb_true_iff in H as [Hx H]. apply andb_true_iff in H' as [Hy H'].
      rewrite (IH x e y Hx Hy). simpl.
      apply IHl; [simpl in Hn; congruence | exact H | exact H'].
    + revert qs body H H'. revert ps. fix IHl 1.
      intros [|x xs] [|y ys] [|t ts] H H'; try discriminate; [reflexivity|].
      apply andb_true_iff in H as [Hx H]. apply andb_true_iff in H' as [Hy H'].
      rewrite (IH x t y Hx Hy). simpl.
      exact (IHl xs ys ts H H').
Qed.

(** The parts of a struct in memory are contents of the field types. *)
Lemma holds_field sname : forall parts body i fty,
  holds (MAgg parts) (StructTy sname body) = true ->
  body !! i = Some fty ->
  exists old, parts !! i = Some old /\ holds old fty = true.
Proof.
  induction parts as [|x xs IHp]; intros [|t ts] i fty H Hf; simpl in H;
    try discriminate.
  apply andb_true_iff in H as [Hx H].
  destruct i as [|i]; simpl in Hf.
  - injection Hf as <-. exists x. split; [reflexivity | exact Hx].
  - apply (IHp ts i fty H Hf).
Qed.

Lemma descend_app p : forall o q,
  descend o (p ++ q) =
  match descend o p with Some m => descend m q | None => None end.
Proof.
  induction p as [|i p IH]; intros o q; simpl; [reflexivity|].
  destruct o as [|parts]; [reflexivity|].
  destruct (i <? 0); [reflexivity|].
  destruct (parts !! Z.to_nat i); [apply IH | reflexivity].
Qed.

(** What is not an aggregate is not entered: a cell within a scalar cell
    is the cell. *)
Lemma within_scalar m a' a t x u :
  load m t a' = Some x -> part m a = Some (MScalar u) -> within a' a ->
  a' = a.
Proof.
  unfold load, part. intros Hl Hp [Hb [k Hk]].
  rewrite Hb in Hl.
  destruct (object m (a_block a)) as [o|]; [|discriminate].
  unfold inner_path in *. rewrite Hk, rev_app_distr in Hl.
  destruct (rev (a_path a)) as [|z p]; [discriminate|].
  destruct z; try discriminate. simpl in Hl.
  assert (Hk' : rev k = [] -> a' = a).
  { intros Hn. destruct a', a. simpl in *. subst.
    rewrite <- (rev_involutive k), Hn. reflexivity. }
  destruct (rev k) as [|j js]; [now apply Hk'|]. exfalso.
  rewrite descend_app, Hp in Hl. discriminate.
Qed.

(** The round trip when the slot lies outside the field written. *)
Lemma fieldRoundTrip_reads structAlloca index v sname body fty s c sl a x o :
  attached s ->
  getType structAlloca = PointerTy (PointerTy (StructTy sname body)) ->
  fieldOf body index fty ->
  defined_before (next_id s) structAlloca = true ->
  defined_before (next_id s) v = true ->
  at_end s c ->
  eval (env c) structAlloca = Some (RPtr sl) ->
  load (mem c) (PointerTy (StructTy sname body)) sl = Some (RPtr a) ->
  part (mem c) a = Some o ->
  holds o (StructTy sname body) = true ->
  eval (env c) v = Some x ->
  has_type x fty = true ->
  ~ within sl (field_of a index) ->
  round_trip_reads s structAlloca index v c.
Proof.
  intros Ha Ht Hf Hds Hdv Hc Hes Hls Hpa Ho Hev Hx Hne.
  pose proof (fieldRoundTrip_emits structAlloca index v sname body fty s Ha Ht Hf) as He.
  destruct Hf as [Hr Hf].
  destruct o as [u|parts]; [destruct u; discriminate Ho|].
  destruct (holds_field sname parts body _ fty Ho Hf) as (old & Hpi & Hold).
  assert (Hpath : a_path a <> []).
  { intros Hnil. unfold part, inner_path in Hpa. rewrite Hnil in Hpa.
    simpl in Hpa. destruct (object (mem c) (a_block a)); discriminate. }
  assert (Hp : part (mem c) (field_of a index) = Some old).
  { rewrite (part_field _ _ _ _ Hpa) by lia. exact Hpi. }
  destruct (store_part (mem c) (field_of a index) old x Hp
              (holds_same_shape _ _ _ Hold (holds_value_content _ _ Hx)))
    as [M' Hst].
  pose proof (load_store_other _ _ _ _ _ _ _ Hst Hne Hls eq_refl) as Hls'.
  pose proof (load_store_same _ _ _ _ fty Hst Hx) as Hlf.
  edestruct (run_appended
               [Load (PointerTy (StructTy sname body)) structAlloca;
                GetElementPtr true (StructTy sname body)
                  (InstRef (next_id s) (PointerTy (StructTy sname body)))
                  (fieldIndices index);
                Store v (InstRef (1 + next_id s) (PointerTy fty));
                Load (PointerTy (StructTy sname body)) structAlloca;
                GetElementPtr true (StructTy sname body)
                  (InstRef (3 + next_id s) (PointerTy (StructTy sname body)))
                  (fieldIndices index);
                Load fty (InstRef (4 + next_id s) (PointerTy fty))] s c)
    as (c' & Hrun & HE & HM & Hend); [exact Hc| |].
  { straight_on. rewrite Hes, Hls.
    rewrite eval_bound, (field_indices_values _ index Hr), (gep_field a index Hpath).
    rewrite !(eval_bind_env (next_id s)) by (assumption || lia).
    rewrite Hev, eval_bound, Hst.
    rewrite !(eval_bind_env (next_id s)) by (assumption || lia).
    rewrite Hes, Hls'.
    rewrite eval_bound, (field_indices_values _ index Hr), (gep_field a index Hpath).
    rewrite eval_bound, Hlf. reflexivity. }
  eexists (InstRef (5 + next_id s) fty), _, c', x.
  split; [exact He|]. split; [exact Hev|]. split; [exact Hrun|].
  rewrite HE. apply eval_bound.
Qed.

(** The setting of the round trip: the builder inserts into a block of a
    function and the execution stands there; [structAlloca] is a slot, at
    [sl], that holds the address [a] of a struct of the type in memory;
    [index] is the index of one of its fields, of any type, scalar or
    aggregate; [v] is a value of the field's type. *)
Definition round_trip_setting (s : State) (structAlloca : Value) (index : Z)
    (v : Value) (c : Config) (sl a : Addr) : Prop :=
  exists sname body fty x o,
    attached s /\
    getType structAlloca = PointerTy (PointerTy (StructTy sname body)) /\
    fieldOf body index fty /\
    defined_before (next_id s) structAlloca = true /\
    defined_before (next_id s) v = true /\
    at_end s c /\
    eval (env c) structAlloca = Some (RPtr sl) /\
    load (mem c) (PointerTy (StructTy sname body)) sl = Some (RPtr a) /\
    part (mem c) a = Some o /\
    holds o (StructTy sname body) = true /\
    eval (env c) v = Some x /\
    has_type x fty = true.

(** C8 (amended).  In the setting of the round trip, for a field of any
    type, when the slot that holds the address of the struct is not the
    field written nor a part of it: the field's address taken by
    [getStructElementLValue], a store of [v] through it and
    [getStructElementRValue] at the same index give the value of [v]. *)
Theorem field_round_trip s structAlloca index v c sl a :
  round_trip_setting s structAlloca index v c sl a ->
  ~ within sl (field_of a index) ->
  round_trip_reads s structAlloca index v c.
Proof.
  intros (sname & body & fty & x & o & Ha & Ht & Hf & Hds & Hdv & Hc
          & Hes & Hls & Hpa & Ho & Hev & Hx) Hne.
  exact (fieldRoundTrip_reads structAlloca index v sname body fty s c sl a x
           o Ha Ht Hf Hds Hdv Hc Hes Hls Hpa Ho Hev Hx Hne).
Qed.

(** The state in which the body of [main] starts to be emitted: the function
    is declared, its entry block is the insertion point. *)
Definition entry_state : State :=
  match (Emitter.registerFunctionProto ;;;
         let* fn := declareFunction "main" in
         let* entry := createBB fn "entry" in
         SetInsertPoint entry) initializeModule with
  | Ok _ s => s
  | Crash _ => initializeModule
  end.

Definition object_at (name : string) : Addr :=
  {| a_block := GlobalBlock name; a_path := [0] |}.

(** [struct point point = {1, 2}; struct point *p = &point;] *)
Definition point_mem : Mem :=
  {| globals := fun g =>
       if String.eqb g "point"
       then Some (MAgg [MScalar (RInt 32 1); MScalar (RInt 32 2)])
       else if String.eqb g "p"
       then Some (MScalar (RPtr (object_at "point")))
       else None;
     stack := fun _ => None |}.

Definition start_with (m : Mem) : Config :=
  {| cur := 0; pc := 0; env := fun _ => None; mem := m;
     allocas := 0; entered := [0%nat] |}.

Lemma field_round_trip_witness :
  round_trip_reads entry_state (GlobalVariableRef "p" (PointerTy point_ty)) 1
    (ConstantInt 32 7) (start_with point_mem).
Proof.
  apply (field_round_trip entry_state (GlobalVariableRef "p" (PointerTy point_ty))
           1 (ConstantInt 32 7) (start_with point_mem)
           (object_at "p") (object_at "point")).
  - exists "struct.point", [IntegerTy 32; IntegerTy 32], (IntegerTy 32),
      (RInt 32 7), (MAgg [MScalar (RInt 32 1); MScalar (RInt 32 2)]).
    split.
    { unfold attached. eexists _, _, _.
      split; [vm_compute; reflexivity|]. split; vm_compute; reflexivity. }
    split; [reflexivity|].
    split; [split; [unfold INT32_MAX; lia | reflexivity]|].
    split; [reflexivity|]. split; [reflexivity|].
    split.
    { unfold at_end. eexists. split; [vm_compute; reflexivity|].
      split; vm_compute; reflexivity. }
    split; [reflexivity|]. split; [vm_compute; reflexivity|].
    split; [reflexivity|]. split; [reflexivity|].
    split; [vm_compute; reflexivity | reflexivity].
  - intros [Hb _]. discriminate Hb.
Defined.

(** A field that is itself a struct:
    [struct line { struct point from, to; } line; struct line *l = &line;].
    The value stored is the whole of [point], loaded before. *)
Definition line_ty : Ty := StructTy "struct.line" [point_ty; point_ty].

Definition line_mem : Mem :=
  {| globals := fun g =>
       if String.eqb g "point"
       then Some (MAgg [MScalar (RInt 32 1); MScalar (RInt 32 2)])
       else if String.eqb g "line"
       then Some (MAgg [MAgg [MScalar (RInt 32 0); MScalar (RInt 32 0)];
                        MAgg [MScalar RUndef; MScalar RUndef]])
       else if String.eqb g "l"
       then Some (MScalar (RPtr (object_at "line")))
       else None;
     stack := fun _ => None |}.

Definition point_loaded : State :=
  match CreateLoad point_ty (GlobalVariableRef "point" point_ty) entry_state with
  | Ok _ s => s
  | Crash _ => entry_state
  end.

Definition after_load : Config :=
  match run (blocks point_loaded) 1 (start_with line_mem) with
  | Running c => c
  | _ => start_with line_mem
  end.

Example round_trip_of_a_struct_field :
  round_trip_reads point_loaded (GlobalVariableRef "l" (PointerTy line_ty)) 1
    (InstRef 0 point_ty) after_load /\
  eval (env after_load) (InstRef 0 point_ty)
  = Some (RAgg [MScalar (RInt 32 1); MScalar (RInt 32 2)]).
Proof.
  split; [|reflexivity].
  apply (fieldRoundTrip_reads (GlobalVariableRef "l" (PointerTy line_ty)) 1
           (InstRef 0 point_ty) "struct.line" [point_ty; point_ty] point_ty
           point_loaded after_load (object_at "l") (object_at "line")
           (RAgg [MScalar (RInt 32 1); MScalar (RInt 32 2)])
           (MAgg [MAgg [MScalar (RInt 32 0); MScalar (RInt 32 0)];
                  MAgg [MScalar RUndef; MScalar RUndef]])).
  - unfold attached. eexists _, _, _.
    split; [vm_compute; reflexivity|]. split; vm_compute; reflexivity.
  - reflexivity.
  - split; [unfold INT32_MAX; lia | reflexivity].
  - reflexivity.
  - reflexivity.
  - unfold at_end. eexists. split; [vm_compute; reflexivity|].
    split; vm_compute; reflexivity.
  - reflexivity.
  - vm_compute. reflexivity.
  - reflexivity.
  - reflexivity.
  - reflexivity.
  - reflexivity.
  - intros [Hb _]. discriminate Hb.
Qed.

(** [struct node { struct node *next; }].  A named struct type refers to
    itself by its name: in the type of [next] the body of the pointee is left
    out. *)
Definition node_ref : Ty := StructTy "struct.node" [].
Definition node_ty : Ty := StructTy "struct.node" [PointerTy node_ref].

(** [&n0.next], of type [struct node **]. *)
Definition next_of_n0 : Value :=
  ConstantExprGEP node_ty (GlobalVariableRef "n0" node_ty) (fieldIndices 0)
                  (PointerTy (PointerTy node_ty)).

(** [struct node n0 = {&n0}, n1 = {NULL};] *)
Definition node_mem : Mem :=
  {| globals := fun g =>
       if String.eqb g "n0"
       then Some (MAgg [MScalar (RPtr (object_at "n0"))])
       else if String.eqb g "n1"
       then Some (MAgg [MScalar RNull])
       else None;
     stack := fun _ => None |}.

(** The slot passed is [&n0.next], which holds [&n0]: the field written,
    [( *slot)->next], is the slot itself.  After [&n1] is stored, the slot
    holds [&n1], and the field read back is [n1.next], which is null. *)
Lemma round_trip_through_own_field :
  round_trip_setting entry_state next_of_n0 0 (GlobalVariableRef "n1" node_ty)
    (start_with node_mem) (field_of (object_at "n0") 0) (object_at "n0") /\
  ~ round_trip_reads entry_state next_of_n0 0 (GlobalVariableRef "n1" node_ty)
      (start_with node_mem).
Proof.
  split.
  - exists "struct.node", [PointerTy node_ref], (PointerTy node_ref),
      (RPtr (object_at "n1")), (MAgg [MScalar (RPtr (object_at "n0"))]).
    split.
    { unfold attached. eexists _, _, _.
      split; [vm_compute; reflexivity|]. split; vm_compute; reflexivity. }
    split; [reflexivity|].
    split; [split; [unfold INT32_MAX; lia | reflexivity]|].
    split; [reflexivity|]. split; [reflexivity|].
    split.
    { unfold at_end. eexists. split; [vm_compute; reflexivity|].
      split; vm_compute; reflexivity. }
    split; [vm_compute; reflexivity|]. split; [vm_compute; reflexivity|].
    split; [reflexivity|]. split; [reflexivity|].
    split; reflexivity.
  - intros (r & s' & c' & x & He & Hev & Hrun & Hr).
    vm_compute in He. injection He as <- <-.
    vm_compute in Hev. injection Hev as <-.
    vm_compute in Hrun. injection Hrun as <-.
    vm_compute in Hr. discriminate Hr.
Qed.

End Addressing.


(* ===================================================================== *)
(** * Saving the module                                                   *)
(* ===================================================================== *)

Module Saving.
Import Emitter Output.

(** The text [Module::print] writes. *)
Definition written (asm : State -> string) (m : State) : string :=
  "; ModuleID = '" +:+ mod_id m +:+ "'" +:+ newline +:+ asm m.

Lemma written_nonempty asm m : written asm m <> "".
Proof. unfold written. simpl. discriminate. Qed.

(** The world after the fatal error of a stream. *)
Definition reported (msg : string) (w : World) : World :=
  set_stderr (stderr w +:+ "LLVM ERROR: IO failure on output stream: "
              +:+ msg +:+ newline) w.

(** The stream for [filename] gets a descriptor, on [t]: the name is [-] and
    [t] the standard output, or the file can be opened. *)
Definition opens (w : World) (filename : string) (t : Target) : Prop :=
  (filename = "-" /\ t = ToStdout) \/
  (filename <> "-" /\ open_error w filename = None /\ t = ToFile filename).

(** What the target holds when the stream starts to write: the standard
    output what was written to it so far, a file nothing. *)
Definition at_open (t : Target) (w : World) : string :=
  match t with ToStdout => stdout w | ToFile _ => "" end.

(** All of [text] can be written to [t]. *)
Definition goes_through (w : World) (t : Target) (text : string) : Prop :=
  match room w t with
  | None => True
  | Some (n, _) => (String.length text <= n)%nat
  end.

(** The destructor's close of the descriptor does not fail: there is none
    for the standard output. *)
Definition closes (w : World) (t : Target) : Prop :=
  match t with ToStdout => True | ToFile _ => close_error w t = None end.

Lemma raw_fd_ostream_open_opens w filename t :
  opens w filename t ->
  raw_fd_ostream_open filename w
  = (None,
     {| FD := Some t;
        ShouldClose := match t with ToStdout => false | ToFile _ => true end;
        EC := None |},
     set_target_text t (at_open t w) w) /\
  target_text t (set_target_text t (at_open t w) w) = at_open t w.
Proof.
  unfold raw_fd_ostream_open.
  intros [[-> ->]|(Hn & Ho & ->)].
  - simpl. split; [|reflexivity]. destruct w; reflexivity.
  - apply String.eqb_neq in Hn. rewrite Hn, Ho. split; [reflexivity|].
    simpl. rewrite lookup_insert_eq. reflexivity.
Qed.

Lemma target_text_set t text w :
  target_text t (set_target_text t text w) = text.
Proof. destruct t; simpl; [reflexivity|]. now rewrite lookup_insert_eq. Qed.

(** The claim as the specification words it: a file that cannot be opened
    changes nothing in how the function ends, and nothing is reported. *)
Definition failure_is_silent (asm : State -> string) (filename : string)
    (m : State) (w : World) : Prop :=
  filename <> "-" -> open_error w filename <> None ->
  exists w', saveModuleIRToFile asm filename m w = Normal w' /\
             stderr w' = stderr w.

(** C9 (amended).  [saveModuleIRToFile] never looks at the error code the
    constructor of the stream sets: how it ends is a matter of the stream
    alone.  It returns, with the text of the module in the file (or, for the
    name [-], appended to the standard output) and nothing reported, when
    the stream opens, all of the text can be written and the close
    succeeds.  In every other case the destructor of the stream ends the
    process in [report_fatal_error], with a message on the standard error
    stream: when the file cannot be opened (no file is changed, and the
    write to the descriptor -1 fails), when a write fails (what got through
    is in the file), and when the close fails. *)
Theorem saveModuleIRToFile_outcome asm filename m w :
  (forall errorCode out w1,
     raw_fd_ostream_open filename w = (errorCode, out, w1) ->
     saveModuleIRToFile asm filename m w
     = raw_fd_ostream_destroy (Module_print asm m out w1).1
                              (Module_print asm m out w1).2) /\
  (forall t, opens w filename t -> goes_through w t (written asm m) ->
     closes w t ->
     exists w', saveModuleIRToFile asm filename m w = Normal w' /\
                target_text t w' = at_open t w +:+ written asm m /\
                stderr w' = stderr w) /\
  (forall e, filename <> "-" -> open_error w filename = Some e ->
     saveModuleIRToFile asm filename m w
     = Fatal (reported "Bad file descriptor" w)) /\
  (forall t n msg, opens w filename t -> room w t = Some (n, msg) ->
     (n < String.length (written asm m))%nat ->
     exists w' msg',
       saveModuleIRToFile asm filename m w = Fatal w' /\
       target_text t w' = at_open t w +:+ String.substring 0 n (written asm m) /\
       stderr w' = stderr (reported msg' w) /\
       (closes w t -> msg' = msg)) /\
  (forall path msg, opens w filename (ToFile path) ->
     close_error w (ToFile path) = Some msg ->
     exists w', saveModuleIRToFile asm filename m w = Fatal w' /\
                stderr w' = stderr (reported msg w)) /\
  (forall w', saveModuleIRToFile asm filename m w = Normal w' ->
     stderr w' = stderr w /\
     exists t, opens w filename t /\ goes_through w t (written asm m) /\
               closes w t).
Proof.
  pose proof (written_nonempty asm m) as Hne.
  assert (Hw : forall out w0,
            Module_print asm m out w0 = write (written asm m) out w0)
    by reflexivity.
  split; [|split; [|split; [|split; [|split]]]].
  - intros errorCode out w1 Ho. unfold saveModuleIRToFile. rewrite Ho.
    destruct (Module_print asm m out w1). reflexivity.
  - intros t Ho Hg Hc. unfold saveModuleIRToFile.
    destruct (raw_fd_ostream_open_opens w filename t Ho) as [-> Hat].
    rewrite Hw. unfold write.
    destruct (decide (written asm m = "")) as [E|_]; [now elim Hne|].
    cbn [FD]. unfold sys_write, goes_through in *.
    assert (Hroom : room (set_target_text t (at_open t w) w) t = room w t)
      by (destruct t; reflexivity).
    rewrite Hroom, Hat.
    assert (Hend : forall w2,
              raw_fd_ostream_destroy
                {| FD := Some t;
                   ShouldClose := match t with ToStdout => false | ToFile _ => true end;
                   EC := None |} w2 = Normal w2 \/ close_error w2 t <> None /\ t <> ToStdout).
    { intros w2. unfold raw_fd_ostream_destroy. cbn [FD ShouldClose].
      destruct t as [|path]; [left; reflexivity|].
      destruct (close_error w2 (ToFile path)) eqn:E; [right; split; discriminate|].
      left. reflexivity. }
    destruct (room w t) as [[n msg]|] eqn:Hr.
    + apply Nat.leb_le in Hg. rewrite Hg.
      match goal with |- exists w', raw_fd_ostream_destroy _ ?w2 = _ /\ _ =>
        destruct (Hend w2) as [->|[Hce Ht]]; [exists w2|] end.
      * split; [reflexivity|]. split; [|destruct t; reflexivity].
        destruct t; simpl; [reflexivity|]. rewrite !lookup_insert_eq. reflexivity.
      * exfalso. destruct t as [|path]; [now elim Ht|]. simpl in Hce, Hc.
        now rewrite Hc in Hce.
    + match goal with |- exists w', raw_fd_ostream_destroy _ ?w2 = _ /\ _ =>
        destruct (Hend w2) as [->|[Hce Ht]]; [exists w2|] end.
      * split; [reflexivity|]. split; [|destruct t; reflexivity].
        destruct t; simpl; [reflexivity|]. rewrite !lookup_insert_eq. reflexivity.
      * exfalso. destruct t as [|path]; [now elim Ht|]. simpl in Hce, Hc.
        now rewrite Hc in Hce.
  - intros e Hn Ho. unfold saveModuleIRToFile, raw_fd_ostream_open.
    apply String.eqb_neq in Hn. rewrite Hn, Ho, Hw. unfold write.
    destruct (decide (written asm m = "")) as [E|_]; [now elim Hne|].
    reflexivity.
  - intros t n msg Ho Hr Hlt. unfold saveModuleIRToFile.
    destruct (raw_fd_ostream_open_opens w filename t Ho) as [-> Hat].
    rewrite Hw. unfold write.
    destruct (decide (written asm m = "")) as [E|_]; [now elim Hne|].
    cbn [FD]. unfold sys_write.
    assert (Hroom : room (set_target_text t (at_open t w) w) t = room w t)
      by (destruct t; reflexivity).
    rewrite Hroom, Hat, Hr.
    apply Nat.leb_gt in Hlt. rewrite Hlt.
    unfold raw_fd_ostream_destroy, error_detected. cbn [FD ShouldClose EC].
    destruct t as [|path].
    + eexists _, msg. split; [reflexivity|]. split; [reflexivity|].
      split; [reflexivity|]. reflexivity.
    + cbn [close_error set_room set_target_text].
      destruct (close_error w (ToFile path)) as [msg2|] eqn:Hc.
      * eexists _, msg2. split; [reflexivity|].
        split; [simpl; now rewrite !lookup_insert_eq|].
        split; [reflexivity|]. intros Hcl. simpl in Hcl. congruence.
      * eexists _, msg. split; [reflexivity|].
        split; [simpl; now rewrite !lookup_insert_eq|].
        split; reflexivity.
  - intros path msg Ho Hc. unfold saveModuleIRToFile.
    destruct (raw_fd_ostream_open_opens w filename _ Ho) as [-> Hat].
    rewrite Hw. unfold write.
    destruct (decide (written asm m = "")) as [E|_]; [now elim Hne|].
    cbn [FD]. unfold sys_write.
    destruct (room _ (ToFile path)) as [[n msg1]|];
      [destruct (String.length (written asm m) <=? n)%nat|];
      unfold raw_fd_ostream_destroy, error_detected; cbn; rewrite Hc;
      eexists; (split; [reflexivity|]); reflexivity.
  - intros w' Hs. unfold saveModuleIRToFile, raw_fd_ostream_open in Hs.
    destruct (String.eqb filename "-") eqn:En.
    + apply String.eqb_eq in En. subst filename.
      rewrite Hw in Hs. unfold write in Hs.
      destruct (decide (written asm m = "")) as [E|_]; [now elim Hne|].
      cbn [FD] in Hs. unfold sys_write, goes_through in *.
      destruct (room w ToStdout) as [[n msg]|] eqn:Hr.
      * destruct (String.length (written asm m) <=? n)%nat eqn:El;
          [|discriminate Hs].
        injection Hs as <-. split; [reflexivity|].
        exists ToStdout. split; [left; now split|].
        rewrite Hr. split; [now apply Nat.leb_le | exact I].
      * injection Hs as <-. split; [reflexivity|].
        exists ToStdout. split; [left; now split|].
        rewrite Hr. split; exact I.
    + apply String.eqb_neq in En.
      destruct (open_error w filename) as [e|] eqn:Ho.
      * rewrite Hw in Hs. unfold write in Hs.
        destruct (decide (written asm m = "")) as [E|_]; [now elim Hne|].
        discriminate Hs.
      * rewrite Hw in Hs. unfold write in Hs.
        destruct (decide (written asm m = "")) as [E|_]; [now elim Hne|].
        cbn [FD] in Hs. unfold sys_write, goes_through in *.
        change (room (set_target_text (ToFile filename) "" w) (ToFile filename))
          with (room w (ToFile filename)) in Hs.
        destruct (room w (ToFile filename)) as [[n msg]|] eqn:Hr.
        -- destruct (String.length (written asm m) <=? n)%nat eqn:El;
             unfold raw_fd_ostream_destroy, error_detected in Hs;
             cbn in Hs;
             destruct (close_error w (ToFile filename)) eqn:Hc;
             try discriminate Hs.
           injection Hs as <-. split; [reflexivity|].
           exists (ToFile filename). split; [right; now repeat split|].
           rewrite Hr. split; [now apply Nat.leb_le | exact Hc].
        -- unfold raw_fd_ostream_destroy in Hs. cbn in Hs.
           destruct (close_error w (ToFile filename)) eqn:Hc; [discriminate Hs|].
           injection Hs as <-. split; [reflexivity|].
           exists (ToFile filename). split; [right; now repeat split|].
           rewrite Hr. split; [exact I | exact Hc].
Qed.

(** A world in which no file can be opened for writing, and one in which
    every file can be written. *)
Definition read_only : World :=
  {| open_error := fun _ => Some "Permission denied";
     room := fun _ => None; close_error := fun _ => None;
     files := ∅; stdout := ""; stderr := "" |}.

Definition writable : World :=
  {| open_error := fun _ => None;
     room := fun _ => None; close_error := fun _ => None;
     files := {["./out.ll" := "old"]}; stdout := ""; stderr := "" |}.

Lemma saveModuleIRToFile_outcome_witness :
  saveModuleIRToFile (fun _ => "") "./out.ll" initializeModule read_only
  = Fatal (reported "Bad file descriptor" read_only) /\
  exists w',
    saveModuleIRToFile (fun _ => "") "./out.ll" initializeModule writable
    = Normal w' /\
    target_text (ToFile "./out.ll") w'
    = at_open (ToFile "./out.ll") writable
      +:+ written (fun _ => "") initializeModule /\
    stderr w' = stderr writable.
Proof.
  split.
  - apply (proj1 (proj2 (proj2 (saveModuleIRToFile_outcome (fun _ => "")
                   "./out.ll" initializeModule read_only)))
             "Permission denied"); [discriminate | reflexivity].
  - apply (proj1 (proj2 (saveModuleIRToFile_outcome (fun _ => "") "./out.ll"
                   initializeModule writable)) (ToFile "./out.ll")).
    + right. split; [discriminate|]. split; reflexivity.
    + exact I.
    + reflexivity.
Defined.

(** With no file that can be opened, saving the empty module ends in the
    fatal error. *)
Lemma open_failure_is_fatal :
  ~ failure_is_silent (fun _ => "") "./out.ll" initializeModule read_only.
Proof.
  intros H. destruct (H ltac:(discriminate) ltac:(discriminate)) as (w' & Hs & _).
  vm_compute in Hs. discriminate Hs.
Qed.

End Saving.


(* ===================================================================== *)
(** * What the loops compute                                              *)
(* ===================================================================== *)

(** Both loop programs add the index to [result] in every iteration.  As
    long as no sum leaves the 32-bit range, [main] returns [result] plus the
    sum of the values the index takes, and that is what [result] holds in
    the end. *)
Module Sums.
Import Sem Loops.
Local Open Scope Z_scope.

(** [result] after [k] iterations that start with the index at [i]. *)
Fixpoint accumulated (r i : Z) (k : nat) : Z :=
  match k with
  | O => r
  | S k' => accumulated (r + i) (i + 1) k'
  end.

Lemma accumulated_closed k : forall r i,
  2 * accumulated r i k = 2 * r + Z.of_nat k * (2 * i + Z.of_nat k - 1).
Proof.
  induction k as [|k IH]; intros r i.
  - simpl. lia.
  - cbn [accumulated]. rewrite IH. lia.
Qed.

Lemma accumulated_step r i k :
  accumulated r i (S k) = accumulated r i k + (i + Z.of_nat k).
Proof.
  revert r i. induction k as [|k IH]; intros r i.
  - simpl. lia.
  - change (accumulated r i (S (S k))) with (accumulated (r + i) (i + 1) (S k)).
    rewrite IH. cbn [accumulated]. lia.
Qed.

(** No partial sum overflows. *)
Definition sums_fit (r i : Z) (k : nat) : Prop :=
  forall j, (j <= k)%nat -> INT32_MIN <= accumulated r i j <= INT32_MAX.

Lemma sums_fit_next r i k :
  sums_fit r i (S k) -> INT32_MIN <= r + i <= INT32_MAX /\ sums_fit (r + i) (i + 1) k.
Proof.
  intros H. split.
  - apply (H 1%nat). lia.
  - intros j Hj. apply (H (S j)). lia.
Qed.

(** What the two programs have in common: the blocks [condition] (1) and
    [body] (2), the index in the first stack slot, and how one iteration and
    the exit run. *)
Record loop_form (prog : list BasicBlock) (steps : nat) : Prop := {
  form_iteration : forall E G St n T i e r,
    E 0%nat = Some (RPtr slot) ->
    St 0%nat = Some (MScalar (RInt 32 i)) ->
    G "end" = Some (MScalar (RInt 32 e)) ->
    G "result" = Some (MScalar (RInt 32 r)) ->
    i <= e -> in_range 32 (i + 1) = true -> in_range 32 (r + i) = true ->
    exists E' St' T',
      run prog steps
        {| cur := 1; pc := 0; env := E; mem := {| globals := G; stack := St |};
           allocas := n; entered := T |}
      = Running {| cur := 1; pc := 0; env := E';
                   mem := {| globals := fun g => if String.eqb g "result"
                                                 then Some (MScalar (RInt 32 (r + i)))
                                                 else G g;
                             stack := St' |};
                   allocas := n; entered := T' |}
      /\ E' 0%nat = Some (RPtr slot)
      /\ St' 0%nat = Some (MScalar (RInt 32 (i + 1)));
  form_exit : forall E G St n T i e r,
    E 0%nat = Some (RPtr slot) ->
    St 0%nat = Some (MScalar (RInt 32 i)) ->
    G "end" = Some (MScalar (RInt 32 e)) ->
    G "result" = Some (MScalar (RInt 32 r)) ->
    e < i ->
    exists c,
      run prog 6
        {| cur := 1; pc := 0; env := E; mem := {| globals := G; stack := St |};
           allocas := n; entered := T |}
      = Returned (Some (RInt 32 r)) c
      /\ globals (mem c) = G;
  form_entry : forall G St s,
    G "start" = Some (MScalar (RInt 32 s)) ->
    exists E' St',
      run prog 4
        {| cur := 0; pc := 0; env := fun _ => None;
           mem := {| globals := G; stack := St |};
           allocas := 0; entered := [0%nat] |}
      = Running {| cur := 1; pc := 0; env := E';
                   mem := {| globals := G; stack := St' |};
                   allocas := 1; entered := [1%nat; 0%nat] |}
      /\ E' 0%nat = Some (RPtr slot)
      /\ St' 0%nat = Some (MScalar (RInt 32 s));
  form_main : enter prog "main" = fun m =>
    Some {| cur := 0; pc := 0; env := fun _ => None; mem := m;
            allocas := 0; entered := [0%nat] |}
}.

Lemma for_form : loop_form for_blocks 13.
Proof.
  split.
  - intros E G St n T i e r HE HS HG HR Hle Hin Hsum.
    assert (Hleb : (i <=? e) = true) by (apply Z.leb_le; exact Hle).
    do 3 eexists. split; [|split].
    + do_load. do_load. do_icmp. do_condbr. rewrite Hleb. cbn -[run].
      do_load. do_load. do_add. rewrite Hsum. do_store. do_br.
      do_load. do_add. change (signed 32 1) with 1. rewrite Hin. do_store. do_br.
      reflexivity.
    + cbn. exact HE.
    + reflexivity.
  - intros E G St n T i e r HE HS HG HR Hlt.
    assert (Hleb : (i <=? e) = false) by (apply Z.leb_gt; exact Hlt).
    eexists. split.
    + do_load. do_load. do_icmp. do_condbr. rewrite Hleb. cbn -[run].
      do_load. do_ret.
    + reflexivity.
  - intros G St s Hs. do 2 eexists. split; [|split].
    + do_alloca. do_load. do_store. do_br. reflexivity.
    + reflexivity.
    + reflexivity.
  - reflexivity.
Qed.

Lemma while_form : loop_form while_blocks 12.
Proof.
  split.
  - intros E G St n T i e r HE HS HG HR Hle Hin Hsum.
    assert (Hleb : (i <=? e) = true) by (apply Z.leb_le; exact Hle).
    do 3 eexists. split; [|split].
    + do_load. do_load. do_icmp. do_condbr. rewrite Hleb. cbn -[run].
      do_load. do_load. do_add. rewrite Hsum. do_store.
      do_load. do_add. change (signed 32 1) with 1. rewrite Hin. do_store. do_br.
      reflexivity.
    + cbn. exact HE.
    + reflexivity.
  - intros E G St n T i e r HE HS HG HR Hlt.
    assert (Hleb : (i <=? e) = false) by (apply Z.leb_gt; exact Hlt).
    eexists. split.
    + do_load. do_load. do_icmp. do_condbr. rewrite Hleb. cbn -[run].
      do_load. do_ret.
    + reflexivity.
  - intros G St s Hs. do 2 eexists. split; [|split].
    + do_alloca. do_load. do_store. do_br. reflexivity.
    + reflexivity.
    + reflexivity.
  - reflexivity.
Qed.

(** The globals after the loop: [result] holds [v], the others what they
    held. *)
Definition result_is (v : Z) (G G' : string -> option MVal) : Prop :=
  G' "result" = Some (MScalar (RInt 32 v)) /\
  forall g, g <> "result" -> G' g = G g.

Section Form.
Variables (prog : list BasicBlock) (steps : nat).
Hypothesis form : loop_form prog steps.

Lemma loop_from_sum (k : nat) : forall E G St n T i e r,
  E 0%nat = Some (RPtr slot) ->
  St 0%nat = Some (MScalar (RInt 32 i)) ->
  G "end" = Some (MScalar (RInt 32 e)) ->
  G "result" = Some (MScalar (RInt 32 r)) ->
  INT32_MIN <= i -> e < INT32_MAX ->
  Z.of_nat k = Z.max 0 (e - i + 1) ->
  sums_fit r i k ->
  exists fuel c,
    run prog fuel
      {| cur := 1; pc := 0; env := E; mem := {| globals := G; stack := St |};
         allocas := n; entered := T |}
    = Returned (Some (RInt 32 (accumulated r i k))) c
    /\ result_is (accumulated r i k) G (globals (mem c)).
Proof.
  induction k as [|k IH]; intros E G St n T i e r HE HS HG HR Hlo Hhi Hk Hfit.
  - destruct (form_exit _ _ form E G St n T i e r HE HS HG HR) as (c & Hrun & Hc); [lia|].
    exists 6%nat, c. split; [exact Hrun|]. rewrite Hc. split; [exact HR|reflexivity].
  - assert (Hle : i <= e) by lia.
    assert (Hin : in_range 32 (i + 1) = true)
      by (apply in_range_32; unfold INT32_MIN, INT32_MAX in *; lia).
    destruct (sums_fit_next r i k Hfit) as [Hri Hfit'].
    apply in_range_32 in Hri.
    destruct (form_iteration _ _ form E G St n T i e r HE HS HG HR Hle Hin Hri)
      as (E' & St' & T' & Hrun & HE' & HS').
    destruct (IH E' (fun g => if String.eqb g "result"
                              then Some (MScalar (RInt 32 (r + i))) else G g)
                 St' n T' (i + 1) e (r + i) HE' HS')
      as (fuel & c & Hrun' & Hres & Hframe);
      [exact HG | reflexivity | lia | lia | lia | exact Hfit' |].
    exists (steps + fuel)%nat, c. split.
    + rewrite (run_add _ _ _ _ _ Hrun). exact Hrun'.
    + split; [exact Hres|].
      intros g Hg. rewrite (Hframe g Hg).
      destruct (String.eqb_spec g "result"); [contradiction|reflexivity].
Qed.

Lemma main_sums m s e r :
  globals m "start" = Some (MScalar (RInt 32 s)) ->
  globals m "end" = Some (MScalar (RInt 32 e)) ->
  globals m "result" = Some (MScalar (RInt 32 r)) ->
  INT32_MIN <= s -> e < INT32_MAX ->
  sums_fit r s (Z.to_nat (Z.max 0 (e - s + 1))) ->
  exists fuel c,
    call prog "main" m fuel
    = Returned (Some (RInt 32 (accumulated r s (Z.to_nat (Z.max 0 (e - s + 1)))))) c
    /\ result_is (accumulated r s (Z.to_nat (Z.max 0 (e - s + 1))))
                 (globals m) (globals (mem c)).
Proof.
  intros Hs He Hr Hlo Hhi Hfit. destruct m as [G St]. cbn in Hs, He, Hr.
  destruct (form_entry _ _ form G St s Hs) as (E' & St' & Hrun0 & HE' & HS').
  destruct (loop_from_sum (Z.to_nat (Z.max 0 (e - s + 1))) E' G St' 1 [1%nat; 0%nat]
              s e r HE' HS' He Hr Hlo Hhi)
    as (fuel & c & Hrun & Hres); [lia | exact Hfit |].
  exists (4 + fuel)%nat, c. split; [|exact Hres].
  unfold call. rewrite (form_main _ _ form).
  exact (eq_trans (run_add _ 4 fuel _ _ Hrun0) Hrun).
Qed.
End Form.

(** X1.  Let [start], [end] and [result] hold the 32-bit values [s], [e]
    and [r], with [e] below the largest one, and let no partial sum leave
    the 32-bit range.  Then the [main] emitted by 15_loop_for.cpp and the
    [main] emitted by 16_loop_while.cpp both return [r] plus the sum of the
    integers from [s] to [e] (nothing is added when [s > e]); [result]
    holds that value afterwards and every other global is as before.  The sum
    is given by [accumulated], whose double is
    [2 r + k (2 s + k - 1)] for [k] iterations. *)
Theorem loops_return_the_sum m s e r :
  globals m "start" = Some (MScalar (RInt 32 s)) ->
  globals m "end" = Some (MScalar (RInt 32 e)) ->
  globals m "result" = Some (MScalar (RInt 32 r)) ->
  INT32_MIN <= s -> e < INT32_MAX ->
  sums_fit r s (Z.to_nat (Z.max 0 (e - s + 1))) ->
  let k := Z.to_nat (Z.max 0 (e - s + 1)) in
  let total := accumulated r s k in
  2 * total = 2 * r + Z.of_nat k * (2 * s + Z.of_nat k - 1) /\
  (exists fuel c,
     call for_blocks "main" m fuel = Returned (Some (RInt 32 total)) c /\
     result_is total (globals m) (globals (mem c))) /\
  (exists fuel c,
     call while_blocks "main" m fuel = Returned (Some (RInt 32 total)) c /\
     result_is total (globals m) (globals (mem c))).
Proof.
  intros Hs He Hr Hlo Hhi Hfit k total. split; [apply accumulated_closed|]. split.
  - exact (main_sums for_blocks 13 for_form m s e r Hs He Hr Hlo Hhi Hfit).
  - exact (main_sums while_blocks 12 while_form m s e r Hs He Hr Hlo Hhi Hfit).
Qed.

Lemma loops_return_the_sum_witness :
  exists fuel c,
    call for_blocks "main" (loop_mem 1 10 0) fuel
    = Returned (Some (RInt 32 55)) c.
Proof.
  destruct (loops_return_the_sum (loop_mem 1 10 0) 1 10 0)
    as (_ & (fuel & c & Hrun & _) & _).
  - reflexivity.
  - reflexivity.
  - reflexivity.
  - unfold INT32_MIN. lia.
  - unfold INT32_MAX. lia.
  - intros j Hj. change (Z.to_nat (Z.max 0 (10 - 1 + 1))) with 10%nat in Hj.
    unfold INT32_MIN, INT32_MAX.
    do 11 (destruct j as [|j]; [vm_compute; split; discriminate|]). lia.
  - exists fuel, c. exact Hrun.
Defined.

End Sums.


(* ===================================================================== *)
(** * Functions with parameters, and calls                                *)
(* ===================================================================== *)

(** The functions of structs.cpp and 18_pointers.cpp take arguments and call
    one another.  [Frames] extends the semantics of [Sem] to them: an operand
    may be a formal argument, which stands for the value the caller passed,
    and a [call] of a function of the module runs its body and continues
    after the call.  On code without arguments and calls it is the semantics
    of [Sem]. *)
Module Frames.
Import Sem.
Local Open Scope list_scope.
Local Open Scope Z_scope.

(** The value of an operand in a function called with [args]. *)
Definition evalIn (args : list RVal) (E : Env) (v : Value) : option RVal :=
  match v with
  | Argument _ pos _ => args !! pos
  | _ => eval E v
  end.

(** What an instruction that is neither a terminator nor a call does to the
    values, the memory and the number of [alloca]s. *)
Definition effectIn (args : list RVal) (id : nat) (i : Instruction)
    (E : Env) (M : Mem) (n : nat) : option (Env * Mem * nat) :=
  match i with
  | Alloca t _ =>
      let b := StackBlock n in
      Some (bind_env id (RPtr {| a_block := b; a_path := [0] |}) E,
            set_object M b (undef_of t), S n)
  | Load t p =>
      match evalIn args E p with
      | Some (RPtr a) =>
          match load M t a with
          | Some v => Some (bind_env id v E, M, n)
          | None => None
          end
      | _ => None
      end
  | Store v p =>
      match evalIn args E v, evalIn args E p with
      | Some x, Some (RPtr a) =>
          match store M a x with
          | Some M' => Some (E, M', n)
          | None => None
          end
      | _, _ => None
      end
  | AddNSW l r =>
      match evalIn args E l, evalIn args E r with
      | Some x, Some y =>
          match add_nsw x y with
          | Some v => Some (bind_env id v E, M, n)
          | None => None
          end
      | _, _ => None
      end
  | ICmpSLE l r =>
      match evalIn args E l, evalIn args E r with
      | Some x, Some y =>
          match icmp_sle x y with
          | Some v => Some (bind_env id v E, M, n)
          | None => None
          end
      | _, _ => None
      end
  | SExt v dest =>
      match evalIn args E v with
      | Some x =>
          match sext x dest with
          | Some r => Some (bind_env id r E, M, n)
          | None => None
          end
      | None => None
      end
  | GetElementPtr _ _ p idx =>
      match evalIn args E p, mapM (fun i => evalIn args E i ≫= rint) idx with
      | Some (RPtr a), Some ks =>
          match gep a ks with
          | Some a' => Some (bind_env id (RPtr a') E, M, n)
          | None => None
          end
      | _, _ => None
      end
  | _ => None
  end.

(** One instruction that is not a call. *)
Definition stepIn (args : list RVal) (prog : list BasicBlock) (c : Config)
  : Outcome :=
  match fetch prog (cur c) (pc c) with
  | None => Undefined
  | Some (id, i) =>
      match i with
      | Call _ _ => Unsupported
      | Br dest => jump c dest
      | CondBr cond t f =>
          match evalIn args (env c) cond with
          | Some (RInt 1 z) => jump c (if z =? 0 then f else t)
          | _ => Undefined
          end
      | Ret (Some v) =>
          match evalIn args (env c) v with
          | Some x => Returned (Some x) c
          | None => Undefined
          end
      | Ret None => Returned None c
      | RetVoid => Returned None c
      | _ =>
          match effectIn args id i (env c) (mem c) (allocas c) with
          | Some (E, M, n) => next c E M n
          | None => Undefined
          end
      end
  end.

(** Where a called function starts: its entry block, no value yet; the
    memory and the stack go on. *)
Definition called (b : nat) (c : Config) : Config :=
  {| cur := b; pc := 0; env := fun _ => None; mem := mem c;
     allocas := allocas c; entered := b :: entered c |}.

(** Where the caller goes on when the callee has returned [r] at [c']. *)
Definition resumed (id : nat) (r : option RVal) (c c' : Config) : Config :=
  {| cur := cur c; pc := S (pc c);
     env := match r with
            | Some x => bind_env id x (env c)
            | None => env c
            end;
     mem := mem c'; allocas := allocas c'; entered := entered c' |}.

(** [runIn fuel prog args c]: the execution from [c] of a function called
    with [args].  A call of a function that has a body in the module runs the
    body; a call of any other function is outside the semantics.  [fuel]
    bounds the instructions of each activation and the depth of calls. *)
Fixpoint runIn (fuel : nat) (prog : list BasicBlock) (args : list RVal)
    (c : Config) : Outcome :=
  match fuel with
  | O => Running c
  | S fuel' =>
      match fetch prog (cur c) (pc c) with
      | Some (id, Call callee actuals) =>
          match mapM (evalIn args (env c)) actuals, entryBlock prog callee with
          | Some vs, Some b =>
              match runIn fuel' prog vs (called b c) with
              | Returned r c' => runIn fuel' prog args (resumed id r c c')
              | Running _ => Running c
              | o => o
              end
          | None, _ => Undefined
          | Some _, None => Unsupported
          end
      | _ =>
          match stepIn args prog c with
          | Running c' => runIn fuel' prog args c'
          | o => o
          end
      end
  end.

(** A call from outside: the function [fn] with the arguments [args], in
    the memory [m], with [n] stack objects in use. *)
Definition callIn (prog : list BasicBlock) (fn : string) (args : list RVal)
    (m : Mem) (n : nat) (fuel : nat) : Outcome :=
  match entryBlock prog fn with
  | Some b => runIn fuel prog args
                {| cur := b; pc := 0; env := fun _ => None; mem := m;
                   allocas := n; entered := [b] |}
  | None => Undefined
  end.

(** ** Agreement with [Sem] *)

Lemma evalIn_nil E v : evalIn [] E v = eval E v.
Proof. destruct v; reflexivity. Qed.

Lemma effectIn_Some_not_control args id i E M n r :
  effectIn args id i E M n = Some r ->
  match i with
  | Call _ _ | Br _ | CondBr _ _ _ | Ret _ | RetVoid => False
  | _ => True
  end.
Proof. destruct i; simpl; intros H; try discriminate; exact I. Qed.

Lemma stepIn_nil prog c : stepIn [] prog c = step prog c.
Proof.
  unfold stepIn, step. destruct (fetch prog (cur c) (pc c)) as [[id i]|]; [|reflexivity].
  destruct i; cbn [effectIn]; rewrite ?evalIn_nil; try reflexivity.
  - destruct (eval (env c) ptr) as [[]|]; try reflexivity.
    destruct (load (mem c) ty a); reflexivity.
  - destruct (eval (env c) val); [|reflexivity].
    destruct (eval (env c) ptr) as [[]|]; try reflexivity.
    destruct (store (mem c) a r); reflexivity.
  - destruct (eval (env c) lhs); [|reflexivity].
    destruct (eval (env c) rhs); [|reflexivity].
    destruct (add_nsw r r0); reflexivity.
  - destruct (eval (env c) lhs); [|reflexivity].
    destruct (eval (env c) rhs); [|reflexivity].
    destruct (icmp_sle r r0); reflexivity.
  - destruct (eval (env c) v); [|reflexivity].
    destruct (sext r dest); reflexivity.
  - assert (Hm : mapM (fun i => evalIn [] (env c) i ≫= rint) idx
                 = mapM (fun i => eval (env c) i ≫= rint) idx).
    { induction idx as [|x idx IH]; [reflexivity|]. cbn.
      rewrite evalIn_nil, IH. reflexivity. }
    rewrite Hm. clear Hm.
    destruct (eval (env c) ptr) as [[]|]; try reflexivity.
    destruct (mapM _ idx); [|reflexivity].
    destruct (gep a l); reflexivity.
  - destruct v; [rewrite evalIn_nil|]; reflexivity.
Qed.

(** An execution of [Sem] that does not stop at a call is an execution
    here. *)
Lemma run_runIn prog n : forall c o,
  run prog n c = o -> o <> Unsupported -> runIn n prog [] c = o.
Proof.
  induction n as [|n IH]; intros c o H Ho; [exact H|].
  cbn [run] in H.
  destruct (fetch prog (cur c) (pc c)) as [[id i]|] eqn:Hf.
  - assert (Hcall : (exists f a, i = Call f a) \/
                    runIn (S n) prog [] c
                    = match stepIn [] prog c with
                      | Running c' => runIn n prog [] c'
                      | o => o
                      end).
    { cbn [runIn]. rewrite Hf. destruct i; try (right; reflexivity). left; eauto. }
    destruct Hcall as [(f & a & ->)|Hr].
    + unfold step in H. rewrite Hf in H. subst o. now elim Ho.
    + rewrite Hr, stepIn_nil.
      destruct (step prog c); first [ exact H | now apply IH ].
  - cbn [runIn]. rewrite Hf, stepIn_nil.
    destruct (step prog c); first [ exact H | now apply IH ].
Qed.

(** ** Running a block *)

Fixpoint effectAll (args : list RVal) (es : list (nat * Instruction))
    (E : Env) (M : Mem) (n : nat) : option (Env * Mem * nat) :=
  match es with
  | [] => Some (E, M, n)
  | (id, i) :: es' =>
      match effectIn args id i E M n with
      | Some (E', M', n') => effectAll args es' E' M' n'
      | None => None
      end
  end.

Lemma runIn_plain args prog c id i E M n fuel :
  fetch prog (cur c) (pc c) = Some (id, i) ->
  effectIn args id i (env c) (mem c) (allocas c) = Some (E, M, n) ->
  runIn (S fuel) prog args c
  = runIn fuel prog args {| cur := cur c; pc := S (pc c); env := E; mem := M;
                            allocas := n; entered := entered c |}.
Proof.
  intros Hf He. cbn [runIn]. unfold stepIn. rewrite Hf.
  pose proof (effectIn_Some_not_control _ _ _ _ _ _ _ He) as Hi.
  destruct i; try contradiction; rewrite He; reflexivity.
Qed.

Lemma runIn_effects prog args es : forall fuel c E M n,
  (forall j e, es !! j = Some e -> fetch prog (cur c) (j + pc c) = Some e) ->
  effectAll args es (env c) (mem c) (allocas c) = Some (E, M, n) ->
  runIn (length es + fuel) prog args c
  = runIn fuel prog args {| cur := cur c; pc := length es + pc c; env := E;
                            mem := M; allocas := n; entered := entered c |}.
Proof.
  induction es as [|[id i] es IH]; intros fuel c E M n Hf He; simpl in He.
  - injection He as <- <- <-. destruct c; reflexivity.
  - destruct (effectIn args id i (env c) (mem c) (allocas c)) as [[[E1 M1] n1]|] eqn:H1;
      [|discriminate].
    cbn [length Nat.add].
    rewrite (runIn_plain args prog c id i E1 M1 n1 _ (Hf O _ eq_refl) H1).
    rewrite (IH fuel _ E M n); cbn [cur pc env mem allocas entered].
    + do 2 f_equal. lia.
    + intros j e Hj. replace (j + S (pc c))%nat with (S j + pc c)%nat by lia.
      now apply Hf.
    + exact He.
Qed.

(** The instructions [es] of block [b], after [pre]. *)
Lemma runIn_block prog args b bb pre es rest fuel E M n T E' M' n' :
  prog !! b = Some bb ->
  bb_insts bb = pre ++ es ++ rest ->
  effectAll args es E M n = Some (E', M', n') ->
  runIn (length es + fuel) prog args
    {| cur := b; pc := length pre; env := E; mem := M; allocas := n; entered := T |}
  = runIn fuel prog args
      {| cur := b; pc := length pre + length es; env := E'; mem := M';
         allocas := n'; entered := T |}.
Proof.
  intros Hb Hi He.
  rewrite (runIn_effects prog args es fuel _ E' M' n'); cbn [cur pc env mem allocas entered].
  - do 2 f_equal. lia.
  - intros j e Hj. unfold fetch. rewrite Hb, Hi.
    rewrite lookup_app_r by lia.
    replace (j + length pre - length pre)%nat with j by lia.
    now apply lookup_app_l_Some.
  - exact He.
Qed.

Lemma runIn_ret_void prog args c id fuel :
  fetch prog (cur c) (pc c) = Some (id, RetVoid) ->
  runIn (S fuel) prog args c = Returned None c.
Proof. intros Hf. cbn [runIn]. unfold stepIn. rewrite Hf. reflexivity. Qed.

Lemma runIn_ret prog args c id v x fuel :
  fetch prog (cur c) (pc c) = Some (id, Ret (Some v)) ->
  evalIn args (env c) v = Some x ->
  runIn (S fuel) prog args c = Returned (Some x) c.
Proof. intros Hf Hv. cbn [runIn]. unfold stepIn. rewrite Hf, Hv. reflexivity. Qed.

(** More fuel does not change an execution that has ended. *)
Lemma runIn_stable prog fuel : forall fuel' args c o,
  runIn fuel prog args c = o -> (forall c', o <> Running c') ->
  (fuel <= fuel')%nat ->
  runIn fuel' prog args c = o.
Proof.
  induction fuel as [|fuel IH]; intros fuel' args c o H Ho Hle.
  - simpl in H. now elim (Ho c).
  - destruct fuel' as [|fuel']; [lia|].
    assert (Hle' : (fuel <= fuel')%nat) by lia.
    cbn [runIn] in H |- *.
    destruct (fetch prog (cur c) (pc c)) as [[id i]|].
    + destruct i;
        try (destruct (stepIn args prog c) as [c1| | |];
             first [ exact H | now apply IH ]).
      destruct (mapM (evalIn args (env c)) args0) as [vs|]; [|exact H].
      destruct (entryBlock prog callee) as [b|]; [|exact H].
      destruct (runIn fuel prog vs (called b c)) as [c1|r c1| |] eqn:Hcallee.
      * subst o. now elim (Ho c).
      * rewrite (IH fuel' vs _ _ Hcallee) by (intros; discriminate || exact Hle').
        now apply IH.
      * rewrite (IH fuel' vs _ _ Hcallee) by (intros; discriminate || exact Hle').
        exact H.
      * rewrite (IH fuel' vs _ _ Hcallee) by (intros; discriminate || exact Hle').
        exact H.
    + destruct (stepIn args prog c) as [c1| | |];
        first [ exact H | now apply IH ].
Qed.

(** A call: the body of the callee runs with the values of the actual
    arguments, then the caller goes on. *)
Lemma runIn_call prog args c id callee actuals vs b fuel1 fuel2 r c' o :
  fetch prog (cur c) (pc c) = Some (id, Call callee actuals) ->
  mapM (evalIn args (env c)) actuals = Some vs ->
  entryBlock prog callee = Some b ->
  runIn fuel1 prog vs (called b c) = Returned r c' ->
  runIn fuel2 prog args (resumed id r c c') = o ->
  (forall c'', o <> Running c'') ->
  runIn (S (fuel1 `max` fuel2)) prog args c = o.
Proof.
  intros Hf Hvs Hb H1 H2 Ho. cbn [runIn]. rewrite Hf, Hvs, Hb.
  rewrite (runIn_stable prog fuel1 _ vs _ _ H1) by (intros; discriminate || lia).
  apply (runIn_stable prog fuel2); [exact H2 | exact Ho | lia].
Qed.

(** ** The instructions, one by one *)

Section Effects.
Variables (args : list RVal) (id : nat) (E : Env) (M : Mem) (n : nat).

Lemma effect_alloca t name :
  effectIn args id (Alloca t name) E M n
  = Some (bind_env id (RPtr {| a_block := StackBlock n; a_path := [0] |}) E,
          set_object M (StackBlock n) (undef_of t), S n).
Proof. reflexivity. Qed.

Lemma effect_load t p a v :
  evalIn args E p = Some (RPtr a) -> load M t a = Some v ->
  effectIn args id (Load t p) E M n = Some (bind_env id v E, M, n).
Proof. intros H1 H2. simpl. rewrite H1, H2. reflexivity. Qed.

Lemma effect_store v p x a M' :
  evalIn args E v = Some x -> evalIn args E p = Some (RPtr a) ->
  store M a x = Some M' ->
  effectIn args id (Store v p) E M n = Some (E, M', n).
Proof. intros H1 H2 H3. simpl. rewrite H1, H2, H3. reflexivity. Qed.

Lemma effect_gep inb t p idx a ks a' :
  evalIn args E p = Some (RPtr a) ->
  mapM (fun i => evalIn args E i ≫= rint) idx = Some ks ->
  gep a ks = Some a' ->
  effectIn args id (GetElementPtr inb t p idx) E M n
  = Some (bind_env id (RPtr a') E, M, n).
Proof. intros H1 H2 H3. simpl. rewrite H1, H2, H3. reflexivity. Qed.

Lemma effect_sext v dest x r :
  evalIn args E v = Some x -> sext x dest = Some r ->
  effectIn args id (SExt v dest) E M n = Some (bind_env id r E, M, n).
Proof. intros H1 H2. simpl. rewrite H1, H2. reflexivity. Qed.

Lemma effect_add l r x y v :
  evalIn args E l = Some x -> evalIn args E r = Some y ->
  add_nsw x y = Some v ->
  effectIn args id (AddNSW l r) E M n = Some (bind_env id v E, M, n).
Proof. intros H1 H2 H3. simpl. rewrite H1, H2, H3. reflexivity. Qed.
End Effects.

End Frames.


(* ===================================================================== *)
(** * The swap functions                                                  *)
(* ===================================================================== *)

(** What the functions emitted by structs.cpp and 18_pointers.cpp do when
    they are called. *)
Module Swaps.
Import Emitter Sem Loops Addressing Frames.
Local Open Scope list_scope.
Local Open Scope Z_scope.

(** ** Memory *)

Lemma part_object M M' a :
  object M' (a_block a) = object M (a_block a) -> part M' a = part M a.
Proof. intros H. unfold part. rewrite H. reflexivity. Qed.

Lemma load_object_eq M M' t a :
  object M' (a_block a) = object M (a_block a) -> load M' t a = load M t a.
Proof. intros H. rewrite !load_part, (part_object M M' a H). reflexivity. Qed.

Lemma replace_snoc p : forall o parts i old new,
  descend o p = Some (MAgg parts) -> 0 <= i ->
  parts !! Z.to_nat i = Some old ->
  exists o', replace o (p ++ [i]) new = Some o' /\
             descend o' p = Some (MAgg (<[Z.to_nat i := new]> parts)).
Proof.
  induction p as [|j p IH]; intros o parts i old new Hd Hi Hp.
  - simpl in Hd. injection Hd as ->. simpl.
    destruct (i <? 0) eqn:E; [apply Z.ltb_lt in E; lia|].
    rewrite Hp. eauto.
  - cbn [descend] in Hd. cbn [app replace].
    destruct o as [v|ps]; [discriminate|].
    destruct (j <? 0) eqn:Ej; [discriminate|].
    destruct (ps !! Z.to_nat j) as [m1|] eqn:Hm; [|discriminate].
    destruct (IH m1 parts i old new Hd Hi Hp) as (m2 & -> & Hd2).
    eexists. split; [reflexivity|]. cbn [descend]. rewrite Ej.
    rewrite list_lookup_insert_eq by (eapply lookup_lt_Some; exact Hm).
    exact Hd2.
Qed.

(** Reading and writing a scalar field of the aggregate at [a]. *)
Lemma load_field M a parts i v t :
  part M a = Some (MAgg parts) -> 0 <= i ->
  parts !! Z.to_nat i = Some (MScalar v) -> has_type v t = true ->
  load M t (field_of a i) = Some v.
Proof.
  intros Hp Hi Hv Ht. rewrite load_part, (part_field M a parts i Hp Hi), Hv.
  cbn [content_value]. rewrite Ht. reflexivity.
Qed.

Lemma store_field M a parts i old v :
  part M a = Some (MAgg parts) -> 0 <= i ->
  parts !! Z.to_nat i = Some (MScalar old) -> is_scalar v = true ->
  exists M',
    store M (field_of a i) v = Some M' /\
    part M' a = Some (MAgg (<[Z.to_nat i := MScalar v]> parts)) /\
    (forall blk, blk <> a_block a -> object M' blk = object M blk).
Proof.
  unfold part, store. intros Hp Hi Hv Hs. cbn [a_block field_of].
  destruct (object M (a_block a)) as [o|] eqn:Ho; [|discriminate].
  destruct (inner_path a) as [p|] eqn:Hpath; [|discriminate].
  rewrite (inner_path_field a i p Hpath), descend_snoc, Hp. cbn [descend].
  destruct (i <? 0) eqn:E; [apply Z.ltb_lt in E; lia|].
  rewrite Hv, (value_content_scalar v Hs). cbn [same_shape].
  destruct (replace_snoc p o parts i (MScalar old) (MScalar v) Hp Hi Hv)
    as (o' & -> & Hd).
  eexists. split; [reflexivity|]. split.
  - rewrite object_set_same. exact Hd.
  - intros blk Hb. apply object_set_other. congruence.
Qed.

Ltac scalar := first [reflexivity | apply i32_scalar; assumption].

(** The stack objects from [n] on are not in use by [a]. *)
Definition below (n : nat) (blk : Block) : Prop :=
  forall k, (n <= k)%nat -> blk <> StackBlock k.

Lemma below_neq n k blk : below n blk -> (n <= k)%nat -> StackBlock k <> blk.
Proof. intros H Hk Heq. exact (H k Hk (eq_sym Heq)). Qed.

Lemma stack_neq j k : j <> k -> StackBlock j <> StackBlock k.
Proof. congruence. Qed.

(** The address computation of [getStructElementAddr] in a called
    function. *)
Lemma effect_field args id inb t p i E M n a :
  evalIn args E p = Some (RPtr a) -> a_path a <> [] ->
  0 <= i <= INT32_MAX ->
  effectIn args id (GetElementPtr inb t p (fieldIndices i)) E M n
  = Some (bind_env id (RPtr (field_of a i)) E, M, n).
Proof.
  intros Hp Ha Hi. eapply effect_gep; [exact Hp | | apply gep_field, Ha].
  unfold fieldIndices. cbn. rewrite (signed_index i Hi). reflexivity.
Qed.

Ltac in_int32 := unfold INT32_MAX; lia.

(** ** The program of structs.cpp *)

Definition structs_blocks : list BasicBlock :=
  Eval vm_compute in blocks structs_state.

Lemma structs_blocks_emitted triple :
  exists s, Structs.main triple = Ok tt s /\ blocks s = structs_blocks.
Proof. eexists. split; [vm_compute; reflexivity | reflexivity]. Qed.

Ltac plain :=
  eapply eq_trans;
  [ eapply runIn_plain; [ reflexivity | cbn [cur pc env mem allocas entered] ]
  | cbn [cur pc env mem allocas entered] ].

Ltac blocks_differ :=
  first [ apply stack_neq; lia
        | eapply below_neq; [eassumption | lia]
        | apply not_eq_sym; eapply below_neq; [eassumption | lia]
        | assumption | apply not_eq_sym; assumption ].

Ltac objects :=
  repeat first [ rewrite object_set_same
               | rewrite object_set_other by blocks_differ ].

Lemma part_path M a v : part M a = Some v -> a_path a <> [].
Proof.
  intros H Hnil. unfold part, inner_path in H. rewrite Hnil in H. simpl in H.
  destruct (object M (a_block a)); discriminate.
Qed.

(** The body of [swap_point], wherever it is called from. *)
Lemma swap_point_body M n T a x y :
  part M a = Some (MAgg [MScalar x; MScalar y]) ->
  has_type x (IntegerTy 32) = true ->
  has_type y (IntegerTy 32) = true ->
  below n (a_block a) ->
  exists c,
    runIn 18 structs_blocks [RPtr a]
      {| cur := 0; pc := 0; env := fun _ => None; mem := M; allocas := n;
         entered := T |}
    = Returned None c /\
    part (mem c) a = Some (MAgg [MScalar y; MScalar x]) /\
    (forall blk, blk <> a_block a -> below n blk ->
                 object (mem c) blk = object M blk) /\
    allocas c = S (S n).
Proof.
  intros Hp Hx Hy Hbelow.
  pose proof (part_path M a _ Hp) as Hpath.
  pose (undef := MScalar RUndef).
  pose (M3 := set_object (set_object (set_object M (StackBlock n) undef)
                            (StackBlock (S n)) undef)
                (StackBlock n) (MScalar (RPtr a))).
  pose (M4 := set_object M3 (StackBlock (S n)) (MScalar x)).
  assert (Hp4 : part M4 a = Some (MAgg [MScalar x; MScalar y])).
  { rewrite <- Hp. apply part_object. unfold M4, M3. objects. reflexivity. }
  destruct (store_field M4 a _ 0 x y Hp4) as (M5 & Hst5 & Hp5 & Hf5);
    [lia | reflexivity | scalar |].
  destruct (store_field M5 a _ 1 y x Hp5) as (M6 & Hst6 & Hp6 & Hf6);
    [lia | reflexivity | scalar |].
  eexists. split; [|split; [|split]].
  - (* the slots for the parameter and for temp *)
    plain. { apply effect_alloca. }
    plain. { apply effect_alloca. }
    cbn [undef_of].
    plain. { eapply effect_store; [reflexivity | reflexivity |].
             apply (store_object _ _ RUndef); [objects; reflexivity | scalar]. }
    (* temp = p->x *)
    plain. { eapply effect_load; [reflexivity |].
             apply load_object; [objects; reflexivity | reflexivity]. }
    plain. { apply (effect_field _ _ _ _ _ 0 _ _ _ a); [reflexivity | exact Hpath | in_int32]. }
    plain. { eapply effect_load; [reflexivity |].
             eapply load_field;
               [ etransitivity; [apply (part_object M); objects; reflexivity | exact Hp]
               | lia | reflexivity | exact Hx ]. }
    plain. { eapply effect_store; [reflexivity | reflexivity |].
             apply (store_object _ _ RUndef); [objects; reflexivity | scalar]. }
    (* p->x = p->y *)
    plain. { eapply effect_load; [reflexivity |].
             apply load_object; [objects; reflexivity | reflexivity]. }
    plain. { apply (effect_field _ _ _ _ _ 1 _ _ _ a); [reflexivity | exact Hpath | in_int32]. }
    plain. { eapply effect_load; [reflexivity |].
             eapply load_field; [exact Hp4 | lia | cbn; reflexivity | exact Hy]. }
    plain. { eapply effect_load; [reflexivity |].
             apply load_object; [objects; reflexivity | reflexivity]. }
    plain. { apply (effect_field _ _ _ _ _ 0 _ _ _ a); [reflexivity | exact Hpath | in_int32]. }
    plain. { eapply effect_store; [reflexivity | reflexivity | exact Hst5]. }
    (* p->y = temp *)
    plain. { eapply effect_load; [reflexivity |].
             apply load_object; [|exact Hx].
             rewrite Hf5 by blocks_differ. unfold M4. objects. reflexivity. }
    plain. { eapply effect_load; [reflexivity |].
             apply load_object;
               [ rewrite Hf5 by blocks_differ; unfold M4, M3; objects; reflexivity
               | reflexivity ]. }
    plain. { apply (effect_field _ _ _ _ _ 1 _ _ _ a); [reflexivity | exact Hpath | in_int32]. }
    plain. { eapply effect_store; [reflexivity | reflexivity | exact Hst6]. }
    apply (runIn_ret_void _ _ _ 17%nat). reflexivity.
  - exact Hp6.
  - intros blk Hblk Hb. cbn [mem].
    rewrite (Hf6 blk Hblk), (Hf5 blk Hblk). unfold M4, M3. objects. reflexivity.
  - reflexivity.
Qed.

(** X2.  [swap_point], as structs.cpp emits it, called with the address of
    a struct of two 32-bit fields that does not lie in the part of the stack
    the call uses: it returns, the two fields have exchanged their values,
    and no object besides the struct and the function's own stack slots has
    changed. *)
Theorem swap_point_swaps M n a x y :
  part M a = Some (MAgg [MScalar x; MScalar y]) ->
  has_type x (IntegerTy 32) = true ->
  has_type y (IntegerTy 32) = true ->
  below n (a_block a) ->
  exists fuel c,
    callIn structs_blocks "swap_point" [RPtr a] M n fuel = Returned None c /\
    part (mem c) a = Some (MAgg [MScalar y; MScalar x]) /\
    (forall blk, blk <> a_block a -> below n blk ->
                 object (mem c) blk = object M blk).
Proof.
  intros Hp Hx Hy Hbelow.
  destruct (swap_point_body M n [0%nat] a x y Hp Hx Hy Hbelow)
    as (c & Hrun & Hpart & Hframe & _).
  exists 18%nat, c. split; [|split].
  - unfold callIn.
    change (entryBlock structs_blocks "swap_point") with (Some 0%nat).
    exact Hrun.
  - exact Hpart.
  - exact Hframe.
Qed.

Lemma swap_point_swaps_witness :
  exists fuel c,
    callIn structs_blocks "swap_point" [RPtr (object_at "point")] point_mem 0 fuel
    = Returned None c /\
    part (mem c) (object_at "point")
    = Some (MAgg [MScalar (RInt 32 2); MScalar (RInt 32 1)]).
Proof.
  destruct (swap_point_swaps point_mem 0 (object_at "point") (RInt 32 1) (RInt 32 2))
    as (fuel & c & Hrun & Hpart & _).
  - reflexivity.
  - reflexivity.
  - reflexivity.
  - intros k _. discriminate.
  - exists fuel, c. split; [exact Hrun | exact Hpart].
Defined.

(** The object an [alloca] of [struct point] creates, and its address. *)
Definition fresh_point : MVal := MAgg [MScalar RUndef; MScalar RUndef].

Lemma part_whole M blk o :
  object M blk = Some o -> part M {| a_block := blk; a_path := [0] |} = Some o.
Proof. intros H. unfold part. cbn. rewrite H. reflexivity. Qed.

(** X3.  The [main] that structs.cpp emits, called in any memory: it
    returns 20.  It builds the point [{10, 20}] on its stack, calls
    [swap_point] with its address and returns the field [x]. *)
Theorem structs_main_returns M n :
  exists fuel c,
    callIn structs_blocks "main" [] M n fuel = Returned (Some (RInt 32 20)) c /\
    part (mem c) {| a_block := StackBlock n; a_path := [0] |}
    = Some (MAgg [MScalar (RInt 32 20); MScalar (RInt 32 10)]).
Proof.
  pose (a := {| a_block := StackBlock n; a_path := [0] |}).
  pose (M1 := set_object M (StackBlock n) fresh_point).
  assert (Hp1 : part M1 a = Some fresh_point).
  { apply part_whole. unfold M1. objects. reflexivity. }
  assert (Hpath : a_path a <> []) by discriminate.
  destruct (store_field M1 a _ 0 RUndef (RInt 32 10) Hp1) as (M2 & Hst2 & Hp2 & _);
    [lia | reflexivity | reflexivity |].
  destruct (store_field M2 a _ 1 RUndef (RInt 32 20) Hp2) as (M3 & Hst3 & Hp3 & _);
    [lia | reflexivity | reflexivity |].
  destruct (swap_point_body M3 (S n) [0%nat; 1%nat] a (RInt 32 10) (RInt 32 20) Hp3)
    as (c1 & Hrun1 & Hpart1 & _ & Hn1); [reflexivity | reflexivity | |].
  { intros k Hk. cbn. intros [=]. lia. }
  exists (5 + S (18 `max` 3))%nat. unfold callIn.
  change (entryBlock structs_blocks "main") with (Some 1%nat).
  eexists. split.
  - (* struct point p = {10, 20} *)
    plain. { apply effect_alloca. }
    plain. { apply (effect_field _ _ _ _ _ 0 _ _ _ a); [reflexivity | exact Hpath | in_int32]. }
    plain. { eapply effect_store; [reflexivity | reflexivity | exact Hst2]. }
    plain. { apply (effect_field _ _ _ _ _ 1 _ _ _ a); [reflexivity | exact Hpath | in_int32]. }
    plain. { eapply effect_store; [reflexivity | reflexivity | exact Hst3]. }
    (* swap_point(&p) *)
    eapply (runIn_call structs_blocks [] _ 23 "swap_point" _ [RPtr a] 0 18 3);
      [ reflexivity | reflexivity | reflexivity | exact Hrun1 | | discriminate ].
    unfold resumed. cbn [cur pc env mem allocas entered].
    (* return p.x *)
    plain. { apply (effect_field _ _ _ _ _ 0 _ _ _ a); [reflexivity | exact Hpath | in_int32]. }
    plain. { eapply effect_load; [reflexivity |].
             eapply load_field; [exact Hpart1 | lia | reflexivity | reflexivity]. }
    eapply (runIn_ret _ _ _ _ _ _ 0%nat); reflexivity.
  - exact Hpart1.
Qed.

(** ** The program of 18_pointers.cpp *)

Lemma Addr_eq_dec (a a' : Addr) : {a = a'} + {a <> a'}.
Proof. decide equality; [solve_decision | apply Block_eq_dec]. Qed.

Lemma part_eq_object M blk :
  part M {| a_block := blk; a_path := [0] |} = object M blk.
Proof. unfold part. cbn. destruct (object M blk); reflexivity. Qed.

Lemma load_cell M t a v :
  part M a = Some (MScalar v) -> has_type v t = true -> load M t a = Some v.
Proof.
  intros Hp Ht. rewrite load_part, Hp. cbn [content_value]. rewrite Ht.
  reflexivity.
Qed.

(** Writing a scalar cell: the cell holds the value, every other scalar
    cell and every other object is as before. *)
Lemma store_cell M a old v :
  part M a = Some (MScalar old) -> is_scalar v = true ->
  exists M',
    store M a v = Some M' /\
    part M' a = Some (MScalar v) /\
    (forall a' x, a' <> a -> part M a' = Some (MScalar x) ->
                  part M' a' = Some (MScalar x)) /\
    (forall blk, blk <> a_block a -> object M' blk = object M blk).
Proof.
  intros Hp Hs.
  assert (Hsh : same_shape (MScalar old) (value_content v) = true)
    by (rewrite (value_content_scalar v Hs); reflexivity).
  destruct (store_part M a (MScalar old) v Hp Hsh) as [M' Hst].
  exists M'. split; [exact Hst|].
  unfold part, store in *.
  destruct (object M (a_block a)) as [o|] eqn:Ho; [|discriminate].
  destruct (inner_path a) as [p|] eqn:Hpath; [|discriminate].
  rewrite Hp, Hsh, (value_content_scalar v Hs) in Hst.
  destruct (replace o p (MScalar v)) as [o'|] eqn:Hr; [|discriminate].
  injection Hst as <-. split; [|split].
  - rewrite object_set_same. apply (descend_replace_same p o _ o' Hr).
  - intros a' x Hne Hx.
    destruct (Block_eq_dec (a_block a) (a_block a')) as [Hb|Hb].
    + rewrite <- Hb in *. rewrite object_set_same. rewrite Ho in Hx.
      destruct (inner_path a') as [p'|] eqn:Hp'; [|discriminate].
      apply (descend_replace_other p o p' _ o' old x Hr Hp Hx).
      intros ->. apply Hne. symmetry. now apply (inner_path_inj a a' p').
    + rewrite (object_set_other _ _ _ _ Hb). exact Hx.
  - intros blk Hb. apply object_set_other. congruence.
Qed.

Definition pointers_blocks : list BasicBlock :=
  Eval vm_compute in
    match Pointers.main "" with
    | Ok _ s => blocks s
    | Crash _ => []
    end.

Lemma pointers_blocks_emitted triple :
  exists s, Pointers.main triple = Ok tt s /\ blocks s = pointers_blocks.
Proof. eexists. split; [vm_compute; reflexivity | reflexivity]. Qed.

(** The body of [swap_ptr], wherever it is called from. *)
Lemma swap_ptr_body M n T px py x y :
  part M px = Some (MScalar x) ->
  part M py = Some (MScalar y) ->
  has_type x (IntegerTy 32) = true ->
  has_type y (IntegerTy 32) = true ->
  below n (a_block px) -> below n (a_block py) ->
  exists c,
    runIn 16 pointers_blocks [RPtr px; RPtr py]
      {| cur := 0; pc := 0; env := fun _ => None; mem := M; allocas := n;
         entered := T |}
    = Returned None c /\
    part (mem c) px = Some (MScalar y) /\
    part (mem c) py = Some (MScalar x) /\
    (forall a' v, a' <> px -> a' <> py -> below n (a_block a') ->
                  part M a' = Some (MScalar v) ->
                  part (mem c) a' = Some (MScalar v)).
Proof.
  intros Hx Hy Htx Hty Hbx Hby.
  pose (undef := MScalar RUndef).
  pose (M5 := set_object
                (set_object
                   (set_object
                      (set_object (set_object M (StackBlock n) undef)
                         (StackBlock (S n)) undef)
                      (StackBlock (S (S n))) undef)
                   (StackBlock n) (MScalar (RPtr px)))
                (StackBlock (S n)) (MScalar (RPtr py))).
  pose (M6 := set_object M5 (StackBlock (S (S n))) (MScalar x)).
  assert (Hsame : forall a', below n (a_block a') -> part M6 a' = part M a').
  { intros a' Ha'. apply part_object. unfold M6, M5. objects. reflexivity. }
  assert (Hx6 : part M6 px = Some (MScalar x)) by (rewrite Hsame; assumption).
  assert (Hy6 : part M6 py = Some (MScalar y)) by (rewrite Hsame; assumption).
  destruct (store_cell M6 px x y Hx6) as (M7 & Hst7 & Hx7 & Hc7 & Hf7);
    [scalar|].
  assert (Hy7 : part M7 py = Some (MScalar y)).
  { destruct (Addr_eq_dec py px) as [->|Hne]; [exact Hx7|].
    apply Hc7; assumption. }
  destruct (store_cell M7 py y x Hy7) as (M8 & Hst8 & Hy8 & Hc8 & Hf8);
    [scalar|].
  eexists. split; [|split; [|split]].
  - (* the slots for the parameters and for temp *)
    plain. { apply effect_alloca. }
    plain. { apply effect_alloca. }
    plain. { apply effect_alloca. }
    cbn [undef_of].
    plain. { eapply effect_store; [reflexivity | reflexivity |].
             apply (store_object _ _ RUndef); [objects; reflexivity | scalar]. }
    plain. { eapply effect_store; [reflexivity | reflexivity |].
             apply (store_object _ _ RUndef); [objects; reflexivity | scalar]. }
    (* temp = *x *)
    plain. { eapply effect_load; [reflexivity |].
             apply load_object; [objects; reflexivity | reflexivity]. }
    plain. { eapply effect_load; [reflexivity |].
             apply load_cell; [|exact Htx].
             etransitivity; [apply (part_object M); objects; reflexivity | exact Hx]. }
    plain. { eapply effect_store; [reflexivity | reflexivity |].
             apply (store_object _ _ RUndef); [objects; reflexivity | scalar]. }
    (* *x = *y *)
    plain. { eapply effect_load; [reflexivity |].
             apply load_object; [objects; reflexivity | reflexivity]. }
    plain. { eapply effect_load; [reflexivity |].
             apply load_cell; [exact Hy6 | exact Hty]. }
    plain. { eapply effect_load; [reflexivity |].
             apply load_object; [objects; reflexivity | reflexivity]. }
    plain. { eapply effect_store; [reflexivity | reflexivity | exact Hst7]. }
    (* *y = temp *)
    plain. { eapply effect_load; [reflexivity |].
             apply load_object; [|exact Htx].
             rewrite Hf7 by blocks_differ. unfold M6. objects. reflexivity. }
    plain. { eapply effect_load; [reflexivity |].
             apply load_object;
               [ rewrite Hf7 by blocks_differ; unfold M6, M5; objects; reflexivity
               | reflexivity ]. }
    plain. { eapply effect_store; [reflexivity | reflexivity | exact Hst8]. }
    apply (runIn_ret_void _ _ _ 15%nat). reflexivity.
  - cbn [mem]. destruct (Addr_eq_dec px py) as [Heq|Hne].
    + rewrite Heq in *. rewrite Hx in Hy. injection Hy as ->. exact Hy8.
    + apply Hc8; assumption.
  - exact Hy8.
  - intros a' v Hnx Hny Ha' Hv. cbn [mem].
    apply Hc8; [exact Hny|]. apply Hc7; [exact Hnx|].
    rewrite Hsame; assumption.
Qed.

(** X4.  [swap_ptr], as 18_pointers.cpp emits it, called with the
    addresses of two 32-bit cells outside the part of the stack the call
    uses: it returns and the cells have exchanged their values, also when
    both addresses are the same; every other scalar cell outside the
    function's own stack slots holds what it held. *)
Theorem swap_ptr_swaps M n px py x y :
  part M px = Some (MScalar x) ->
  part M py = Some (MScalar y) ->
  has_type x (IntegerTy 32) = true ->
  has_type y (IntegerTy 32) = true ->
  below n (a_block px) -> below n (a_block py) ->
  exists fuel c,
    callIn pointers_blocks "swap_ptr" [RPtr px; RPtr py] M n fuel
    = Returned None c /\
    part (mem c) px = Some (MScalar y) /\
    part (mem c) py = Some (MScalar x) /\
    (forall a' v, a' <> px -> a' <> py -> below n (a_block a') ->
                  part M a' = Some (MScalar v) ->
                  part (mem c) a' = Some (MScalar v)).
Proof.
  intros Hx Hy Htx Hty Hbx Hby.
  destruct (swap_ptr_body M n [0%nat] px py x y Hx Hy Htx Hty Hbx Hby)
    as (c & Hrun & Hpx & Hpy & Hframe).
  exists 16%nat, c. split; [|auto].
  unfold callIn.
  change (entryBlock pointers_blocks "swap_ptr") with (Some 0%nat).
  exact Hrun.
Qed.

Lemma swap_ptr_swaps_witness :
  exists fuel c,
    callIn pointers_blocks "swap_ptr"
      [RPtr (object_at "start"); RPtr (object_at "end")] (loop_mem 1 10 0) 0 fuel
    = Returned None c /\
    part (mem c) (object_at "start") = Some (MScalar (RInt 32 10)) /\
    part (mem c) (object_at "end") = Some (MScalar (RInt 32 1)).
Proof.
  destruct (swap_ptr_swaps (loop_mem 1 10 0) 0 (object_at "start") (object_at "end")
              (RInt 32 1) (RInt 32 10))
    as (fuel & c & Hrun & Hs & He & _).
  - reflexivity.
  - reflexivity.
  - reflexivity.
  - reflexivity.
  - intros k _. discriminate.
  - intros k _. discriminate.
  - exists fuel, c. auto.
Defined.

(** X5.  The [main] that 18_pointers.cpp emits, called where [start] and
    [end] hold 32-bit values: it returns what [end] held, and afterwards
    [start] holds what [end] held and [end] what [start] held. *)
Theorem pointers_main_swaps M n s e :
  object M (GlobalBlock "start") = Some (MScalar s) ->
  object M (GlobalBlock "end") = Some (MScalar e) ->
  has_type s (IntegerTy 32) = true ->
  has_type e (IntegerTy 32) = true ->
  exists fuel c,
    callIn pointers_blocks "main" [] M n fuel = Returned (Some e) c /\
    object (mem c) (GlobalBlock "start") = Some (MScalar e) /\
    object (mem c) (GlobalBlock "end") = Some (MScalar s).
Proof.
  intros Hs He Hts Hte.
  destruct (swap_ptr_body M n [0%nat; 1%nat] (object_at "start") (object_at "end") s e)
    as (c1 & Hrun1 & Hs1 & He1 & _);
    try assumption;
    try (unfold object_at; rewrite part_eq_object; assumption);
    try (intros k _; discriminate).
  unfold object_at in Hs1, He1. rewrite part_eq_object in Hs1, He1.
  exists (S (16 `max` 2))%nat. unfold callIn.
  change (entryBlock pointers_blocks "main") with (Some 1%nat).
  eexists. split.
  - eapply (runIn_call pointers_blocks [] _ 16 "swap_ptr" _
              [RPtr (object_at "start"); RPtr (object_at "end")] 0 16 2);
      [ reflexivity | reflexivity | reflexivity | exact Hrun1 | | discriminate ].
    unfold resumed. cbn [cur pc env mem allocas entered].
    plain. { eapply effect_load; [reflexivity |].
             apply load_object; [exact Hs1 | exact Hte]. }
    eapply (runIn_ret _ _ _ _ _ _ 0%nat); reflexivity.
  - split; assumption.
Qed.

Lemma pointers_main_swaps_witness :
  exists fuel c,
    callIn pointers_blocks "main" [] (loop_mem 1 10 0) 0 fuel
    = Returned (Some (RInt 32 10)) c.
Proof.
  destruct (pointers_main_swaps (loop_mem 1 10 0) 0 (RInt 32 1) (RInt 32 10))
    as (fuel & c & Hrun & _); try reflexivity.
  exists fuel, c. exact Hrun.
Defined.

(** ** [swap_array] *)

(** structs.cpp registers the prototype and the emitter of [swap_array] but
    its program does not define the function.  Here it is declared and
    defined as the program does for [swap_point]. *)
Definition swap_array_blocks : list BasicBlock :=
  Eval vm_compute in
    match (Structs.registerFunctionProto ;;;
           let* _ := declareFunction "swap_array" in
           Structs.defineFunction Structs.registerFunctionImpl "swap_array")
            initializeModule with
    | Ok _ s => blocks s
    | Crash _ => []
    end.

Lemma swap_array_blocks_emitted :
  exists s,
    (Structs.registerFunctionProto ;;;
     let* _ := declareFunction "swap_array" in
     Structs.defineFunction Structs.registerFunctionImpl "swap_array")
      initializeModule = Ok tt s /\
    blocks s = swap_array_blocks.
Proof. eexists. split; [vm_compute; reflexivity | reflexivity]. Qed.

(** The address computation of [getElementAddr] in a called function: the
    base is loaded from its slot, the index from its own, the index is
    extended, and the element address is computed. *)
Ltac element_address arr k i Hbase Hindex :=
  plain; [ eapply effect_load; [reflexivity |];
           apply load_object; [Hbase | reflexivity] | ];
  plain; [ eapply effect_load; [reflexivity |];
           apply load_object; [Hindex | reflexivity] | ];
  plain; [ eapply effect_sext; reflexivity | ];
  plain; [ eapply (effect_gep _ _ _ _ _ _ _ _ _ (field_of arr k) [i]
                              (field_of arr (k + i)));
           reflexivity | ].

(** X6.  [swap_array], as the emitter of structs.cpp produces it, called
    with a pointer to element [k] of an array of 32-bit cells and two
    indices [i] and [j] that stay inside the array: it returns, and elements
    [k + i] and [k + j] of the array have exchanged their values (nothing
    changes when [i = j]); no other object outside the function's own stack
    slots has changed. *)
Theorem swap_array_swaps M n arr parts k i j xi xj :
  part M arr = Some (MAgg parts) ->
  0 <= k + i -> 0 <= k + j ->
  parts !! Z.to_nat (k + i) = Some (MScalar xi) ->
  parts !! Z.to_nat (k + j) = Some (MScalar xj) ->
  has_type xi (IntegerTy 32) = true ->
  has_type xj (IntegerTy 32) = true ->
  below n (a_block arr) ->
  exists fuel c,
    callIn swap_array_blocks "swap_array"
      [RPtr (field_of arr k); RInt 32 i; RInt 32 j] M n fuel
    = Returned None c /\
    part (mem c) arr
    = Some (MAgg (<[Z.to_nat (k + j) := MScalar xi]>
                    (<[Z.to_nat (k + i) := MScalar xj]> parts))) /\
    (forall blk, blk <> a_block arr -> below n blk ->
                 object (mem c) blk = object M blk).
Proof.
  intros Hp Hi Hj Hxi Hxj Hti Htj Hbelow.
  pose (undef := MScalar RUndef).
  pose (M7 := set_object
                (set_object
                   (set_object
                      (set_object
                         (set_object
                            (set_object (set_object M (StackBlock n) undef)
                               (StackBlock (S n)) undef)
                            (StackBlock (S (S n))) undef)
                         (StackBlock (S (S (S n)))) undef)
                      (StackBlock n) (MScalar (RPtr (field_of arr k))))
                   (StackBlock (S (S n))) (MScalar (RInt 32 j)))
                (StackBlock (S n)) (MScalar (RInt 32 i))).
  pose (M8 := set_object M7 (StackBlock (S (S (S n)))) (MScalar xi)).
  assert (Hb : below n (a_block (field_of arr k))) by exact Hbelow.
  assert (Hp7 : part M7 arr = Some (MAgg parts)).
  { rewrite <- Hp. apply part_object. unfold M7. objects. reflexivity. }
  assert (Hp8 : part M8 arr = Some (MAgg parts)).
  { rewrite <- Hp. apply part_object. unfold M8, M7. objects. reflexivity. }
  destruct (store_field M8 arr parts (k + i) xi xj Hp8 Hi Hxi)
    as (M9 & Hst9 & Hp9 & Hf9); [scalar|].
  assert (Hold : exists old,
            (<[Z.to_nat (k + i) := MScalar xj]> parts) !! Z.to_nat (k + j)
            = Some (MScalar old)).
  { destruct (decide (Z.to_nat (k + i) = Z.to_nat (k + j))) as [Heq|Hne].
    - exists xj. rewrite Heq. apply list_lookup_insert_eq.
      eapply lookup_lt_Some. exact Hxj.
    - exists xj. rewrite list_lookup_insert_ne by exact Hne. exact Hxj. }
  destruct Hold as [old Hold].
  destruct (store_field M9 arr _ (k + j) old xi Hp9 Hj Hold)
    as (M10 & Hst10 & Hp10 & Hf10); [scalar|].
  exists 30%nat. unfold callIn.
  change (entryBlock swap_array_blocks "swap_array") with (Some 0%nat).
  eexists. split; [|split].
  - (* the slots for the parameters and for temp *)
    plain. { apply effect_alloca. }
    plain. { apply effect_alloca. }
    plain. { apply effect_alloca. }
    plain. { apply effect_alloca. }
    cbn [undef_of].
    plain. { eapply effect_store; [reflexivity | reflexivity |].
             apply (store_object _ _ RUndef); [objects; reflexivity | scalar]. }
    plain. { eapply effect_store; [reflexivity | reflexivity |].
             apply (store_object _ _ RUndef); [objects; reflexivity | scalar]. }
    plain. { eapply effect_store; [reflexivity | reflexivity |].
             apply (store_object _ _ RUndef); [objects; reflexivity | scalar]. }
    (* temp = arr[x] *)
    element_address arr k i ltac:(objects; reflexivity) ltac:(objects; reflexivity).
    plain. { eapply effect_load; [reflexivity |].
             eapply load_field; [exact Hp7 | exact Hi | exact Hxi | exact Hti]. }
    plain. { eapply effect_store; [reflexivity | reflexivity |].
             apply (store_object _ _ RUndef); [objects; reflexivity | scalar]. }
    (* arr[x] = arr[y] *)
    element_address arr k j ltac:(objects; reflexivity) ltac:(objects; reflexivity).
    plain. { eapply effect_load; [reflexivity |].
             eapply load_field; [exact Hp8 | exact Hj | exact Hxj | exact Htj]. }
    element_address arr k i ltac:(objects; reflexivity) ltac:(objects; reflexivity).
    plain. { eapply effect_store; [reflexivity | reflexivity | exact Hst9]. }
    (* arr[y] = temp *)
    plain. { eapply effect_load; [reflexivity |].
             apply load_object; [|exact Hti].
             rewrite Hf9 by blocks_differ. unfold M8. objects. reflexivity. }
    element_address arr k j
      ltac:(rewrite Hf9 by blocks_differ; unfold M8, M7; objects; reflexivity)
      ltac:(rewrite Hf9 by blocks_differ; unfold M8, M7; objects; reflexivity).
    plain. { eapply effect_store; [reflexivity | reflexivity | exact Hst10]. }
    apply (runIn_ret_void _ _ _ 29%nat). reflexivity.
  - exact Hp10.
  - intros blk Hblk Hbl. cbn [mem].
    rewrite (Hf10 blk Hblk), (Hf9 blk Hblk). unfold M8, M7. objects. reflexivity.
Qed.

(** [int arr[] = {1, 2, 3, 4}]. *)
Definition array_mem : Mem :=
  {| globals := fun g =>
       if String.eqb g "arr"
       then Some (MAgg [MScalar (RInt 32 1); MScalar (RInt 32 2);
                        MScalar (RInt 32 3); MScalar (RInt 32 4)])
       else None;
     stack := fun _ => None |}.

Lemma swap_array_swaps_witness :
  exists fuel c,
    callIn swap_array_blocks "swap_array"
      [RPtr (field_of (object_at "arr") 0); RInt 32 1; RInt 32 3] array_mem 0 fuel
    = Returned None c /\
    part (mem c) (object_at "arr")
    = Some (MAgg [MScalar (RInt 32 1); MScalar (RInt 32 4);
                  MScalar (RInt 32 3); MScalar (RInt 32 2)]).
Proof.
  destruct (swap_array_swaps array_mem 0 (object_at "arr")
              [MScalar (RInt 32 1); MScalar (RInt 32 2);
               MScalar (RInt 32 3); MScalar (RInt 32 4)]
              0 1 3 (RInt 32 2) (RInt 32 4))
    as (fuel & c & Hrun & Hpart & _).
  - reflexivity.
  - lia.
  - lia.
  - reflexivity.
  - reflexivity.
  - reflexivity.
  - reflexivity.
  - intros k _. discriminate.
  - exists fuel, c. split; [exact Hrun | exact Hpart].
Defined.

End Swaps.


(* ===================================================================== *)
(** * Where the emitters fail                                             *)
(* ===================================================================== *)

(** The emitters check nothing: a name that is missing, taken by a value of
    another kind or not visible, an index outside a struct, a builder without
    a function to insert into, each ends the run in a null dereference.  The
    theorems say exactly when. *)
Module Edges.
Import Emitter Symtab Globals Define Addressing.
Local Open Scope list_scope.

(** ** A function and a global variable of the same name *)

(** X7.  A function and a global variable cannot share a name, and nothing
    reports the clash.  When the function is declared first,
    [defineGlobalVariable] of the name dereferences a null global (the
    variable it inserted got another name).  When the variable is defined
    first, [declareFunction] creates the function under another name, the
    name still denotes the variable, and [defineFunction] of the name
    dereferences a null function. *)
Theorem function_and_variable_clash name s p r type init :
  mod_symtab s !! name = None -> name <> "" ->
  funProtoMap s !! name = Some p -> returnType p = Some r ->
  (exists s1,
     declareFunction name s = Ok (Some name) s1 /\
     defineGlobalVariable type name init s1 = Crash NullGlobal /\
     defineGlobalVariableInit name init s1 = Crash NullGlobal) /\
  (exists s1 n s2 g,
     defineGlobalVariable type name init s = Ok (Some name) s1 /\
     declareFunction name s1 = Ok (Some n) s2 /\
     n <> name /\
     mod_symtab s2 !! name = Some (GVariable g) /\
     (exists f, mod_symtab s2 !! n = Some (GFunction f)) /\
     fatal (IrBuilder.defineFunction name s2)).
Proof.
  intros Hfree Hne Hp Hr. split.
  - destruct (declareFunction_creates name s p r) as (n & s1 & Hd & _ & Hn & Htab & _);
      try assumption.
    { intros f Hf. congruence. }
    rewrite (Hn Hfree) in *. exists s1. split; [exact Hd|].
    assert (Hf : mod_symtab s1 !! name = Some (GFunction (declared p r)))
      by (rewrite Htab; apply lookup_insert_eq).
    split; [|unfold defineGlobalVariableInit];
      apply (defineGlobalVariable_function _ name _ s1 _ Hf Hne).
  - pose proof (defineGlobalVariable_new type name init s Hfree Hne) as Hdef.
    set (s1 := set_symtab (<[name := GVariable (inserted type init)]> (mod_symtab s)) s)
      in Hdef.
    assert (Hv : mod_symtab s1 !! name = Some (GVariable (inserted type init)))
      by apply lookup_insert_eq.
    destruct (declareFunction_creates name s1 p r) as (n & s2 & Hd & Hnfree & _ & Htab & _);
      try assumption.
    { intros f Hf. rewrite Hv in Hf. discriminate. }
    assert (Hnn : n <> name) by (intros ->; rewrite Hv in Hnfree; discriminate).
    exists s1, n, s2, (inserted type init).
    split; [exact Hdef|]. split; [exact Hd|]. split; [exact Hnn|].
    assert (Hv2 : mod_symtab s2 !! name = Some (GVariable (inserted type init))).
    { rewrite Htab, lookup_insert_ne by exact Hnn. exact Hv. }
    split; [exact Hv2|]. split.
    + eexists. rewrite Htab. apply lookup_insert_eq.
    + apply IrBuilder_undeclared. intros f Hf. rewrite Hv2 in Hf. discriminate.
Qed.

Lemma function_and_variable_clash_witness :
  (exists s1,
     declareFunction "main" main_registered = Ok (Some "main") s1 /\
     defineGlobalVariable (IntegerTy 32) "main" (getInt32 0) s1 = Crash NullGlobal).
Proof.
  destruct (function_and_variable_clash "main" main_registered
              {| returnType := Some getInt32Ty; params := []; isVarArg := false |}
              getInt32Ty (IntegerTy 32) (getInt32 0))
    as [(s1 & H1 & H2 & _) _].
  - reflexivity.
  - discriminate.
  - reflexivity.
  - reflexivity.
  - exists s1. split; [exact H1 | exact H2].
Defined.

(** ** Private constants *)

(** The global [emitConstant] leaves when the name is new. *)
Definition the_constant (ty : Ty) (init : Value) : GlobalVariable :=
  {| gv_valty := ty; gv_init := Some init; gv_linkage := PrivateLinkage;
     gv_dso_local := true; gv_constant := true |}.

Lemma emitConstant_inside ty name init s b bb fn :
  insert_block s = Some b -> blocks s !! b = Some bb -> bb_parent bb = Some fn ->
  emitConstant ty name init s
  = (let* constantVar :=
       defineGlobalVariable ty ("__constant." +:+ fn +:+ "." +:+ name) init in
     setConstant constantVar true ;;;
     setLinkage constantVar PrivateLinkage) s.
Proof.
  intros Hb Hbb Hp. unfold emitConstant.
  assert (H1 : GetInsertBlock s = Ok (Some b) s)
    by (unfold GetInsertBlock; now rewrite Hb).
  assert (H2 : BasicBlock_getParent (Some b) s = Ok (Some fn) s).
  { unfold BasicBlock_getParent, bind, deref, get, ret. simpl.
    rewrite Hbb. simpl. now rewrite Hp. }
  rewrite (bind_ok _ _ _ _ _ H1), (bind_ok _ _ _ _ _ H2). reflexivity.
Qed.

Lemma hidden_from_getGlobalVariable n g s :
  mod_symtab s !! n = Some (GVariable g) -> gv_linkage g = PrivateLinkage ->
  getGlobalVariable n false s = Ok None s.
Proof.
  intros H Hl. unfold getGlobalVariable, getNamedValue, bind. rewrite H, Hl.
  reflexivity.
Qed.

(** X8.  [emitConstant ty name init], while the builder inserts into a block
    of the function [fn] and the module has no value called
    [__constant.fn.name]: the module gets a global of that name, of type
    [ty], initialised with [init], constant, private and dso_local, and
    nothing else changes.  [getNamedGlobal] finds the constant, but
    [emitLoadGlobalVar] does not, because it looks the name up with
    [getGlobalVariable], which leaves out globals with local linkage: it
    dereferences a null global. *)
Theorem emitConstant_hides_the_constant ty name init s b bb fn :
  insert_block s = Some b -> blocks s !! b = Some bb -> bb_parent bb = Some fn ->
  mod_symtab s !! ("__constant." +:+ fn +:+ "." +:+ name) = None ->
  exists s',
    emitConstant ty name init s = Ok tt s' /\
    mod_symtab s'
    = <["__constant." +:+ fn +:+ "." +:+ name := GVariable (the_constant ty init)]>
        (mod_symtab s) /\
    same_but_symtab s s' /\
    getNamedGlobal ("__constant." +:+ fn +:+ "." +:+ name) s'
    = Ok (Some ("__constant." +:+ fn +:+ "." +:+ name)) s' /\
    emitLoadGlobalVar ("__constant." +:+ fn +:+ "." +:+ name) s' = Crash NullGlobal.
Proof.
  intros Hb Hbb Hp Hfree.
  set (n := "__constant." +:+ fn +:+ "." +:+ name) in *.
  assert (Hn : n <> "") by (unfold n; simpl; discriminate).
  exists (set_symtab (<[n := GVariable (the_constant ty init)]> (mod_symtab s)) s).
  assert (He : emitConstant ty name init s
               = Ok tt (set_symtab (<[n := GVariable (the_constant ty init)]>
                                      (mod_symtab s)) s)).
  { rewrite (emitConstant_inside ty name init s b bb fn Hb Hbb Hp). fold n.
    rewrite (bind_ok _ _ _ _ _ (defineGlobalVariable_new ty n init s Hfree Hn)).
    erewrite bind_ok by (apply setConstant_variable; apply lookup_insert_eq).
    unfold setLinkage.
    erewrite updateGlobal_variable by apply lookup_insert_eq.
    rewrite !set_symtab_twice. simpl. rewrite !insert_insert_eq. reflexivity. }
  split; [exact He|]. split; [reflexivity|].
  split; [repeat split|].
  assert (Hv : mod_symtab
                 (set_symtab (<[n := GVariable (the_constant ty init)]> (mod_symtab s)) s)
                 !! n = Some (GVariable (the_constant ty init)))
    by apply lookup_insert_eq.
  split.
  - apply (getNamedGlobal_variable _ n _ Hv).
  - unfold emitLoadGlobalVar.
    rewrite (bind_ok _ _ _ _ _ (hidden_from_getGlobalVariable n _ _ Hv eq_refl)).
    reflexivity.
Qed.

Lemma emitConstant_hides_the_constant_witness :
  exists s',
    emitConstant (IntegerTy 32) "one" (getInt32 1) entry_state = Ok tt s' /\
    emitLoadGlobalVar "__constant.main.one" s' = Crash NullGlobal.
Proof.
  destruct (emitConstant_hides_the_constant (IntegerTy 32) "one" (getInt32 1)
              entry_state 0
              {| bb_name := "entry"; bb_parent := Some "main"; bb_insts := [] |}
              "main")
    as (s' & H1 & _ & _ & _ & H2).
  - reflexivity.
  - reflexivity.
  - reflexivity.
  - reflexivity.
  - exists s'. split; [exact H1 | exact H2].
Defined.

(** ** A function without emitter *)

Lemma NullEmitter_is_fatal : fatal (@Crash unit NullEmitter).
Proof. eexists. reflexivity. Qed.

(** X9.  [defineFunction] of structs.cpp and 18_pointers.cpp takes the
    emitter of the body from [funImplMap].  For a function that is declared
    but has no emitter in the table, the null function pointer the table
    gives is called: the run ends there, after the entry block was created.
    [printf] is such a function in both programs, and so is every function
    when [registerFunctionImpl] has not run. *)
Theorem defineFunction_needs_emitter impl name s f :
  mod_symtab s !! name = Some (GFunction f) ->
  impl !! name = None ->
  Structs.defineFunction impl name s = Crash NullEmitter /\
  Structs.registerFunctionImpl !! "printf" = None /\
  Pointers.registerFunctionImpl !! "printf" = None /\
  Structs.defineFunction ∅ name s = Crash NullEmitter.
Proof.
  intros Hf Hi.
  assert (H : forall m : gmap string Structs.EmitStatementList,
            m !! name = None -> Structs.defineFunction m name s = Crash NullEmitter).
  { intros m Hm. unfold Structs.defineFunction.
    rewrite (bind_ok _ _ _ _ _ (is_function name s f Hf)).
    unfold Structs.emitFunctionBody, createBB, BasicBlock_Create, SetInsertPoint.
    unfold bind, modify. simpl.
    match goal with
    | |- context [deref NullEmitter ?x] =>
        replace x with (@None Structs.EmitStatementList) by (symmetry; exact Hm)
    end.
    reflexivity. }
  split; [exact (H impl Hi)|]. split; [reflexivity|]. split; [reflexivity|].
  apply H. apply lookup_empty.
Qed.

Lemma defineFunction_needs_emitter_witness :
  exists s,
    (Structs.registerFunctionProto ;;; declareFunction "printf") initializeModule
    = Ok (Some "printf") s /\
    Structs.defineFunction Structs.registerFunctionImpl "printf" s = Crash NullEmitter.
Proof.
  eexists. split; [vm_compute; reflexivity|].
  refine (proj1 (defineFunction_needs_emitter Structs.registerFunctionImpl "printf" _
                   {| fn_type := {| ft_ret := IntegerTy 32;
                                    ft_params := [PointerTy (IntegerTy 8)];
                                    ft_vararg := true |};
                      fn_linkage := ExternalLinkage; fn_dso_local := true |} _ _));
    reflexivity.
Defined.

(** ** Loading a global by name *)

(** A global [emitLoadGlobalVar] can load: a variable of the module with
    external linkage that has an initializer. *)
Definition loadable (s : State) (name : string) (g : GlobalVariable)
    (init : Value) : Prop :=
  mod_symtab s !! name = Some (GVariable g) /\
  gv_linkage g = ExternalLinkage /\
  gv_init g = Some init.

Lemma insertBlockModule_cases s :
  (attached s /\ insertBlockModule s = Ok tt s) \/
  (~ attached s /\ exists f, insertBlockModule s = Crash f).
Proof.
  unfold insertBlockModule, GetInsertBlock, BasicBlock_getParent, get, bind, deref, ret, crash.
  destruct (insert_block s) as [b|] eqn:Hb; simpl.
  - destruct (blocks s !! b) as [bb|] eqn:Hbb; simpl.
    + destruct (bb_parent bb) as [fn|] eqn:Hp.
      * left. split; [|reflexivity]. exists b, bb, fn. auto.
      * right. split; [|eauto]. intros (b' & bb' & fn & Hb' & Hbb' & Hp').
        congruence.
    + right. split; [|eauto]. intros (b' & bb' & fn & Hb' & Hbb' & Hp').
      congruence.
  - right. split; [|eauto]. intros (b' & bb' & fn & Hb' & Hbb' & Hp').
    congruence.
Qed.

(** X10.  [emitLoadGlobalVar name] returns exactly when [name] is a global
    variable with external linkage that has an initializer and the builder
    inserts into a block of a function.  It then appends one load from the
    global, of the type of the initializer (not of the global's own type),
    and changes nothing else.  In every other case the run ends in a null
    dereference. *)
Theorem emitLoadGlobalVar_outcome name s :
  match emitLoadGlobalVar name s with
  | Ok v s' =>
      exists g init,
        loadable s name g init /\ attached s /\
        v = InstRef (next_id s) (getType init) /\
        s' = appended [Load (getType init) (GlobalVariableRef name (gv_valty g))] s
  | Crash _ =>
      (forall g init, ~ loadable s name g init) \/ ~ attached s
  end.
Proof.
  unfold emitLoadGlobalVar.
  destruct (mod_symtab s !! name) as [[f|g]|] eqn:Hn.
  - assert (Hg : getGlobalVariable name false s = Ok None s).
    { unfold getGlobalVariable, getNamedValue, bind. rewrite Hn. reflexivity. }
    rewrite (bind_ok _ _ _ _ _ Hg). simpl.
    left. intros g init (H & _). congruence.
  - destruct (gv_linkage g) eqn:Hl.
    + assert (Hg : getGlobalVariable name false s = Ok (Some name) s).
      { unfold getGlobalVariable, getNamedValue, bind. rewrite Hn, Hl. reflexivity. }
      rewrite (bind_ok _ _ _ _ _ Hg). unfold emitLoadValueGlobal.
      destruct (gv_init g) as [init|] eqn:Hi.
      * destruct (insertBlockModule_cases s) as [[Ha Hm]|[Ha [f Hm]]].
        -- assert (Hin : (let* init := getInitializer (Some name) in
                          let* ptr := globalValue (Some name) in
                          CreateLoad (getType init) ptr) s
                         = Ok (InstRef (next_id s) (getType init))
                              (appended [Load (getType init)
                                           (GlobalVariableRef name (gv_valty g))] s)).
           { rewrite (bind_ok _ _ _ _ _ (getInitializer_variable s name g Hn init Hi)).
             rewrite (bind_ok _ _ _ _ _ (globalValue_variable s name g Hn)).
             apply CreateLoad_appended. exact Ha. }
           rewrite (bind_ok _ _ _ _ _ Hin). simpl.
           exists g, init. repeat split; assumption.
        -- assert (Hin : (let* init := getInitializer (Some name) in
                          let* ptr := globalValue (Some name) in
                          CreateLoad (getType init) ptr) s = Crash f).
           { rewrite (bind_ok _ _ _ _ _ (getInitializer_variable s name g Hn init Hi)).
             rewrite (bind_ok _ _ _ _ _ (globalValue_variable s name g Hn)).
             unfold CreateLoad. apply bind_crash. exact Hm. }
           rewrite (bind_crash _ _ _ _ Hin).
           right. exact Ha.
      * assert (Hc : getInitializer (Some name) s = Crash NullInitializer).
        { unfold getInitializer.
          rewrite (bind_ok _ _ _ _ _ (derefGlobal_variable s name g Hn)).
          simpl. rewrite Hi. reflexivity. }
        assert (Hin : (let* init := getInitializer (Some name) in
                       let* ptr := globalValue (Some name) in
                       CreateLoad (getType init) ptr) s = Crash NullInitializer).
        { apply bind_crash. exact Hc. }
        rewrite (bind_crash _ _ _ _ Hin).
        left. intros g' init (H & _ & Hi'). congruence.
    + rewrite (bind_ok _ _ _ _ _ (hidden_from_getGlobalVariable name g s Hn Hl)).
      simpl. left. intros g' init (H & Hl' & _). congruence.
  - assert (Hg : getGlobalVariable name false s = Ok None s).
    { unfold getGlobalVariable, getNamedValue, bind. rewrite Hn. reflexivity. }
    rewrite (bind_ok _ _ _ _ _ Hg). simpl.
    left. intros g init (H & _). congruence.
Qed.

End Edges.


(* ===================================================================== *)
(** * Addresses and values: bounds, increments, reads through pointers     *)
(* ===================================================================== *)

Module Values.
Import Emitter Symtab Globals Sem Loops Addressing Frames.
Local Open Scope list_scope.
Local Open Scope Z_scope.

(** ** The bounds of [getStructElementAddr] *)

(** The second index of [getStructElementAddr] as the address computation
    reads it: the [i32] constant as an unsigned number. *)
Lemma getStructOffset_unsigned index :
  INT32_MIN <= index <= INT32_MAX ->
  Structs.getStructOffset index
  = ConstantInt 32 (if index <? 0 then index + 2 ^ 32 else index).
Proof.
  intros H. unfold Structs.getStructOffset, ConstantInt_get. f_equal.
  unfold INT32_MIN, INT32_MAX in H.
  destruct (index <? 0) eqn:E.
  - apply Z.ltb_lt in E. symmetry.
    apply (Z.mod_unique index (2 ^ 32) (-1)); lia.
  - apply Z.ltb_ge in E. apply Z.mod_small. lia.
Qed.

Lemma getStructElementAddr_pointee index ptrval t s :
  getType ptrval = PointerTy t ->
  Structs.getStructElementAddr index ptrval s
  = CreateInBoundsGEP t ptrval
      [Structs.getStructOffset 0; Structs.getStructOffset index] s.
Proof.
  intros Ht. unfold Structs.getStructElementAddr. rewrite Ht. simpl pointee.
  erewrite bind_ok by reflexivity.
  unfold bind. destruct (CreateInBoundsGEP _ _ _ s); reflexivity.
Qed.

Lemma CreateInBoundsGEP_typed t ptrval i0 i1 elt s :
  getIndexedType t [i0; i1] = Some elt ->
  exists v s', CreateInBoundsGEP t ptrval [i0; i1] s = Ok v s' /\
               getType v = PointerTy elt /\
               (isConstant ptrval = true ->
                forallb isConstant [i0; i1] = true -> s' = s).
Proof.
  intros Hi. unfold CreateInBoundsGEP.
  destruct (isConstant ptrval && forallb isConstant [i0; i1]) eqn:E.
  - destruct (getGetElementPtr_typed ptrval t i0 i1 [] elt Hi) as (v & Hv & Hty).
    rewrite Hv. exists v, s. repeat split; assumption.
  - rewrite Hi. unfold bind, deref, ret.
    rewrite Insert_appended. eexists _, _. repeat split.
    intros H1 H2. rewrite H1, H2 in E. discriminate.
Qed.

Lemma getGetElementPtr_none ptrval t i0 i1 rest :
  getIndexedType t (i0 :: i1 :: rest) = None ->
  getGetElementPtr t ptrval (i0 :: i1 :: rest) = None.
Proof.
  intros Hi. destruct ptrval; cbn [getGetElementPtr]; rewrite Hi; reflexivity.
Qed.

Lemma CreateInBoundsGEP_none t ptrval i0 i1 s :
  getIndexedType t [i0; i1] = None ->
  CreateInBoundsGEP t ptrval [i0; i1] s = Crash BadIndex.
Proof.
  intros Hi. unfold CreateInBoundsGEP.
  destruct (isConstant ptrval && forallb isConstant [i0; i1]).
  - rewrite (getGetElementPtr_none ptrval t i0 i1 [] Hi). reflexivity.
  - rewrite Hi. reflexivity.
Qed.

(** X11.  [getStructElementAddr] checks its index against a struct only.
    For a pointer to a struct the call returns an address of the field's
    type exactly when the index is one of the struct's fields, and ends in a
    fault for every other index, a negative one included; for a constant
    pointer nothing is emitted.  For a pointer to an array every index is
    accepted, also one past the end.  A pointer to anything else ends in a
    fault. *)
Theorem getStructElementAddr_bounds index ptrval s :
  INT32_MIN <= index <= INT32_MAX ->
  (forall sname body,
     getType ptrval = PointerTy (StructTy sname body) ->
     Z.of_nat (length body) <= INT32_MAX ->
     if decide (0 <= index < Z.of_nat (length body))
     then exists fty v s',
            body !! Z.to_nat index = Some fty /\
            Structs.getStructElementAddr index ptrval s = Ok v s' /\
            getType v = PointerTy fty /\
            (isConstant ptrval = true -> s' = s)
     else Structs.getStructElementAddr index ptrval s = Crash BadIndex) /\
  (forall elem num,
     getType ptrval = PointerTy (ArrayTy elem num) ->
     exists v s',
       Structs.getStructElementAddr index ptrval s = Ok v s' /\
       getType v = PointerTy elem) /\
  (forall t,
     getType ptrval = PointerTy t ->
     (forall sname body, t <> StructTy sname body) ->
     (forall elem num, t <> ArrayTy elem num) ->
     Structs.getStructElementAddr index ptrval s = Crash BadIndex).
Proof.
  intros Hr. repeat split.
  - intros sname body Ht Hlen.
    rewrite (getStructElementAddr_pointee index ptrval _ s Ht).
    rewrite (getStructOffset_unsigned index Hr).
    destruct (decide (0 <= index < Z.of_nat (length body))) as [Hin|Hout].
    + destruct (lookup_lt_is_Some_2 body (Z.to_nat index)) as [fty Hf]; [lia|].
      destruct (index <? 0) eqn:E; [apply Z.ltb_lt in E; lia|].
      destruct (CreateInBoundsGEP_typed (StructTy sname body) ptrval
                  (Structs.getStructOffset 0) (ConstantInt 32 index) fty s)
        as (v & s' & Hv & Hty & Hs).
      { simpl. rewrite E, Hf. reflexivity. }
      exists fty, v, s'. repeat split; try assumption.
      intros Hc. apply Hs; [exact Hc | reflexivity].
    + apply CreateInBoundsGEP_none. simpl.
      unfold INT32_MIN, INT32_MAX in *.
      destruct (index <? 0) eqn:E.
      * apply Z.ltb_lt in E.
        destruct (index + 2 ^ 32 <? 0) eqn:E2; [reflexivity|].
        rewrite (lookup_ge_None_2 body); [reflexivity|]. lia.
      * rewrite E. apply Z.ltb_ge in E.
        rewrite (lookup_ge_None_2 body); [reflexivity|]. lia.
  - intros elem num Ht.
    rewrite (getStructElementAddr_pointee index ptrval _ s Ht).
    destruct (CreateInBoundsGEP_typed (ArrayTy elem num) ptrval
                (Structs.getStructOffset 0) (Structs.getStructOffset index) elem s)
      as (v & s' & Hv & Hty & _); [reflexivity|].
    exists v, s'. split; assumption.
  - intros t Ht Hns Hna.
    rewrite (getStructElementAddr_pointee index ptrval _ s Ht).
    apply CreateInBoundsGEP_none.
    destruct t; try reflexivity.
    + now elim (Hna t num).
    + now elim (Hns name body).
Qed.

(** The parameter of [swap_point], a pointer to [struct point]: the fields
    are 0 and 1, the index 2 is refused. *)
Lemma getStructElementAddr_bounds_witness :
  Structs.getStructElementAddr 2
    (Argument "swap_point" 0
       (PointerTy (StructTy "struct.point" [IntegerTy 32; IntegerTy 32])))
    initializeModule
  = Crash BadIndex.
Proof.
  assert (Hr : INT32_MIN <= 2 <= INT32_MAX) by (unfold INT32_MIN, INT32_MAX; lia).
  pose proof (proj1 (getStructElementAddr_bounds 2
    (Argument "swap_point" 0
       (PointerTy (StructTy "struct.point" [IntegerTy 32; IntegerTy 32])))
    initializeModule Hr) "struct.point" [IntegerTy 32; IntegerTy 32] eq_refl) as H.
  simpl in H. apply H. unfold INT32_MAX. lia.
Defined.

(** ** Running what an emitter appended, inside a called function *)

Lemma runIn_appended ins s c args E' M' n' fuel :
  at_end s c ->
  effectAll args (numbered (next_id s) ins) (env c) (mem c) (allocas c)
  = Some (E', M', n') ->
  runIn (length ins + fuel) (blocks (appended ins s)) args c
  = runIn fuel (blocks (appended ins s)) args
      {| cur := cur c; pc := length ins + pc c; env := E'; mem := M';
         allocas := n'; entered := entered c |} /\
  at_end (appended ins s)
      {| cur := cur c; pc := length ins + pc c; env := E'; mem := M';
         allocas := n'; entered := entered c |}.
Proof.
  intros (bb & Hb & Hbb & Hpc) He. split.
  - rewrite <- (numbered_length ins (next_id s)).
    apply runIn_effects; [|exact He].
    intros j e Hj. destruct (numbered_lookup_inv _ _ _ _ Hj) as (i & Hi & ->).
    rewrite Hpc. now apply fetch_appended.
  - exists (appendInsts (numbered (next_id s) ins) bb). simpl.
    unfold appended. simpl. rewrite Hb. repeat split.
    + rewrite list_lookup_alter_eq, Hbb. reflexivity.
    + rewrite length_app, numbered_length, Hpc. lia.
Qed.

Lemma evalIn_bound args id x E t :
  evalIn args (bind_env id x E) (InstRef id t) = Some x.
Proof. simpl. unfold bind_env. now rewrite Nat.eqb_refl. Qed.

Lemma signed_int32 z : INT32_MIN <= z <= INT32_MAX -> signed 32 (z mod 2 ^ 32) = z.
Proof.
  intros H. unfold signed, INT32_MIN, INT32_MAX in *.
  rewrite Z.mod_mod by lia.
  destruct (Z.ltb_spec z 0) as [Hn|Hp].
  - rewrite <- (Z.mod_unique z (2 ^ 32) (-1) (z + 2 ^ 32)) by lia.
    destruct (Z.ltb_spec (z + 2 ^ 32) (2 ^ (32 - 1))); lia.
  - rewrite Z.mod_small by lia.
    destruct (Z.ltb_spec z (2 ^ (32 - 1))); lia.
Qed.

(** ** [genIncrement] *)

(** The two instructions of [genIncrement]: the load of the variable and the
    addition of the step, an [i32] constant. *)
Definition increment (left : Value) (step : Z) (s : State) : list Instruction :=
  [Load (IntegerTy 32) left;
   AddNSW (InstRef (next_id s) (IntegerTy 32)) (getInt32 step)].

(** X12.  [genIncrement left step], for an [int] variable at [left], emits a
    load and an [add nsw] and nothing else.  Executed where they were
    inserted, with [x] in the variable, the two instructions give the
    returned value the content [x + step], or poison when that sum is no
    [int]; the memory, the variable included, is what it was: storing the
    new value is left to the caller. *)
Theorem genIncrement_adds left step s c args a x :
  attached s -> at_end s c ->
  getType left = PointerTy (IntegerTy 32) ->
  INT32_MIN <= step <= INT32_MAX ->
  evalIn args (env c) left = Some (RPtr a) ->
  load (mem c) (IntegerTy 32) a = Some (RInt 32 x) ->
  exists v c',
    genIncrement left step s = Ok v (appended (increment left step s) s) /\
    (forall fuel,
       runIn (2 + fuel) (blocks (appended (increment left step s) s)) args c
       = runIn fuel (blocks (appended (increment left step s) s)) args c') /\
    at_end (appended (increment left step s) s) c' /\
    evalIn args (env c') v
    = Some (if in_range 32 (x + step) then RInt 32 (x + step) else RPoison) /\
    mem c' = mem c /\ allocas c' = allocas c /\ entered c' = entered c.
Proof.
  intros Ha He Ht Hstep Hl Hx.
  assert (Hemit : genIncrement left step s
                  = Ok (InstRef (S (next_id s)) (IntegerTy 32))
                       (appended (increment left step s) s)).
  { unfold genIncrement. rewrite Ht. simpl pointee.
    erewrite bind_ok by reflexivity.
    rewrite (bind_ok _ _ _ _ _ (CreateLoad_appended (IntegerTy 32) left s Ha)).
    unfold CreateNSWAdd.
    rewrite (bind_ok _ _ _ _ _ (Insert_appended _ _ _)).
    rewrite appended_app. reflexivity. }
  assert (Hrun : effectAll args (numbered (next_id s) (increment left step s))
                   (env c) (mem c) (allocas c)
                 = Some (bind_env (S (next_id s))
                           (if in_range 32 (x + step) then RInt 32 (x + step)
                            else RPoison)
                           (bind_env (next_id s) (RInt 32 x) (env c)),
                         mem c, allocas c)).
  { unfold increment. cbn [numbered effectAll effectIn].
    rewrite Hl, Hx.
    rewrite evalIn_bound. unfold getInt32, ConstantInt_get.
    cbn [evalIn eval]. rewrite (signed_int32 step Hstep).
    cbn [add_nsw]. rewrite Z.eqb_refl. reflexivity. }
  eexists _, _. split; [exact Hemit|].
  split; [|split; [|split; [|split; [|split]]]].
  - intros fuel.
    exact (proj1 (runIn_appended (increment left step s) s c args _ _ _ fuel He Hrun)).
  - exact (proj2 (runIn_appended (increment left step s) s c args _ _ _ O He Hrun)).
  - apply evalIn_bound.
  - reflexivity.
  - reflexivity.
  - reflexivity.
Qed.

(** Where the body of [main] starts: in the entry block, with the memory
    [M]. *)
Lemma entry_state_attached : attached entry_state.
Proof.
  unfold attached. eexists _, _, _.
  split; [vm_compute; reflexivity|]. split; vm_compute; reflexivity.
Defined.

Lemma entry_state_at_end M : at_end entry_state (start_with M).
Proof.
  unfold at_end. eexists.
  split; [vm_compute; reflexivity|]. split; vm_compute; reflexivity.
Defined.

(** [start + 1] with 1 in [start]. *)
Lemma genIncrement_adds_witness :
  exists v c',
    genIncrement (GlobalVariableRef "start" (IntegerTy 32)) 1 entry_state
    = Ok v (appended (increment (GlobalVariableRef "start" (IntegerTy 32)) 1
                        entry_state) entry_state) /\
    evalIn [] (env c') v = Some (RInt 32 2) /\
    mem c' = loop_mem 1 10 0.
Proof.
  destruct (genIncrement_adds (GlobalVariableRef "start" (IntegerTy 32)) 1
              entry_state (start_with (loop_mem 1 10 0)) [] (object_at "start") 1
              entry_state_attached (entry_state_at_end _) eq_refl)
    as (v & c' & H1 & _ & _ & H2 & H3 & _).
  - unfold INT32_MIN, INT32_MAX. lia.
  - reflexivity.
  - reflexivity.
  - exists v, c'. split; [exact H1|]. split; [exact H2 | exact H3].
Defined.

(** ** [getRValue] *)

(** X13.  [getRValue value type] reads through a pointer variable: it emits
    a load of the variable and a load from the address read.  With the
    variable at [value] holding the address of a cell that holds [x],
    executing the two loads gives the returned value the content [x] and
    leaves the memory as it was. *)
Theorem getRValue_reads value base s c args a b x :
  attached s -> at_end s c ->
  evalIn args (env c) value = Some (RPtr a) ->
  load (mem c) (PointerTy base) a = Some (RPtr b) ->
  load (mem c) base b = Some x ->
  exists v c',
    Structs.getRValue value (PointerTy base) s
    = Ok v (appended [Load (PointerTy base) value;
                      Load base (InstRef (next_id s) (PointerTy base))] s) /\
    getType v = base /\
    (forall fuel,
       runIn (2 + fuel)
         (blocks (appended [Load (PointerTy base) value;
                            Load base (InstRef (next_id s) (PointerTy base))] s))
         args c
       = runIn fuel
           (blocks (appended [Load (PointerTy base) value;
                              Load base (InstRef (next_id s) (PointerTy base))] s))
           args c') /\
    evalIn args (env c') v = Some x /\
    mem c' = mem c /\ allocas c' = allocas c.
Proof.
  intros Ha He Hv Hp Hx.
  set (ins := [Load (PointerTy base) value;
               Load base (InstRef (next_id s) (PointerTy base))]).
  assert (Hemit : Structs.getRValue value (PointerTy base) s
                  = Ok (InstRef (S (next_id s)) base) (appended ins s)).
  { unfold Structs.getRValue.
    rewrite (bind_ok _ _ _ _ _ (CreateLoad_appended (PointerTy base) value s Ha)).
    simpl pointee. erewrite bind_ok by reflexivity.
    rewrite (CreateLoad_appended _ _ _ (attached_appended _ _ Ha)).
    rewrite appended_app. reflexivity. }
  assert (Hrun : effectAll args (numbered (next_id s) ins)
                   (env c) (mem c) (allocas c)
                 = Some (bind_env (S (next_id s)) x
                           (bind_env (next_id s) (RPtr b) (env c)),
                         mem c, allocas c)).
  { unfold ins. cbn [numbered effectAll effectIn].
    rewrite Hv, Hp. rewrite evalIn_bound, Hx. reflexivity. }
  eexists _, _. split; [exact Hemit|].
  split; [reflexivity|]. split; [|split; [|split]].
  - intros fuel.
    exact (proj1 (runIn_appended ins s c args _ _ _ fuel He Hrun)).
  - apply evalIn_bound.
  - reflexivity.
  - reflexivity.
Qed.

(** [int x = 5; int *px = &x;] *)
Definition pointer_mem : Mem :=
  {| globals := fun g =>
       if String.eqb g "x" then Some (MScalar (RInt 32 5))
       else if String.eqb g "px" then Some (MScalar (RPtr (object_at "x")))
       else None;
     stack := fun _ => None |}.

Lemma getRValue_reads_witness :
  exists v c',
    Structs.getRValue (GlobalVariableRef "px" (PointerTy (IntegerTy 32)))
      (PointerTy (IntegerTy 32)) entry_state
    = Ok v (appended
              [Load (PointerTy (IntegerTy 32))
                 (GlobalVariableRef "px" (PointerTy (IntegerTy 32)));
               Load (IntegerTy 32)
                 (InstRef (next_id entry_state) (PointerTy (IntegerTy 32)))]
              entry_state) /\
    evalIn [] (env c') v = Some (RInt 32 5).
Proof.
  destruct (getRValue_reads (GlobalVariableRef "px" (PointerTy (IntegerTy 32)))
              (IntegerTy 32) entry_state (start_with pointer_mem) []
              (object_at "px") (object_at "x") (RInt 32 5)
              entry_state_attached (entry_state_at_end _) eq_refl eq_refl eq_refl)
    as (v & c' & H1 & _ & _ & H2 & _).
  exists v, c'. split; [exact H1 | exact H2].
Defined.

End Values.


(* ===================================================================== *)
(** * Strings, prototypes, the program of ir_builder.cpp                   *)
(* ===================================================================== *)

Module Programs.
Import Emitter Symtab Globals Sem Loops Addressing.
Local Open Scope list_scope.

(** ** [emitStringPtr] *)

(** The global [CreateGlobalString] makes for [content]. *)
Definition string_constant (content : string) : GlobalValue :=
  GVariable {| gv_valty := ArrayTy (IntegerTy 8) (S (String.length content));
               gv_init := Some (ConstantDataString content);
               gv_linkage := PrivateLinkage;
               gv_dso_local := true;
               gv_constant := true |}.

Lemma dotted_nonempty name : "." +:+ name <> "".
Proof. discriminate. Qed.

Lemma attached_same_but_symtab s s' :
  same_but_symtab s s' -> attached s -> attached s'.
Proof.
  intros (_ & _ & _ & _ & Hb & _ & Hi & _) (b & bb & fn & H1 & H2 & H3).
  exists b, bb, fn. rewrite Hb, Hi. auto.
Qed.

Lemma emitStringPtr_adds content name s :
  attached s ->
  exists n s',
    Structs.emitStringPtr content name s = Ok (Some n) s' /\
    mod_symtab s !! n = None /\
    (mod_symtab s !! ("." +:+ name) = None -> n = "." +:+ name) /\
    mod_symtab s' = <[n := string_constant content]> (mod_symtab s) /\
    same_but_symtab s s'.
Proof.
  intros Ha.
  destruct (addGlobalValue_spec ("." +:+ name) (string_constant content) s
              (dotted_nonempty name))
    as (n & s' & Hadd & Hfree & Hname & Htab & Hsame).
  exists n, s'. split; [|auto].
  unfold Structs.emitStringPtr, CreateGlobalString.
  unfold bind at 1. unfold bind at 1.
  rewrite (insertBlockModule_attached s Ha).
  unfold bind at 1. fold (string_constant content).
  unfold string_constant in Hadd. simpl getType. rewrite Hadd. reflexivity.
Qed.

(** X14.  [emitStringPtr] always adds a global to the module and never
    reuses one: the new private constant holds the bytes of the string, gets
    the name [.name] when that is free and a fresh name otherwise, and every
    global the module had stays as it was.  A second call with the same
    string and name adds a second global with the same content.  Being
    private, the constant cannot be loaded by name with
    [emitLoadGlobalVar]. *)
Theorem emitStringPtr_never_reuses content name s :
  attached s ->
  exists n s' n2 s2,
    Structs.emitStringPtr content name s = Ok (Some n) s' /\
    mod_symtab s !! n = None /\
    (mod_symtab s !! ("." +:+ name) = None -> n = "." +:+ name) /\
    mod_symtab s' = <[n := string_constant content]> (mod_symtab s) /\
    same_but_symtab s s' /\
    Structs.emitStringPtr content name s' = Ok (Some n2) s2 /\
    n2 <> n /\
    mod_symtab s2 !! n = Some (string_constant content) /\
    mod_symtab s2 !! n2 = Some (string_constant content) /\
    (forall other g, mod_symtab s !! other = Some g ->
                     mod_symtab s2 !! other = Some g) /\
    emitLoadGlobalVar n s2 = Crash NullGlobal.
Proof.
  intros Ha.
  destruct (emitStringPtr_adds content name s Ha)
    as (n & s' & H1 & Hfree & Hname & Htab & Hsame).
  destruct (emitStringPtr_adds content name s'
              (attached_same_but_symtab s s' Hsame Ha))
    as (n2 & s2 & H2 & Hfree2 & _ & Htab2 & _).
  assert (Hn : mod_symtab s' !! n = Some (string_constant content)).
  { rewrite Htab. apply lookup_insert_eq. }
  assert (Hne : n2 <> n) by (intros ->; congruence).
  assert (Hn2 : mod_symtab s2 !! n = Some (string_constant content)).
  { rewrite Htab2, lookup_insert_ne by exact Hne. exact Hn. }
  exists n, s', n2, s2.
  do 8 (split; [assumption|]).
  split; [|split].
  - rewrite Htab2. apply lookup_insert_eq.
  - intros other g Hg.
    assert (Ho : n <> other) by (intros ->; congruence).
    assert (Hg' : mod_symtab s' !! other = Some g).
    { rewrite Htab, lookup_insert_ne by exact Ho. exact Hg. }
    assert (Ho2 : n2 <> other) by (intros ->; congruence).
    rewrite Htab2, lookup_insert_ne by exact Ho2. exact Hg'.
  - unfold emitLoadGlobalVar.
    assert (Hg : getGlobalVariable n false s2 = Ok None s2).
    { unfold getGlobalVariable, getNamedValue, bind. rewrite Hn2. reflexivity. }
    rewrite (bind_ok _ _ _ _ _ Hg). reflexivity.
Qed.

Lemma emitStringPtr_never_reuses_witness :
  exists n s' n2 s2,
    Structs.emitStringPtr "hello" "str" entry_state = Ok (Some n) s' /\
    Structs.emitStringPtr "hello" "str" s' = Ok (Some n2) s2 /\
    n2 <> n.
Proof.
  assert (Ha : attached entry_state).
  { unfold attached. eexists _, _, _.
    split; [vm_compute; reflexivity|]. split; vm_compute; reflexivity. }
  destruct (emitStringPtr_never_reuses "hello" "str" entry_state Ha)
    as (n & s' & n2 & s2 & H1 & _ & _ & _ & _ & H2 & H3 & _).
  exists n, s', n2, s2. split; [exact H1|]. split; [exact H2 | exact H3].
Defined.

(** ** [declareFunction] and the prototypes *)

(** X15.  [declareFunction] of a name that is not yet a function needs a
    registered prototype with a return type: with one the function is
    created under a free name, without one (the name was never registered,
    or registered without a return type) the call dereferences the null
    return type of the prototype the map just made up. *)
Theorem declareFunction_needs_prototype name s :
  name <> "" ->
  (forall f, mod_symtab s !! name <> Some (GFunction f)) ->
  match declareFunction name s with
  | Ok fn s' =>
      exists p r n f,
        funProtoMap s !! name = Some p /\ returnType p = Some r /\
        fn = Some n /\ mod_symtab s !! n = None /\
        mod_symtab s' !! n = Some (GFunction f) /\
        ft_ret (fn_type f) = r /\ ft_params (fn_type f) = params p /\
        ft_vararg (fn_type f) = isVarArg p
  | Crash c =>
      c = NullType /\
      (funProtoMap s !! name = None \/
       exists p, funProtoMap s !! name = Some p /\ returnType p = None)
  end.
Proof.
  intros Hne Hnf.
  destruct (funProtoMap s !! name) as [p|] eqn:Hp.
  - destruct (returnType p) as [r|] eqn:Hr.
    + destruct (declareFunction_creates name s p r Hnf Hne Hp Hr)
        as (n & s1 & Hd & Hfree & _ & Htab & _).
      rewrite Hd. exists p, r, n, (declared p r).
      repeat split; try assumption.
      rewrite Htab. apply lookup_insert_eq.
    + assert (Hc : declareFunction name s = Crash NullType).
      { unfold declareFunction.
        rewrite (bind_ok _ _ _ _ _ (getFunction_eq name s)).
        assert (match mod_symtab s !! name with
                | Some (GFunction _) => Some name
                | _ => None
                end = None) as ->.
        { destruct (mod_symtab s !! name) as [[f|g]|] eqn:E; try reflexivity.
          now elim (Hnf f). }
        unfold funProtoMap_at, bind. rewrite Hp, Hr. reflexivity. }
      rewrite Hc. split; [reflexivity|]. right. eauto.
  - rewrite (declareFunction_unregistered name s Hnf Hp).
    split; [reflexivity|]. now left.
Qed.

(** The loop programs register [main] only: [sum] cannot be declared. *)
Lemma declareFunction_needs_prototype_witness :
  declareFunction "sum" main_registered = Crash NullType.
Proof.
  assert (Hne : "sum" <> "") by discriminate.
  assert (Hnf : forall f, mod_symtab main_registered !! "sum" <> Some (GFunction f))
    by (intros f; discriminate).
  pose proof (declareFunction_needs_prototype "sum" main_registered Hne Hnf) as H.
  destruct (declareFunction "sum" main_registered) as [fn s'|c].
  - destruct H as (p & r & n & f & Hp & _). discriminate Hp.
  - destruct H as [-> _]. reflexivity.
Defined.

(** ** The program of ir_builder.cpp *)

(** What ir_builder.cpp emits for the function [main]: one block
    that loads [i_32] and returns it. *)
Definition ir_builder_blocks : list BasicBlock :=
  [{| bb_name := "entry"; bb_parent := Some "main";
      bb_insts := [(0%nat, Load (IntegerTy 32)
                             (GlobalVariableRef "i_32" (IntegerTy 32)));
                   (1%nat, Ret (Some (InstRef 0 (IntegerTy 32))))] |}].

(** The names of the globals of a module, in order. *)
Definition global_names (s : State) : list string :=
  (map_to_list (mod_symtab s)).*1.

(** X17.  [emitProgram] of ir_builder.cpp, run as [main] runs it, on the
    fresh module after the target triple is set and the prototypes are
    registered, returns without a fault for every target triple, and the
    module records the triple.  The module built has the fourteen globals of
    the source and the function [main].  [main] is one block that returns
    what the global [i_32] holds and changes nothing: 3 in the memory the
    module starts with.  (The output that follows in [main] of the source is
    the subject of [Saving].) *)
Theorem ir_builder_emitProgram_returns triple :
  exists s,
    (setTargetTriple triple ;;; Emitter.registerFunctionProto ;;;
     IrBuilder.emitProgram) initializeModule = Ok tt s /\
    mod_triple s = triple /\
    blocks s = ir_builder_blocks /\
    dom (mod_symtab s)
    = list_to_set ["i_8"; "i_16"; "i_32"; "i_64"; "ui_8"; "ui_32"; "f"; "d";
                   "ld"; "arr"; "i_p"; "c_p"; "pointer"; "u"; "main"] /\
    (forall M v,
       object M (GlobalBlock "i_32") = Some (MScalar v) ->
       has_type v (IntegerTy 32) = true ->
       exists c, call (blocks s) "main" M 2 = Returned (Some v) c /\ mem c = M) /\
    (exists c, call (blocks s) "main" (initial_mem s) 2
               = Returned (Some (RInt 32 3)) c).
Proof.
  eexists. split; [vm_compute; reflexivity|].
  split; [reflexivity|]. split; [reflexivity|].
  split; [vm_compute; reflexivity|].
  split.
  - intros M v Hv Ht.
    exists {| cur := 0; pc := 1; env := bind_env 0 v (fun _ => None); mem := M;
              allocas := 0; entered := [0%nat] |}.
    split; [|reflexivity].
    unfold call, enter. cbn [entryBlock].
    change (blocks _) with ir_builder_blocks.
    cbn -[run].
    eapply run_then.
    + apply (step_load ir_builder_blocks 0 0 (fun _ => None) M 0 [0%nat] 0
               (IntegerTy 32) (GlobalVariableRef "i_32" (IntegerTy 32))
               {| a_block := GlobalBlock "i_32"; a_path := [0%Z] |} v);
        [reflexivity | reflexivity | apply load_object; assumption].
    + apply run_done; [|discriminate].
      apply (step_ret ir_builder_blocks 0 1 _ M 0 [0%nat] 1
               (InstRef 0 (IntegerTy 32)) v); reflexivity.
  - eexists. vm_compute. reflexivity.
Qed.

End Programs.


(* ===================================================================== *)
(** * Code that was emitted keeps its behaviour                            *)
(* ===================================================================== *)

Module Growth.
Import Emitter Symtab Globals Sem Frames.
Local Open Scope list_scope.

(** ** Programs that only grow *)

(** A block that got more instructions at its end. *)
Definition grown_block (bb bb' : BasicBlock) : Prop :=
  bb_parent bb' = bb_parent bb /\
  exists more, bb_insts bb' = bb_insts bb ++ more.

(** [prog'] has the blocks of [prog], at their places and possibly longer,
    and possibly more blocks after them. *)
Definition code_extends (prog prog' : list BasicBlock) : Prop :=
  forall b bb, prog !! b = Some bb ->
               exists bb', prog' !! b = Some bb' /\ grown_block bb bb'.

Lemma grown_block_refl bb : grown_block bb bb.
Proof. split; [reflexivity|]. exists []. now rewrite app_nil_r. Qed.

Lemma grown_block_trans b1 b2 b3 :
  grown_block b1 b2 -> grown_block b2 b3 -> grown_block b1 b3.
Proof.
  intros [Hp1 [m1 H1]] [Hp2 [m2 H2]]. split; [congruence|].
  exists (m1 ++ m2). rewrite H2, H1, app_assoc. reflexivity.
Qed.

Lemma code_extends_refl prog : code_extends prog prog.
Proof. intros b bb H. exists bb. split; [exact H | apply grown_block_refl]. Qed.

Lemma code_extends_trans p1 p2 p3 :
  code_extends p1 p2 -> code_extends p2 p3 -> code_extends p1 p3.
Proof.
  intros H12 H23 b bb Hb.
  destruct (H12 b bb Hb) as (bb2 & Hb2 & Hg2).
  destruct (H23 b bb2 Hb2) as (bb3 & Hb3 & Hg3).
  exists bb3. split; [exact Hb3 | eapply grown_block_trans; eassumption].
Qed.

Lemma code_extends_app prog more : code_extends prog (prog ++ more).
Proof.
  intros b bb H. exists bb. split; [|apply grown_block_refl].
  now apply lookup_app_l_Some.
Qed.

Lemma code_extends_alter prog b e :
  code_extends prog (alter (appendInst e) b prog).
Proof.
  intros b' bb H. destruct (decide (b = b')) as [<-|Hne].
  - exists (appendInst e bb). split.
    + rewrite list_lookup_alter_eq, H. reflexivity.
    + split; [reflexivity|]. now exists [e].
  - exists bb. split; [|apply grown_block_refl].
    now rewrite list_lookup_alter_ne.
Qed.

Lemma fetch_extends prog prog' b i e :
  code_extends prog prog' ->
  fetch prog b i = Some e -> fetch prog' b i = Some e.
Proof.
  intros Hx. unfold fetch.
  destruct (prog !! b) as [bb|] eqn:Hb; [|discriminate].
  destruct (Hx b bb Hb) as (bb' & -> & _ & more & ->).
  intros H. now apply lookup_app_l_Some.
Qed.

Lemma code_extends_cons x prog prog' :
  code_extends (x :: prog) prog' ->
  exists x' rest, prog' = x' :: rest /\ grown_block x x' /\ code_extends prog rest.
Proof.
  intros Hx. destruct (Hx O x eq_refl) as (x' & H0 & Hg).
  destruct prog' as [|y rest]; [discriminate|].
  injection H0 as ->. exists x', rest. split; [reflexivity|]. split; [exact Hg|].
  intros b bb Hb. exact (Hx (S b) bb Hb).
Qed.

Lemma findBlock_extends fn prog : forall prog' pos b,
  code_extends prog prog' ->
  findBlock (hasParent fn) prog pos = Some b ->
  findBlock (hasParent fn) prog' pos = Some b.
Proof.
  induction prog as [|x prog IH]; intros prog' pos b Hx H; [discriminate|].
  destruct (code_extends_cons x prog prog' Hx) as (x' & rest & -> & [Hp _] & Hrest).
  simpl in *. unfold hasParent in *. rewrite Hp.
  destruct (bb_parent x) as [f|].
  - destruct (String.eqb f fn); [exact H | now apply IH].
  - now apply IH.
Qed.

Lemma entryBlock_extends prog prog' fn b :
  code_extends prog prog' ->
  entryBlock prog fn = Some b -> entryBlock prog' fn = Some b.
Proof. intros Hx. apply findBlock_extends, Hx. Qed.

Lemma stepIn_extends prog prog' args c e :
  code_extends prog prog' ->
  fetch prog (cur c) (pc c) = Some e ->
  stepIn args prog' c = stepIn args prog c.
Proof.
  intros Hx Hf. unfold stepIn. rewrite Hf, (fetch_extends _ _ _ _ _ Hx Hf).
  reflexivity.
Qed.

(** An execution that returned goes the same way in the larger program. *)
Lemma runIn_extends prog prog' :
  code_extends prog prog' ->
  forall fuel args c r c',
    runIn fuel prog args c = Returned r c' ->
    runIn fuel prog' args c = Returned r c'.
Proof.
  intros Hx. induction fuel as [|fuel IH]; intros args c r c' H; [discriminate|].
  cbn [runIn] in *.
  destruct (fetch prog (cur c) (pc c)) as [[id i]|] eqn:Hf.
  - rewrite (fetch_extends _ _ _ _ _ Hx Hf).
    assert (Hstep : match stepIn args prog c with
                    | Running c1 => runIn fuel prog args c1
                    | o => o
                    end = Returned r c' ->
                    match stepIn args prog' c with
                    | Running c1 => runIn fuel prog' args c1
                    | o => o
                    end = Returned r c').
    { rewrite (stepIn_extends _ _ _ _ _ Hx Hf).
      destruct (stepIn args prog c); try discriminate.
      - apply IH.
      - exact (fun E => E). }
    destruct i; try (exact (Hstep H)).
    destruct (mapM (evalIn args (env c)) args0) as [vs|]; [|discriminate].
    destruct (entryBlock prog callee) as [b|] eqn:He; [|discriminate].
    rewrite (entryBlock_extends _ _ _ _ Hx He).
    destruct (runIn fuel prog vs (called b c)) as [|r1 c1| |] eqn:Hr;
      try discriminate.
    rewrite (IH _ _ _ _ Hr). apply IH. exact H.
  - unfold stepIn in H. rewrite Hf in H. discriminate.
Qed.

Lemma callIn_extends prog prog' fn args M n fuel r c :
  code_extends prog prog' ->
  callIn prog fn args M n fuel = Returned r c ->
  callIn prog' fn args M n fuel = Returned r c.
Proof.
  intros Hx. unfold callIn.
  destruct (entryBlock prog fn) as [b|] eqn:He; [|discriminate].
  rewrite (entryBlock_extends _ _ _ _ Hx He). apply runIn_extends, Hx.
Qed.

(** ** Emitters only add code *)

(** Whatever [m] does to the module, the blocks it found are still there,
    with at most more instructions at their ends. *)
Definition only_adds {A} (m : Emit A) : Prop :=
  forall s, match m s with
            | Ok _ s' => code_extends (blocks s) (blocks s')
            | Crash _ => True
            end.

Lemma only_adds_ret {A} (a : A) : only_adds (ret a).
Proof. intros s. apply code_extends_refl. Qed.

Lemma only_adds_crash {A} f : only_adds (@crash A f).
Proof. intros s. exact I. Qed.

Lemma only_adds_bind {A B} (m : Emit A) (k : A -> Emit B) :
  only_adds m -> (forall a, only_adds (k a)) -> only_adds (bind m k).
Proof.
  intros Hm Hk s. unfold bind. specialize (Hm s).
  destruct (m s) as [a s1|f]; [|exact I].
  specialize (Hk a s1). destruct (k a s1) as [b s2|f]; [|exact I].
  eapply code_extends_trans; eassumption.
Qed.

Lemma only_adds_deref {A} f (p : option A) : only_adds (deref f p).
Proof. destruct p; [apply only_adds_ret | apply only_adds_crash]. Qed.

(** An action that leaves the blocks alone. *)
Lemma only_adds_keeping {A} (m : Emit A) :
  (forall s, match m s with
             | Ok _ s' => blocks s' = blocks s
             | Crash _ => True
             end) ->
  only_adds m.
Proof.
  intros H s. specialize (H s). destruct (m s); [|exact I].
  rewrite H. apply code_extends_refl.
Qed.

Lemma only_adds_modify f :
  (forall s, blocks (f s) = blocks s) -> only_adds (modify f).
Proof. intros H. apply only_adds_keeping. intros s. apply H. Qed.

Lemma only_adds_get : only_adds get.
Proof. apply only_adds_keeping. reflexivity. Qed.

Lemma only_adds_getNamedValue n : only_adds (getNamedValue n).
Proof. apply only_adds_keeping. reflexivity. Qed.

Lemma only_adds_addGlobalValue n g : only_adds (addGlobalValue n g).
Proof.
  apply only_adds_keeping. intros s. unfold addGlobalValue.
  destruct (decide (n = "")); [exact I|].
  destruct (mod_symtab s !! n); [|reflexivity].
  destruct (makeUniqueName _ _ _ _). reflexivity.
Qed.

Lemma only_adds_GetInsertBlock : only_adds GetInsertBlock.
Proof. apply only_adds_keeping. reflexivity. Qed.

Lemma only_adds_getTypeByName n : only_adds (getTypeByName n).
Proof. apply only_adds_keeping. reflexivity. Qed.

Lemma only_adds_StructType_create n : only_adds (StructType_create n).
Proof.
  apply only_adds_keeping. intros s. unfold StructType_create.
  destruct (ctx_structs s !! n); [|reflexivity].
  destruct (uniqueStructName _ _ _ _). reflexivity.
Qed.

Lemma only_adds_setBody n body : only_adds (setBody n body).
Proof. apply only_adds_keeping. reflexivity. Qed.

Lemma only_adds_funProtoMap_at n : only_adds (funProtoMap_at n).
Proof.
  apply only_adds_keeping. intros s. unfold funProtoMap_at.
  destruct (funProtoMap s !! n); reflexivity.
Qed.

Lemma only_adds_Insert i ty : only_adds (Insert i ty).
Proof.
  intros s. unfold Insert. destruct (insert_block s) as [b|]; simpl.
  - apply code_extends_alter.
  - apply code_extends_refl.
Qed.

Lemma only_adds_BasicBlock_Create nm parent :
  only_adds (BasicBlock_Create nm parent).
Proof. intros s. simpl. apply code_extends_app. Qed.

Create HintDb adds_db.

#[local] Hint Resolve only_adds_ret only_adds_crash only_adds_deref
  only_adds_get only_adds_getNamedValue only_adds_addGlobalValue
  only_adds_GetInsertBlock only_adds_getTypeByName only_adds_StructType_create
  only_adds_setBody only_adds_funProtoMap_at only_adds_Insert
  only_adds_BasicBlock_Create : adds_db.
#[local] Hint Extern 1 (only_adds (modify _)) =>
  apply only_adds_modify; reflexivity : adds_db.

Ltac adds_step :=
  first
    [ solve [ eauto with adds_db ]
    | eapply only_adds_bind; [ | intros ? ]
    | match goal with
      | |- only_adds (match ?x with _ => _ end) => destruct x
      end ].
Ltac adds_go := repeat adds_step.

(** *** The module and the builder *)

Lemma only_adds_getFunction n : only_adds (getFunction n).
Proof. unfold getFunction. adds_go. Qed.

Lemma only_adds_getGlobalVariable n b : only_adds (getGlobalVariable n b).
Proof. unfold getGlobalVariable. adds_go. Qed.

Lemma only_adds_getOrInsertGlobal n ty : only_adds (getOrInsertGlobal n ty).
Proof. unfold getOrInsertGlobal. adds_go. Qed.

Lemma only_adds_derefGlobal gv : only_adds (derefGlobal gv).
Proof. unfold derefGlobal. adds_go. Qed.

#[local] Hint Resolve only_adds_getFunction only_adds_getGlobalVariable
  only_adds_getOrInsertGlobal only_adds_derefGlobal : adds_db.

Lemma only_adds_updateGlobal gv f : only_adds (updateGlobal gv f).
Proof. unfold updateGlobal. adds_go. Qed.

#[local] Hint Resolve only_adds_updateGlobal : adds_db.

Lemma only_adds_setInitializer gv i : only_adds (setInitializer gv i).
Proof. unfold setInitializer. adds_go. Qed.

Lemma only_adds_setDSOLocal gv b : only_adds (setDSOLocal gv b).
Proof. unfold setDSOLocal. adds_go. Qed.

Lemma only_adds_setConstant gv b : only_adds (setConstant gv b).
Proof. unfold setConstant. adds_go. Qed.

Lemma only_adds_setLinkage gv l : only_adds (setLinkage gv l).
Proof. unfold setLinkage. adds_go. Qed.

Lemma only_adds_getInitializer gv : only_adds (getInitializer gv).
Proof. unfold getInitializer. adds_go. Qed.

Lemma only_adds_globalValue gv : only_adds (globalValue gv).
Proof. unfold globalValue. adds_go. Qed.

Lemma only_adds_FunctionType_get r ps va : only_adds (FunctionType_get r ps va).
Proof. unfold FunctionType_get. adds_go. Qed.

Lemma only_adds_Function_Create fty l n : only_adds (Function_Create fty l n).
Proof. unfold Function_Create. adds_go. Qed.

Lemma only_adds_derefFunction fn : only_adds (derefFunction fn).
Proof. unfold derefFunction. adds_go. Qed.

#[local] Hint Resolve only_adds_setInitializer only_adds_setDSOLocal
  only_adds_setConstant only_adds_setLinkage only_adds_getInitializer
  only_adds_globalValue only_adds_FunctionType_get only_adds_Function_Create
  only_adds_derefFunction : adds_db.

Lemma only_adds_Function_setDSOLocal fn b : only_adds (Function_setDSOLocal fn b).
Proof. unfold Function_setDSOLocal. adds_go. Qed.

Lemma only_adds_getReturnType fn : only_adds (getReturnType fn).
Proof. unfold getReturnType. adds_go. Qed.

Lemma only_adds_getArg fn k : only_adds (getArg fn k).
Proof. unfold getArg. adds_go. Qed.

Lemma only_adds_verifyFunction fn : only_adds (verifyFunction fn).
Proof. unfold verifyFunction. adds_go. Qed.

Lemma only_adds_SetInsertPoint b : only_adds (SetInsertPoint b).
Proof. unfold SetInsertPoint. adds_go. Qed.

Lemma only_adds_BasicBlock_getParent bb : only_adds (BasicBlock_getParent bb).
Proof. unfold BasicBlock_getParent. adds_go. Qed.

#[local] Hint Resolve only_adds_Function_setDSOLocal only_adds_getReturnType
  only_adds_getArg only_adds_verifyFunction only_adds_SetInsertPoint
  only_adds_BasicBlock_getParent : adds_db.

Lemma only_adds_insertBlockModule : only_adds insertBlockModule.
Proof. unfold insertBlockModule. adds_go. Qed.

#[local] Hint Resolve only_adds_insertBlockModule : adds_db.

Lemma only_adds_CreateAlloca ty nm : only_adds (CreateAlloca ty nm).
Proof. unfold CreateAlloca. adds_go. Qed.

Lemma only_adds_CreateAllocaOf ty nm : only_adds (CreateAllocaOf ty nm).
Proof. unfold CreateAllocaOf. adds_go. Qed.

Lemma only_adds_CreateLoad ty p : only_adds (CreateLoad ty p).
Proof. unfold CreateLoad. adds_go. Qed.

Lemma only_adds_CreateStore v p : only_adds (CreateStore v p).
Proof. unfold CreateStore. adds_go. Qed.

Lemma only_adds_CreateNSWAdd l r : only_adds (CreateNSWAdd l r).
Proof. unfold CreateNSWAdd. adds_go. Qed.

Lemma only_adds_CreateICmpSLE l r : only_adds (CreateICmpSLE l r).
Proof. unfold CreateICmpSLE. adds_go. Qed.

Lemma only_adds_CreateSExt v t : only_adds (CreateSExt v t).
Proof. unfold CreateSExt. adds_go. Qed.

Lemma only_adds_CreateInBoundsGEP t p idx : only_adds (CreateInBoundsGEP t p idx).
Proof. unfold CreateInBoundsGEP. adds_go. Qed.

Lemma only_adds_CreateCall c args : only_adds (CreateCall c args).
Proof. unfold CreateCall. adds_go. Qed.

Lemma only_adds_CreateBr d : only_adds (CreateBr d).
Proof. unfold CreateBr. adds_go. Qed.

Lemma only_adds_CreateCondBr c t f : only_adds (CreateCondBr c t f).
Proof. unfold CreateCondBr. adds_go. Qed.

Lemma only_adds_CreateRet v : only_adds (CreateRet v).
Proof. unfold CreateRet. adds_go. Qed.

Lemma only_adds_CreateRetVoid : only_adds CreateRetVoid.
Proof. unfold CreateRetVoid. adds_go. Qed.

Lemma only_adds_CreateGlobalString str nm : only_adds (CreateGlobalString str nm).
Proof. unfold CreateGlobalString. adds_go. Qed.

Lemma only_adds_createBB fn nm : only_adds (createBB fn nm).
Proof. unfold createBB. adds_go. Qed.

#[local] Hint Resolve only_adds_CreateAlloca only_adds_CreateAllocaOf
  only_adds_CreateLoad only_adds_CreateStore only_adds_CreateNSWAdd
  only_adds_CreateICmpSLE only_adds_CreateSExt only_adds_CreateInBoundsGEP
  only_adds_CreateCall only_adds_CreateBr only_adds_CreateCondBr
  only_adds_CreateRet only_adds_CreateRetVoid only_adds_CreateGlobalString
  only_adds_createBB : adds_db.

(** *** The emitters of the sources *)

Lemma only_adds_declareFunction n : only_adds (declareFunction n).
Proof. unfold declareFunction. adds_go. Qed.

Lemma only_adds_emitReturn ty v : only_adds (emitReturn ty v).
Proof. unfold emitReturn. adds_go. Qed.

Lemma only_adds_defineGlobalVariable ty n i :
  only_adds (defineGlobalVariable ty n i).
Proof. unfold defineGlobalVariable, getNamedGlobal. adds_go. Qed.

Lemma only_adds_emitLoadValueGlobal gv : only_adds (emitLoadValueGlobal gv).
Proof. unfold emitLoadValueGlobal. adds_go. Qed.

Lemma only_adds_emitLoadValue v : only_adds (emitLoadValue v).
Proof. unfold emitLoadValue. adds_go. Qed.

#[local] Hint Resolve only_adds_declareFunction only_adds_emitReturn
  only_adds_defineGlobalVariable only_adds_emitLoadValueGlobal
  only_adds_emitLoadValue : adds_db.

Lemma only_adds_emitLoadGlobalVar n : only_adds (emitLoadGlobalVar n).
Proof. unfold emitLoadGlobalVar. adds_go. Qed.

Lemma only_adds_emitAssign l r : only_adds (emitAssign l r).
Proof. unfold emitAssign. adds_go. Qed.

#[local] Hint Resolve only_adds_emitLoadGlobalVar only_adds_emitAssign : adds_db.

Lemma only_adds_emitStoreGlobalVar v n : only_adds (emitStoreGlobalVar v n).
Proof. unfold emitStoreGlobalVar. adds_go. Qed.

Lemma only_adds_genIncrement l k : only_adds (genIncrement l k).
Proof. unfold genIncrement. adds_go. Qed.

Lemma only_adds_emitConstant ty n i : only_adds (emitConstant ty n i).
Proof. unfold emitConstant. adds_go. Qed.

#[local] Hint Resolve only_adds_emitStoreGlobalVar only_adds_genIncrement
  only_adds_emitConstant : adds_db.

Lemma only_adds_IrBuilder_defineFunction n :
  only_adds (IrBuilder.defineFunction n).
Proof.
  unfold IrBuilder.defineFunction, IrBuilder.emitFunctionBody,
    IrBuilder.emitMainFunctionStatementList.
  adds_go.
Qed.

Lemma only_adds_LoopFor_defineFunction n :
  only_adds (LoopFor.defineFunction n).
Proof.
  unfold LoopFor.defineFunction, LoopFor.emitFunctionBody,
    LoopFor.emitMainFunctionStatementList.
  adds_go.
Qed.

Lemma only_adds_LoopWhile_defineFunction n :
  only_adds (LoopWhile.defineFunction n).
Proof.
  unfold LoopWhile.defineFunction, LoopWhile.emitFunctionBody,
    LoopWhile.emitMainFunctionStatementList.
  adds_go.
Qed.

Lemma only_adds_getRValue v t : only_adds (Structs.getRValue v t).
Proof. unfold Structs.getRValue. adds_go. Qed.

Lemma only_adds_getElementAddr a i : only_adds (Structs.getElementAddr a i).
Proof. unfold Structs.getElementAddr. adds_go. Qed.

Lemma only_adds_getStructElementAddr i p :
  only_adds (Structs.getStructElementAddr i p).
Proof. unfold Structs.getStructElementAddr. adds_go. Qed.

Lemma only_adds_structTypeAtIndex t i : only_adds (Structs.structTypeAtIndex t i).
Proof. unfold Structs.structTypeAtIndex. adds_go. Qed.

#[local] Hint Resolve only_adds_getRValue only_adds_getElementAddr
  only_adds_getStructElementAddr only_adds_structTypeAtIndex : adds_db.

Lemma only_adds_getStructElementRValue a i :
  only_adds (Structs.getStructElementRValue a i).
Proof. unfold Structs.getStructElementRValue. adds_go. Qed.

Lemma only_adds_getStructElementLValue a i :
  only_adds (Structs.getStructElementLValue a i).
Proof. unfold Structs.getStructElementLValue. adds_go. Qed.

Lemma only_adds_getPointerType t : only_adds (Structs.getPointerType t).
Proof. unfold Structs.getPointerType. adds_go. Qed.

Lemma only_adds_emitStringPtr c n : only_adds (Structs.emitStringPtr c n).
Proof. unfold Structs.emitStringPtr. adds_go. Qed.

#[local] Hint Resolve only_adds_getStructElementRValue
  only_adds_getStructElementLValue only_adds_getPointerType
  only_adds_emitStringPtr : adds_db.

Lemma only_adds_emitPoint : only_adds Structs.emitPoint.
Proof. unfold Structs.emitPoint. adds_go. Qed.

#[local] Hint Resolve only_adds_emitPoint : adds_db.

Lemma only_adds_emitMainStatementList fn :
  only_adds (Structs.emitMainStatementList fn).
Proof. unfold Structs.emitMainStatementList. adds_go. Qed.

Lemma only_adds_emitSumStatementList fn :
  only_adds (Structs.emitSumStatementList fn).
Proof. unfold Structs.emitSumStatementList. adds_go. Qed.

Lemma only_adds_emitSwapPtrStatementList fn :
  only_adds (Structs.emitSwapPtrStatementList fn).
Proof. unfold Structs.emitSwapPtrStatementList. adds_go. Qed.

Lemma only_adds_emitSwapArrayStatementList fn :
  only_adds (Structs.emitSwapArrayStatementList fn).
Proof. unfold Structs.emitSwapArrayStatementList. adds_go. Qed.

Lemma only_adds_emitSwapPointStatementList fn :
  only_adds (Structs.emitSwapPointStatementList fn).
Proof. unfold Structs.emitSwapPointStatementList. adds_go. Qed.

Lemma only_adds_Pointers_emitMainStatementList fn :
  only_adds (Pointers.emitMainStatementList fn).
Proof. unfold Pointers.emitMainStatementList. adds_go. Qed.

(** The emitters of the two tables [funImplMap]. *)
Definition emitters_only_add (impl : gmap string Structs.EmitStatementList)
  : Prop :=
  forall name e fn, impl !! name = Some e -> only_adds (e fn).

Lemma Structs_emitters_only_add : emitters_only_add Structs.registerFunctionImpl.
Proof.
  intros name e fn H. unfold Structs.registerFunctionImpl in H.
  repeat (apply lookup_insert_Some in H as [[_ <-]|[_ H]];
          [ first [ apply only_adds_emitMainStatementList
                  | apply only_adds_emitSumStatementList
                  | apply only_adds_emitSwapPtrStatementList
                  | apply only_adds_emitSwapArrayStatementList
                  | apply only_adds_emitSwapPointStatementList ] | ]).
  rewrite lookup_empty in H. discriminate.
Qed.

Lemma Pointers_emitters_only_add : emitters_only_add Pointers.registerFunctionImpl.
Proof.
  intros name e fn H. unfold Pointers.registerFunctionImpl in H.
  repeat (apply lookup_insert_Some in H as [[_ <-]|[_ H]];
          [ first [ apply only_adds_Pointers_emitMainStatementList
                  | apply only_adds_emitSumStatementList
                  | apply only_adds_emitSwapPtrStatementList ] | ]).
  rewrite lookup_empty in H. discriminate.
Qed.

Lemma only_adds_bind_some {A B} f (a : A) (k : A -> Emit B) :
  only_adds (k a) -> only_adds (bind (deref f (Some a)) k).
Proof. intros H s. exact (H s). Qed.

Lemma only_adds_Structs_defineFunction impl n :
  emitters_only_add impl -> only_adds (Structs.defineFunction impl n).
Proof.
  intros Himpl. unfold Structs.defineFunction, Structs.emitFunctionBody.
  eapply only_adds_bind; [adds_go|]. intros fn.
  eapply only_adds_bind; [|intros ?; adds_go].
  eapply only_adds_bind; [adds_go|]. intros entry.
  eapply only_adds_bind; [adds_go|]. intros _.
  destruct (impl !! n) as [e|] eqn:He.
  - apply only_adds_bind_some.
    eapply only_adds_bind; [exact (Himpl n e fn He)|].
    intros value. adds_go.
  - intros s. exact I.
Qed.

Lemma only_adds_perform c : only_adds (Calls.perform c).
Proof.
  destruct c; simpl.
  - unfold funProtoMap_set. adds_go.
  - adds_go.
  - adds_go.
  - unfold defineGlobalVariableInit. adds_go.
  - adds_go.
  - eapply only_adds_bind; [apply only_adds_emitStringPtr|]. intros ?. adds_go.
  - apply only_adds_IrBuilder_defineFunction.
  - apply only_adds_LoopFor_defineFunction.
  - apply only_adds_LoopWhile_defineFunction.
  - apply only_adds_Structs_defineFunction, Structs_emitters_only_add.
Qed.

Lemma only_adds_performAll cs : only_adds (Calls.performAll cs).
Proof.
  induction cs as [|c cs IH]; simpl.
  - apply only_adds_ret.
  - apply only_adds_bind; [apply only_adds_perform | intros _; exact IH].
Qed.

(** ** What was emitted stays *)

(** The module went from [s] to [s'] by calls of the emitter: any sequence
    of the calls of ir_builder.cpp, the loop programs and structs.cpp, and
    definitions of the functions of 18_pointers.cpp. *)
Inductive emits : State -> State -> Prop :=
| emits_calls cs s s' :
    Calls.performAll cs s = Ok tt s' -> emits s s'
| emits_pointers name s s' :
    Structs.defineFunction Pointers.registerFunctionImpl name s = Ok tt s' ->
    emits s s'
| emits_trans s1 s2 s3 : emits s1 s2 -> emits s2 s3 -> emits s1 s3.

Lemma emits_extends s s' : emits s s' -> code_extends (blocks s) (blocks s').
Proof.
  induction 1 as [cs s s' H|name s s' H|s1 s2 s3 _ IH1 _ IH2].
  - pose proof (only_adds_performAll cs s) as Ha. rewrite H in Ha. exact Ha.
  - pose proof (only_adds_Structs_defineFunction _ name
                  Pointers_emitters_only_add s) as Ha.
    rewrite H in Ha. exact Ha.
  - eapply code_extends_trans; eassumption.
Qed.

(** X18.  Emitting never changes code that was emitted before: the calls of
    the emitter only append instructions to blocks and blocks to the
    module.  So a call of a function that returned in the module as it was
    returns the same result, in the same memory, in the module as it is
    after any further calls of the emitter.  This holds also when a function
    is defined a second time: the body it got first is the one that runs. *)
Theorem emitted_code_keeps_its_behaviour s s' fn args M n fuel r c :
  emits s s' ->
  callIn (blocks s) fn args M n fuel = Returned r c ->
  callIn (blocks s') fn args M n fuel = Returned r c.
Proof. intros He. apply callIn_extends, emits_extends, He. Qed.

(** structs.cpp when [swap_point] is defined and [main] is not yet. *)
Definition swap_point_defined : State :=
  match (Structs.registerFunctionProto ;;;
         let* _ := declareFunction "printf" in
         let* _ := declareFunction "swap_point" in
         Structs.defineFunction Structs.registerFunctionImpl "swap_point")
          initializeModule with
  | Ok _ s => s
  | Crash _ => initializeModule
  end.

(** [swap_point(&point)] returns before and after [main] is defined, and
    after [swap_point] is defined once more. *)
Lemma emitted_code_keeps_its_behaviour_witness :
  exists s' c,
    Calls.performAll [Calls.DeclareFunction "main";
                      Calls.DefineFunctionStructs "main";
                      Calls.DefineFunctionStructs "swap_point"]
      swap_point_defined = Ok tt s' /\
    callIn (blocks s') "swap_point" [RPtr (Addressing.object_at "point")]
      Addressing.point_mem 0 18 = Returned None c.
Proof.
  eexists _, _. split; [vm_compute; reflexivity|].
  eapply (emitted_code_keeps_its_behaviour swap_point_defined).
  - apply (emits_calls [Calls.DeclareFunction "main";
                        Calls.DefineFunctionStructs "main";
                        Calls.DefineFunctionStructs "swap_point"]).
    vm_compute. reflexivity.
  - vm_compute. reflexivity.
Defined.

End Growth.
